(** * Virtual-connection builder of the Hex engine (VCBuilder.cpp)

    A shallow embedding of the VC builder: the two work queues, the
    fixed-point search, the AND closure, the two OR rules, the incremental
    merge-and-shrink and the captured-set computation, followed by the
    properties of the specification that concern them.

    Bitsets ([bitset_t], a [std::bitset<BITSETSIZE>]) are finite sets of cell
    numbers; the complement is taken inside [0, BITSETSIZE).  Code that can
    fail an assertion, read a vector out of range or loop returns in an error
    monad over the builder's members. *)

From Stdlib Require Import ZArith Lia.
From stdpp Require Import base option list sets gmap functions.

#[global] Set Warnings "-clear-no-such-hyp".

(** ** Cells, colours, bitsets *)

Abbreviation HexPoint := nat (only parsing).
Abbreviation bitset := (gset nat) (only parsing).
Abbreviation HexPointPair := (nat * nat)%type (only parsing).

Inductive HexColor := BLACK | WHITE | EMPTY.

#[global] Instance HexColor_eq_dec : EqDecision HexColor.
Proof. solve_decision. Defined.

(** [operator!] on a colour. *)
Definition other_color (c : HexColor) : HexColor :=
  match c with BLACK => WHITE | WHITE => BLACK | EMPTY => EMPTY end.

(** Modelled from the spec: [HexColorSetUtil::ColorOrEmpty] and
    [HexColorSetUtil::NotColor], the colour sets used to filter groups and
    stones (their header is not part of the sources). *)
Definition ColorOrEmpty (c : HexColor) : HexColor → bool :=
  λ d, bool_decide (d = c ∨ d = EMPTY).

Definition NotColor (c : HexColor) : HexColor → bool :=
  λ d, bool_decide (d ≠ c).

Module Bitset.
Section WithSize.
(** The compile-time constant BITSETSIZE. *)
Variable BITSETSIZE : nat.

Definition universe : bitset := set_seq 0 BITSETSIZE.

(** [b.flip()] *)
Definition flip (b : bitset) : bitset := universe ∖ b.
(** [b.test(i)], [b[i]] *)
Definition test (b : bitset) (i : nat) : bool := bool_decide (i ∈ b).
(** [b.set(i)] and [b.reset(i)] *)
Definition set (b : bitset) (i : nat) : bitset := {[ i ]} ∪ b.
Definition reset (b : bitset) (i : nat) : bitset := b ∖ {[ i ]}.
(** [b.none()], [b.any()], [b.count()] *)
Definition none (b : bitset) : bool := bool_decide (b = ∅).
Definition any (b : bitset) : bool := negb (none b).
Definition count (b : bitset) : nat := size b.
(** [BitsetUtil::IsSubsetOf(a, b)] *)
Definition IsSubsetOf (a b : bitset) : bool := bool_decide (a ⊆ b).
(** [BitsetIterator]: the set bits in ascending order. *)
Definition bits (b : bitset) : list nat :=
  filter (λ i, i ∈ b) (seq 0 BITSETSIZE).
(** [b._Find_first()]: the lowest set bit, or the size when there is none. *)
Definition Find_first (b : bitset) : nat :=
  match bits b with a :: _ => a | [] => BITSETSIZE end.
(** Every bit of [b] is a legal position. *)
Definition wf (b : bitset) : Prop := b ⊆ universe.
End WithSize.
End Bitset.

#[global] Instance Bitset_wf_dec B b : Decision (Bitset.wf B b).
Proof. unfold Bitset.wf. apply _. Defined.

(** ** Connections *)

Inductive VCType := FULL | SEMI.

#[global] Instance VCType_eq_dec : EqDecision VCType.
Proof. solve_decision. Defined.

#[global] Instance VCType_countable : Countable VCType.
Proof.
  refine (inj_countable' (λ t, match t with FULL => false | SEMI => true end)
                         (λ b : bool, if b then SEMI else FULL) _).
  by intros [].
Defined.

Inductive VcCombineRule :=
  VC_RULE_BASE | VC_RULE_PATTERN | VC_RULE_AND | VC_RULE_OR | VC_RULE_ALL.

#[global] Instance VcCombineRule_eq_dec : EqDecision VcCombineRule.
Proof. solve_decision. Defined.

(** Modelled from the spec: the class [VC] (VC.hpp is not part of the
    sources).  Endpoints are stored normalised, a Full has no key, a new
    connection is unprocessed. *)
Record VC := mkVC {
  X : HexPoint;
  Y : HexPoint;
  GetType : VCType;
  Key : option HexPoint;
  Carrier : bitset;
  Rule : VcCombineRule;
  Processed : bool
}.

#[global] Instance VC_eq_dec : EqDecision VC.
Proof. solve_decision. Defined.

Definition SetProcessed (v : VC) (f : bool) : VC :=
  mkVC (X v) (Y v) (GetType v) (Key v) (Carrier v) (Rule v) f.

(** [VC(x, y)]: the empty Full between two adjacent cells. *)
Definition VC_adjacent (x y : HexPoint) : VC :=
  mkVC (x `min` y) (x `max` y) FULL None ∅ VC_RULE_BASE false.

(** [VC(x, y, carrier, rule)] *)
Definition VC_full (x y : HexPoint) (carrier : bitset) (r : VcCombineRule) : VC :=
  mkVC (x `min` y) (x `max` y) FULL None carrier r false.

(** [VC(x, y, key, carrier, rule)] *)
Definition VC_semi (x y key : HexPoint) (carrier : bitset) (r : VcCombineRule) : VC :=
  mkVC (x `min` y) (x `max` y) SEMI (Some key) carrier r false.

(** Modelled from the spec: the four overloads of [VC::AndVCs] (section 4.4):
    the union of the two carriers, widened by the captured set when one is
    given, and with the key added to the carrier for a Semi. *)
Definition AndVCs (x y : HexPoint) (v1 v2 : VC) : VC :=
  VC_full x y (Carrier v1 ∪ Carrier v2) VC_RULE_AND.

Definition AndVCs_captured (x y : HexPoint) (v1 v2 : VC) (capturedSet : bitset) : VC :=
  VC_full x y (Carrier v1 ∪ Carrier v2 ∪ capturedSet) VC_RULE_AND.

Definition AndVCs_key (x y : HexPoint) (v1 v2 : VC) (key : HexPoint) : VC :=
  VC_semi x y key (Bitset.set (Carrier v1 ∪ Carrier v2) key) VC_RULE_AND.

Definition AndVCs_captured_key (x y : HexPoint) (v1 v2 : VC)
    (capturedSet : bitset) (key : HexPoint) : VC :=
  VC_semi x y key (Bitset.set (Carrier v1 ∪ Carrier v2 ∪ capturedSet) key) VC_RULE_AND.

(** Modelled from the spec: [VC::ShrinkFull], [VC::ShrinkSemi] and
    [VC::UpgradeSemi] (section 4.3): new endpoints, carrier minus the played
    cells; the derivation rule is carried over. *)
Definition ShrinkFull (v : VC) (added : bitset) (x y : HexPoint) : VC :=
  VC_full x y (Carrier v ∖ added) (Rule v).

Definition ShrinkSemi (v : VC) (added : bitset) (x y : HexPoint) : VC :=
  mkVC (x `min` y) (x `max` y) SEMI (Key v) (Carrier v ∖ added) (Rule v) false.

Definition UpgradeSemi (v : VC) (added : bitset) (x y : HexPoint) : VC :=
  VC_full x y (Carrier v ∖ added) (Rule v).

(** [added.test(vc.Key())] *)
Definition test_key (added : bitset) (v : VC) : bool :=
  match Key v with Some k => Bitset.test added k | None => false end.

(** Modelled from the spec: equality of connections as [FindInList] uses it,
    endpoints and carrier. *)
Definition VC_same (a b : VC) : bool :=
  bool_decide (X a = X b ∧ Y a = Y b ∧ Carrier a = Carrier b).

(** ** The change log *)

Inductive LogAction := ADD | REMOVE | PROCESSED.

(** A [ChangeLog<VC>*] that may be null. *)
Abbreviation ChangeLog := (option (list (LogAction * VC))) (only parsing).

Definition log_push (log : ChangeLog) (a : LogAction) (v : VC) : ChangeLog :=
  (λ l, l ++ [(a, v)]) <$> log.

Definition log_push_all (log : ChangeLog) (a : LogAction) (vs : list VC) : ChangeLog :=
  foldl (λ lg v, log_push lg a v) log vs.

(** ** Lists of connections *)

Inductive AddResult := ADD_FAILED | ADDED_INSIDE_SOFT_LIMIT | ADDED_OUTSIDE_SOFT_LIMIT.

#[global] Instance AddResult_eq_dec : EqDecision AddResult.
Proof. solve_decision. Defined.

(** An [AddResult] used as a condition: [ADD_FAILED] is zero. *)
Definition added_ok (r : AddResult) : bool :=
  match r with ADD_FAILED => false | _ => true end.

(** Modelled from the spec: the class [VCList] (VCList.hpp and VCList.cpp are
    not part of the sources), sections 3 and 4.2: a sequence of connections
    between two fixed endpoints in ascending order of carrier size, with a
    soft limit; the hard and the soft intersection are those of property P4. *)
Module VCList.

Record t := mk {
  GetX : HexPoint;
  GetY : HexPoint;
  Softlimit : nat;
  entries : list VC
}.

#[global] Instance t_eq_dec : EqDecision t.
Proof. solve_decision. Defined.

Definition with_entries (l : t) (es : list VC) : t :=
  mk (GetX l) (GetY l) (Softlimit l) es.

Definition Empty (l : t) : bool := bool_decide (entries l = []).

(** The entries a [VCListIterator(list, list.Softlimit())] visits. *)
Definition soft_prefix (l : t) : list VC := take (Softlimit l) (entries l).

Definition intersect_all (B : nat) (vs : list VC) : bitset :=
  foldr (λ v inter, Carrier v ∩ inter) (Bitset.universe B) vs.

Definition HardIntersection (B : nat) (l : t) : bitset :=
  intersect_all B (entries l).

Definition SoftIntersection (B : nat) (l : t) : bitset :=
  intersect_all B (soft_prefix l).

(** True iff some connection's carrier is contained in [c]. *)
Definition IsSupersetOfAny (l : t) (c : bitset) : bool :=
  bool_decide (Exists (λ v, Carrier v ⊆ c) (entries l)).

(** The position that keeps the carrier sizes ascending, after the entries
    of the same size, and the list with [v] inserted there. *)
Fixpoint insert_sorted (v : VC) (es : list VC) : nat * list VC :=
  match es with
  | [] => (0, [v])
  | w :: es' =>
      if decide (Bitset.count (Carrier w) ≤ Bitset.count (Carrier v))
      then let '(i, r) := insert_sorted v es' in (S i, w :: r)
      else (0, v :: es)
  end.

Definition supersets_of (c : bitset) (es : list VC) : list VC :=
  filter (λ w, c ⊆ Carrier w) es.

Definition non_supersets_of (c : bitset) (es : list VC) : list VC :=
  filter (λ w, ¬ c ⊆ Carrier w) es.

(** [Add(vc, log)] *)
Definition Add (vc : VC) (log : ChangeLog) (l : t) : AddResult * t * ChangeLog :=
  if IsSupersetOfAny l (Carrier vc) then (ADD_FAILED, l, log)
  else
    let removed := supersets_of (Carrier vc) (entries l) in
    let '(i, es) := insert_sorted vc (non_supersets_of (Carrier vc) (entries l)) in
    (if decide (i < Softlimit l) then ADDED_INSIDE_SOFT_LIMIT
     else ADDED_OUTSIDE_SOFT_LIMIT,
     with_entries l es,
     log_push (log_push_all log REMOVE removed) ADD vc).

(** [Add(other, log)]: every entry of [other], in order. *)
Definition Append (other : t) (log : ChangeLog) (l : t) : t * ChangeLog :=
  foldl (λ '(l', lg) v, let '(_, l'', lg') := Add v lg l' in (l'', lg'))
        (l, log) (entries other).

(** [RemoveAllContaining(mask, removed, log)]: the removed entries, the
    remaining list and the log. *)
Definition RemoveAllContaining (mask : bitset) (log : ChangeLog) (l : t)
    : list VC * t * ChangeLog :=
  let removed := filter (λ w, Carrier w ∩ mask ≠ ∅) (entries l) in
  (removed,
   with_entries l (filter (λ w, ¬ Carrier w ∩ mask ≠ ∅) (entries l)),
   log_push_all log REMOVE removed).

(** [RemoveSuperSetsOf(carrier, log, dirtyIntersections)]; the intersections
    are always those of the entries, whatever the flag. *)
Definition RemoveSuperSetsOf (c : bitset) (log : ChangeLog) (dirty : bool) (l : t)
    : t * ChangeLog :=
  (with_entries l (non_supersets_of c (entries l)),
   log_push_all log REMOVE (supersets_of c (entries l))).

(** [FindInList(vc)]: the position of the entry, the model of the pointer
    into the list. *)
Fixpoint find_index (vc : VC) (es : list VC) : option nat :=
  match es with
  | [] => None
  | w :: es' => if VC_same w vc then Some 0 else S <$> find_index vc es'
  end.

Definition FindInList (vc : VC) (l : t) : option nat := find_index vc (entries l).

(** [GetUnion()] *)
Definition GetUnion (l : t) : bitset :=
  foldr (λ v uni, Carrier v ∪ uni) ∅ (entries l).

(** [GetGreedyUnion()]: the carriers are united in order, one that does not
    shrink the running intersection is skipped. *)
Definition GetGreedyUnion (B : nat) (l : t) : bitset :=
  snd (foldl (λ '(inter, uni) v,
                if decide (inter ∩ Carrier v = inter) then (inter, uni)
                else (inter ∩ Carrier v, uni ∪ Carrier v))
             (Bitset.universe B, ∅) (entries l)).

(** [cur->SetProcessed(flag)] through a pointer to the entry at [i]. *)
Definition set_processed_at (i : nat) (flag : bool) (l : t) : t :=
  with_entries l (alter (λ v, SetProcessed v flag) i (entries l)).

End VCList.

(** Modelled from the spec: the class [VCSet] (section 3): for one colour, a
    table of Full lists and one of Semi lists keyed by the unordered pair of
    endpoints; a list that was never written is empty. *)
Module VCSet.

Record t := mk {
  Color : HexColor;
  softlimit : nat;
  lists : gmap (VCType * (HexPoint * HexPoint)) VCList.t
}.

Definition key (ty : VCType) (x y : HexPoint) : VCType * (HexPoint * HexPoint) :=
  (ty, (x `min` y, x `max` y)).

Definition GetList (ty : VCType) (x y : HexPoint) (c : t) : VCList.t :=
  default (VCList.mk (x `min` y) (x `max` y) (softlimit c) [])
          (lists c !! key ty x y).

Definition SetList (ty : VCType) (x y : HexPoint) (l : VCList.t) (c : t) : t :=
  mk (Color c) (softlimit c) (<[ key ty x y := l ]> (lists c)).

Definition Exists (x y : HexPoint) (ty : VCType) (c : t) : bool :=
  negb (VCList.Empty (GetList ty x y c)).

Definition Add (vc : VC) (log : ChangeLog) (c : t) : AddResult * t * ChangeLog :=
  let '(r, l, log') := VCList.Add vc log (GetList (GetType vc) (X vc) (Y vc) c) in
  (r, SetList (GetType vc) (X vc) (Y vc) l c, log').

Definition Clear (c : t) : t := mk (Color c) (softlimit c) ∅.

End VCSet.

(** ** The work queues *)

(** [VCBuilder::SemiEndsQueue]: a vector with the index of its front, and
    the table [m_seen] of the pairs marked as queued. *)
Module SemiEndsQueue.

Record t := mk {
  m_head : nat;
  m_array : list HexPointPair;
  m_seen : gset (HexPoint * HexPoint)
}.

Definition Empty (q : t) : bool := bool_decide (m_head q = length (m_array q)).

Definition Front (q : t) : option HexPointPair := m_array q !! m_head q.

Definition Clear (q : t) : t := mk 0 [] ∅.

Definition Pop (q : t) : option t :=
  p ← Front q;
  Some (mk (S (m_head q)) (m_array q) (m_seen q ∖ {[ (p.1, p.2) ]})).

Definition Push (p : HexPointPair) (q : t) : t :=
  let a := p.1 `min` p.2 in
  let b := p.1 `max` p.2 in
  if bool_decide ((a, b) ∈ m_seen q) then q
  else mk (m_head q) (m_array q ++ [(a, b)]) ({[ (a, a) ]} ∪ m_seen q).

(** The pairs between the front and the back. *)
Definition pending (q : t) : list HexPointPair := drop (m_head q) (m_array q).

End SemiEndsQueue.

(** [VCBuilder::FullVCQueue] *)
Module FullVCQueue.

Record t := mk {
  m_head : nat;
  m_array : list VC
}.

Definition Empty (q : t) : bool := bool_decide (m_head q = length (m_array q)).

Definition Front (q : t) : option VC := m_array q !! m_head q.

Definition Clear (q : t) : t := mk 0 [].

Definition Pop (q : t) : t := mk (S (m_head q)) (m_array q).

Definition Push (vc : VC) (q : t) : t := mk (m_head q) (m_array q ++ [vc]).

End FullVCQueue.

(** ** The position: board, groups, patterns *)

(** Modelled from the spec: what the builder reads of a [StoneBoard] and its
    [ConstBoard] (their headers are not part of the sources): the colour of
    each cell, the cells of the board in iteration order, the adjacency. *)
Record StoneBoard := mkStoneBoard {
  GetColor : HexPoint → HexColor;
  EdgesAndInterior : list HexPoint;
  CellNbs : HexPoint → list HexPoint;
  Width : nat;
  Height : nat
}.

(** [brd.GetEmpty()] and [brd.GetColor(c)] as bitsets. *)
Definition GetColorSet (brd : StoneBoard) (c : HexColor) : bitset :=
  list_to_set (filter (λ p, GetColor brd p = c) (EdgesAndInterior brd)).

Definition GetEmpty (brd : StoneBoard) : bitset := GetColorSet brd EMPTY.

(** [brd.Stones(colorset)]: the cells whose colour is in the set. *)
Definition Stones (brd : StoneBoard) (cs : HexColor → bool) : list HexPoint :=
  filter (λ p, cs (GetColor brd p) = true) (EdgesAndInterior brd).

(** Modelled from the spec: a [Group] (section 3): captain, colour and the
    neighbours of its members. *)
Record Group := mkGroup {
  Captain : HexPoint;
  GroupColor : HexColor;
  Nbs : bitset
}.

Record Groups := mkGroups {
  GroupList : list Group;
  GetGroup : HexPoint → Group;
  Board : StoneBoard
}.

Definition CaptainOf (g : Groups) (p : HexPoint) : HexPoint := Captain (GetGroup g p).

Definition IsCaptain (g : Groups) (p : HexPoint) : bool :=
  bool_decide (CaptainOf g p = p).

(** [GroupIterator(groups, colorset)] *)
Definition GroupIterator (g : Groups) (cs : HexColor → bool) : list Group :=
  filter (λ x, cs (GroupColor x) = true) (GroupList g).

(** Modelled from the spec: a hit of the captured-set patterns on a cell and
    the pattern state that finds them. *)
Record PatternHit := mkPatternHit { Moves2 : list HexPoint }.

Record PatternState := mkPatternState {
  MatchOnCell : HexColor → HexPoint → list PatternHit
}.

(** Modelled from the spec: a precomputed VC pattern (section 4.6, step 4). *)
Record VCPattern := mkVCPattern {
  Endpoint0 : HexPoint;
  Endpoint1 : HexPoint;
  NotOpponent : bitset;
  Matches : HexColor → StoneBoard → bool
}.

(** ** The builder *)

Record VCBuilderParam := mkParam {
  max_ors : Z;
  and_over_edge : bool;
  use_patterns : bool;
  use_non_edge_patterns : bool;
  use_greedy_union : bool;
  abort_on_winning_connection : bool
}.

(** [VCBuilderParam::VCBuilderParam()] *)
Definition default_param : VCBuilderParam := mkParam 4 false true true true false.

(** Modelled from the spec: the counters of [VCBuilderStatistics]. *)
Record VCBuilderStatistics := mkStats {
  base_attempts : nat;
  base_successes : nat;
  pattern_attempts : nat;
  pattern_successes : nat;
  and_full_attempts : nat;
  and_full_successes : nat;
  and_semi_attempts : nat;
  and_semi_successes : nat;
  or_attempts : nat;
  or_successes : nat;
  doOrs : nat;
  goodOrs : nat;
  shrunk0 : nat;
  shrunk1 : nat;
  upgraded : nat;
  killed0 : nat;
  killed1 : nat
}.

Inductive Counter :=
  | C_base_attempts
  | C_base_successes
  | C_pattern_attempts
  | C_pattern_successes
  | C_and_full_attempts
  | C_and_full_successes
  | C_and_semi_attempts
  | C_and_semi_successes
  | C_or_attempts
  | C_or_successes
  | C_doOrs
  | C_goodOrs
  | C_shrunk0
  | C_shrunk1
  | C_upgraded
  | C_killed0
  | C_killed1.

(** [stats.counter += n] *)
Definition add_counter (c : Counter) (n : nat) (st : VCBuilderStatistics) : VCBuilderStatistics :=
  match c with
  | C_base_attempts => mkStats (base_attempts st + n) (base_successes st) (pattern_attempts st) (pattern_successes st) (and_full_attempts st) (and_full_successes st) (and_semi_attempts st) (and_semi_successes st) (or_attempts st) (or_successes st) (doOrs st) (goodOrs st) (shrunk0 st) (shrunk1 st) (upgraded st) (killed0 st) (killed1 st)
  | C_base_successes => mkStats (base_attempts st) (base_successes st + n) (pattern_attempts st) (pattern_successes st) (and_full_attempts st) (and_full_successes st) (and_semi_attempts st) (and_semi_successes st) (or_attempts st) (or_successes st) (doOrs st) (goodOrs st) (shrunk0 st) (shrunk1 st) (upgraded st) (killed0 st) (killed1 st)
  | C_pattern_attempts => mkStats (base_attempts st) (base_successes st) (pattern_attempts st + n) (pattern_successes st) (and_full_attempts st) (and_full_successes st) (and_semi_attempts st) (and_semi_successes st) (or_attempts st) (or_successes st) (doOrs st) (goodOrs st) (shrunk0 st) (shrunk1 st) (upgraded st) (killed0 st) (killed1 st)
  | C_pattern_successes => mkStats (base_attempts st) (base_successes st) (pattern_attempts st) (pattern_successes st + n) (and_full_attempts st) (and_full_successes st) (and_semi_attempts st) (and_semi_successes st) (or_attempts st) (or_successes st) (doOrs st) (goodOrs st) (shrunk0 st) (shrunk1 st) (upgraded st) (killed0 st) (killed1 st)
  | C_and_full_attempts => mkStats (base_attempts st) (base_successes st) (pattern_attempts st) (pattern_successes st) (and_full_attempts st + n) (and_full_successes st) (and_semi_attempts st) (and_semi_successes st) (or_attempts st) (or_successes st) (doOrs st) (goodOrs st) (shrunk0 st) (shrunk1 st) (upgraded st) (killed0 st) (killed1 st)
  | C_and_full_successes => mkStats (base_attempts st) (base_successes st) (pattern_attempts st) (pattern_successes st) (and_full_attempts st) (and_full_successes st + n) (and_semi_attempts st) (and_semi_successes st) (or_attempts st) (or_successes st) (doOrs st) (goodOrs st) (shrunk0 st) (shrunk1 st) (upgraded st) (killed0 st) (killed1 st)
  | C_and_semi_attempts => mkStats (base_attempts st) (base_successes st) (pattern_attempts st) (pattern_successes st) (and_full_attempts st) (and_full_successes st) (and_semi_attempts st + n) (and_semi_successes st) (or_attempts st) (or_successes st) (doOrs st) (goodOrs st) (shrunk0 st) (shrunk1 st) (upgraded st) (killed0 st) (killed1 st)
  | C_and_semi_successes => mkStats (base_attempts st) (base_successes st) (pattern_attempts st) (pattern_successes st) (and_full_attempts st) (and_full_successes st) (and_semi_attempts st) (and_semi_successes st + n) (or_attempts st) (or_successes st) (doOrs st) (goodOrs st) (shrunk0 st) (shrunk1 st) (upgraded st) (killed0 st) (killed1 st)
  | C_or_attempts => mkStats (base_attempts st) (base_successes st) (pattern_attempts st) (pattern_successes st) (and_full_attempts st) (and_full_successes st) (and_semi_attempts st) (and_semi_successes st) (or_attempts st + n) (or_successes st) (doOrs st) (goodOrs st) (shrunk0 st) (shrunk1 st) (upgraded st) (killed0 st) (killed1 st)
  | C_or_successes => mkStats (base_attempts st) (base_successes st) (pattern_attempts st) (pattern_successes st) (and_full_attempts st) (and_full_successes st) (and_semi_attempts st) (and_semi_successes st) (or_attempts st) (or_successes st + n) (doOrs st) (goodOrs st) (shrunk0 st) (shrunk1 st) (upgraded st) (killed0 st) (killed1 st)
  | C_doOrs => mkStats (base_attempts st) (base_successes st) (pattern_attempts st) (pattern_successes st) (and_full_attempts st) (and_full_successes st) (and_semi_attempts st) (and_semi_successes st) (or_attempts st) (or_successes st) (doOrs st + n) (goodOrs st) (shrunk0 st) (shrunk1 st) (upgraded st) (killed0 st) (killed1 st)
  | C_goodOrs => mkStats (base_attempts st) (base_successes st) (pattern_attempts st) (pattern_successes st) (and_full_attempts st) (and_full_successes st) (and_semi_attempts st) (and_semi_successes st) (or_attempts st) (or_successes st) (doOrs st) (goodOrs st + n) (shrunk0 st) (shrunk1 st) (upgraded st) (killed0 st) (killed1 st)
  | C_shrunk0 => mkStats (base_attempts st) (base_successes st) (pattern_attempts st) (pattern_successes st) (and_full_attempts st) (and_full_successes st) (and_semi_attempts st) (and_semi_successes st) (or_attempts st) (or_successes st) (doOrs st) (goodOrs st) (shrunk0 st + n) (shrunk1 st) (upgraded st) (killed0 st) (killed1 st)
  | C_shrunk1 => mkStats (base_attempts st) (base_successes st) (pattern_attempts st) (pattern_successes st) (and_full_attempts st) (and_full_successes st) (and_semi_attempts st) (and_semi_successes st) (or_attempts st) (or_successes st) (doOrs st) (goodOrs st) (shrunk0 st) (shrunk1 st + n) (upgraded st) (killed0 st) (killed1 st)
  | C_upgraded => mkStats (base_attempts st) (base_successes st) (pattern_attempts st) (pattern_successes st) (and_full_attempts st) (and_full_successes st) (and_semi_attempts st) (and_semi_successes st) (or_attempts st) (or_successes st) (doOrs st) (goodOrs st) (shrunk0 st) (shrunk1 st) (upgraded st + n) (killed0 st) (killed1 st)
  | C_killed0 => mkStats (base_attempts st) (base_successes st) (pattern_attempts st) (pattern_successes st) (and_full_attempts st) (and_full_successes st) (and_semi_attempts st) (and_semi_successes st) (or_attempts st) (or_successes st) (doOrs st) (goodOrs st) (shrunk0 st) (shrunk1 st) (upgraded st) (killed0 st + n) (killed1 st)
  | C_killed1 => mkStats (base_attempts st) (base_successes st) (pattern_attempts st) (pattern_successes st) (and_full_attempts st) (and_full_successes st) (and_semi_attempts st) (and_semi_successes st) (or_attempts st) (or_successes st) (doOrs st) (goodOrs st) (shrunk0 st) (shrunk1 st) (upgraded st) (killed0 st) (killed1 st + n)
  end.

(** The members of [VCBuilder].  [m_statistics] points into
    [m_statsForColor]: it is the colour of the slot.  [m_semi] and [m_tail]
    are the scratch vectors of the bounded OR rule. *)
Record VCBuilder := mkBuilder {
  m_param : VCBuilderParam;
  m_con : VCSet.t;
  m_color : HexColor;
  m_groups : Groups;
  m_brd : StoneBoard;
  m_log : ChangeLog;
  m_statsForColor : HexColor → VCBuilderStatistics;
  m_statistics : HexColor;
  m_fulls_queue : FullVCQueue.t;
  m_semis_queue : SemiEndsQueue.t;
  m_nbs : HexPoint → bitset;
  m_capturedSet : HexPoint → bitset;
  m_semi : list VC;
  m_tail : list bitset
}.

Definition set_m_con (v : VCSet.t) (s : VCBuilder) : VCBuilder :=
  mkBuilder (m_param s) v (m_color s) (m_groups s) (m_brd s) (m_log s) (m_statsForColor s) (m_statistics s) (m_fulls_queue s) (m_semis_queue s) (m_nbs s) (m_capturedSet s) (m_semi s) (m_tail s).

Definition set_m_color (v : HexColor) (s : VCBuilder) : VCBuilder :=
  mkBuilder (m_param s) (m_con s) v (m_groups s) (m_brd s) (m_log s) (m_statsForColor s) (m_statistics s) (m_fulls_queue s) (m_semis_queue s) (m_nbs s) (m_capturedSet s) (m_semi s) (m_tail s).

Definition set_m_groups (v : Groups) (s : VCBuilder) : VCBuilder :=
  mkBuilder (m_param s) (m_con s) (m_color s) v (m_brd s) (m_log s) (m_statsForColor s) (m_statistics s) (m_fulls_queue s) (m_semis_queue s) (m_nbs s) (m_capturedSet s) (m_semi s) (m_tail s).

Definition set_m_brd (v : StoneBoard) (s : VCBuilder) : VCBuilder :=
  mkBuilder (m_param s) (m_con s) (m_color s) (m_groups s) v (m_log s) (m_statsForColor s) (m_statistics s) (m_fulls_queue s) (m_semis_queue s) (m_nbs s) (m_capturedSet s) (m_semi s) (m_tail s).

Definition set_m_log (v : ChangeLog) (s : VCBuilder) : VCBuilder :=
  mkBuilder (m_param s) (m_con s) (m_color s) (m_groups s) (m_brd s) v (m_statsForColor s) (m_statistics s) (m_fulls_queue s) (m_semis_queue s) (m_nbs s) (m_capturedSet s) (m_semi s) (m_tail s).

Definition set_m_statsForColor (v : HexColor → VCBuilderStatistics) (s : VCBuilder) : VCBuilder :=
  mkBuilder (m_param s) (m_con s) (m_color s) (m_groups s) (m_brd s) (m_log s) v (m_statistics s) (m_fulls_queue s) (m_semis_queue s) (m_nbs s) (m_capturedSet s) (m_semi s) (m_tail s).

Definition set_m_statistics (v : HexColor) (s : VCBuilder) : VCBuilder :=
  mkBuilder (m_param s) (m_con s) (m_color s) (m_groups s) (m_brd s) (m_log s) (m_statsForColor s) v (m_fulls_queue s) (m_semis_queue s) (m_nbs s) (m_capturedSet s) (m_semi s) (m_tail s).

Definition set_m_fulls_queue (v : FullVCQueue.t) (s : VCBuilder) : VCBuilder :=
  mkBuilder (m_param s) (m_con s) (m_color s) (m_groups s) (m_brd s) (m_log s) (m_statsForColor s) (m_statistics s) v (m_semis_queue s) (m_nbs s) (m_capturedSet s) (m_semi s) (m_tail s).

Definition set_m_semis_queue (v : SemiEndsQueue.t) (s : VCBuilder) : VCBuilder :=
  mkBuilder (m_param s) (m_con s) (m_color s) (m_groups s) (m_brd s) (m_log s) (m_statsForColor s) (m_statistics s) (m_fulls_queue s) v (m_nbs s) (m_capturedSet s) (m_semi s) (m_tail s).

Definition set_m_nbs (v : HexPoint → bitset) (s : VCBuilder) : VCBuilder :=
  mkBuilder (m_param s) (m_con s) (m_color s) (m_groups s) (m_brd s) (m_log s) (m_statsForColor s) (m_statistics s) (m_fulls_queue s) (m_semis_queue s) v (m_capturedSet s) (m_semi s) (m_tail s).

Definition set_m_capturedSet (v : HexPoint → bitset) (s : VCBuilder) : VCBuilder :=
  mkBuilder (m_param s) (m_con s) (m_color s) (m_groups s) (m_brd s) (m_log s) (m_statsForColor s) (m_statistics s) (m_fulls_queue s) (m_semis_queue s) (m_nbs s) v (m_semi s) (m_tail s).

Definition set_m_semi (v : list VC) (s : VCBuilder) : VCBuilder :=
  mkBuilder (m_param s) (m_con s) (m_color s) (m_groups s) (m_brd s) (m_log s) (m_statsForColor s) (m_statistics s) (m_fulls_queue s) (m_semis_queue s) (m_nbs s) (m_capturedSet s) v (m_tail s).

Definition set_m_tail (v : list bitset) (s : VCBuilder) : VCBuilder :=
  mkBuilder (m_param s) (m_con s) (m_color s) (m_groups s) (m_brd s) (m_log s) (m_statsForColor s) (m_statistics s) (m_fulls_queue s) (m_semis_queue s) (m_nbs s) (m_capturedSet s) (m_semi s) v.

(** ** The monad of the builder's code *)

(** How a run can end without a result: a failed [BenzeneAssert] (with the
    line of the assertion in VCBuilder.cpp), a vector read out of range, or a
    loop that has used up its fuel. *)
Inductive Err := AssertFailure (line : nat) | OutOfBounds | OutOfFuel.

#[global] Instance Err_eq_dec : EqDecision Err.
Proof. solve_decision. Defined.

Definition M (A : Type) : Type := VCBuilder → Err + (A * VCBuilder).

#[global] Instance M_ret : MRet M := λ A a s, inr (a, s).

#[global] Instance M_bind : MBind M := λ A B f m s,
  match m s with
  | inl e => inl e
  | inr (a, s') => f a s'
  end.

Definition fail {A} (e : Err) : M A := λ _, inl e.
Definition get : M VCBuilder := λ s, inr (s, s).
Definition gets {A} (f : VCBuilder → A) : M A := λ s, inr (f s, s).
Definition modify (f : VCBuilder → VCBuilder) : M unit := λ s, inr (tt, f s).

Definition BenzeneAssert (line : nat) (b : bool) : M unit :=
  if b then mret tt else fail (AssertFailure line).

Definition when (b : bool) (m : M unit) : M unit := if b then m else mret tt.

(** A read that is undefined when the option is empty. *)
Definition deref {A} (o : option A) : M A :=
  match o with Some a => mret a | None => fail OutOfBounds end.

Fixpoint for_each {A} (l : list A) (body : A → M unit) : M unit :=
  match l with
  | [] => mret tt
  | a :: l' => body a ;; for_each l' body
  end.

(** [m_statistics->c += n] and [m_statistics->c++] *)
Definition stat_add (c : Counter) (n : nat) : M unit :=
  modify (λ s, set_m_statsForColor
                 (<[ m_statistics s := add_counter c n (m_statsForColor s (m_statistics s)) ]>
                    (m_statsForColor s)) s).

Definition stat_incr (c : Counter) : M unit := stat_add c 1.

(** An operation of the list [m_con->GetList(ty, x, y)] that may write the
    log [m_log]. *)
Definition on_list {A} (ty : VCType) (x y : HexPoint)
    (op : ChangeLog → VCList.t → A * VCList.t * ChangeLog) : M A :=
  s ← get;
  let '(a, l, log) := op (m_log s) (VCSet.GetList ty x y (m_con s)) in
  modify (λ s, set_m_log log (set_m_con (VCSet.SetList ty x y l (m_con s)) s)) ;;
  mret a.

Definition get_list (ty : VCType) (x y : HexPoint) : M VCList.t :=
  gets (λ s, VCSet.GetList ty x y (m_con s)).

(** [m_con->Add(vc, m_log)] *)
Definition con_Add (vc : VC) : M AddResult :=
  on_list (GetType vc) (X vc) (Y vc) (λ log l, VCList.Add vc log l).

(** [if (m_log) m_log->Push(action, vc)] *)
Definition log_Push (a : LogAction) (vc : VC) : M unit :=
  modify (λ s, set_m_log (log_push (m_log s) a vc) s).

Inductive AndRule := CREATE_FULL | CREATE_SEMI.

#[global] Instance AndRule_eq_dec : EqDecision AndRule.
Proof. solve_decision. Defined.

Section Builder.
(** The compile-time constant BITSETSIZE, the predicates and the pattern
    table of headers that are not part of the sources. *)
Variable BITSETSIZE : nat.
Variable isEdge : HexPoint → bool.
Variable colorEdge1 colorEdge2 : HexColor → HexPoint.
Variable GetPatterns : nat → nat → HexColor → list VCPattern.

(** *** Adding connections *)

Definition PushFull (vc : VC) : M unit :=
  modify (λ s, set_m_fulls_queue (FullVCQueue.Push vc (m_fulls_queue s)) s) ;;
  g ← gets m_groups;
  let x := CaptainOf g (X vc) in
  let y := CaptainOf g (Y vc) in
  modify (λ s, set_m_nbs (<[ x := Bitset.set (m_nbs s x) y ]> (m_nbs s)) s) ;;
  modify (λ s, set_m_nbs (<[ y := Bitset.set (m_nbs s y) x ]> (m_nbs s)) s).

Definition AddNewFull (vc : VC) : M bool :=
  BenzeneAssert 1025 (bool_decide (GetType vc = FULL)) ;;
  result ← con_Add vc;
  if added_ok result then
    on_list SEMI (X vc) (Y vc)
      (λ log l, let '(l', log') := VCList.RemoveSuperSetsOf (Carrier vc) log true l
                in (tt, l', log')) ;;
    PushFull vc ;;
    mret true
  else mret false.

Definition AddNewSemi (vc : VC) : M bool :=
  outFull ← get_list FULL (X vc) (Y vc);
  if negb (VCList.IsSupersetOfAny outFull (Carrier vc)) then
    result ← on_list SEMI (X vc) (Y vc) (λ log l, VCList.Add vc log l);
    if added_ok result then
      modify (λ s, set_m_semis_queue
                     (SemiEndsQueue.Push (X vc, Y vc) (m_semis_queue s)) s) ;;
      mret true
    else mret false
  else mret false.

(** *** The AND closure *)

(** One attempt of [DoAnd] to add a Full, and one to add a Semi, with
    their counters. *)
Definition try_and_full (vc : VC) : M unit :=
  stat_incr C_and_full_attempts ;;
  ok ← AddNewFull vc;
  when ok (stat_incr C_and_full_successes).

Definition try_and_semi (vc : VC) : M unit :=
  stat_incr C_and_semi_attempts ;;
  ok ← AddNewSemi vc;
  when ok (stat_incr C_and_semi_successes).

(** The body of the loop of [DoAnd] for the entry [i] of the list: the
    three [continue]s are the returns of [tt]; [line] is the line of the
    assertion that the iterator over the intersection is not at its end. *)
Definition singleton_fallback (line : nat) (cells : bitset)
    (mk_semi : HexPoint → VC) : M unit :=
  match Bitset.bits BITSETSIZE cells with
  | [] => fail (AssertFailure line)
  | key :: rest =>
      when (bool_decide (rest = [])) (try_and_semi (mk_semi key))
  end.

Definition DoAnd_entry (from over to : HexPoint) (rule : AndRule) (vc : VC)
    (capturedSet : bitset) (i : VC) : M unit :=
  if negb (Processed i) then mret tt
  else if Bitset.test (Carrier i) to then mret tt
  else
    let intersection := Carrier i ∩ Carrier vc in
    if Bitset.none intersection then
      match rule with
      | CREATE_FULL => try_and_full (AndVCs from to i vc)
      | CREATE_SEMI => try_and_semi (AndVCs_key from to i vc over)
      end
    else
      when (bool_decide (rule = CREATE_FULL))
           (singleton_fallback 624 intersection
              (λ key, AndVCs_key from to i vc key)) ;;
      if Bitset.IsSubsetOf intersection capturedSet then
        match rule with
        | CREATE_FULL => try_and_full (AndVCs_captured from to i vc capturedSet)
        | CREATE_SEMI =>
            try_and_semi (AndVCs_captured_key from to i vc capturedSet over)
        end
      else
        when (bool_decide (rule = CREATE_FULL))
             (singleton_fallback 656 (intersection ∖ capturedSet)
                (λ key, AndVCs_captured_key from to i vc capturedSet key)).

(** [DoAnd]: [old] is a list of Fulls between [from] and [over]; what is
    added goes to the lists between [from] and [to]. *)
Definition DoAnd (from over to : HexPoint) (rule : AndRule) (vc : VC)
    (capturedSet : bitset) (old : VCList.t) : M unit :=
  if VCList.Empty old then mret tt
  else for_each (VCList.soft_prefix old)
                (DoAnd_entry from over to rule vc capturedSet).

(** [(endc[i] == EMPTY) ? CREATE_SEMI : CREATE_FULL] *)
Definition rule_over (c : HexColor) : AndRule :=
  if decide (c = EMPTY) then CREATE_SEMI else CREATE_FULL.

(** The body of the inner loop of [AndClosure]: [over] is [endp[i]], [to]
    is [endp[j]], [overc] is [endc[i]]. *)
Definition AndClosure_nbr (vc : VC) (endp0 endp1 : HexPoint)
    (vcCapturedSet : bitset) (over to : HexPoint) (overc : HexColor)
    (z : HexPoint) : M unit :=
  g ← gets m_groups;
  BenzeneAssert 567 (bool_decide (z = CaptainOf g z)) ;;
  if bool_decide (z = endp0 ∨ z = endp1) then mret tt
  else if Bitset.test (Carrier vc) z then mret tt
  else
    cap ← gets m_capturedSet;
    let capturedSet := vcCapturedSet ∪ cap z in
    let uncapturedSet := Bitset.flip BITSETSIZE capturedSet in
    fulls ← get_list FULL z over;
    if Bitset.any (VCList.SoftIntersection BITSETSIZE fulls
                     ∩ Carrier vc ∩ uncapturedSet)
    then mret tt
    else
      old ← get_list FULL z over;
      DoAnd z over to (rule_over overc) vc capturedSet old.

Definition AndClosure_end (vc : VC) (endp0 endp1 : HexPoint)
    (vcCapturedSet : bitset) (over to : HexPoint) (overc : HexColor) : M unit :=
  p ← gets m_param;
  when (and_over_edge p || negb (isEdge over))
       (nbs ← gets m_nbs;
        for_each (Bitset.bits BITSETSIZE (nbs over))
                 (AndClosure_nbr vc endp0 endp1 vcCapturedSet over to overc)).

Definition AndClosure (vc : VC) : M unit :=
  s ← get;
  let other := other_color (m_color s) in
  let endp0 := CaptainOf (m_groups s) (X vc) in
  let endp1 := CaptainOf (m_groups s) (Y vc) in
  let endc0 := GetColor (m_brd s) endp0 in
  let endc1 := GetColor (m_brd s) endp1 in
  BenzeneAssert 559 (bool_decide (endc0 ≠ other)) ;;
  BenzeneAssert 560 (bool_decide (endc1 ≠ other)) ;;
  let vcCapturedSet := m_capturedSet s endp0 ∪ m_capturedSet s endp1 in
  AndClosure_end vc endp0 endp1 vcCapturedSet endp0 endp1 endc0 ;;
  AndClosure_end vc endp0 endp1 vcCapturedSet endp1 endp0 endc1.

(** [ProcessFulls]: [cur] is the position [FindInList] returns; the entry
    is read again through it after the closure. *)
Definition ProcessFulls (vc : VC) : M unit :=
  fulls ← get_list FULL (X vc) (Y vc);
  match VCList.FindInList vc fulls with
  | None => mret tt
  | Some cur =>
      v ← deref (VCList.entries fulls !! cur);
      if negb (Processed v) then
        AndClosure v ;;
        fulls' ← get_list FULL (X vc) (Y vc);
        v' ← deref (VCList.entries fulls' !! cur);
        BenzeneAssert 499 (VC_same v' vc) ;;
        on_list FULL (X vc) (Y vc)
          (λ log l, (tt, VCList.set_processed_at cur true l, log)) ;;
        log_Push PROCESSED (SetProcessed v' true)
      else mret tt
  end.

(** *** The bounded OR rule *)

(** Reads and writes of the local arrays [index], [ors], [ands] (16
    entries each) and of the vectors [m_semi], [m_tail]. *)
Definition arr_get {A} (arr : list A) (i : nat) : M A := deref (arr !! i).

Definition arr_set {A} (arr : list A) (i : nat) (v : A) : M (list A) :=
  if decide (i < length arr) then mret (<[ i := v ]> arr) else fail OutOfBounds.

(** [m_tail[i]] is the intersection of [m_semi[i .. N-1]]: the vector is
    enlarged to [N] entries and filled from the back. *)
Fixpoint fill_tail (semi : list VC) (tail : list bitset) (i : nat) : list bitset :=
  match semi with
  | [] => tail
  | v :: rest =>
      let tail' := fill_tail rest tail (S i) in
      match rest with
      | [] => <[ i := Carrier v ]> tail'
      | _ => <[ i := Carrier v ∩ tail' !!! S i ]> tail'
      end
  end.

Definition resize {A} (n : nat) (d : A) (l : list A) : list A :=
  take n l ++ replicate (n - length l) d.

(** One attempt of the OR rule to add the Full [v] to the list between
    [x] and [y]: the new [count] and [added]. *)
Definition or_add (x y : HexPoint) (v : VC) (count : nat) (added : list VC)
    : M (nat * list VC) :=
  stat_incr C_or_attempts ;;
  r ← on_list FULL x y (λ log l, VCList.Add v log l);
  if added_ok r then
    stat_incr C_or_successes ;;
    mret (S count, added ++ [v])
  else mret (count, added).

(** The loop of [OrRule::operator()], one iteration per unit of fuel.
    [xc], [yc] name the two lists, [N] is the number of copied semis,
    [capturedSet] the union computed before the loop. *)
Fixpoint OrRule_loop (fuel : nat) (xc yc : HexPoint) (N : nat) (maxOrs : Z)
    (capturedSet : bitset) (index : list nat) (ors ands : list bitset)
    (d : nat) (count : nat) (added : list VC) : M (nat * list VC) :=
  match fuel with
  | 0 => fail OutOfFuel
  | S fuel' =>
      s ← get;
      semi_list ← get_list SEMI xc yc;
      full_list ← get_list FULL xc yc;
      let fx := VCList.GetX full_list in
      let fy := VCList.GetY full_list in
      let uncapturedSet := Bitset.flip BITSETSIZE capturedSet in
      i0 ← arr_get index d;
      and_prev ← arr_get ands (d - 1);
      i ← (if decide (i0 < N) then
             t ← arr_get (m_tail s) i0;
             mret (if Bitset.any (and_prev ∩ t ∩ uncapturedSet) then N else i0)
           else mret i0);
      if decide (i = N) then
        if decide (d = 1) then mret (count, added)
        else
          top ← arr_get index (d - 1);
          index' ← arr_set index (d - 1) (S top);
          OrRule_loop fuel' xc yc N maxOrs capturedSet index' ors ands (d - 1)
                      count added
      else
        semi_i ← arr_get (m_semi s) i;
        or_prev ← arr_get ors (d - 1);
        let and_d := and_prev ∩ Carrier semi_i in
        let or_d := or_prev ∪ Carrier semi_i in
        ands' ← arr_set ands d and_d;
        ors' ← arr_set ors d or_d;
        if Bitset.none and_d then
          '(count', added') ← or_add xc yc (VC_full fx fy or_d VC_RULE_OR) count added;
          index' ← arr_set index d (S i);
          OrRule_loop fuel' xc yc N maxOrs capturedSet index' ors' ands' d
                      count' added'
        else if Bitset.IsSubsetOf and_d capturedSet then
          let capX := m_capturedSet s (VCList.GetX semi_list) in
          let capY := m_capturedSet s (VCList.GetY semi_list) in
          let carrier1 := if Bitset.any (and_d ∩ capX) then or_d ∪ capX else or_d in
          let carrier := if Bitset.any (and_d ∩ capY) then carrier1 ∪ capY
                         else carrier1 in
          '(count', added') ← or_add xc yc (VC_full fx fy carrier VC_RULE_OR) count added;
          index' ← arr_set index d (S i);
          OrRule_loop fuel' xc yc N maxOrs capturedSet index' ors' ands' d
                      count' added'
        else if decide (and_d = and_prev) then
          index' ← arr_set index d (S i);
          OrRule_loop fuel' xc yc N maxOrs capturedSet index' ors' ands' d
                      count added
        else if decide (Z.of_nat d < maxOrs)%Z then
          index' ← arr_set index (S d) (S i);
          OrRule_loop fuel' xc yc N maxOrs capturedSet index' ors' ands' (S d)
                      count added
        else
          index' ← arr_set index d (S i);
          OrRule_loop fuel' xc yc N maxOrs capturedSet index' ors' ands' d
                      count added
  end.

(** [OrRule::operator()(vc, semi_list, full_list, added, maxOrs, log,
    stats)] for the two lists between [xc] and [yc]. *)
Definition OrRule (fuel : nat) (vc : VC) (xc yc : HexPoint)
    (added : list VC) (maxOrs : Z) : M (nat * list VC) :=
  semi_list ← get_list SEMI xc yc;
  if VCList.Empty semi_list then mret (0, added)
  else
    let semi := filter (λ v, Processed v = true) (VCList.soft_prefix semi_list) in
    modify (set_m_semi semi) ;;
    if bool_decide (semi = []) then mret (0, added)
    else
      let N := length semi in
      modify (λ s, set_m_tail
                     (fill_tail semi
                        (if decide (length (m_tail s) < N)
                         then resize N ∅ (m_tail s) else m_tail s) 0) s) ;;
      let maxOrs' := (maxOrs - 1)%Z in
      BenzeneAssert 931 (bool_decide (maxOrs' < 16)%Z) ;;
      cap ← gets m_capturedSet;
      let capturedSet := cap (VCList.GetX semi_list) ∪ cap (VCList.GetY semi_list) in
      let ors := <[ 0 := Carrier vc ]> (replicate 16 (∅ : bitset)) in
      let ands := <[ 0 := Carrier vc ]> (replicate 16 (∅ : bitset)) in
      let index := <[ 1 := 0 ]> (replicate 16 0) in
      OrRule_loop fuel xc yc N maxOrs' capturedSet index ors ands 1 0 added.

(** *** The enhanced OR rule: [VCOrCombiner] *)

(** [Intersect(start, count)], started from the full bitset. *)
Fixpoint Intersect_from (set_mem : list bitset) (start count : nat)
    (acc : bitset) : option bitset :=
  match count with
  | 0 => Some acc
  | S c => s ← set_mem !! start; Intersect_from set_mem (S start) c (acc ∩ s)
  end.

Definition Intersect (set_mem : list bitset) (start count : nat) : option bitset :=
  Intersect_from set_mem start count (Bitset.universe BITSETSIZE).

(** [Filter(start, count, a)]: the sets without [a] are pushed at the back;
    their number and the new [set_mem]. *)
Fixpoint Filter (set_mem : list bitset) (start count a : nat)
    : option (nat * list bitset) :=
  match count with
  | 0 => Some (0, set_mem)
  | S c =>
      s ← set_mem !! start;
      if Bitset.test s a then Filter set_mem (S start) c a
      else '(res, mem) ← Filter (set_mem ++ [s]) (S start) c a; Some (S res, mem)
  end.

(** The loop of [Add]: [remaining] is [count - i]; running out of sets is
    the assertion [i < count]. *)
Fixpoint Add_loop (set_mem : list bitset) (start remaining : nat)
    (capturedSet inter uni : bitset) : M bitset :=
  match remaining with
  | 0 => fail (AssertFailure 851)
  | S r =>
      next ← deref (set_mem !! start);
      if Bitset.IsSubsetOf inter next
      then Add_loop set_mem (S start) r capturedSet inter uni
      else
        let inter' := inter ∩ next in
        let uni' := uni ∪ next in
        if Bitset.IsSubsetOf inter' capturedSet then mret uni'
        else Add_loop set_mem (S start) r capturedSet inter' uni'
  end.

(** The members of a [VCOrCombiner] that its constructor fixes;
    [full_list] is a reference to a list of the set, here the pair of
    cells that names it. *)
Record VCOrCombiner := mkCombiner {
  m_x : HexPoint;
  m_y : HexPoint;
  x_capture_set : bitset;
  y_capture_set : bitset;
  full_list : HexPoint * HexPoint
}.

(** [Add(start, count, capturedSet)]: the carrier of the new Full and the
    new [added]. *)
Definition Combiner_Add (c : VCOrCombiner) (set_mem : list bitset)
    (added : list VC) (start count : nat) (capturedSet : bitset)
    : M (bitset * list VC) :=
  stat_incr C_or_attempts ;;
  uni ← Add_loop set_mem start count capturedSet
                 (Bitset.universe BITSETSIZE) capturedSet;
  let v := VC_full (m_x c) (m_y c) uni VC_RULE_OR in
  stat_incr C_or_attempts ;;
  r ← on_list FULL (full_list c).1 (full_list c).2 (λ log l, VCList.Add v log l);
  BenzeneAssert 863 (added_ok r) ;;
  stat_incr C_or_successes ;;
  mret (uni, added ++ [v]).

(** The search of the smallest [set_mem[filtered + i] - forbidden]:
    [None] is the initial [numeric_limits<size_t>::max()]. *)
Fixpoint min_allowed (set_mem : list bitset) (start count : nat)
    (forbidden : bitset) (min_size : option nat) (allowed : bitset)
    : option (option nat * bitset) :=
  match count with
  | 0 => Some (min_size, allowed)
  | S c =>
      s ← set_mem !! start;
      let A := s ∖ forbidden in
      let size := Bitset.count A in
      if match min_size with Some m => bool_decide (size < m) | None => true end
      then min_allowed set_mem (S start) c forbidden (Some size) A
      else min_allowed set_mem (S start) c forbidden min_size allowed
  end.

(** [for (i < n) set_mem[dst + i] = set_mem[src + i]] *)
Fixpoint copy_down (set_mem : list bitset) (dst src n : nat) : option (list bitset) :=
  match n with
  | 0 => Some set_mem
  | S k =>
      v ← set_mem !! src;
      if decide (dst < length set_mem)
      then copy_down (<[ dst := v ]> set_mem) (S dst) (S src) k
      else None
  end.

(** [Search] and its [while (true)] loop; each call and each iteration
    uses one unit of fuel.  The result is the returned count with the new
    [set_mem] and [added]. *)
Fixpoint Search (fuel : nat) (c : VCOrCombiner)
    (forbidden : bitset) (captureX captureY : bool)
    (new_semis new_semis_count old_semis_count filtered_count : nat)
    (set_mem : list bitset) (added : list VC) {struct fuel}
    : M (nat * list bitset * list VC) :=
  match fuel with
  | 0 => fail OutOfFuel
  | S fuel' =>
      BenzeneAssert 754 (bool_decide (0 < new_semis_count)) ;;
      let old_semis := new_semis + new_semis_count in
      I_new ← deref (Intersect set_mem new_semis new_semis_count);
      I_old ← deref (Intersect set_mem old_semis old_semis_count);
      let inter := I_new ∩ I_old in
      let capturedSet := (if captureX then x_capture_set c else ∅)
                           ∪ (if captureY then y_capture_set c else ∅) in
      if negb (Bitset.IsSubsetOf inter capturedSet) then
        mret (0, resize new_semis ∅ set_mem, added)
      else
        let filtered := old_semis + old_semis_count in
        let new_conn := filtered + filtered_count in
        '(set_mem1, added1, filtered_count1, new_conn_count1) ←
          (if decide (filtered_count = 0) then
             let min1 := if Bitset.any (inter ∩ x_capture_set c)
                         then x_capture_set c else ∅ in
             let minCapturedSet := if Bitset.any (inter ∩ y_capture_set c)
                                   then min1 ∪ y_capture_set c else min1 in
             '(new_t, added') ←
               Combiner_Add c set_mem added new_semis
                            (new_semis_count + old_semis_count) minCapturedSet;
             mret (set_mem ++ [new_t], added', 1, 1)
           else mret (set_mem, added, filtered_count, 0));
        Search_loop fuel' c (forbidden ∪ I_new) captureX captureY
                    new_semis new_semis_count old_semis_count
                    filtered_count1 new_conn new_conn_count1 set_mem1 added1
  end
with Search_loop (fuel : nat) (c : VCOrCombiner)
    (forbidden : bitset) (captureX captureY : bool)
    (new_semis new_semis_count old_semis_count filtered_count : nat)
    (new_conn new_conn_count : nat)
    (set_mem : list bitset) (added : list VC) {struct fuel}
    : M (nat * list bitset * list VC) :=
  match fuel with
  | 0 => fail OutOfFuel
  | S fuel' =>
      let old_semis := new_semis + new_semis_count in
      let filtered := old_semis + old_semis_count in
      '(min_size, allowed) ←
        deref (min_allowed set_mem filtered filtered_count forbidden None ∅);
      if decide (min_size = Some 0) then
        mem ← deref (copy_down set_mem new_semis new_conn new_conn_count);
        mret (new_conn_count, resize (new_semis + new_conn_count) ∅ mem, added)
      else
        let a := Bitset.Find_first BITSETSIZE allowed in
        BenzeneAssert 818 (bool_decide (a < BITSETSIZE)) ;;
        let forbidden' := Bitset.set forbidden a in
        let rec_new_semis := filtered + filtered_count in
        '(rec_new_semis_count, mem1) ←
          deref (Filter set_mem new_semis new_semis_count a);
        '(rec_old_semis_count, mem2) ←
          deref (Filter mem1 old_semis old_semis_count a);
        '(rec_filtered_count, mem3) ←
          deref (Filter mem2 filtered filtered_count a);
        '(rec_new_conn_count, mem4, added') ←
          Search fuel' c forbidden'
                 (captureX && negb (Bitset.test (x_capture_set c) a))
                 (captureY && negb (Bitset.test (y_capture_set c) a))
                 rec_new_semis rec_new_semis_count rec_old_semis_count
                 rec_filtered_count mem3 added;
        Search_loop fuel' c forbidden' captureX captureY
                    new_semis new_semis_count old_semis_count
                    (filtered_count + rec_new_conn_count) new_conn
                    (new_conn_count + rec_new_conn_count) mem4 added'
  end.

(** The constructor of [VCOrCombiner] on the lists between [xc] and [yc],
    followed by [SearchResult()]: this is [VCBuilder::DoOr]. *)
Definition DoOr (fuel : nat) (xc yc : HexPoint) (added : list VC)
    : M (bool * list VC) :=
  semi_list ← get_list SEMI xc yc;
  full_list ← get_list FULL xc yc;
  let x := VCList.GetX semi_list in
  let y := VCList.GetY semi_list in
  BenzeneAssert 710 (bool_decide (x < BITSETSIZE)) ;;
  BenzeneAssert 711 (bool_decide (y < BITSETSIZE)) ;;
  cap ← gets m_capturedSet;
  let c := mkCombiner x y (cap x) (cap y) (xc, yc) in
  let new_semis := Carrier <$> filter (λ v, Processed v = false) (VCList.entries semi_list) in
  if bool_decide (length new_semis = 0) then mret (false, added)
  else
    let old_semis := Carrier <$> filter (λ v, Processed v = true) (VCList.entries semi_list) in
    let fulls := Carrier <$> VCList.entries full_list in
    '(n, _, added') ←
      Search fuel c ∅ true true
             0 (length new_semis) (length old_semis) (length fulls)
             (new_semis ++ old_semis ++ fulls) added;
    mret (bool_decide (0 < n), added').

(** *** Processing the queues *)

(** [cur->SetProcessed(true)] and its log entry, for the entry at [idx] of
    the Semi list between [xc] and [yc], when it is not yet processed. *)
Definition mark_semi_processed (xc yc : HexPoint) (idx : nat) : M unit :=
  semis ← get_list SEMI xc yc;
  cur ← deref (VCList.entries semis !! idx);
  on_list SEMI xc yc (λ log l, (tt, VCList.set_processed_at idx true l, log)) ;;
  log_Push PROCESSED (SetProcessed cur true).

(** The body of the loop of the bounded mode over the soft prefix. *)
Definition ProcessSemis_bounded_entry (fuel : nat) (xc yc : HexPoint)
    (added : list VC) (idx : nat) : M (list VC) :=
  semis ← get_list SEMI xc yc;
  cur ← deref (VCList.entries semis !! idx);
  if negb (Processed cur) then
    stat_incr C_doOrs ;;
    p ← gets m_param;
    '(count, added') ← OrRule fuel cur xc yc added (max_ors p);
    when (bool_decide (count ≠ 0)) (stat_incr C_goodOrs) ;;
    semis' ← get_list SEMI xc yc;
    cur' ← deref (VCList.entries semis' !! idx);
    BenzeneAssert 466 (VC_same cur cur') ;;
    mark_semi_processed xc yc idx ;;
    mret added'
  else mret added.

Fixpoint ProcessSemis_bounded_loop (fuel : nat) (xc yc : HexPoint)
    (idxs : list nat) (added : list VC) : M (list VC) :=
  match idxs with
  | [] => mret added
  | idx :: rest =>
      added' ← ProcessSemis_bounded_entry fuel xc yc added idx;
      ProcessSemis_bounded_loop fuel xc yc rest added'
  end.

(** [if (fulls.Empty())] of the bounded mode: the Full that unites the
    whole Semi list. *)
Definition ProcessSemis_all (xc yc : HexPoint) (capturedSet : bitset)
    (added : list VC) : M (list VC) :=
  fulls ← get_list FULL xc yc;
  if VCList.Empty fulls then
    p ← gets m_param;
    semis ← get_list SEMI xc yc;
    let carrier := if use_greedy_union p
                   then VCList.GetGreedyUnion BITSETSIZE semis
                   else VCList.GetUnion semis in
    let v := VC_full xc yc (carrier ∪ capturedSet) VC_RULE_ALL in
    on_list FULL xc yc (λ log l, VCList.Add v log l) ;;
    mret (added ++ [v])
  else mret added.

Definition ProcessSemis (fuel : nat) (xc yc : HexPoint) : M unit :=
  semis ← get_list SEMI xc yc;
  cap ← gets m_capturedSet;
  let capturedSet := cap xc ∪ cap yc in
  let uncapturedSet := Bitset.flip BITSETSIZE capturedSet in
  if Bitset.any (VCList.HardIntersection BITSETSIZE semis ∩ uncapturedSet)
  then mret tt
  else
    p ← gets m_param;
    added ←
      (if decide (16 ≤ max_ors p)%Z then
         stat_incr C_doOrs ;;
         '(good, added) ← DoOr fuel xc yc [];
         when good (stat_incr C_goodOrs) ;;
         semis' ← get_list SEMI xc yc;
         for_each (seq 0 (length (VCList.entries semis')))
           (λ idx,
              l ← get_list SEMI xc yc;
              cur ← deref (VCList.entries l !! idx);
              when (negb (Processed cur)) (mark_semi_processed xc yc idx)) ;;
         mret added
       else
         added ← ProcessSemis_bounded_loop fuel xc yc
                    (seq 0 (length (VCList.soft_prefix semis))) [];
         ProcessSemis_all xc yc capturedSet added);
    for_each added PushFull.

(** The test at the end of an iteration of [DoSearch]. *)
Definition winning_connection_found : M bool :=
  s ← get;
  mret (abort_on_winning_connection (m_param s)
        && VCSet.Exists (colorEdge1 (m_color s)) (colorEdge2 (m_color s))
                        FULL (m_con s)).

Definition break_if (w : bool) : option bool := if w then Some true else None.

(** One iteration of the loop of [DoSearch]: [Some w] when the loop is left
    with [winning_connection = w], [None] when it goes on. *)
Definition DoSearch_iter (or_fuel : nat) : M (option bool) :=
  s ← get;
  if FullVCQueue.Empty (m_fulls_queue s) then
    if SemiEndsQueue.Empty (m_semis_queue s) then mret (Some false)
    else
      pair ← deref (SemiEndsQueue.Front (m_semis_queue s));
      q ← deref (SemiEndsQueue.Pop (m_semis_queue s));
      modify (set_m_semis_queue q) ;;
      ProcessSemis or_fuel pair.1 pair.2 ;;
      w ← winning_connection_found;
      mret (break_if w)
  else
    vc ← deref (FullVCQueue.Front (m_fulls_queue s));
    modify (λ s, set_m_fulls_queue (FullVCQueue.Pop (m_fulls_queue s)) s) ;;
    ProcessFulls vc ;;
    w ← winning_connection_found;
    mret (break_if w).

Fixpoint DoSearch_loop (fuel or_fuel : nat) : M bool :=
  match fuel with
  | 0 => fail OutOfFuel
  | S fuel' =>
      r ← DoSearch_iter or_fuel;
      match r with
      | Some w => mret w
      | None => DoSearch_loop fuel' or_fuel
      end
  end.

Definition DoSearch (fuel or_fuel : nat) : M unit :=
  winning_connection ← DoSearch_loop fuel or_fuel;
  s ← get;
  BenzeneAssert 538
    (winning_connection
     || (FullVCQueue.Empty (m_fulls_queue s)
         && SemiEndsQueue.Empty (m_semis_queue s))).

(** *** The captured sets *)

(** The body of the loop of [ComputeCapturedSets] for the cell [p]; every
    round of the loop over the hits reads [hits[0]]. *)
Definition ComputeCapturedSets_cell (patterns : PatternState) (p : HexPoint) : M unit :=
  modify (λ s, set_m_capturedSet (<[ p := ∅ ]> (m_capturedSet s)) s) ;;
  s ← get;
  when (bool_decide (GetColor (m_brd s) p = EMPTY))
    (let hits := MatchOnCell patterns (m_color s) p in
     for_each hits
       (λ _,
          hit ← deref (hits !! 0);
          for_each (Moves2 hit)
            (λ mv, modify (λ s, set_m_capturedSet
                                  (<[ p := Bitset.set (m_capturedSet s p) mv ]>
                                     (m_capturedSet s)) s)))).

Definition ComputeCapturedSets (patterns : PatternState) : M unit :=
  brd ← gets m_brd;
  for_each (EdgesAndInterior brd) (ComputeCapturedSets_cell patterns).

(** *** The static build *)

Definition AddBaseVCs : M unit :=
  s ← get;
  let not_other := ColorOrEmpty (m_color s) in
  for_each (GroupIterator (m_groups s) not_other)
    (λ x,
       for_each (Bitset.bits BITSETSIZE (Nbs x ∩ GetEmpty (m_brd s)))
         (λ y,
            let vc := VC_adjacent (Captain x) y in
            stat_incr C_base_attempts ;;
            r ← con_Add vc;
            when (added_ok r) (stat_incr C_base_successes ;; PushFull vc))).

Definition AddPatternVCs : M unit :=
  s ← get;
  let patterns := GetPatterns (Width (m_brd s)) (Height (m_brd s)) (m_color s) in
  for_each patterns
    (λ pat,
       if negb (use_non_edge_patterns (m_param s))
          && negb (isEdge (Endpoint0 pat)) && negb (isEdge (Endpoint1 pat))
       then mret tt
       else
         when (Matches pat (m_color s) (m_brd s))
           (let carrier :=
              Bitset.reset
                (Bitset.reset (NotOpponent pat ∖ GetColorSet (m_brd s) (m_color s))
                              (Endpoint0 pat))
                (Endpoint1 pat) in
            let vc := VC_full (Endpoint0 pat) (Endpoint1 pat) carrier VC_RULE_BASE in
            stat_incr C_pattern_attempts ;;
            r ← con_Add vc;
            when (added_ok r) (stat_incr C_pattern_successes ;; PushFull vc))).

(** [Build(con, groups, patterns)]; the set built is [m_con] at the end. *)
Definition Build (fuel or_fuel : nat) (con : VCSet.t) (groups : Groups)
    (patterns : PatternState) : M unit :=
  modify (λ s, set_m_con (VCSet.Clear con)
                 (set_m_color (VCSet.Color con)
                    (set_m_groups groups
                       (set_m_brd (Board groups)
                          (set_m_log None
                             (set_m_statistics (VCSet.Color con)
                                (set_m_semis_queue (SemiEndsQueue.Clear (m_semis_queue s))
                                   (set_m_fulls_queue (FullVCQueue.Clear (m_fulls_queue s))
                                      (set_m_nbs (λ _, ∅) s))))))))) ;;
  ComputeCapturedSets patterns ;;
  AddBaseVCs ;;
  p ← gets m_param;
  when (use_patterns p) AddPatternVCs ;;
  DoSearch fuel or_fuel.

(** *** The incremental build *)

(** For each element of a list, the body gets the elements before it:
    the inner loop of [for (y; &*y != &*x; ++y)]. *)
Fixpoint for_each_after {A} (before l : list A) (body : list A → A → M unit) : M unit :=
  match l with
  | [] => mret tt
  | x :: l' => body before x ;; for_each_after (before ++ [x]) l' body
  end.

(** The cells a [BoardIterator] visits until it meets [x]. *)
Fixpoint cells_until (x : HexPoint) (l : list HexPoint) : list HexPoint :=
  match l with
  | [] => []
  | y :: l' => if decide (y = x) then [] else y :: cells_until x l'
  end.

(** [RemoveAllContaining(oldGroups, bs)] *)
Definition RemoveAllContaining (oldGroups : Groups) (bs : bitset) : M unit :=
  s ← get;
  let not_other := NotColor (other_color (m_color s)) in
  let opp (c : HexPoint) :=
    bool_decide (GroupColor (GetGroup (m_groups s) c) = other_color (m_color s)) in
  for_each_after [] (GroupIterator oldGroups not_other)
    (λ before x,
       let xc := Captain x in
       if opp xc then mret tt
       else
         for_each before
           (λ y,
              let yc := Captain y in
              if opp yc then mret tt
              else
                cur0 ← on_list FULL xc yc
                         (λ log l, let '(r, l', log') := VCList.RemoveAllContaining bs log l
                                   in (length r, l', log'));
                stat_add C_killed0 cur0 ;;
                cur1 ← on_list SEMI xc yc
                         (λ log l, let '(r, l', log') := VCList.RemoveAllContaining bs log l
                                   in (length r, l', log'));
                stat_add C_killed1 cur1)).

(** The three loops of [MergeAndShrink] over the removed connections. *)
Definition shrink_full (added : bitset) (xout yout : HexPoint) (it : VC) : M unit :=
  let v := ShrinkFull it added xout yout in
  r ← on_list FULL xout yout (λ log l, VCList.Add v log l);
  when (added_ok r) (stat_incr C_shrunk0 ;; PushFull v).

Fixpoint shrink_semis (added : bitset) (xout yout : HexPoint) (removed : list VC)
    (wasShrink : bool) : M bool :=
  match removed with
  | [] => mret wasShrink
  | it :: rest =>
      if negb (test_key added it) then
        let v := ShrinkSemi it added xout yout in
        r ← on_list SEMI xout yout (λ log l, VCList.Add v log l);
        if added_ok r then
          stat_incr C_shrunk1 ;;
          shrink_semis added xout yout rest true
        else shrink_semis added xout yout rest wasShrink
      else shrink_semis added xout yout rest wasShrink
  end.

Definition upgrade_semi (added : bitset) (xout yout : HexPoint) (it : VC) : M unit :=
  when (test_key added it)
    (let v := UpgradeSemi it added xout yout in
     r ← on_list FULL xout yout (λ log l, VCList.Add v log l);
     when (added_ok r)
       (on_list SEMI xout yout
          (λ log l, let '(l', log') := VCList.RemoveSuperSetsOf (Carrier v) log false l
                    in (tt, l', log')) ;;
        stat_incr C_upgraded ;;
        PushFull v)).

(** [MergeAndShrink(added, xin, yin, xout, yout)]; two lists are the same
    object when their unordered pairs of endpoints are the same. *)
Definition MergeAndShrink (added : bitset) (xin yin xout yout : HexPoint) : M unit :=
  BenzeneAssert 310 (bool_decide (xin ≠ yin)) ;;
  BenzeneAssert 311 (bool_decide (xout ≠ yout)) ;;
  let same_fulls := bool_decide (VCSet.key FULL xin yin = VCSet.key FULL xout yout) in
  let same_semis := bool_decide (VCSet.key SEMI xin yin = VCSet.key SEMI xout yout) in
  BenzeneAssert 317 (bool_decide (same_fulls = same_semis)) ;;
  let doingMerge := negb same_fulls in
  removed0 ← on_list FULL xin yin (λ log l, VCList.RemoveAllContaining added log l);
  when doingMerge
    (fullsIn ← get_list FULL xin yin;
     on_list FULL xout yout
       (λ log l, let '(l', log') := VCList.Append fullsIn log l in (tt, l', log')) ;;
     fullsIn' ← get_list FULL xin yin;
     for_each (VCList.entries fullsIn') PushFull) ;;
  for_each removed0 (shrink_full added xout yout) ;;
  removed ← on_list SEMI xin yin (λ log l, VCList.RemoveAllContaining added log l);
  when doingMerge
    (semisIn ← get_list SEMI xin yin;
     on_list SEMI xout yout
       (λ log l, let '(l', log') := VCList.Append semisIn log l in (tt, l', log'))) ;;
  wasShrink ← shrink_semis added xout yout removed false;
  when (doingMerge || wasShrink)
    (semisOut ← get_list SEMI xout yout;
     modify (λ s, set_m_semis_queue
                    (SemiEndsQueue.Push (VCList.GetX semisOut, VCList.GetY semisOut)
                                        (m_semis_queue s)) s)) ;;
  for_each removed (upgrade_semi added xout yout).

(** [MergeAndShrink(affected, added)] *)
Definition MergeAndShrink_all (affected added : bitset) : M unit :=
  s ← get;
  let not_other := NotColor (other_color (m_color s)) in
  let stones := Stones (m_brd s) not_other in
  let skip (p : HexPoint) := negb (IsCaptain (m_groups s) p) && negb (Bitset.test affected p) in
  for_each stones
    (λ x,
       if skip x then mret tt
       else
         for_each (cells_until x stones)
           (λ y,
              if skip y then mret tt
              else
                let cx := CaptainOf (m_groups s) x in
                let cy := CaptainOf (m_groups s) y in
                when (bool_decide (cx ≠ cy)) (MergeAndShrink added x y cx cy))).

(** [Merge(oldGroups, added)] *)
Definition Merge (oldGroups : Groups) (added : HexColor → bitset) : M unit :=
  s ← get;
  RemoveAllContaining oldGroups (added (other_color (m_color s))) ;;
  let affected :=
    foldl (λ aff x,
             foldl (λ aff' y,
                      let grp := GetGroup oldGroups y in
                      if decide (GroupColor grp = m_color s)
                      then Bitset.set aff' (Captain grp) else aff')
                   aff (CellNbs (m_brd s) x))
          (added (m_color s)) (Bitset.bits BITSETSIZE (added (m_color s))) in
  MergeAndShrink_all affected (added (m_color s)).

(** The loop of the incremental [Build] that fills [m_nbs] again. *)
Definition rebuild_nbs (newGroups : Groups) : M unit :=
  s ← get;
  let not_other := NotColor (other_color (m_color s)) in
  let opp (c : HexPoint) :=
    bool_decide (GroupColor (GetGroup (m_groups s) c) = other_color (m_color s)) in
  for_each_after [] (GroupIterator newGroups not_other)
    (λ before x,
       let xc := Captain x in
       if opp xc then mret tt
       else
         for_each before
           (λ y,
              let yc := Captain y in
              if opp yc then mret tt
              else
                con ← gets m_con;
                when (VCSet.Exists xc yc FULL con)
                  (modify (λ s, set_m_nbs (<[ xc := Bitset.set (m_nbs s xc) yc ]>
                                             (m_nbs s)) s)))).

(** [Build(con, oldGroups, newGroups, patterns, added, log)] *)
Definition Build_incremental (fuel or_fuel : nat) (con : VCSet.t)
    (oldGroups newGroups : Groups) (patterns : PatternState)
    (added : HexColor → bitset) (log : ChangeLog) : M unit :=
  BenzeneAssert 188 (Bitset.none (added BLACK ∩ added WHITE)) ;;
  modify (λ s, set_m_con con
                 (set_m_color (VCSet.Color con)
                    (set_m_groups newGroups
                       (set_m_brd (Board newGroups)
                          (set_m_log log
                             (set_m_statistics (VCSet.Color con)
                                (set_m_semis_queue (SemiEndsQueue.Clear (m_semis_queue s))
                                   (set_m_fulls_queue (FullVCQueue.Clear (m_fulls_queue s))
                                      s)))))))) ;;
  ComputeCapturedSets patterns ;;
  Merge oldGroups added ;;
  p ← gets m_param;
  when (use_patterns p) AddPatternVCs ;;
  modify (set_m_nbs (λ _, ∅)) ;;
  rebuild_nbs newGroups ;;
  DoSearch fuel or_fuel.

End Builder.


(** ** A small position

    Three cells in a row: the edge 0 of Black, and the empty cells 1 and 2.
    The states below are those of a builder for Black on it. *)
Module Tiny.

Definition B : nat := 8.
Definition isEdge (p : HexPoint) : bool := bool_decide (p = 0).
Definition colorEdge1 (c : HexColor) : HexPoint := 0.
Definition colorEdge2 (c : HexColor) : HexPoint := 7.
Definition GetPatterns (w h : nat) (c : HexColor) : list VCPattern := [].

Definition color_of (p : HexPoint) : HexColor :=
  if decide (p = 0) then BLACK else EMPTY.

Definition brd : StoneBoard :=
  mkStoneBoard color_of [0; 1; 2] (λ _, []) 1 2.

Definition groups : Groups :=
  mkGroups [mkGroup 0 BLACK {[ 1 ]}; mkGroup 1 EMPTY {[ 0; 2 ]}; mkGroup 2 EMPTY {[ 1 ]}]
           (λ p, mkGroup p (color_of p) ∅) brd.

(** A hit on the cell 1 only, with the move 2. *)
Definition patterns : PatternState :=
  mkPatternState (λ _ p, if decide (p = 1) then [mkPatternHit [2]] else []).

Definition no_patterns : PatternState := mkPatternState (λ _ _, []).

Definition no_stats : VCBuilderStatistics :=
  mkStats 0 0 0 0 0 0 0 0 0 0 0 0 0 0 0 0 0.

Definition con : VCSet.t := VCSet.mk BLACK 10 ∅.

(** A builder before its first build. *)
Definition fresh (p : VCBuilderParam) : VCBuilder :=
  mkBuilder p con BLACK groups brd None (λ _, no_stats) BLACK
            (FullVCQueue.mk 0 []) (SemiEndsQueue.mk 0 [] ∅)
            (λ _, ∅) (λ _, ∅) [] [].

(** The final state of a run, the initial one when the run fails. *)
Definition final {A} (m : M A) (s : VCBuilder) : VCBuilder :=
  match m s with inr (_, s') => s' | inl _ => s end.

(** The state of the static build when the search starts: the base
    connections 0-1 and 1-2 are in the set and in the queue. *)
Definition seeded : VCBuilder :=
  final (modify (set_m_con (VCSet.Clear con)) ;;
         ComputeCapturedSets no_patterns ;;
         AddBaseVCs B)
        (fresh default_param).

Definition searched : VCBuilder :=
  final (DoSearch B isEdge colorEdge1 colorEdge2 100 100) seeded.

(** The state [seeded] after the first iteration of the search. *)
Definition stepped : VCBuilder :=
  final (DoSearch_iter B isEdge colorEdge1 colorEdge2 100) seeded.

(** Two lists between the cells 0 and 7, in a builder with the parameters
    [p] and the captured sets [cap]. *)
Definition with_lists (p : VCBuilderParam) (cap : HexPoint → bitset)
    (fulls semis : list VC) : VCBuilder :=
  set_m_capturedSet cap
    (set_m_con (VCSet.SetList FULL 0 7 (VCList.mk 0 7 10 fulls)
                  (VCSet.SetList SEMI 0 7 (VCList.mk 0 7 10 semis) con))
               (fresh p)).

Definition semi (key : HexPoint) (carrier : bitset) : VC :=
  VC_semi 0 7 key carrier VC_RULE_AND.

Definition full (carrier : bitset) : VC := VC_full 0 7 carrier VC_RULE_AND.

Definition enhanced_param : VCBuilderParam := mkParam 16 false true true true false.
Definition two_ors_param : VCBuilderParam := mkParam 2 false true true true false.

(** Two disjoint Semis next to a Full that their union contains. *)
Definition dominated (p : VCBuilderParam) : VCBuilder :=
  with_lists p (λ _, ∅) [full {[ 1; 3 ]}] [semi 1 {[ 1; 2 ]}; semi 3 {[ 3; 4 ]}].

(** Three Semis that meet two by two but not all three, and no Full. *)
Definition triangle (p : VCBuilderParam) : VCBuilder :=
  with_lists p (λ _, ∅) []
             [semi 1 {[ 1; 2 ]}; semi 2 {[ 2; 3 ]}; semi 3 {[ 1; 3 ]}].

(** A single Semi, whose carrier is the cell 1. *)
Definition lone_semi (p : VCBuilderParam) : VCBuilder :=
  with_lists p (λ _, ∅) [] [semi 1 {[ 1 ]}].

End Tiny.


(** * Properties *)

(** ** Reasoning about runs *)

Lemma bind_inr {A B} (m : M A) (f : A → M B) s b s' :
  (m ≫= f) s = inr (b, s') ↔ ∃ a s1, m s = inr (a, s1) ∧ f a s1 = inr (b, s').
Proof.
  unfold mbind, M_bind. destruct (m s) as [e | [a s1]]; split.
  - discriminate.
  - intros (? & ? & ? & ?); discriminate.
  - eauto.
  - by intros (? & ? & [= -> ->] & ?).
Qed.

Lemma bind_inl {A B} (m : M A) (f : A → M B) s e :
  (m ≫= f) s = inl e ↔
  m s = inl e ∨ ∃ a s1, m s = inr (a, s1) ∧ f a s1 = inl e.
Proof.
  unfold mbind, M_bind. destruct (m s) as [e' | [a s1]]; split.
  - intros [= ->]. by left.
  - intros [[= ->] | (? & ? & ? & ?)]; [done | discriminate].
  - right; eauto.
  - intros [? | (? & ? & [= -> ->] & ?)]; [discriminate | done].
Qed.

Lemma assert_inr line b u s s' :
  BenzeneAssert line b s = inr (u, s') ↔ b = true ∧ s' = s.
Proof.
  unfold BenzeneAssert. destruct b; cbn; split.
  - by intros [= _ ->].
  - by intros [_ ->]; destruct u.
  - discriminate.
  - by intros [? _].
Qed.

Lemma deref_inr {A} (o : option A) a s s' :
  deref o s = inr (a, s') ↔ o = Some a ∧ s' = s.
Proof.
  destruct o; cbn; split; try discriminate.
  - by intros [= -> ->].
  - by intros [[= ->] ->].
  - by intros [? _].
Qed.

(** A computation all of whose successful runs relate the initial and the
    final state by [R], and all of whose failures are in [E]. *)
Definition respects {A} (R : relation VCBuilder) (E : Err → Prop) (m : M A) : Prop :=
  ∀ s, match m s with
       | inr (_, s') => R s s'
       | inl e => E e
       end.

Lemma respects_inr {A} R E (m : M A) s a s' :
  respects R E m → m s = inr (a, s') → R s s'.
Proof. intros Hm H. specialize (Hm s). by rewrite H in Hm. Qed.

Lemma respects_inl {A} R E (m : M A) s e :
  respects R E m → m s = inl e → E e.
Proof. intros Hm H. specialize (Hm s). by rewrite H in Hm. Qed.

Lemma respects_weaken {A} (R R' : relation VCBuilder) (E E' : Err → Prop) (m : M A) :
  (∀ s s', R s s' → R' s s') → (∀ e, E e → E' e) →
  respects R E m → respects R' E' m.
Proof.
  intros HR HE Hm s. specialize (Hm s). destruct (m s) as [e | [a s']]; auto.
Qed.

Section Respects.
Context (R : relation VCBuilder) `{!PreOrder R} (E : Err → Prop).

Lemma respects_ret {A} (a : A) : respects R E (mret a).
Proof. intros s. cbn. reflexivity. Qed.

Lemma respects_fail {A} e : E e → respects R E (fail e : M A).
Proof. by intros He s. Qed.

Lemma respects_bind {A B} (m : M A) (f : A → M B) :
  respects R E m → (∀ a, respects R E (f a)) → respects R E (m ≫= f).
Proof.
  intros Hm Hf s. specialize (Hm s). unfold mbind, M_bind.
  destruct (m s) as [e | [a s1]]; [done |].
  specialize (Hf a s1). destruct (f a s1) as [e | [b s2]]; [done |].
  by etrans.
Qed.

Lemma respects_get : respects R E get.
Proof. intros s. cbn. reflexivity. Qed.

Lemma respects_gets {A} (f : VCBuilder → A) : respects R E (gets f).
Proof. intros s. cbn. reflexivity. Qed.

Lemma respects_modify f : (∀ s, R s (f s)) → respects R E (modify f).
Proof. intros Hf s. apply Hf. Qed.

Lemma respects_assert line b :
  E (AssertFailure line) → respects R E (BenzeneAssert line b).
Proof. intros He s. destruct b; cbn; [reflexivity | done]. Qed.

Lemma respects_deref {A} (o : option A) :
  E OutOfBounds → respects R E (deref o).
Proof. intros He s. destruct o; cbn; [reflexivity | done]. Qed.

Lemma respects_when b m : respects R E m → respects R E (when b m).
Proof. destruct b; [done | intros _; apply respects_ret]. Qed.

Lemma respects_for_each {A} (l : list A) body :
  (∀ a, respects R E (body a)) → respects R E (for_each l body).
Proof.
  intros Hb. induction l as [| a l IH]; cbn.
  - apply respects_ret.
  - apply respects_bind; [apply Hb | intros _; apply IH].
Qed.

Lemma respects_for_each_after {A} (before l : list A) body :
  (∀ b a, respects R E (body b a)) → respects R E (for_each_after before l body).
Proof.
  intros Hb. revert before. induction l as [| a l IH]; intros before; cbn.
  - apply respects_ret.
  - apply respects_bind; [apply Hb | intros _; apply IH].
Qed.
End Respects.

(** The usual steps of a proof of [respects]; [side] closes the goals that
    a possible failure is in the allowed set. *)
Ltac respects_step side :=
  lazymatch goal with
  | |- respects _ _ (mret _) => apply respects_ret; apply _
  | |- respects _ _ (fail _) => apply respects_fail; side
  | |- respects _ _ get => apply respects_get; apply _
  | |- respects _ _ (gets _) => apply respects_gets; apply _
  | |- respects _ _ (BenzeneAssert _ _) => apply respects_assert; [apply _ | side]
  | |- respects _ _ (deref _) => apply respects_deref; [apply _ | side]
  | |- respects _ _ (arr_get _ _) => apply respects_deref; [apply _ | side]
  | |- respects _ _ (get_list _ _ _) => apply respects_gets; apply _
  | |- respects _ _ (when _ _) => apply respects_when; [apply _ |]
  | |- respects _ _ (for_each _ _) => apply respects_for_each; [apply _ | intros]
  | |- respects _ _ (for_each_after _ _ _) =>
      apply respects_for_each_after; [apply _ | intros]
  | |- respects _ _ (_ ≫= _) => apply respects_bind; [apply _ | | intros]
  | |- respects _ _ (if ?c then _ else _) => destruct c
  | |- respects _ _ (match ?c with _ => _ end) => destruct c
  end.

(** ** The frame of the search: what no step of it changes *)

(** The parameters, the position, the captured sets, and the fronts of the
    two queues: only [Pop] moves a front. *)
Record frame (s s' : VCBuilder) : Prop := mkFrame {
  frame_param : m_param s' = m_param s;
  frame_color : m_color s' = m_color s;
  frame_groups : m_groups s' = m_groups s;
  frame_brd : m_brd s' = m_brd s;
  frame_capturedSet : m_capturedSet s' = m_capturedSet s;
  frame_statistics : m_statistics s' = m_statistics s;
  frame_fulls_head :
    FullVCQueue.m_head (m_fulls_queue s') = FullVCQueue.m_head (m_fulls_queue s);
  frame_semis_head :
    SemiEndsQueue.m_head (m_semis_queue s') = SemiEndsQueue.m_head (m_semis_queue s)
}.

#[global] Instance frame_preorder : PreOrder frame.
Proof.
  split.
  - by intros s.
  - intros s1 s2 s3 [] []. split; congruence.
Qed.

(** The failures of the code below the two [Build]s: any but the assertion
    on the played stones at the head of the incremental [Build]. *)
Definition below_Build (e : Err) : Prop := e ≠ AssertFailure 188.

Lemma SemiEndsQueue_Push_head p q :
  SemiEndsQueue.m_head (SemiEndsQueue.Push p q) = SemiEndsQueue.m_head q.
Proof. unfold SemiEndsQueue.Push. by case_bool_decide. Qed.

Create HintDb frame discriminated.

Ltac frame_modify :=
  apply respects_modify; intros ?; split; cbn;
  rewrite ?SemiEndsQueue_Push_head; reflexivity.

Ltac frame_auto :=
  repeat first [ respects_step ltac:(by unfold below_Build)
               | frame_modify | solve [auto with frame] ].

Section FrameLemmas.
Variable BITSETSIZE : nat.
Variable isEdge : HexPoint → bool.
Variable colorEdge1 colorEdge2 : HexColor → HexPoint.

Lemma frame_stat_add c n : respects frame below_Build (stat_add c n).
Proof. unfold stat_add. frame_auto. Qed.

Lemma frame_stat_incr c : respects frame below_Build (stat_incr c).
Proof. apply frame_stat_add. Qed.

Lemma frame_on_list {A} ty x y (op : _ → _ → A * _ * _) :
  respects frame below_Build (on_list ty x y op).
Proof. unfold on_list. frame_auto. Qed.

Lemma frame_log_Push a v : respects frame below_Build (log_Push a v).
Proof. unfold log_Push. frame_auto. Qed.

Lemma frame_PushFull vc : respects frame below_Build (PushFull vc).
Proof. unfold PushFull. frame_auto. Qed.

Lemma frame_arr_set {A} (arr : list A) i v :
  respects frame below_Build (arr_set arr i v).
Proof. unfold arr_set. frame_auto. Qed.

#[local] Hint Resolve frame_stat_add frame_stat_incr frame_on_list frame_log_Push
  frame_PushFull frame_arr_set : frame.

Lemma frame_AddNewFull vc : respects frame below_Build (AddNewFull vc).
Proof. unfold AddNewFull, con_Add. frame_auto. Qed.

Lemma frame_AddNewSemi vc : respects frame below_Build (AddNewSemi vc).
Proof. unfold AddNewSemi. frame_auto. Qed.

#[local] Hint Resolve frame_AddNewFull frame_AddNewSemi : frame.

Lemma frame_try_and_full vc : respects frame below_Build (try_and_full vc).
Proof. unfold try_and_full. frame_auto. Qed.

Lemma frame_try_and_semi vc : respects frame below_Build (try_and_semi vc).
Proof. unfold try_and_semi. frame_auto. Qed.

#[local] Hint Resolve frame_try_and_full frame_try_and_semi : frame.

Lemma frame_singleton_fallback line cells mk :
  line ≠ 188 →
  respects frame below_Build (singleton_fallback BITSETSIZE line cells mk).
Proof.
  intros Hl. unfold singleton_fallback. frame_auto.
  apply respects_fail. unfold below_Build. congruence.
Qed.

Lemma frame_DoAnd_entry from over to rule vc cap i :
  respects frame below_Build (DoAnd_entry BITSETSIZE from over to rule vc cap i).
Proof.
  unfold DoAnd_entry. frame_auto; by apply frame_singleton_fallback.
Qed.

#[local] Hint Resolve frame_DoAnd_entry : frame.

Lemma frame_DoAnd from over to rule vc cap old :
  respects frame below_Build (DoAnd BITSETSIZE from over to rule vc cap old).
Proof. unfold DoAnd. frame_auto. Qed.

#[local] Hint Resolve frame_DoAnd : frame.

Lemma frame_AndClosure_nbr vc e0 e1 cap over to overc z :
  respects frame below_Build
    (AndClosure_nbr BITSETSIZE vc e0 e1 cap over to overc z).
Proof. unfold AndClosure_nbr. frame_auto. Qed.

#[local] Hint Resolve frame_AndClosure_nbr : frame.

Lemma frame_AndClosure_end vc e0 e1 cap over to overc :
  respects frame below_Build
    (AndClosure_end BITSETSIZE isEdge vc e0 e1 cap over to overc).
Proof. unfold AndClosure_end. frame_auto. Qed.

#[local] Hint Resolve frame_AndClosure_end : frame.

Lemma frame_AndClosure vc :
  respects frame below_Build (AndClosure BITSETSIZE isEdge vc).
Proof. unfold AndClosure. frame_auto. Qed.

#[local] Hint Resolve frame_AndClosure : frame.

Lemma frame_ProcessFulls vc :
  respects frame below_Build (ProcessFulls BITSETSIZE isEdge vc).
Proof. unfold ProcessFulls. frame_auto. Qed.

Lemma frame_or_add x y v count added :
  respects frame below_Build (or_add x y v count added).
Proof. unfold or_add. frame_auto. Qed.

#[local] Hint Resolve frame_or_add : frame.

Lemma frame_OrRule_loop fuel xc yc N maxOrs cap index ors ands d count added :
  respects frame below_Build
    (OrRule_loop BITSETSIZE fuel xc yc N maxOrs cap index ors ands d count added).
Proof.
  revert index ors ands d count added.
  induction fuel as [| fuel IH]; intros; cbn [OrRule_loop]; frame_auto.
Qed.

#[local] Hint Resolve frame_OrRule_loop : frame.

Lemma frame_OrRule fuel vc xc yc added maxOrs :
  respects frame below_Build (OrRule BITSETSIZE fuel vc xc yc added maxOrs).
Proof. unfold OrRule. frame_auto. Qed.

#[local] Hint Resolve frame_OrRule : frame.

Lemma frame_Add_loop mem start remaining cap inter uni :
  respects frame below_Build (Add_loop mem start remaining cap inter uni).
Proof.
  revert start inter uni.
  induction remaining as [| r IH]; intros; cbn [Add_loop]; frame_auto.
Qed.

#[local] Hint Resolve frame_Add_loop : frame.

Lemma frame_Combiner_Add c mem added start count cap :
  respects frame below_Build
    (Combiner_Add BITSETSIZE c mem added start count cap).
Proof. unfold Combiner_Add. frame_auto. Qed.

#[local] Hint Resolve frame_Combiner_Add : frame.

Lemma frame_Search fuel c :
  (∀ forbidden cX cY ns nsc osc fc mem added,
      respects frame below_Build
        (Search BITSETSIZE fuel c forbidden cX cY ns nsc osc fc mem added))
  ∧ (∀ forbidden cX cY ns nsc osc fc nc ncc mem added,
      respects frame below_Build
        (Search_loop BITSETSIZE fuel c forbidden cX cY ns nsc osc fc
                     nc ncc mem added)).
Proof.
  induction fuel as [| fuel [IH1 IH2]]; split; intros;
    cbn [Search Search_loop]; frame_auto.
Qed.

Lemma frame_DoOr fuel xc yc added :
  respects frame below_Build (DoOr BITSETSIZE fuel xc yc added).
Proof.
  unfold DoOr. pose proof (frame_Search fuel) as HS. frame_auto.
  apply HS.
Qed.

#[local] Hint Resolve frame_DoOr : frame.

Lemma frame_mark_semi_processed xc yc idx :
  respects frame below_Build (mark_semi_processed xc yc idx).
Proof. unfold mark_semi_processed. frame_auto. Qed.

#[local] Hint Resolve frame_mark_semi_processed : frame.

Lemma frame_ProcessSemis_bounded_loop fuel xc yc idxs added :
  respects frame below_Build
    (ProcessSemis_bounded_loop BITSETSIZE fuel xc yc idxs added).
Proof.
  revert added. induction idxs as [| idx rest IH]; intros;
    cbn [ProcessSemis_bounded_loop]; unfold ProcessSemis_bounded_entry; frame_auto.
Qed.

Lemma frame_ProcessSemis_all xc yc cap added :
  respects frame below_Build (ProcessSemis_all BITSETSIZE xc yc cap added).
Proof. unfold ProcessSemis_all. frame_auto. Qed.

#[local] Hint Resolve frame_ProcessSemis_bounded_loop frame_ProcessSemis_all : frame.

Lemma frame_ProcessSemis fuel xc yc :
  respects frame below_Build (ProcessSemis BITSETSIZE fuel xc yc).
Proof. unfold ProcessSemis. frame_auto. Qed.

Lemma winning_connection_found_inr s w s' :
  winning_connection_found colorEdge1 colorEdge2 s = inr (w, s') →
  s' = s ∧ (w = true → abort_on_winning_connection (m_param s) = true).
Proof.
  intros [= <- <-]. split; [done |]. by intros [? _]%andb_true_iff.
Qed.

End FrameLemmas.


(** ** The queue of endpoint pairs *)

(** [Push] never marks a pair of two different cells: from [Clear] on, the
    marks of [m_seen] are on the diagonal. *)
Inductive queue_reachable : SemiEndsQueue.t → Prop :=
  | reach_Clear q : queue_reachable (SemiEndsQueue.Clear q)
  | reach_Push p q : queue_reachable q → queue_reachable (SemiEndsQueue.Push p q)
  | reach_Pop q q' :
      queue_reachable q → SemiEndsQueue.Pop q = Some q' → queue_reachable q'.

Lemma seen_on_diagonal q a b :
  queue_reachable q → (a, b) ∈ SemiEndsQueue.m_seen q → a = b.
Proof.
  induction 1 as [q | p q Hq IH | q q' Hq IH Hpop]; cbn.
  - set_solver.
  - unfold SemiEndsQueue.Push. case_bool_decide; cbn; [done |].
    intros [[= -> ->]%elem_of_singleton | ?]%elem_of_union; auto.
  - unfold SemiEndsQueue.Pop in Hpop.
    destruct (SemiEndsQueue.Front q) as [p |]; [| done].
    apply (inj Some) in Hpop. subst q'. cbn. set_solver.
Qed.

Lemma Push_proper_pair_always_inserts q x y :
  queue_reachable q → x ≠ y →
  SemiEndsQueue.m_array (SemiEndsQueue.Push (x, y) q)
  = SemiEndsQueue.m_array q ++ [(x `min` y, x `max` y)].
Proof.
  intros Hq Hxy. unfold SemiEndsQueue.Push. cbn. case_bool_decide as Hin; [| done].
  apply (seen_on_diagonal _ _ _ Hq) in Hin. lia.
Qed.

(** C1 (as the code behaves): after [Clear], pushing the pair (1, 2) and
    then the same unordered pair (2, 1), with no [Pop] in between, leaves
    the normalised pair (1, 2) twice in the queue: the second [Push] is not
    suppressed, since the first one marked [m_seen[1][1]] and not
    [m_seen[1][2]]. *)
Theorem C1_second_push_inserts_again (q : SemiEndsQueue.t) :
  SemiEndsQueue.pending
    (SemiEndsQueue.Push (2, 1) (SemiEndsQueue.Push (1, 2) (SemiEndsQueue.Clear q)))
  = [(1, 2); (1, 2)].
Proof. vm_compute. reflexivity. Qed.

(** ** The fixed-point search *)

Section Search.
Variable BITSETSIZE : nat.
Variable isEdge : HexPoint → bool.
Variable colorEdge1 colorEdge2 : HexColor → HexPoint.

(** C6: in an iteration of the loop of [DoSearch] that goes through, when
    the queue of Fulls is not empty its front is popped and processed and
    the front of the queue of pairs stays where it is; and when the front
    of the queue of pairs has moved, the queue of Fulls was empty, and the
    pair popped was processed by [ProcessSemis]. *)
Theorem C6_semis_popped_only_when_fulls_empty or_fuel s r s' :
  DoSearch_iter BITSETSIZE isEdge colorEdge1 colorEdge2 or_fuel s = inr (r, s') →
  (FullVCQueue.Empty (m_fulls_queue s) = false →
     ∃ vc, FullVCQueue.Front (m_fulls_queue s) = Some vc
       ∧ ProcessFulls BITSETSIZE isEdge vc
           (set_m_fulls_queue (FullVCQueue.Pop (m_fulls_queue s)) s) = inr (tt, s')
       ∧ FullVCQueue.m_head (m_fulls_queue s')
         = S (FullVCQueue.m_head (m_fulls_queue s))
       ∧ SemiEndsQueue.m_head (m_semis_queue s')
         = SemiEndsQueue.m_head (m_semis_queue s))
  ∧ (SemiEndsQueue.m_head (m_semis_queue s')
       ≠ SemiEndsQueue.m_head (m_semis_queue s) →
     FullVCQueue.Empty (m_fulls_queue s) = true
     ∧ ∃ pair q, SemiEndsQueue.Front (m_semis_queue s) = Some pair
         ∧ SemiEndsQueue.Pop (m_semis_queue s) = Some q
         ∧ ProcessSemis BITSETSIZE or_fuel pair.1 pair.2 (set_m_semis_queue q s)
           = inr (tt, s')
         ∧ FullVCQueue.m_head (m_fulls_queue s')
           = FullVCQueue.m_head (m_fulls_queue s)).
Proof.
  unfold DoSearch_iter. intros (s0 & ? & [= <- <-] & H)%bind_inr.
  destruct (FullVCQueue.Empty (m_fulls_queue s)) eqn:Hfulls.
  - split; [done |]. intros Hne. split; [done |].
    destruct (SemiEndsQueue.Empty (m_semis_queue s)).
    { injection H as _ Hs. by subst s'. }
    apply bind_inr in H as (pair & ? & [Hfront ->]%deref_inr & H).
    apply bind_inr in H as (q & ? & [Hpop ->]%deref_inr & H).
    apply bind_inr in H as ([] & ? & [= <-] & H).
    apply bind_inr in H as ([] & s1 & Hsemis & H).
    apply bind_inr in H as (w & ? & [-> _]%winning_connection_found_inr & [= _ <-]).
    exists pair, q. split_and!; try done.
    by destruct (respects_inr _ _ _ _ _ _ (frame_ProcessSemis _ _ _ _) Hsemis).
  - apply bind_inr in H as (vc & ? & [Hfront ->]%deref_inr & H).
    apply bind_inr in H as ([] & ? & [= <-] & H).
    apply bind_inr in H as ([] & s1 & Hfull & H).
    apply bind_inr in H as (w & ? & [-> _]%winning_connection_found_inr & [= _ <-]).
    destruct (respects_inr _ _ _ _ _ _ (frame_ProcessFulls _ _ _) Hfull)
      as [_ _ _ _ _ _ Hfh Hsh].
    split; [| cbn in Hsh; congruence].
    intros _. exists vc. split_and!; done.
Qed.

Lemma DoSearch_iter_inr or_fuel s r s' :
  DoSearch_iter BITSETSIZE isEdge colorEdge1 colorEdge2 or_fuel s = inr (r, s') →
  m_param s' = m_param s
  ∧ match r with
    | Some true => abort_on_winning_connection (m_param s') = true
    | Some false => FullVCQueue.Empty (m_fulls_queue s') = true
                    ∧ SemiEndsQueue.Empty (m_semis_queue s') = true
    | None => True
    end.
Proof.
  unfold DoSearch_iter. intros (s0 & ? & [= <- <-] & Hiter)%bind_inr.
  destruct (FullVCQueue.Empty (m_fulls_queue s)) eqn:Hfulls.
  - destruct (SemiEndsQueue.Empty (m_semis_queue s)) eqn:Hsemis.
    { by injection Hiter as <- <-. }
    apply bind_inr in Hiter as (pair & ? & [Hfront ->]%deref_inr & H1).
    apply bind_inr in H1 as (q & ? & [Hpop ->]%deref_inr & H1).
    apply bind_inr in H1 as ([] & ? & [= <-] & H1).
    apply bind_inr in H1 as ([] & s2 & Hsemis' & H1).
    apply bind_inr in H1
      as (w' & ? & [-> Hw]%winning_connection_found_inr & [= <- <-]).
    destruct (respects_inr _ _ _ _ _ _ (frame_ProcessSemis _ _ _ _) Hsemis')
      as [Hpar _ _ _ _ _ _ _].
    split; [done |]. destruct w'; cbn; auto.
  - apply bind_inr in Hiter as (vc & ? & [Hfront ->]%deref_inr & H1).
    apply bind_inr in H1 as ([] & ? & [= <-] & H1).
    apply bind_inr in H1 as ([] & s2 & Hfull & H1).
    apply bind_inr in H1
      as (w' & ? & [-> Hw]%winning_connection_found_inr & [= <- <-]).
    destruct (respects_inr _ _ _ _ _ _ (frame_ProcessFulls _ _ _) Hfull)
      as [Hpar _ _ _ _ _ _ _].
    split; [done |]. destruct w'; cbn; auto.
Qed.

Lemma DoSearch_loop_inr fuel or_fuel s w s' :
  DoSearch_loop BITSETSIZE isEdge colorEdge1 colorEdge2 fuel or_fuel s = inr (w, s') →
  m_param s' = m_param s
  ∧ (w = true → abort_on_winning_connection (m_param s') = true)
  ∧ (w = false →
     FullVCQueue.Empty (m_fulls_queue s') = true
     ∧ SemiEndsQueue.Empty (m_semis_queue s') = true).
Proof.
  revert s. induction fuel as [| fuel IH]; intros s; [done |].
  cbn [DoSearch_loop]. intros (r & s1 & [Hp Hr]%DoSearch_iter_inr & H)%bind_inr.
  destruct r as [w' |].
  - injection H as <- <-. split; [done |]. destruct w'; split; intros; done.
  - apply IH in H as (? & ? & ?). split_and!; [congruence | done..].
Qed.

(** When [DoSearch] returns and [abort_on_winning_connection] is false,
    both queues are empty: the front of each is at the end of its
    vector. *)
Lemma DoSearch_leaves_queues_empty fuel or_fuel s s' :
  abort_on_winning_connection (m_param s) = false →
  DoSearch BITSETSIZE isEdge colorEdge1 colorEdge2 fuel or_fuel s = inr (tt, s') →
  FullVCQueue.Empty (m_fulls_queue s') = true
  ∧ SemiEndsQueue.Empty (m_semis_queue s') = true
  ∧ FullVCQueue.m_head (m_fulls_queue s')
    = length (FullVCQueue.m_array (m_fulls_queue s'))
  ∧ SemiEndsQueue.pending (m_semis_queue s') = [].
Proof.
  intros Habort. unfold DoSearch.
  intros (w & s1 & (Hp & Hw & He)%DoSearch_loop_inr & H)%bind_inr.
  apply bind_inr in H as (? & ? & [= <- <-] & [_ ->]%assert_inr).
  destruct w.
  { rewrite Hp, Habort in Hw. by specialize (Hw eq_refl). }
  destruct (He eq_refl) as [He1 He2]. split_and!; try done.
  - by apply bool_decide_eq_true in He1.
  - apply bool_decide_eq_true in He2. unfold SemiEndsQueue.pending.
    rewrite He2. apply drop_all.
Qed.
End Search.

(** Every connection of the set is processed. *)
Definition all_processed (c : VCSet.t) : Prop :=
  ∀ ty x y v, v ∈ VCList.entries (VCSet.GetList ty x y c) → Processed v = true.

Lemma C6_witness :
  DoSearch_iter Tiny.B Tiny.isEdge Tiny.colorEdge1 Tiny.colorEdge2 100 Tiny.seeded
    = inr (None, Tiny.stepped)
  ∧ ((FullVCQueue.Empty (m_fulls_queue Tiny.seeded) = false →
       ∃ vc, FullVCQueue.Front (m_fulls_queue Tiny.seeded) = Some vc
         ∧ ProcessFulls Tiny.B Tiny.isEdge vc
             (set_m_fulls_queue (FullVCQueue.Pop (m_fulls_queue Tiny.seeded)) Tiny.seeded)
           = inr (tt, Tiny.stepped)
         ∧ FullVCQueue.m_head (m_fulls_queue Tiny.stepped)
           = S (FullVCQueue.m_head (m_fulls_queue Tiny.seeded))
         ∧ SemiEndsQueue.m_head (m_semis_queue Tiny.stepped)
           = SemiEndsQueue.m_head (m_semis_queue Tiny.seeded))
    ∧ (SemiEndsQueue.m_head (m_semis_queue Tiny.stepped)
         ≠ SemiEndsQueue.m_head (m_semis_queue Tiny.seeded) →
       FullVCQueue.Empty (m_fulls_queue Tiny.seeded) = true
       ∧ ∃ pair q, SemiEndsQueue.Front (m_semis_queue Tiny.seeded) = Some pair
           ∧ SemiEndsQueue.Pop (m_semis_queue Tiny.seeded) = Some q
           ∧ ProcessSemis Tiny.B 100 pair.1 pair.2 (set_m_semis_queue q Tiny.seeded)
             = inr (tt, Tiny.stepped)
           ∧ FullVCQueue.m_head (m_fulls_queue Tiny.stepped)
             = FullVCQueue.m_head (m_fulls_queue Tiny.seeded))).
Proof.
  assert (DoSearch_iter Tiny.B Tiny.isEdge Tiny.colorEdge1 Tiny.colorEdge2 100 Tiny.seeded
          = inr (None, Tiny.stepped)) as H by (vm_compute; reflexivity).
  split; [exact H |].
  exact (C6_semis_popped_only_when_fulls_empty
           Tiny.B Tiny.isEdge Tiny.colorEdge1 Tiny.colorEdge2 100
           Tiny.seeded None Tiny.stepped H).
Defined.



(** ** The captured sets *)

(** What a round of [ComputeCapturedSets] on the cell [q] may change: the
    captured set of [q]. *)
Record cap_only (q : HexPoint) (s s' : VCBuilder) : Prop := mkCapOnly {
  cap_only_brd : m_brd s' = m_brd s;
  cap_only_color : m_color s' = m_color s;
  cap_only_other : ∀ p, p ≠ q → m_capturedSet s' p = m_capturedSet s p
}.

#[global] Instance cap_only_preorder q : PreOrder (cap_only q).
Proof.
  split.
  - by intros s.
  - intros s1 s2 s3 [? ? H12] [? ? H23]. split; [congruence.. |].
    intros p Hp. by rewrite H23, H12.
Qed.

Definition never : Err → Prop := λ _, False.

Lemma respects_never_inr {A} R (m : M A) s :
  respects R never m → ∃ a s', m s = inr (a, s') ∧ R s s'.
Proof.
  intros Hm. specialize (Hm s). destruct (m s) as [e | [a s']]; [done | eauto].
Qed.

Lemma ComputeCapturedSets_cell_cap_only patterns q :
  respects (cap_only q) never (ComputeCapturedSets_cell patterns q).
Proof.
  unfold ComputeCapturedSets_cell.
  assert (∀ f : bitset → bitset,
            respects (cap_only q) never
              (modify (λ s, set_m_capturedSet
                              (<[ q := f (m_capturedSet s q) ]> (m_capturedSet s)) s)))
    as Hmod.
  { intros f. apply respects_modify. intros s. split; [done.. |].
    intros p Hp. cbn. by rewrite fn_lookup_insert_ne. }
  apply respects_bind; [apply _ | apply (Hmod (λ _, ∅)) | intros _].
  apply respects_bind; [apply _ | apply respects_get, _ | intros s].
  apply respects_when; [apply _ |].
  destruct (MatchOnCell patterns (m_color s) q) as [| hit hits].
  - apply respects_ret, _.
  - apply respects_for_each; [apply _ | intros _]. cbn [lookup list_lookup deref].
    apply respects_bind; [apply _ | apply respects_ret, _ | intros hit'].
    apply respects_for_each; [apply _ | intros mv].
    apply (Hmod (λ c, Bitset.set c mv)).
Qed.

Lemma ComputeCapturedSets_cell_occupied patterns q s :
  GetColor (m_brd s) q ≠ EMPTY →
  ComputeCapturedSets_cell patterns q s
  = inr (tt, set_m_capturedSet (<[ q := ∅ ]> (m_capturedSet s)) s).
Proof.
  intros Hq. unfold ComputeCapturedSets_cell, mbind, M_bind. cbn.
  by rewrite bool_decide_eq_false_2.
Qed.

Lemma ComputeCapturedSets_loop patterns cells s :
  ∃ s', for_each cells (ComputeCapturedSets_cell patterns) s = inr (tt, s')
    ∧ m_brd s' = m_brd s
    ∧ (∀ p, p ∉ cells → m_capturedSet s' p = m_capturedSet s p)
    ∧ (∀ p, p ∈ cells → GetColor (m_brd s) p ≠ EMPTY → m_capturedSet s' p = ∅).
Proof.
  revert s. induction cells as [| q cells IH]; intros s.
  { exists s. split_and!; [done.. |]. by intros p ?%elem_of_nil. }
  destruct (respects_never_inr _ _ s (ComputeCapturedSets_cell_cap_only patterns q))
    as ([] & s1 & Hq & [Hbrd Hcol Hother]).
  destruct (IH s1) as (s' & Hrest & Hbrd' & Hout & Hin).
  exists s'. split_and!.
  - cbn [for_each]. unfold mbind, M_bind. by rewrite Hq.
  - congruence.
  - intros p [Hpq Hp]%not_elem_of_cons. rewrite Hout by done. by apply Hother.
  - intros p Hp Hocc. destruct (decide (p ∈ cells)) as [Hpc | Hpc].
    + apply Hin; [done | by rewrite Hbrd].
    + assert (p = q) as -> by (apply elem_of_cons in Hp as [|]; done).
      rewrite Hout by done.
      rewrite (ComputeCapturedSets_cell_occupied _ _ _ Hocc) in Hq.
      assert (s1 = set_m_capturedSet (<[ q := ∅ ]> (m_capturedSet s)) s) as ->
        by congruence.
      cbn. apply fn_lookup_insert.
Qed.

(** C10: [ComputeCapturedSets] returns, and afterwards the captured set of
    every cell of the board that is not empty (a stone of either colour, an
    edge) is empty, so that uniting it with a carrier adds nothing. *)
Theorem C10_captured_set_empty_on_occupied_cells (patterns : PatternState)
    (s : VCBuilder) :
  ∃ s', ComputeCapturedSets patterns s = inr (tt, s')
    ∧ m_brd s' = m_brd s
    ∧ ∀ p, p ∈ EdgesAndInterior (m_brd s) → GetColor (m_brd s) p ≠ EMPTY →
        m_capturedSet s' p = ∅ ∧ ∀ c : bitset, c ∪ m_capturedSet s' p = c.
Proof.
  destruct (ComputeCapturedSets_loop patterns (EdgesAndInterior (m_brd s)) s)
    as (s' & Hrun & Hbrd & _ & Hin).
  exists s'. split_and!; [done.. |].
  intros p Hp Hocc. rewrite (Hin p Hp Hocc). split; [done | set_solver].
Qed.

(** ** The incremental build *)

Definition any_state : relation VCBuilder := λ _ _, True.

#[global] Instance any_state_preorder : PreOrder any_state.
Proof. by split. Qed.

Lemma below_of_frame {A} (m : M A) :
  respects frame below_Build m → respects any_state below_Build m.
Proof. by apply respects_weaken. Qed.

Create HintDb below discriminated.

Ltac below_auto :=
  repeat first [ respects_step ltac:(by unfold below_Build)
               | by apply respects_modify
               | solve [auto with below]
               | solve [apply below_of_frame; auto with frame] ].

Section Below.
Variable BITSETSIZE : nat.
Variable isEdge : HexPoint → bool.
Variable colorEdge1 colorEdge2 : HexColor → HexPoint.
Variable GetPatterns : nat → nat → HexColor → list VCPattern.

#[local] Hint Resolve frame_stat_add frame_stat_incr frame_on_list frame_log_Push
  frame_PushFull frame_ProcessFulls frame_ProcessSemis : frame.

Lemma below_ComputeCapturedSets patterns :
  respects any_state below_Build (ComputeCapturedSets patterns).
Proof. unfold ComputeCapturedSets, ComputeCapturedSets_cell. below_auto. Qed.

Lemma below_AddPatternVCs :
  respects any_state below_Build (AddPatternVCs isEdge GetPatterns).
Proof. unfold AddPatternVCs, con_Add. below_auto. Qed.

Lemma below_RemoveAllContaining oldGroups bs :
  respects any_state below_Build (RemoveAllContaining oldGroups bs).
Proof. unfold RemoveAllContaining. below_auto. Qed.

Lemma below_shrink_semis added xout yout removed wasShrink :
  respects any_state below_Build (shrink_semis added xout yout removed wasShrink).
Proof.
  revert wasShrink. induction removed as [| it rest IH]; intros;
    cbn [shrink_semis]; below_auto.
Qed.

#[local] Hint Resolve below_shrink_semis : below.

Lemma below_MergeAndShrink added xin yin xout yout :
  respects any_state below_Build (MergeAndShrink added xin yin xout yout).
Proof. unfold MergeAndShrink, shrink_full, upgrade_semi. below_auto. Qed.

#[local] Hint Resolve below_MergeAndShrink below_RemoveAllContaining : below.

Lemma below_Merge oldGroups added :
  respects any_state below_Build (Merge BITSETSIZE oldGroups added).
Proof. unfold Merge, MergeAndShrink_all. below_auto. Qed.

Lemma below_rebuild_nbs newGroups :
  respects any_state below_Build (rebuild_nbs newGroups).
Proof. unfold rebuild_nbs. below_auto. Qed.

Lemma below_DoSearch_loop fuel or_fuel :
  respects any_state below_Build
    (DoSearch_loop BITSETSIZE isEdge colorEdge1 colorEdge2 fuel or_fuel).
Proof.
  induction fuel as [| fuel IH]; cbn [DoSearch_loop];
    unfold DoSearch_iter, winning_connection_found; below_auto.
Qed.

#[local] Hint Resolve below_DoSearch_loop : below.

Lemma below_DoSearch fuel or_fuel :
  respects any_state below_Build
    (DoSearch BITSETSIZE isEdge colorEdge1 colorEdge2 fuel or_fuel).
Proof. unfold DoSearch. below_auto. Qed.

#[local] Hint Resolve below_ComputeCapturedSets below_AddPatternVCs below_Merge
  below_rebuild_nbs below_DoSearch : below.

(** C8: the incremental [Build] fails the assertion of its first line
    exactly when a cell is in both [added[BLACK]] and [added[WHITE]]: a
    call with such sets is stopped there, whatever the builder's state,
    and with disjoint sets no run ends at that assertion. *)
Theorem C8_added_sets_disjoint_assertion fuel or_fuel con oldGroups newGroups
    patterns (added : HexColor → bitset) log s :
  Build_incremental BITSETSIZE isEdge colorEdge1 colorEdge2 GetPatterns
    fuel or_fuel con oldGroups newGroups patterns added log s
  = inl (AssertFailure 188)
  ↔ added BLACK ∩ added WHITE ≠ ∅.
Proof.
  unfold Build_incremental, Bitset.none.
  destruct (decide (added BLACK ∩ added WHITE = ∅)) as [Hd | Hd].
  - rewrite bool_decide_eq_true_2 by done. split; [| done].
    change (BenzeneAssert 188 true) with (mret tt : M unit).
    intros Hrun.
    assert (below_Build (AssertFailure 188)) as Hb; [| by destruct Hb].
    eapply (respects_inl any_state below_Build); [| exact Hrun]. below_auto.
  - rewrite bool_decide_eq_false_2 by done. done.
Qed.
End Below.

Lemma C10_witness :
  ∃ s', ComputeCapturedSets Tiny.patterns (Tiny.fresh default_param) = inr (tt, s')
    ∧ m_brd s' = Tiny.brd
    ∧ ∀ p, p ∈ [0; 1; 2] → Tiny.color_of p ≠ EMPTY →
        m_capturedSet s' p = ∅ ∧ ∀ c : bitset, c ∪ m_capturedSet s' p = c.
Proof.
  exact (C10_captured_set_empty_on_occupied_cells Tiny.patterns (Tiny.fresh default_param)).
Defined.


(** ** Bitsets and their iteration *)

Lemma elem_of_universe B i : i ∈ Bitset.universe B ↔ i < B.
Proof. unfold Bitset.universe. rewrite elem_of_set_seq. lia. Qed.

Lemma elem_of_bits B b i : i ∈ Bitset.bits B b ↔ i ∈ b ∧ i < B.
Proof.
  unfold Bitset.bits. rewrite list_elem_of_filter, elem_of_seq. intuition lia.
Qed.

Lemma NoDup_bits B b : NoDup (Bitset.bits B b).
Proof. apply list.NoDup_filter, NoDup_seq. Qed.

Lemma bits_nil B b : Bitset.wf B b → Bitset.bits B b = [] ↔ b = ∅.
Proof.
  intros Hwf. split.
  - intros Hnil. apply set_eq. intros i. split; [| set_solver].
    intros Hi. assert (i ∈ Bitset.bits B b) as Hin.
    { apply elem_of_bits. split; [done |]. by apply elem_of_universe, Hwf. }
    rewrite Hnil in Hin. by apply elem_of_nil in Hin.
  - intros ->. apply elem_of_nil_inv. intros i [Hi _]%elem_of_bits. set_solver.
Qed.

Lemma bits_singleton B b k :
  Bitset.wf B b → Bitset.bits B b = [k] ↔ b = {[ k ]}.
Proof.
  intros Hwf. split.
  - intros Hbits. apply set_eq. intros i. rewrite elem_of_singleton. split.
    + intros Hi. assert (i ∈ Bitset.bits B b) as Hin.
      { apply elem_of_bits. split; [done |]. by apply elem_of_universe, Hwf. }
      rewrite Hbits in Hin. by apply list_elem_of_singleton in Hin.
    + intros ->. assert (k ∈ Bitset.bits B b) as [? _]%elem_of_bits; [| done].
      rewrite Hbits. apply list_elem_of_here.
  - intros ->. pose proof (NoDup_bits B {[ k ]}) as Hnd.
    assert (k ∈ Bitset.bits B {[ k ]}) as Hk.
    { apply elem_of_bits. split; [set_solver |].
      apply elem_of_universe, Hwf. set_solver. }
    assert (∀ i, i ∈ Bitset.bits B {[ k ]} → i = k) as Hall.
    { intros i [Hi _]%elem_of_bits. set_solver. }
    destruct (Bitset.bits B {[ k ]}) as [| a [| a' l]].
    + by apply elem_of_nil in Hk.
    + f_equal. apply Hall, list_elem_of_here.
    + exfalso. apply list.NoDup_cons in Hnd as [Hnot _]. apply Hnot.
      rewrite (Hall a) by apply list_elem_of_here.
      rewrite (Hall a') by apply list_elem_of_further, list_elem_of_here.
      apply list_elem_of_here.
Qed.

Lemma none_true b : Bitset.none b = true ↔ b = ∅.
Proof. unfold Bitset.none. apply bool_decide_eq_true. Qed.

Lemma none_false b : Bitset.none b = false ↔ b ≠ ∅.
Proof. unfold Bitset.none. apply bool_decide_eq_false. Qed.

Lemma IsSubsetOf_true a b : Bitset.IsSubsetOf a b = true ↔ a ⊆ b.
Proof. unfold Bitset.IsSubsetOf. apply bool_decide_eq_true. Qed.

Lemma IsSubsetOf_false a b : Bitset.IsSubsetOf a b = false ↔ ¬ a ⊆ b.
Proof. unfold Bitset.IsSubsetOf. apply bool_decide_eq_false. Qed.

Lemma test_true b i : Bitset.test b i = true ↔ i ∈ b.
Proof. unfold Bitset.test. apply bool_decide_eq_true. Qed.

Lemma test_false b i : Bitset.test b i = false ↔ i ∉ b.
Proof. unfold Bitset.test. apply bool_decide_eq_false. Qed.

(** ** The AND rule *)

Section AndRule.
Variable BITSETSIZE : nat.


(** C4: for a processed Full [a] and the Full [vc] whose carriers meet in
    a set [I] that is not inside the captured set (with [to] outside the
    carrier of [a]): when the rule is to create a Semi, nothing is
    attempted; when it is to create a Full, something is attempted only if
    [I] without the captured set is a single cell [k], and then every
    attempt is a Semi with key [k] (the one widened by the captured set,
    preceded by the plain one when [I] itself is the single cell [k]). *)
Theorem C4_singleton_intersection_fallback (from over to : HexPoint) (vc a : VC)
    (capturedSet : bitset) (rule : AndRule) (s : VCBuilder) :
  Processed a = true → to ∉ Carrier a → Bitset.wf BITSETSIZE (Carrier a) →
  Carrier a ∩ Carrier vc ≠ ∅ → ¬ Carrier a ∩ Carrier vc ⊆ capturedSet →
  let inter := Carrier a ∩ Carrier vc in
  let run := DoAnd_entry BITSETSIZE from over to rule vc capturedSet a s in
  (rule = CREATE_SEMI → run = inr (tt, s))
  ∧ (rule = CREATE_FULL → (∀ k, inter ∖ capturedSet ≠ {[ k ]}) → run = inr (tt, s))
  ∧ (rule = CREATE_FULL → ∀ k, inter ∖ capturedSet = {[ k ]} →
     let v1 := AndVCs_key from to a vc k in
     let v2 := AndVCs_captured_key from to a vc capturedSet k in
     run = (when (bool_decide (inter = {[ k ]})) (try_and_semi v1) ;;
            try_and_semi v2) s
     ∧ GetType v1 = SEMI ∧ Key v1 = Some k
     ∧ GetType v2 = SEMI ∧ Key v2 = Some k
     ∧ k ∈ Carrier v2 ∧ capturedSet ⊆ Carrier v2).
Proof.
  intros Hproc Hto Hwf Hne Hncap inter run. subst run. unfold DoAnd_entry.
  rewrite Hproc. cbn [negb].
  rewrite (proj2 (test_false _ _) Hto), (proj2 (none_false _) Hne).
  rewrite (proj2 (IsSubsetOf_false _ _) Hncap).
  fold inter.
  assert (Bitset.wf BITSETSIZE inter) as Hwi.
  { unfold Bitset.wf, inter in *. set_solver. }
  assert (Bitset.wf BITSETSIZE (inter ∖ capturedSet)) as Hwd.
  { unfold Bitset.wf in *. set_solver. }
  split_and!.
  - intros ->. done.
  - intros -> Hnot. rewrite !bool_decide_eq_true_2 by done. cbn [when].
    destruct (Bitset.bits BITSETSIZE (inter ∖ capturedSet)) as [| k [| k' l]] eqn:Hb.
    { apply bits_nil in Hb; [| done]. exfalso. apply Hncap. set_solver. }
    { apply bits_singleton in Hb; [| done]. by destruct (Hnot k). }
    destruct (Bitset.bits BITSETSIZE inter) as [| j [| j' l']] eqn:Hbi.
    { apply bits_nil in Hbi; done. }
    { apply bits_singleton in Hbi; [| done]. exfalso.
      assert (k ∈ Bitset.bits BITSETSIZE (inter ∖ capturedSet)) as Hk
        by (rewrite Hb; apply list_elem_of_here).
      assert (k' ∈ Bitset.bits BITSETSIZE (inter ∖ capturedSet)) as Hk'
        by (rewrite Hb; apply list_elem_of_further, list_elem_of_here).
      pose proof (NoDup_bits BITSETSIZE (inter ∖ capturedSet)) as Hnd.
      rewrite Hb in Hnd. apply list.NoDup_cons in Hnd as [Hnd _].
      apply elem_of_bits in Hk as [Hk _]. apply elem_of_bits in Hk' as [Hk' _].
      apply Hnd. assert (k = j) as -> by set_solver.
      assert (k' = j) as -> by set_solver. apply list_elem_of_here. }
    unfold singleton_fallback, mbind, M_bind. rewrite Hb, Hbi.
    by rewrite !bool_decide_eq_false_2.
  - intros -> k Hk. rewrite !bool_decide_eq_true_2 by done. cbn [when].
    split; [| split_and!; [reflexivity.. | |]; cbn; unfold Bitset.set; set_solver].
    assert (Bitset.bits BITSETSIZE (inter ∖ capturedSet) = [k]) as Hb
      by by apply bits_singleton.
    destruct (decide (inter = {[ k ]})) as [Hi | Hi].
    + pose proof (proj2 (bits_singleton _ _ k Hwi) Hi) as Hbi.
      unfold singleton_fallback. rewrite Hb, Hbi.
      by rewrite !bool_decide_eq_true_2.
    + rewrite (bool_decide_eq_false_2 (inter = _)) by done.
      destruct (Bitset.bits BITSETSIZE inter) as [| j [| j' l']] eqn:Hbi.
      { apply bits_nil in Hbi; done. }
      { apply bits_singleton in Hbi; [| done]. exfalso. apply Hi.
        rewrite Hbi in *. set_solver. }
      unfold singleton_fallback. rewrite Hb, Hbi.
      rewrite (bool_decide_eq_true_2 (_ = [])) by done.
      by rewrite bool_decide_eq_false_2.
Qed.
End AndRule.


(** ** Lists and sets of connections *)

Lemma insert_sorted_elem v es : v ∈ (VCList.insert_sorted v es).2.
Proof.
  induction es as [| w es IH]; cbn.
  - apply list_elem_of_here.
  - case_decide.
    + destruct (VCList.insert_sorted v es) as [i r]. cbn in *.
      by apply list_elem_of_further.
    + apply list_elem_of_here.
Qed.

Lemma Add_failed vc log l :
  VCList.IsSupersetOfAny l (Carrier vc) = true →
  VCList.Add vc log l = (ADD_FAILED, l, log).
Proof. intros H. unfold VCList.Add. by rewrite H. Qed.

Lemma Add_succeeded vc log l :
  VCList.IsSupersetOfAny l (Carrier vc) = false →
  ∃ r l' log', VCList.Add vc log l = (r, l', log')
    ∧ added_ok r = true ∧ vc ∈ VCList.entries l'
    ∧ VCList.GetX l' = VCList.GetX l ∧ VCList.GetY l' = VCList.GetY l.
Proof.
  intros H. unfold VCList.Add. rewrite H.
  pose proof (insert_sorted_elem vc
                (VCList.non_supersets_of (Carrier vc) (VCList.entries l))) as Hin.
  destruct (VCList.insert_sorted vc _) as [i es]. cbn in Hin.
  eexists _, _, _. split; [reflexivity |]. split_and!; [by case_decide | done..].
Qed.

Lemma Add_to_empty vc log l :
  VCList.entries l = [] →
  VCList.Add vc log l
  = (if decide (0 < VCList.Softlimit l) then ADDED_INSIDE_SOFT_LIMIT
     else ADDED_OUTSIDE_SOFT_LIMIT,
     VCList.with_entries l [vc], log_push log ADD vc).
Proof.
  intros He. unfold VCList.Add, VCList.IsSupersetOfAny.
  rewrite He. rewrite bool_decide_eq_false_2; [done |]. by intros ?%Exists_nil.
Qed.

Lemma non_supersets_of_elem c es w :
  w ∈ VCList.non_supersets_of c es → ¬ c ⊆ Carrier w.
Proof. unfold VCList.non_supersets_of. by intros [? _]%list_elem_of_filter. Qed.

Lemma GetList_SetList ty x y l c :
  VCSet.GetList ty x y (VCSet.SetList ty x y l c) = l.
Proof. unfold VCSet.GetList, VCSet.SetList. cbn. by rewrite lookup_insert_eq. Qed.

Lemma GetList_SetList_ne ty ty' x y x' y' l c :
  VCSet.key ty x y ≠ VCSet.key ty' x' y' →
  VCSet.GetList ty' x' y' (VCSet.SetList ty x y l c) = VCSet.GetList ty' x' y' c.
Proof.
  intros Hk. unfold VCSet.GetList, VCSet.SetList. cbn. by rewrite lookup_insert_ne.
Qed.

(** ** Explicit runs of the basic steps *)

Lemma on_list_run {A} ty x y (op : _ → _ → A * _ * _) s :
  on_list ty x y op s
  = inr ((op (m_log s) (VCSet.GetList ty x y (m_con s))).1.1,
         set_m_log (op (m_log s) (VCSet.GetList ty x y (m_con s))).2
           (set_m_con (VCSet.SetList ty x y
                         (op (m_log s) (VCSet.GetList ty x y (m_con s))).1.2
                         (m_con s)) s)).
Proof.
  unfold on_list, mbind, M_bind. cbn.
  by destruct (op (m_log s) (VCSet.GetList ty x y (m_con s))) as [[a l] log].
Qed.

Lemma PushFull_run vc s :
  ∃ nbs, PushFull vc s
         = inr (tt, set_m_nbs nbs
                      (set_m_fulls_queue (FullVCQueue.Push vc (m_fulls_queue s)) s)).
Proof. unfold PushFull, mbind, M_bind. cbn. eauto. Qed.

(** What [PushFull] and the counters leave alone: the set and the log. *)
Record same_con (s s' : VCBuilder) : Prop := mkSameCon {
  same_con_con : m_con s' = m_con s;
  same_con_log : m_log s' = m_log s;
  same_con_param : m_param s' = m_param s;
  same_con_capturedSet : m_capturedSet s' = m_capturedSet s
}.

#[global] Instance same_con_preorder : PreOrder same_con.
Proof.
  split.
  - by intros s.
  - intros s1 s2 s3 [] []. split; congruence.
Qed.

Lemma same_con_PushFull vc : respects same_con never (PushFull vc).
Proof.
  unfold PushFull.
  repeat first [ respects_step ltac:(done) | by apply respects_modify ].
Qed.

Lemma same_con_for_each_PushFull l :
  respects same_con never (for_each l PushFull).
Proof. apply respects_for_each; [apply _ |]. apply same_con_PushFull. Qed.

(** ** The upgrade of a Semi whose key was played *)



(** ** The bounded OR rule returns *)

Lemma bind_run {A B} (m : M A) (f : A → M B) s a s1 :
  m s = inr (a, s1) → (m ≫= f) s = f a s1.
Proof. intros H. unfold mbind, M_bind. by rewrite H. Qed.

#[global] Instance VC_inhabited : Inhabited VC := populate (VC_adjacent 0 0).

Lemma arr_get_run {A} `{Inhabited A} (arr : list A) i s :
  i < length arr → arr_get arr i s = inr (arr !!! i, s).
Proof.
  intros Hi. unfold arr_get. by rewrite (list_lookup_lookup_total_lt arr i Hi).
Qed.

Lemma arr_set_run {A} (arr : list A) i v s :
  i < length arr → arr_set arr i v s = inr (<[ i := v ]> arr, s).
Proof. intros Hi. unfold arr_set. by rewrite decide_True. Qed.

(** The number of iterations of the loop of the OR rule that are enough
    when [r] Semis are left at the top of the stack. *)
Fixpoint or_steps (r : nat) : nat :=
  match r with
  | 0 => 1
  | S r' => S (2 * or_steps r')
  end.

(** The iterations left for the levels [1 .. k] of the stack once the levels
    above are done: each goes on after its current Semi. *)
Fixpoint or_pending (N : nat) (index : list nat) (k : nat) : nat :=
  match k with
  | 0 => 0
  | S k' => or_pending N index k' + or_steps (N - S (index !!! S k'))
  end.

Definition or_measure (N : nat) (index : list nat) (d : nat) : nat :=
  or_steps (N - index !!! d) + or_pending N index (d - 1).

(** The stack of the loop: [index[d]] is at most [N], the entries below are
    indices of Semis. *)
Record or_inv (N : nat) (index : list nat) (ors ands : list bitset) (d : nat)
    : Prop := mkOrInv {
  inv_index : length index = 16;
  inv_ors : length ors = 16;
  inv_ands : length ands = 16;
  inv_d : 1 ≤ d < 16;
  inv_top : index !!! d ≤ N;
  inv_below : ∀ k, 1 ≤ k < d → index !!! k < N
}.

(** What the loop of the OR rule keeps of the state: the vectors of the
    rule, the list of Semis it reads, the parameters and the captured
    sets. *)
Record or_kept (xc yc : HexPoint) (s s' : VCBuilder) : Prop := mkOrKept {
  kept_semi : m_semi s' = m_semi s;
  kept_tail : m_tail s' = m_tail s;
  kept_list : VCSet.GetList SEMI xc yc (m_con s') = VCSet.GetList SEMI xc yc (m_con s);
  kept_param : m_param s' = m_param s;
  kept_capturedSet : m_capturedSet s' = m_capturedSet s
}.

#[global] Instance or_kept_preorder xc yc : PreOrder (or_kept xc yc).
Proof.
  split.
  - by intros s.
  - intros s1 s2 s3 [] []. split; congruence.
Qed.

Lemma or_steps_pos r : 1 ≤ or_steps r.
Proof. destruct r; cbn; lia. Qed.

Lemma or_steps_mono r r' : r ≤ r' → or_steps r ≤ or_steps r'.
Proof.
  intros Hr. induction Hr as [| r' _ IH]; [done |]. cbn. lia.
Qed.

Lemma or_steps_next N i : i < N → or_steps (N - i) = S (2 * or_steps (N - S i)).
Proof. intros Hi. by replace (N - i) with (S (N - S i)) by lia. Qed.

Lemma or_pending_insert N index k j v :
  k < j → or_pending N (<[ j := v ]> index) k = or_pending N index k.
Proof.
  intros Hj. induction k as [| k IH]; [done |]. cbn [or_pending].
  rewrite IH by lia. by rewrite list_lookup_total_insert_ne by lia.
Qed.

Lemma or_add_run xc yc v count added s :
  ∃ r s', or_add xc yc v count added s = inr (r, s') ∧ or_kept xc yc s s'.
Proof.
  unfold or_add. rewrite (bind_run _ _ _ tt _ eq_refl).
  rewrite (bind_run _ _ _ _ _ (on_list_run _ _ _ _ _)).
  assert (VCSet.key FULL xc yc ≠ VCSet.key SEMI xc yc) as Hk by done.
  destruct (added_ok _).
  - rewrite (bind_run _ _ _ tt _ eq_refl). eexists _, _. split; [reflexivity |].
    split; cbn; try done. by apply GetList_SetList_ne.
  - eexists _, _. split; [reflexivity |].
    split; cbn; try done. by apply GetList_SetList_ne.
Qed.

Section OrRuleReturns.
Variable BITSETSIZE : nat.

(** The loop of the OR rule returns when it has [or_measure] units of
    fuel: no read is out of the arrays, and the state is kept. *)
Lemma OrRule_loop_returns fuel xc yc N maxOrs cap :
  (maxOrs < 16)%Z →
  ∀ index ors ands d count added s0 s,
    or_measure N index d ≤ fuel → or_inv N index ors ands d →
    length (m_semi s) = N → N ≤ length (m_tail s) → or_kept xc yc s0 s →
    ∃ r s', OrRule_loop BITSETSIZE fuel xc yc N maxOrs cap index ors ands d
                        count added s = inr (r, s')
          ∧ or_kept xc yc s0 s'.
Proof.
  intros Hmax. induction fuel as [| fuel IH];
    intros index ors ands d count added s0 s Hfuel Hinv Hsemi Htail Hkept.
  { pose proof (or_steps_pos (N - index !!! d)). unfold or_measure in Hfuel. lia. }
  pose proof Hinv as [Hli Hlo Hla [Hd1 Hd16] Htop Hbelow].
  unfold or_measure in Hfuel.
  cbn [OrRule_loop].
  rewrite (bind_run _ _ _ s s eq_refl).
  rewrite (bind_run _ _ _ _ s eq_refl), (bind_run _ _ _ _ s eq_refl).
  cbv zeta.
  rewrite (bind_run _ _ _ _ _ (arr_get_run index d s ltac:(lia))).
  rewrite (bind_run _ _ _ _ _ (arr_get_run ands (d - 1) s ltac:(lia))).
  set (i0 := index !!! d) in *.
  set (and_prev := ands !!! (d - 1)).
  (* the index [i] after the test on the tail *)
  assert (∃ i, (i = N ∨ (i = i0 ∧ i0 < N))
               ∧ (if decide (i0 < N)
                  then t ← arr_get (m_tail s) i0;
                       mret (if Bitset.any (and_prev ∩ t ∩ Bitset.flip BITSETSIZE cap)
                             then N else i0)
                  else mret i0) s = inr (i, s)) as (i & Hi & Hrun).
  { destruct (decide (i0 < N)) as [Hlt | Hge].
    - assert (i0 < length (m_tail s)) as Hit by lia.
      rewrite (bind_run _ _ _ _ _ (arr_get_run (m_tail s) i0 s Hit)).
      destruct (Bitset.any _); eexists; (split; [| reflexivity]); auto.
    - exists i0. split; [left; lia | done]. }
  rewrite (bind_run _ _ _ _ _ Hrun). clear Hrun.
  destruct (decide (i = N)) as [HiN | HiN].
  - (* the level is done *)
    destruct (decide (d = 1)) as [-> | Hd].
    { eexists _, s. split; [reflexivity | done]. }
    rewrite (bind_run _ _ _ _ _ (arr_get_run index (d - 1) s ltac:(lia))).
    rewrite (bind_run _ _ _ _ _ (arr_set_run index (d - 1) _ s ltac:(lia))).
    apply IH; [| | done..].
    + unfold or_measure.
      rewrite list_lookup_total_insert_eq by lia.
      rewrite or_pending_insert by lia.
      replace (d - 1) with (S (d - 1 - 1)) in Hfuel at 1 by lia.
      cbn [or_pending] in Hfuel.
      replace (S (d - 1 - 1)) with (d - 1) in Hfuel by lia.
      pose proof (or_steps_pos (N - i0)). lia.
    + split; [by rewrite length_insert | done | done | lia | |].
      * rewrite list_lookup_total_insert_eq by lia.
        specialize (Hbelow (d - 1)). lia.
      * intros k Hk. rewrite list_lookup_total_insert_ne by lia.
        apply Hbelow. lia.
  - (* the Semi [i] is tried *)
    destruct Hi as [? | [-> Hlt]]; [done |].
    rewrite (bind_run _ _ _ _ _ (arr_get_run (m_semi s) i0 s ltac:(lia))).
    rewrite (bind_run _ _ _ _ _ (arr_get_run ors (d - 1) s ltac:(lia))).
    rewrite (bind_run _ _ _ _ _ (arr_set_run ands d _ s ltac:(lia))).
    rewrite (bind_run _ _ _ _ _ (arr_set_run ors d _ s ltac:(lia))).
    assert (or_measure N (<[ d := S i0 ]> index) d ≤ fuel) as Hstay.
    { unfold or_measure.
      rewrite list_lookup_total_insert_eq by lia.
      rewrite or_pending_insert by lia.
      rewrite (or_steps_next N i0 Hlt) in Hfuel. lia. }
    assert (∀ ors' ands', length ors' = 16 → length ands' = 16 →
              or_inv N (<[ d := S i0 ]> index) ors' ands' d) as Hinv_stay.
    { intros ors' ands' ? ?.
      split; [by rewrite length_insert | done | done | lia | |].
      - rewrite list_lookup_total_insert_eq by lia. lia.
      - intros k Hk. rewrite list_lookup_total_insert_ne by lia. by apply Hbelow. }
    assert (∀ count' added' s1, or_kept xc yc s s1 →
              ∃ r s',
                (arr_set index d (S i0) ≫= λ index',
                   OrRule_loop BITSETSIZE fuel xc yc N maxOrs cap index'
                     (<[ d := ors !!! (d - 1) ∪ Carrier (m_semi s !!! i0) ]> ors)
                     (<[ d := and_prev ∩ Carrier (m_semi s !!! i0) ]> ands)
                     d count' added') s1 = inr (r, s')
                ∧ or_kept xc yc s0 s') as Hnext.
    { intros count' added' s1 Hk1.
      rewrite (bind_run _ _ _ _ _ (arr_set_run index d _ s1 ltac:(lia))).
      apply IH; [done | | | |].
      - apply Hinv_stay; by rewrite length_insert.
      - by rewrite (kept_semi _ _ _ _ Hk1).
      - by rewrite (kept_tail _ _ _ _ Hk1).
      - by etrans. }
    destruct (Bitset.none _).
    { match goal with
      | |- context [or_add xc yc ?v count added] =>
          destruct (or_add_run xc yc v count added s) as ([count' added'] & s1 & Hadd & Hk1)
      end.
      rewrite (bind_run _ _ _ _ _ Hadd). by apply Hnext. }
    destruct (Bitset.IsSubsetOf _ _).
    { match goal with
      | |- context [or_add xc yc ?v count added] =>
          destruct (or_add_run xc yc v count added s) as ([count' added'] & s1 & Hadd & Hk1)
      end.
      rewrite (bind_run _ _ _ _ _ Hadd). by apply Hnext. }
    destruct (decide (_ = _)); [by apply Hnext |].
    destruct (decide (Z.of_nat d < maxOrs)%Z) as [Hdeep | _]; [| by apply Hnext].
    rewrite (bind_run _ _ _ _ _ (arr_set_run index (S d) _ s ltac:(lia))).
    apply IH; [| | done..].
    + unfold or_measure.
      rewrite list_lookup_total_insert_eq by lia.
      replace (S d - 1) with (S (d - 1)) by lia. cbn [or_pending].
      rewrite or_pending_insert by lia.
      replace (S (d - 1)) with d by lia.
      rewrite list_lookup_total_insert_ne by lia.
      fold i0. rewrite (or_steps_next N i0 Hlt) in Hfuel. lia.
    + split; [by rewrite length_insert | by rewrite length_insert
             | by rewrite length_insert | lia | |].
      * rewrite list_lookup_total_insert_eq by lia. lia.
      * intros k Hk. rewrite list_lookup_total_insert_ne by lia.
        destruct (decide (k = d)) as [-> | ?]; [done | apply Hbelow; lia].
Qed.
End OrRuleReturns.

(** ** The bounded mode of [ProcessSemis] returns *)

(** The list of Semis between [xc] and [yc] and the parameters are kept. *)
Record semis_kept (xc yc : HexPoint) (s s' : VCBuilder) : Prop := mkSemisKept {
  semis_kept_list :
    VCSet.GetList SEMI xc yc (m_con s') = VCSet.GetList SEMI xc yc (m_con s);
  semis_kept_param : m_param s' = m_param s
}.

#[global] Instance semis_kept_preorder xc yc : PreOrder (semis_kept xc yc).
Proof.
  split.
  - by intros s.
  - intros s1 s2 s3 [] []. split; congruence.
Qed.

(** The list of Semis between [xc] and [yc] keeps its length and its soft
    limit, and the parameters are kept. *)
Record semis_shape (xc yc : HexPoint) (s s' : VCBuilder) : Prop := mkSemisShape {
  shape_length :
    length (VCList.entries (VCSet.GetList SEMI xc yc (m_con s')))
    = length (VCList.entries (VCSet.GetList SEMI xc yc (m_con s)));
  shape_softlimit :
    VCList.Softlimit (VCSet.GetList SEMI xc yc (m_con s'))
    = VCList.Softlimit (VCSet.GetList SEMI xc yc (m_con s));
  shape_param : m_param s' = m_param s
}.

#[global] Instance semis_shape_preorder xc yc : PreOrder (semis_shape xc yc).
Proof.
  split.
  - by intros s.
  - intros s1 s2 s3 [] []. split; congruence.
Qed.

Lemma semis_kept_shape xc yc s s' : semis_kept xc yc s s' → semis_shape xc yc s s'.
Proof. intros [Hl Hp]. split; [by rewrite Hl.. | done]. Qed.

Lemma shape_soft_prefix xc yc s s' :
  semis_shape xc yc s s' →
  length (VCList.soft_prefix (VCSet.GetList SEMI xc yc (m_con s')))
  = length (VCList.soft_prefix (VCSet.GetList SEMI xc yc (m_con s))).
Proof.
  intros [Hl Hs _]. unfold VCList.soft_prefix. by rewrite !length_take, Hl, Hs.
Qed.

Lemma fill_tail_length semi tail i : length (fill_tail semi tail i) = length tail.
Proof.
  revert i. induction semi as [| v rest IH]; intros i; cbn [fill_tail]; [done |].
  destruct rest; rewrite length_insert; apply IH.
Qed.

Lemma semis_kept_stat_incr xc yc c : respects (semis_kept xc yc) never (stat_incr c).
Proof. apply respects_modify. by intros s. Qed.

Section BoundedReturns.
Variable BITSETSIZE : nat.

Lemma OrRule_returns fuel vc xc yc added maxOrs s :
  (maxOrs < 17)%Z →
  or_steps (length (VCList.soft_prefix (VCSet.GetList SEMI xc yc (m_con s)))) ≤ fuel →
  ∃ r s', OrRule BITSETSIZE fuel vc xc yc added maxOrs s = inr (r, s')
        ∧ semis_kept xc yc s s'.
Proof.
  intros Hmax Hfuel. unfold OrRule.
  rewrite (bind_run _ _ _ _ s eq_refl).
  set (semis := VCSet.GetList SEMI xc yc (m_con s)) in *.
  destruct (VCList.Empty semis); [by eexists _, s |].
  set (semi := filter (λ v, Processed v = true) (VCList.soft_prefix semis)).
  rewrite (bind_run _ _ _ tt _ eq_refl).
  destruct (bool_decide (semi = [])); [by eexists _, _ |].
  rewrite (bind_run _ _ _ tt _ eq_refl).
  rewrite (bind_run _ _ _ tt _) by by rewrite bool_decide_eq_true_2 by lia.
  rewrite (bind_run _ _ _ _ _ eq_refl).
  match goal with
  | |- ∃ r s', OrRule_loop _ _ _ _ _ ?m ?cap ?index ?ors ?ands _ _ _ ?s1 = _ ∧ _ =>
      destruct (OrRule_loop_returns BITSETSIZE fuel xc yc (length semi) m cap
                  ltac:(lia) index ors ands 1 0 added s1 s1)
        as (r & s' & Hrun & Hk)
  end.
  - unfold or_measure. cbn [or_pending Nat.sub].
    change ((<[ 1 := 0 ]> (replicate 16 0)) !!! 1) with 0.
    rewrite Nat.sub_0_r, Nat.add_0_r.
    etrans; [| exact Hfuel]. apply or_steps_mono. apply length_filter.
  - split; [done | done | done | lia | |].
    + change ((<[ 1 := 0 ]> (replicate 16 0)) !!! 1) with 0. lia.
    + intros k ?. lia.
  - done.
  - cbn. rewrite fill_tail_length. case_decide; [| lia].
    unfold resize. rewrite length_app, length_take, length_replicate. lia.
  - done.
  - exists r, s'. split; [exact Hrun |].
    destruct Hk as [_ _ Hl Hp _]. split; [by rewrite Hl | by rewrite Hp].
Qed.

Lemma mark_semi_processed_returns xc yc idx s :
  idx < length (VCList.entries (VCSet.GetList SEMI xc yc (m_con s))) →
  ∃ s', mark_semi_processed xc yc idx s = inr (tt, s') ∧ semis_shape xc yc s s'.
Proof.
  intros Hidx. unfold mark_semi_processed.
  rewrite (bind_run _ _ _ _ s eq_refl).
  destruct (lookup_lt_is_Some_2 _ _ Hidx) as [cur Hcur].
  rewrite (bind_run _ _ _ cur s) by by rewrite Hcur.
  rewrite (bind_run _ _ _ _ _ (on_list_run _ _ _ _ _)).
  eexists. split; [reflexivity |]. cbn.
  split; cbn; rewrite ?GetList_SetList; cbn; [by rewrite length_alter | done..].
Qed.

Lemma ProcessSemis_bounded_entry_returns fuel xc yc added idx s :
  idx < length (VCList.entries (VCSet.GetList SEMI xc yc (m_con s))) →
  (max_ors (m_param s) < 16)%Z →
  or_steps (length (VCList.soft_prefix (VCSet.GetList SEMI xc yc (m_con s)))) ≤ fuel →
  ∃ added' s',
    ProcessSemis_bounded_entry BITSETSIZE fuel xc yc added idx s = inr (added', s')
    ∧ semis_shape xc yc s s'.
Proof.
  intros Hidx Hors Hfuel. unfold ProcessSemis_bounded_entry.
  rewrite (bind_run _ _ _ _ s eq_refl).
  destruct (lookup_lt_is_Some_2 _ _ Hidx) as [cur Hcur].
  rewrite (bind_run _ _ _ cur s) by by rewrite Hcur.
  destruct (Processed cur); cbn [negb]; [by eexists _, s |].
  destruct (respects_never_inr _ _ s (semis_kept_stat_incr xc yc C_doOrs))
    as ([] & s1 & Hrun1 & [Hl1 Hp1]).
  rewrite (bind_run _ _ _ _ _ Hrun1), (bind_run _ _ _ _ _ eq_refl).
  destruct (OrRule_returns fuel cur xc yc added (max_ors (m_param s1)) s1)
    as ([count added'] & s2 & Hrun2 & [Hl2 Hp2]);
    [rewrite Hp1; lia | by rewrite Hl1 |].
  rewrite (bind_run _ _ _ _ _ Hrun2).
  destruct (respects_never_inr _ (when (bool_decide (count ≠ 0)) (stat_incr C_goodOrs))
              s2 (respects_when _ _ _ _ (semis_kept_stat_incr xc yc C_goodOrs)))
    as ([] & s3 & Hrun3 & [Hl3 Hp3]).
  rewrite (bind_run _ _ _ _ _ Hrun3), (bind_run _ _ _ _ _ eq_refl).
  assert (VCSet.GetList SEMI xc yc (m_con s3) = VCSet.GetList SEMI xc yc (m_con s))
    as Hl by congruence.
  rewrite Hl, (bind_run _ _ _ cur s3) by by rewrite Hcur.
  rewrite (bind_run _ _ _ tt s3).
  2:{ unfold VC_same. by rewrite bool_decide_eq_true_2. }
  destruct (mark_semi_processed_returns xc yc idx s3) as (s4 & Hrun4 & Hshape);
    [by rewrite Hl |].
  rewrite (bind_run _ _ _ _ _ Hrun4).
  eexists _, s4. split; [reflexivity |].
  etrans; [| exact Hshape]. apply semis_kept_shape. split; congruence.
Qed.

Lemma ProcessSemis_bounded_loop_returns fuel xc yc idxs :
  ∀ added s,
    Forall (λ idx, idx < length (VCList.entries (VCSet.GetList SEMI xc yc (m_con s))))
           idxs →
    (max_ors (m_param s) < 16)%Z →
    or_steps (length (VCList.soft_prefix (VCSet.GetList SEMI xc yc (m_con s)))) ≤ fuel →
    ∃ added' s',
      ProcessSemis_bounded_loop BITSETSIZE fuel xc yc idxs added s = inr (added', s')
      ∧ semis_shape xc yc s s'.
Proof.
  induction idxs as [| idx rest IH]; intros added s Hidxs Hors Hfuel;
    cbn [ProcessSemis_bounded_loop].
  { by eexists _, s. }
  pose proof (Forall_inv Hidxs) as Hidx. pose proof (Forall_inv_tail Hidxs) as Hrest.
  destruct (ProcessSemis_bounded_entry_returns fuel xc yc added idx s)
    as (added1 & s1 & Hrun1 & Hs1); [done.. |].
  rewrite (bind_run _ _ _ _ _ Hrun1).
  destruct (IH added1 s1) as (added2 & s2 & Hrun2 & Hs2).
  - by rewrite (shape_length _ _ _ _ Hs1).
  - by rewrite (shape_param _ _ _ _ Hs1).
  - by rewrite (shape_soft_prefix _ _ _ _ Hs1).
  - exists added2, s2. split; [exact Hrun2 | by etrans].
Qed.

Lemma ProcessSemis_all_never xc yc capturedSet added :
  respects any_state never (ProcessSemis_all BITSETSIZE xc yc capturedSet added).
Proof.
  unfold ProcessSemis_all.
  repeat first [ respects_step ltac:(done) ].
  unfold on_list.
  repeat first [ respects_step ltac:(done) | by apply respects_modify ].
Qed.
End BoundedReturns.


(** ** Processing a list of Semis *)

Section ProcessSemis.
Variable BITSETSIZE : nat.

Lemma ProcessSemis_all_inr xc yc capturedSet added s added' s' :
  ProcessSemis_all BITSETSIZE xc yc capturedSet added s = inr (added', s') →
  let fulls := VCSet.GetList FULL xc yc (m_con s) in
  let semis := VCSet.GetList SEMI xc yc (m_con s) in
  let carrier := (if use_greedy_union (m_param s)
                  then VCList.GetGreedyUnion BITSETSIZE semis
                  else VCList.GetUnion semis) ∪ capturedSet in
  (VCList.Empty fulls = true →
     added' = added ++ [VC_full xc yc carrier VC_RULE_ALL]
     ∧ VCList.entries (VCSet.GetList FULL xc yc (m_con s'))
       = [VC_full xc yc carrier VC_RULE_ALL])
  ∧ (VCList.Empty fulls = false → added' = added ∧ s' = s).
Proof.
  unfold ProcessSemis_all. intros (fulls & ? & [= <- <-] & H)%bind_inr.
  cbn zeta. destruct (VCList.Empty (VCSet.GetList FULL xc yc (m_con s))) eqn:He.
  - split; [intros _ | done].
    apply bind_inr in H as (p & ? & [= <- <-] & H).
    apply bind_inr in H as (semis & ? & [= <- <-] & H).
    apply bind_inr in H as (r & s1 & Hadd & [= <- <-]).
    rewrite on_list_run in Hadd. injection Hadd as _ <-. cbn.
    split; [done |]. rewrite GetList_SetList.
    apply bool_decide_eq_true in He. by rewrite (Add_to_empty _ _ _ He).
  - split; [done | intros _]. by injection H as <- <-.
Qed.

(** What a run of the bounded mode that returns has done. *)
Lemma ProcessSemis_bounded_inr (fuel : nat) (xc yc : HexPoint) (s s' : VCBuilder) :
  let semis := VCSet.GetList SEMI xc yc (m_con s) in
  let capturedSet := m_capturedSet s xc ∪ m_capturedSet s yc in
  Bitset.any (VCList.HardIntersection BITSETSIZE semis
                ∩ Bitset.flip BITSETSIZE capturedSet) = false →
  (max_ors (m_param s) < 16)%Z →
  ProcessSemis BITSETSIZE fuel xc yc s = inr (tt, s') →
  ∃ added1 s1,
    ProcessSemis_bounded_loop BITSETSIZE fuel xc yc
      (seq 0 (length (VCList.soft_prefix semis))) [] s = inr (added1, s1)
    ∧ VCList.Empty (VCSet.GetList FULL xc yc (m_con s')) = false
    ∧ (VCList.Empty (VCSet.GetList FULL xc yc (m_con s1)) = true →
       let semis1 := VCSet.GetList SEMI xc yc (m_con s1) in
       let carrier := (if use_greedy_union (m_param s)
                       then VCList.GetGreedyUnion BITSETSIZE semis1
                       else VCList.GetUnion semis1) ∪ capturedSet in
       VCList.entries (VCSet.GetList FULL xc yc (m_con s'))
       = [VC_full xc yc carrier VC_RULE_ALL])
    ∧ (VCList.Empty (VCSet.GetList FULL xc yc (m_con s1)) = false →
       m_con s' = m_con s1).
Proof.
  intros semis capturedSet Hb Hors H. unfold ProcessSemis in H.
  apply bind_inr in H as (semis' & ? & [= <- <-] & H).
  apply bind_inr in H as (cap & ? & [= <- <-] & H).
  cbv beta zeta in H. fold semis capturedSet in H. rewrite Hb in H.
  apply bind_inr in H as (p & ? & [= <- <-] & H).
  apply bind_inr in H as (added & s2 & Hadded & Hpush).
  cbv beta in Hadded.
  destruct (decide (16 ≤ max_ors (m_param s))%Z) as [? | _]; [lia |].
  apply bind_inr in Hadded as (added1 & s1 & Hloop & Hall).
  exists added1, s1. split; [exact Hloop |].
  pose proof (respects_inr _ _ _ _ _ _
                (frame_ProcessSemis_bounded_loop _ _ _ _ _ _) Hloop) as Hfr.
  pose proof (respects_inr _ _ _ _ _ _ (same_con_for_each_PushFull _) Hpush)
    as [Hcon _ _ _].
  apply ProcessSemis_all_inr in Hall as [Hempty Hfull]. rewrite Hcon.
  rewrite (frame_param _ _ Hfr) in Hempty.
  destruct (VCList.Empty (VCSet.GetList FULL xc yc (m_con s1))) eqn:He.
  + destruct (Hempty eq_refl) as [_ Hentries].
    split_and!; [| done | done].
    unfold VCList.Empty. rewrite Hentries. done.
  + destruct (Hfull eq_refl) as [_ ->]. split_and!; done.
Qed.

(** With [or_steps n] units of fuel for a soft prefix of [n] Semis, the
    bounded mode returns. *)
Lemma ProcessSemis_bounded_returns (fuel : nat) (xc yc : HexPoint) (s : VCBuilder) :
  let semis := VCSet.GetList SEMI xc yc (m_con s) in
  let capturedSet := m_capturedSet s xc ∪ m_capturedSet s yc in
  Bitset.any (VCList.HardIntersection BITSETSIZE semis
                ∩ Bitset.flip BITSETSIZE capturedSet) = false →
  (max_ors (m_param s) < 16)%Z →
  or_steps (length (VCList.soft_prefix semis)) ≤ fuel →
  ∃ s', ProcessSemis BITSETSIZE fuel xc yc s = inr (tt, s').
Proof.
  intros semis capturedSet Hb Hors Hfuel.
  destruct (ProcessSemis_bounded_loop_returns BITSETSIZE fuel xc yc
              (seq 0 (length (VCList.soft_prefix semis))) [] s)
    as (added1 & s1 & Hloop & _); [| done | done |].
  { apply list.Forall_forall. intros idx [_ Hidx]%elem_of_seq.
    unfold VCList.soft_prefix in Hidx. rewrite length_take in Hidx.
    fold semis. lia. }
  destruct (respects_never_inr _ _ s1
              (ProcessSemis_all_never BITSETSIZE xc yc capturedSet added1))
    as (added2 & s2 & Hall & _).
  destruct (respects_never_inr _ _ s2 (same_con_for_each_PushFull added2))
    as ([] & s' & Hpush & _).
  exists s'. unfold ProcessSemis.
  rewrite (bind_run _ _ _ _ s eq_refl), (bind_run _ _ _ _ s eq_refl).
  cbv beta zeta. fold semis capturedSet. rewrite Hb.
  rewrite (bind_run _ _ _ _ s eq_refl).
  rewrite decide_False by lia.
  rewrite (bind_run _ _ _ added2 s2); [exact Hpush |].
  by rewrite (bind_run _ _ _ _ _ Hloop).
Qed.

(** C7 (amended): [ProcessSemis] changes nothing when the hard
    intersection of the Semi list has a cell outside the captured sets of
    the two endpoints.  Otherwise, in the bounded mode, it returns (with
    [or_steps n] units of fuel for a soft prefix of [n] Semis) and the
    Full list between the endpoints is then not empty: if that list is
    empty once the OR rule has run over the soft prefix (state [s1]), it
    then holds the single Full, with the rule All, whose carrier is the
    greedy or plain union of the Semi list and the two captured sets; if
    it is not empty, nothing more is added to the set. *)
Theorem C7_process_semis (fuel : nat) (xc yc : HexPoint) (s : VCBuilder) :
  let semis := VCSet.GetList SEMI xc yc (m_con s) in
  let capturedSet := m_capturedSet s xc ∪ m_capturedSet s yc in
  let blocked :=
    Bitset.any (VCList.HardIntersection BITSETSIZE semis
                  ∩ Bitset.flip BITSETSIZE capturedSet) in
  (blocked = true → ProcessSemis BITSETSIZE fuel xc yc s = inr (tt, s))
  ∧ (blocked = false → (max_ors (m_param s) < 16)%Z →
     or_steps (length (VCList.soft_prefix semis)) ≤ fuel →
     ∃ s' added1 s1,
       ProcessSemis BITSETSIZE fuel xc yc s = inr (tt, s')
       ∧ ProcessSemis_bounded_loop BITSETSIZE fuel xc yc
           (seq 0 (length (VCList.soft_prefix semis))) [] s = inr (added1, s1)
       ∧ VCList.Empty (VCSet.GetList FULL xc yc (m_con s')) = false
       ∧ (VCList.Empty (VCSet.GetList FULL xc yc (m_con s1)) = true →
          let semis1 := VCSet.GetList SEMI xc yc (m_con s1) in
          let carrier := (if use_greedy_union (m_param s)
                          then VCList.GetGreedyUnion BITSETSIZE semis1
                          else VCList.GetUnion semis1) ∪ capturedSet in
          VCList.entries (VCSet.GetList FULL xc yc (m_con s'))
          = [VC_full xc yc carrier VC_RULE_ALL])
       ∧ (VCList.Empty (VCSet.GetList FULL xc yc (m_con s1)) = false →
          m_con s' = m_con s1)).
Proof.
  intros semis capturedSet blocked. split.
  - intros Hb. unfold ProcessSemis, mbind, M_bind, get_list, gets.
    fold semis capturedSet blocked. by rewrite Hb.
  - intros Hb Hors Hfuel.
    destruct (ProcessSemis_bounded_returns fuel xc yc s Hb Hors Hfuel) as [s' Hrun].
    destruct (ProcessSemis_bounded_inr fuel xc yc s s' Hb Hors Hrun)
      as (added1 & s1 & Hloop & Hrest).
    exists s', added1, s1. split; [exact Hrun |]. split; [exact Hloop | exact Hrest].
Qed.
End ProcessSemis.

Lemma C7_witness :
  (Bitset.any (VCList.HardIntersection Tiny.B
                 (VCSet.GetList SEMI 0 7 (m_con (Tiny.lone_semi default_param)))
               ∩ Bitset.flip Tiny.B ∅) = true
   ∧ ProcessSemis Tiny.B 100 0 7 (Tiny.lone_semi default_param)
     = inr (tt, Tiny.lone_semi default_param))
  ∧ ∃ s',
      ProcessSemis Tiny.B 100 0 7 (Tiny.triangle Tiny.two_ors_param) = inr (tt, s')
      ∧ VCList.Empty (VCSet.GetList FULL 0 7 (m_con s')) = false.
Proof.
  split.
  - assert (Bitset.any (VCList.HardIntersection Tiny.B
                 (VCSet.GetList SEMI 0 7 (m_con (Tiny.lone_semi default_param)))
               ∩ Bitset.flip Tiny.B ∅) = true) as Hb by (vm_compute; reflexivity).
    split; [exact Hb |].
    exact (proj1 (C7_process_semis Tiny.B 100 0 7 (Tiny.lone_semi default_param)) Hb).
  - assert (Bitset.any (VCList.HardIntersection Tiny.B
                 (VCSet.GetList SEMI 0 7 (m_con (Tiny.triangle Tiny.two_ors_param)))
               ∩ Bitset.flip Tiny.B
                   (m_capturedSet (Tiny.triangle Tiny.two_ors_param) 0
                    ∪ m_capturedSet (Tiny.triangle Tiny.two_ors_param) 7)) = false)
      as Hb by (vm_compute; reflexivity).
    assert (max_ors (m_param (Tiny.triangle Tiny.two_ors_param)) < 16)%Z
      as Hors by (vm_compute; reflexivity).
    assert (or_steps (length (VCList.soft_prefix
                       (VCSet.GetList SEMI 0 7
                          (m_con (Tiny.triangle Tiny.two_ors_param))))) ≤ 100)
      as Hfuel by (vm_compute; lia).
    destruct (proj2 (C7_process_semis Tiny.B 100 0 7 (Tiny.triangle Tiny.two_ors_param))
                Hb Hors Hfuel) as (s' & added1 & s1 & Hrun & _ & Hne & _).
    exists s'. split; [exact Hrun | exact Hne].
Defined.

(** C7 as stated fails: with the Full of carrier {1, 3} in the list and the
    two Semis of carriers {1, 2} and {3, 4}, the bounded OR rule makes one
    attempt, which is rejected (the union contains the carrier of the Full),
    so it produces no Full; and [ProcessSemis] adds no Full with the rule
    All: the list of Fulls is as before. *)
Lemma C7_counterexample :
  let s := Tiny.dominated default_param in
  let s' := Tiny.final (ProcessSemis Tiny.B 100 0 7) s in
  ProcessSemis Tiny.B 100 0 7 s = inr (tt, s')
  ∧ (max_ors (m_param s) < 16)%Z
  ∧ Bitset.any (VCList.HardIntersection Tiny.B (VCSet.GetList SEMI 0 7 (m_con s))
                ∩ Bitset.flip Tiny.B (m_capturedSet s 0 ∪ m_capturedSet s 7)) = false
  ∧ or_attempts (m_statsForColor s' BLACK) = 1
  ∧ or_successes (m_statsForColor s' BLACK) = 0
  ∧ VCList.entries (VCSet.GetList FULL 0 7 (m_con s')) = [Tiny.full {[ 1; 3 ]}]
  ∧ ¬ ∃ v, v ∈ VCList.entries (VCSet.GetList FULL 0 7 (m_con s'))
           ∧ Rule v = VC_RULE_ALL.
Proof.
  cbv zeta. split_and!; try (vm_compute; reflexivity).
  assert (VCList.entries
            (VCSet.GetList FULL 0 7
               (m_con (Tiny.final (ProcessSemis Tiny.B 100 0 7)
                                  (Tiny.dominated default_param))))
          = [Tiny.full {[ 1; 3 ]}]) as Hl by (vm_compute; reflexivity).
  intros (v & Hv & Hrule).
  apply list_elem_of_In in Hv.
  apply (eq_ind _ (λ l, In v l) Hv _) in Hl.
  destruct Hl as [<- | []]. discriminate Hrule.
Qed.


(** ** The enhanced OR rule *)

Section EnhancedOr.
Variable BITSETSIZE : nat.

#[local] Abbreviation wf := (Bitset.wf BITSETSIZE).
#[local] Abbreviation universe := (Bitset.universe BITSETSIZE).

(** *** The ranges of [set_mem] *)

Ltac list_assoc :=
  repeat first [ rewrite <- app_assoc | progress cbn [app] ]; reflexivity.

(** The intersection of a range, as [Intersect] computes it. *)
Definition inter_of (acc : bitset) (l : list bitset) : bitset := foldl (∩) acc l.

Lemma elem_of_inter_of acc l i :
  i ∈ inter_of acc l ↔ i ∈ acc ∧ ∀ S, S ∈ l → i ∈ S.
Proof.
  unfold inter_of. revert acc. induction l as [| S l IH]; intros acc; cbn.
  - split; [| tauto]. intros ?. split; [done |]. by intros ? ?%elem_of_nil.
  - rewrite IH, elem_of_intersection. split.
    + intros [[? ?] Hl]. split; [done |].
      intros S' [-> | ?]%elem_of_cons; auto.
    + intros [? Hl]. split_and!; [done | | ].
      * apply Hl, list_elem_of_here.
      * intros S' ?. by apply Hl, list_elem_of_further.
Qed.

Lemma Intersect_from_range pre l post acc :
  Intersect_from (pre ++ l ++ post) (length pre) (length l) acc
  = Some (inter_of acc l).
Proof.
  revert pre acc. induction l as [| S l IH]; intros pre acc; [done |].
  cbn [length Intersect_from].
  rewrite lookup_app_r, Nat.sub_diag by done. cbn.
  specialize (IH (pre ++ [S]) (acc ∩ S)).
  rewrite length_app, Nat.add_1_r, <- app_assoc in IH. exact IH.
Qed.

Lemma Filter_range pre l post a :
  Filter (pre ++ l ++ post) (length pre) (length l) a
  = Some (length (filter (λ S, a ∉ S) l),
          (pre ++ l ++ post) ++ filter (λ S, a ∉ S) l).
Proof.
  revert pre post. induction l as [| S l IH]; intros pre post.
  { cbn. by rewrite app_nil_r. }
  cbn [length Filter].
  rewrite lookup_app_r, Nat.sub_diag by done.
  change (((S :: l) ++ post) !! 0) with (Some S). cbn [mbind option_bind].
  unfold Bitset.test. rewrite filter_cons.
  destruct (decide (a ∈ S)) as [Ha | Ha].
  - rewrite bool_decide_eq_true_2, decide_False by auto.
    specialize (IH (pre ++ [S]) post).
    rewrite length_app, Nat.add_1_r, <- app_assoc in IH. exact IH.
  - rewrite bool_decide_eq_false_2, decide_True by auto.
    specialize (IH (pre ++ [S]) (post ++ [S])).
    rewrite length_app, Nat.add_1_r in IH.
    replace ((pre ++ (S :: l) ++ post) ++ [S])
      with ((pre ++ [S]) ++ l ++ post ++ [S]) by list_assoc.
    rewrite IH. cbn. do 2 f_equal. list_assoc.
Qed.

Lemma min_allowed_range pre l post forbidden ms al :
  ∃ ms' al',
    min_allowed (pre ++ l ++ post) (length pre) (length l) forbidden ms al
    = Some (ms', al')
    ∧ ((ms' = ms ∧ al' = al)
       ∨ (∃ S, S ∈ l ∧ al' = S ∖ forbidden ∧ ms' = Some (size al')))
    ∧ (ms = None → l ≠ [] →
       ∃ S, S ∈ l ∧ al' = S ∖ forbidden ∧ ms' = Some (size al')).
Proof.
  revert pre ms al. induction l as [| S l IH]; intros pre ms al.
  { exists ms, al. split_and!; [done | by left | done]. }
  cbn [length min_allowed].
  rewrite lookup_app_r, Nat.sub_diag by done.
  change (((S :: l) ++ post) !! 0) with (Some S). cbn [mbind option_bind].
  replace (pre ++ (S :: l) ++ post) with ((pre ++ [S]) ++ l ++ post)
    by list_assoc.
  replace (Datatypes.S (length pre)) with (length (pre ++ [S]))
    by (rewrite length_app; cbn; lia).
  destruct (match ms with
            | Some m => bool_decide (Bitset.count (S ∖ forbidden) < m)
            | None => true
            end) eqn:Htest.
  - destruct (IH (pre ++ [S]) (Some (Bitset.count (S ∖ forbidden))) (S ∖ forbidden))
      as (ms' & al' & Hrun & Hcase & _).
    exists ms', al'. split; [exact Hrun |].
    assert (∃ S0, S0 ∈ S :: l ∧ al' = S0 ∖ forbidden ∧ ms' = Some (size al')) as Hres.
    { destruct Hcase as [[-> ->] | (S0 & ? & ? & ?)].
      - exists S. split_and!; [apply list_elem_of_here | done..].
      - exists S0. split_and!; [by apply list_elem_of_further | done..]. }
    split; [by right | by intros _ _].
  - destruct ms as [m |]; [| done].
    destruct (IH (pre ++ [S]) (Some m) al) as (ms' & al' & Hrun & Hcase & _).
    exists ms', al'. split; [exact Hrun |]. split; [| done].
    destruct Hcase as [? | (S0 & ? & ? & ?)]; [by left | right].
    exists S0. split_and!; [by apply list_elem_of_further | done..].
Qed.

Lemma copy_down_range pre mid conns :
  mid ≠ [] →
  ∃ mem, copy_down (pre ++ mid ++ conns) (length pre) (length pre + length mid)
                   (length conns) = Some mem
    ∧ length mem = length (pre ++ mid ++ conns)
    ∧ take (length pre + length conns) mem = pre ++ conns.
Proof.
  revert pre mid. induction conns as [| c conns IH]; intros pre mid Hmid.
  { eexists. split; [reflexivity |]. split; [done |].
    rewrite Nat.add_0_r, !app_nil_r. apply take_app_length. }
  destruct mid as [| m mid]; [done |].
  cbn [length copy_down].
  assert ((pre ++ (m :: mid) ++ c :: conns) !! (length pre + S (length mid)) = Some c)
    as Hsrc.
  { rewrite lookup_app_r by lia.
    replace (length pre + S (length mid) - length pre) with (length (m :: mid))
      by (cbn; lia).
    rewrite lookup_app_r, Nat.sub_diag by done. done. }
  rewrite Hsrc. cbn [mbind option_bind].
  rewrite decide_True by (rewrite !length_app; cbn; lia).
  assert (<[length pre:=c]> (pre ++ (m :: mid) ++ c :: conns)
          = (pre ++ [c]) ++ (mid ++ [c]) ++ conns) as ->.
  { rewrite insert_app_r_alt, Nat.sub_diag by done. cbn. list_assoc. }
  destruct (IH (pre ++ [c]) (mid ++ [c])) as (mem & Hrun & Hlen & Htake).
  { by destruct mid. }
  exists mem.
  replace (S (length pre)) with (length (pre ++ [c]))
    by (rewrite length_app; cbn; lia).
  replace (S (length pre + S (length mid)))
    with (length (pre ++ [c]) + length (mid ++ [c]))
    by (rewrite !length_app; cbn; lia).
  split; [exact Hrun |]. split.
  - rewrite Hlen, !length_app. cbn [length]. rewrite ?length_app. cbn [length]. lia.
  - replace (length pre + S (length conns)) with (length (pre ++ [c]) + length conns)
      by (rewrite length_app; cbn; lia).
    rewrite Htake. list_assoc.
Qed.

Lemma Intersect_at mem start count pre l post :
  mem = pre ++ l ++ post → start = length pre → count = length l →
  Intersect BITSETSIZE mem start count = Some (inter_of universe l).
Proof. intros -> -> ->. apply Intersect_from_range. Qed.

Lemma Filter_at mem start count a pre l post :
  mem = pre ++ l ++ post → start = length pre → count = length l →
  Filter mem start count a
  = Some (length (filter (λ S, a ∉ S) l), mem ++ filter (λ S, a ∉ S) l).
Proof. intros -> -> ->. apply Filter_range. Qed.

Lemma min_allowed_at mem start count forbidden pre l :
  mem = pre ++ l → start = length pre → count = length l → l ≠ [] →
  ∃ S, S ∈ l
    ∧ min_allowed mem start count forbidden None ∅
      = Some (Some (size (S ∖ forbidden)), S ∖ forbidden).
Proof.
  intros -> -> -> Hl.
  destruct (min_allowed_range pre l [] forbidden None ∅)
    as (ms & al & Hrun & _ & Hsome).
  destruct (Hsome eq_refl Hl) as (S & HS & -> & ->).
  exists S. split; [done |]. by rewrite app_nil_r in Hrun.
Qed.

Lemma copy_down_at mem dst src n pre mid conns :
  mem = pre ++ mid ++ conns → dst = length pre → src = length pre + length mid →
  n = length conns → mid ≠ [] →
  ∃ mem', copy_down mem dst src n = Some mem'
    ∧ resize (dst + n) ∅ mem' = pre ++ conns.
Proof.
  intros -> -> -> -> Hmid.
  destruct (copy_down_range pre mid conns Hmid) as (mem' & Hrun & Hlen & Htake).
  exists mem'. split; [done |]. unfold resize. rewrite Htake.
  replace (length pre + length conns - length mem') with 0; [apply app_nil_r |].
  rewrite Hlen, !length_app. lia.
Qed.

Lemma resize_take {A} (n : nat) (d : A) (l : list A) :
  n ≤ length l → resize n d l = take n l.
Proof.
  intros Hn. unfold resize. replace (n - length l) with 0 by lia.
  apply app_nil_r.
Qed.

(** *** The cells still free to forbid *)

Definition free (forbidden : bitset) : nat := size (universe ∖ forbidden).

Lemma free_mono (f f' : bitset) : f ⊆ f' → free f' ≤ free f.
Proof. intros Hf. unfold free. apply subseteq_size. set_solver. Qed.

Lemma free_set (f : bitset) a :
  a ∈ universe → a ∉ f → S (free (Bitset.set f a)) = free f.
Proof.
  intros Ha Hf. unfold free, Bitset.set.
  assert (universe ∖ f = {[ a ]} ∪ universe ∖ ({[ a ]} ∪ f)) as ->.
  { apply set_eq. intros i. rewrite elem_of_union, !elem_of_difference,
      elem_of_union, elem_of_singleton.
    destruct (decide (i = a)) as [-> | ?]; intuition. }
  assert (size ({[ a ]} ∪ universe ∖ ({[ a ]} ∪ f))
          = size ({[ a ]} : bitset) + size (universe ∖ ({[ a ]} ∪ f))) as ->
    by (apply size_union; set_solver).
  by rewrite size_singleton.
Qed.

Lemma Find_first_elem (b : bitset) :
  wf b → b ≠ ∅ →
  Bitset.Find_first BITSETSIZE b ∈ b ∧ Bitset.Find_first BITSETSIZE b < BITSETSIZE.
Proof.
  intros Hwf Hne. unfold Bitset.Find_first.
  destruct (Bitset.bits BITSETSIZE b) as [| a l] eqn:Hb.
  - by apply bits_nil in Hb.
  - apply elem_of_bits. rewrite Hb. apply list_elem_of_here.
Qed.
End EnhancedOr.


Lemma insert_sorted_elems v es w :
  w ∈ (VCList.insert_sorted v es).2 → w = v ∨ w ∈ es.
Proof.
  induction es as [| u es IH]; cbn.
  - intros ->%list_elem_of_singleton. by left.
  - case_decide.
    + destruct (VCList.insert_sorted v es) as [i r]. cbn in *.
      intros [-> | Hw]%elem_of_cons.
      * right. apply list_elem_of_here.
      * destruct (IH Hw) as [-> | ?]; [by left | right].
        by apply list_elem_of_further.
    + intros [-> | Hw]%elem_of_cons; [by left | by right].
Qed.

Lemma Add_entries vc log l w :
  w ∈ VCList.entries (VCList.Add vc log l).1.2 → w = vc ∨ w ∈ VCList.entries l.
Proof.
  unfold VCList.Add. destruct (VCList.IsSupersetOfAny l (Carrier vc)).
  - cbn. by right.
  - pose proof (insert_sorted_elems vc
                  (VCList.non_supersets_of (Carrier vc) (VCList.entries l)) w) as H.
    destruct (VCList.insert_sorted vc _) as [i es]. cbn in *.
    intros Hw. destruct (H Hw) as [-> | Hin]; [by left | right].
    unfold VCList.non_supersets_of in Hin. by apply list_elem_of_filter in Hin as [_ ?].
Qed.

Section EnhancedOrSearch.
Variable BITSETSIZE : nat.

#[local] Abbreviation wf := (Bitset.wf BITSETSIZE).
#[local] Abbreviation universe := (Bitset.universe BITSETSIZE).
#[local] Abbreviation free := (free BITSETSIZE).

(** The entries of the list of Fulls the combiner refers to. *)
Definition fulls_of (c : VCOrCombiner) (s : VCBuilder) : list VC :=
  VCList.entries (VCSet.GetList FULL (full_list c).1 (full_list c).2 (m_con s)).

(** *** The loop of [Add] *)

Lemma Add_loop_range pre l post cap inter uni s :
  inter_of inter l ⊆ cap → Exists (λ S, ¬ inter ⊆ S) l →
  ∃ U, Add_loop (pre ++ l ++ post) (length pre) (length l) cap inter uni s
       = inr (U, s)
    ∧ uni ⊆ U ∧ U ⊆ uni ∪ ⋃ l.
Proof.
  revert pre inter uni. induction l as [| S l IH]; intros pre inter uni Hcap Hex.
  { by apply Exists_nil in Hex. }
  cbn [length Add_loop].
  rewrite (bind_run _ _ _ S s).
  2:{ rewrite lookup_app_r, Nat.sub_diag by done. done. }
  replace (pre ++ (S :: l) ++ post) with ((pre ++ [S]) ++ l ++ post)
    by (repeat first [ rewrite <- app_assoc | progress cbn [app] ]; reflexivity).
  replace (Datatypes.S (length pre)) with (length (pre ++ [S]))
    by (rewrite length_app; cbn; lia).
  destruct (Bitset.IsSubsetOf inter S) eqn:Hsub.
  - apply IsSubsetOf_true in Hsub.
    destruct (IH (pre ++ [S]) inter uni) as (U & Hrun & ? & ?).
    + intros i Hi. apply Hcap. apply elem_of_inter_of.
      apply elem_of_inter_of in Hi as [? Hl]. split; [done |].
      intros S' [-> | ?]%elem_of_cons; auto.
    + by apply Exists_cons in Hex as [? | ?].
    + exists U. split; [exact Hrun |]. split; [done |]. set_solver.
  - apply IsSubsetOf_false in Hsub.
    destruct (Bitset.IsSubsetOf (inter ∩ S) cap) eqn:Hdone.
    + exists (uni ∪ S). split; [done |]. set_solver.
    + apply IsSubsetOf_false in Hdone.
      destruct (IH (pre ++ [S]) (inter ∩ S) (uni ∪ S)) as (U & Hrun & ? & ?).
      * intros i Hi. apply Hcap. apply elem_of_inter_of.
        apply elem_of_inter_of in Hi as [[? ?]%elem_of_intersection Hl].
        split; [done |]. intros S' [-> | ?]%elem_of_cons; auto.
      * destruct (decide (Exists (λ S', ¬ inter ∩ S ⊆ S') l)) as [? | Hno]; [done |].
        exfalso. apply Hdone. intros i Hi. apply Hcap, elem_of_inter_of.
        apply elem_of_intersection in Hi as [? ?]. split; [done |].
        intros S' [-> | HS']%elem_of_cons; [done |].
        destruct (decide (inter ∩ S ⊆ S')) as [Hin | Hnin]; [set_solver |].
        exfalso. apply Hno. apply list.Exists_exists. eauto.
      * exists U. split; [exact Hrun |]. set_solver.
Qed.

(** *** One call of [Add] *)

Lemma Combiner_Add_range c pre l post added minCap branch s :
  inter_of universe l ⊆ minCap → Exists (λ S, ¬ universe ⊆ S) l →
  Forall wf l → wf minCap →
  Forall (λ S, S ## branch) l → minCap ## branch →
  Forall (λ F, ¬ Carrier F ## branch) (fulls_of c s) →
  ∃ U s',
    Combiner_Add BITSETSIZE c (pre ++ l ++ post) added (length pre) (length l) minCap s
    = inr ((U, added ++ [VC_full (m_x c) (m_y c) U VC_RULE_OR]), s')
    ∧ wf U
    ∧ VC_full (m_x c) (m_y c) U VC_RULE_OR ∈ fulls_of c s'
    ∧ (∀ w, w ∈ fulls_of c s' →
            w = VC_full (m_x c) (m_y c) U VC_RULE_OR ∨ w ∈ fulls_of c s).
Proof.
  intros Hcap Hex Hwl Hwc Hbl Hbc Hdom. unfold Combiner_Add.
  rewrite (bind_run _ _ _ tt _ eq_refl).
  match goal with
  | |- context [Add_loop _ _ _ _ _ _ ≫= _] =>
      match goal with
      | |- ∃ U s', (_ ≫= _) ?s0 = _ ∧ _ =>
          destruct (Add_loop_range pre l post minCap universe minCap s0 Hcap Hex)
            as (U & Hrun & HU1 & HU2)
      end
  end.
  rewrite (bind_run _ _ _ _ _ Hrun).
  rewrite (bind_run _ _ _ tt _ eq_refl).
  set (v := VC_full (m_x c) (m_y c) U VC_RULE_OR).
  assert (wf U) as HwU.
  { unfold Bitset.wf in *. intros i [? | Hi]%HU2%elem_of_union; [by apply Hwc |].
    apply elem_of_union_list in Hi as (S & HS & ?).
    by apply (proj1 (list.Forall_forall _ _) Hwl S HS). }
  assert (U ## branch) as HUb.
  { intros i [? | Hi]%HU2%elem_of_union Hb; [by apply (Hbc i) |].
    apply elem_of_union_list in Hi as (S & HS & ?).
    by apply (proj1 (list.Forall_forall _ _) Hbl S HS i). }
  rewrite (bind_run _ _ _ _ _ (on_list_run _ _ _ _ _)).
  cbn [m_con m_log set_m_statsForColor].
  set (l0 := VCSet.GetList FULL (full_list c).1 (full_list c).2 (m_con s)).
  assert (VCList.IsSupersetOfAny l0 (Carrier v) = false) as Hsup.
  { unfold VCList.IsSupersetOfAny. apply bool_decide_eq_false.
    intros (F & HF & Hsub)%list.Exists_exists.
    apply (proj1 (list.Forall_forall _ _) Hdom F HF). cbn in Hsub. set_solver. }
  destruct (Add_succeeded v (m_log s) l0 Hsup) as (r & l' & log' & HAdd & Hok & Hin & _).
  pose proof (Add_entries v (m_log s) l0) as Hents.
  rewrite HAdd in *. cbn [fst snd] in *.
  rewrite Hok. cbn [BenzeneAssert].
  eexists U, _. split; [reflexivity |].
  unfold fulls_of. cbn. rewrite GetList_SetList. split_and!; done.
Qed.
End EnhancedOrSearch.


Section EnhancedOrInvariant.
Variable BITSETSIZE : nat.
Variable c : VCOrCombiner.

#[local] Abbreviation wf := (Bitset.wf BITSETSIZE).
#[local] Abbreviation universe := (Bitset.universe BITSETSIZE).
#[local] Abbreviation free := (free BITSETSIZE).
#[local] Abbreviation fulls_of := (fulls_of c).

Hypothesis wf_x : wf (x_capture_set c).
Hypothesis wf_y : wf (y_capture_set c).
Hypothesis disjoint_captured : x_capture_set c ## y_capture_set c.

(** What a call of [Search] assumes of its two ranges of Semis: [branch]
    is the set of the cells chosen on the way to this call. *)
Record search_pre (branch : bitset) (cX cY : bool) (new old : list bitset)
    : Prop := mkSearchPre {
  pre_new : new ≠ [];
  pre_wf : Forall wf (new ++ old);
  pre_proper : Forall (λ S, ¬ universe ⊆ S) new;
  pre_branch : Forall (λ S, S ## branch) (new ++ old);
  pre_cX : cX = true → x_capture_set c ## branch;
  pre_cY : cY = true → y_capture_set c ## branch
}.

(** Every Full of the list is known to the call (its carrier is in the
    range [filt]) or contains a cell of [branch]. *)
Definition known (filt : list bitset) (branch : bitset) (fulls : list VC) : Prop :=
  Forall (λ F, Carrier F ∈ filt ∨ ¬ Carrier F ## branch) fulls.

(** The list of Fulls has grown by connections with the carriers [conns]
    at most. *)
Definition grown (before : list VC) (conns : list bitset) (after : list VC) : Prop :=
  Forall (λ F, (∃ F', F' ∈ before ∧ Carrier F' = Carrier F) ∨ Carrier F ∈ conns)
         after.

Definition or_fulls (vcs : list VC) : Prop :=
  Forall (λ v, v = VC_full (m_x c) (m_y c) (Carrier v) VC_RULE_OR) vcs.

Definition captured (cX cY : bool) : bitset :=
  (if cX then x_capture_set c else ∅) ∪ (if cY then y_capture_set c else ∅).

(** The result of [Search] and of its loop: [have] are the connections the
    loop already had, [conns] the carriers of the Fulls [vcs] added by the
    call. *)
Definition Search_post (pre : list bitset) (added : list VC) (s : VCBuilder)
    (res : Err + (nat * list bitset * list VC) * VCBuilder)
    (have conns : list bitset) (vcs : list VC) (s' : VCBuilder) : Prop :=
  res = inr ((length (have ++ conns), pre ++ have ++ conns, added ++ vcs), s')
  ∧ Forall wf conns
  ∧ length vcs = length conns
  ∧ or_fulls vcs
  ∧ grown (fulls_of s) conns (fulls_of s')
  ∧ (fulls_of s ≠ [] → fulls_of s' ≠ []).

Definition Search_ok (fuel : nat) : Prop :=
  ∀ forbidden cX cY pre new old filt added s branch,
    2 * free forbidden + 2 ≤ fuel →
    search_pre branch cX cY new old → Forall wf filt →
    known filt branch (fulls_of s) →
    ∃ conns vcs s',
      Search_post pre added s
        (Search BITSETSIZE fuel c forbidden cX cY
                (length pre) (length new) (length old) (length filt)
                (pre ++ new ++ old ++ filt) added s)
        [] conns vcs s'
      ∧ (filt = [] → inter_of universe (new ++ old) ⊆ captured cX cY →
         conns ≠ [] ∧ fulls_of s' ≠ []).

Definition Search_loop_ok (fuel : nat) : Prop :=
  ∀ forbidden cX cY pre new old filt0 conns added s branch,
    2 * free forbidden + 1 ≤ fuel →
    search_pre branch cX cY new old → Forall wf (filt0 ++ conns) →
    filt0 ++ conns ≠ [] →
    inter_of universe new ⊆ forbidden →
    known (filt0 ++ conns) branch (fulls_of s) →
    ∃ conns' vcs s',
      Search_post pre added s
        (Search_loop BITSETSIZE fuel c forbidden cX cY
                (length pre) (length new) (length old) (length (filt0 ++ conns))
                (length pre + length new + length old + length filt0)
                (length conns)
                (pre ++ new ++ old ++ filt0 ++ conns) added s)
        conns conns' vcs s'.

Ltac list_assoc :=
  repeat first [ rewrite <- app_assoc | progress cbn [app] ]; reflexivity.

Lemma grown_refl fulls : grown fulls [] fulls.
Proof. apply list.Forall_forall. intros F HF. left. eauto. Qed.

Lemma grown_trans f1 f2 f3 c1 c2 :
  grown f1 c1 f2 → grown f2 c2 f3 → grown f1 (c1 ++ c2) f3.
Proof.
  intros H12 H23. apply list.Forall_forall. intros F HF.
  destruct (proj1 (list.Forall_forall _ _) H23 F HF) as [(F' & HF' & Heq) | Hc].
  - destruct (proj1 (list.Forall_forall _ _) H12 F' HF') as [(F'' & ? & ?) | Hc].
    + left. exists F''. split; [done | congruence].
    + right. rewrite <- Heq. apply elem_of_app. by left.
  - right. apply elem_of_app. by right.
Qed.

Lemma known_grown filt branch fulls conns fulls' :
  known filt branch fulls → grown fulls conns fulls' →
  known (filt ++ conns) branch fulls'.
Proof.
  intros Hk Hg. apply list.Forall_forall. intros F HF.
  destruct (proj1 (list.Forall_forall _ _) Hg F HF) as [(F' & HF' & Heq) | Hc].
  - destruct (proj1 (list.Forall_forall _ _) Hk F' HF') as [? | ?].
    + left. rewrite <- Heq. apply elem_of_app. by left.
    + right. by rewrite <- Heq.
  - left. apply elem_of_app. by right.
Qed.

Lemma known_filter filt branch fulls a :
  known filt branch fulls →
  known (filter (λ S, a ∉ S) filt) (Bitset.set branch a) fulls.
Proof.
  intros Hk. apply list.Forall_forall. intros F HF.
  destruct (proj1 (list.Forall_forall _ _) Hk F HF) as [Hin | Hb].
  - destruct (decide (a ∈ Carrier F)) as [Ha | Ha].
    + right. unfold Bitset.set. set_solver.
    + left. by apply list_elem_of_filter.
  - right. unfold Bitset.set. set_solver.
Qed.

Lemma Forall_filter_keep {A} (P Q : A → Prop) `{∀ x, Decision (Q x)} (l : list A) :
  Forall P l → Forall P (filter Q l).
Proof.
  rewrite !list.Forall_forall. intros Hl x [_ Hx]%list_elem_of_filter. auto.
Qed.

Lemma search_pre_filter branch cX cY new old a :
  search_pre branch cX cY new old →
  filter (λ S, a ∉ S) new ≠ [] →
  search_pre (Bitset.set branch a)
             (cX && negb (Bitset.test (x_capture_set c) a))
             (cY && negb (Bitset.test (y_capture_set c) a))
             (filter (λ S, a ∉ S) new) (filter (λ S, a ∉ S) old).
Proof.
  intros [Hn Hw Hp Hb HX HY] Hne. split.
  - done.
  - rewrite <- list.filter_app. by apply Forall_filter_keep.
  - by apply Forall_filter_keep.
  - rewrite <- list.filter_app. apply list.Forall_forall.
    intros S [Ha HS]%list_elem_of_filter.
    pose proof (proj1 (list.Forall_forall _ _) Hb S HS). unfold Bitset.set. set_solver.
  - intros [-> Ht%negb_true_iff]%andb_true_iff. apply test_false in Ht.
    specialize (HX eq_refl). unfold Bitset.set. set_solver.
  - intros [-> Ht%negb_true_iff]%andb_true_iff. apply test_false in Ht.
    specialize (HY eq_refl). unfold Bitset.set. set_solver.
Qed.

Ltac lens := rewrite ?length_app; cbn [length]; lia.

Lemma inter_of_proper (new : list bitset) a :
  a ∈ universe → a ∉ inter_of universe new → filter (λ S, a ∉ S) new ≠ [].
Proof.
  intros Ha Hn Hnil. apply Hn, elem_of_inter_of. split; [done |].
  intros S HS. destruct (decide (a ∈ S)) as [? | Hna]; [done |].
  assert (S ∈ filter (λ S, a ∉ S) new) as Hin by by apply list_elem_of_filter.
  rewrite Hnil in Hin. by apply elem_of_nil in Hin.
Qed.

Lemma Search_loop_step fuel :
  Search_ok fuel → Search_loop_ok fuel → Search_loop_ok (S fuel).
Proof.
  intros IHS IHL forbidden cX cY pre new old filt0 conns added s branch
    Hfuel Hpre Hwf Hne Hforb Hknown.
  cbn [Search_loop].
  destruct (min_allowed_at (pre ++ new ++ old ++ filt0 ++ conns)
              (length pre + length new + length old) (length (filt0 ++ conns))
              forbidden (pre ++ new ++ old) (filt0 ++ conns))
    as (S0 & HS0 & Hmin); [list_assoc | lens | done | done |].
  rewrite (bind_run _ _ _ (Some (size (S0 ∖ forbidden)), S0 ∖ forbidden) s)
    by by rewrite Hmin.
  cbv beta iota.
  assert (wf S0) as HwS0 by by apply (proj1 (list.Forall_forall _ _) Hwf).
  destruct (decide (Some (size (S0 ∖ forbidden)) = Some 0)) as [Hz | Hnz].
  - (* the smallest allowed set is empty: the new connections are returned *)
    destruct (copy_down_at (pre ++ new ++ old ++ filt0 ++ conns) (length pre)
                (length pre + length new + length old + length filt0)
                (length conns) pre (new ++ old ++ filt0) conns)
      as (mem' & Hcopy & Hres); [list_assoc | done | lens | done | |].
    { destruct Hpre as [Hn _ _ _ _ _]. by destruct new. }
    rewrite (bind_run _ _ _ mem' s) by by rewrite Hcopy.
    exists [], [], s. unfold Search_post. rewrite !app_nil_r.
    split_and!;
      [rewrite Hres; reflexivity | constructor | reflexivity | constructor
      | apply grown_refl | done].
  - (* a cell [a] of the smallest allowed set is forbidden *)
    set (mem := pre ++ new ++ old ++ filt0 ++ conns) in *.
    assert (S0 ∖ forbidden ≠ ∅) as Hal.
    { intros Hal. apply Hnz. by rewrite Hal, size_empty. }
    assert (wf (S0 ∖ forbidden)) as Hwal.
    { unfold Bitset.wf in *. set_solver. }
    destruct (Find_first_elem BITSETSIZE _ Hwal Hal) as [Ha HaB].
    set (a := Bitset.Find_first BITSETSIZE (S0 ∖ forbidden)) in *.
    apply elem_of_difference in Ha as [HaS Haf].
    assert (a ∈ universe) as Hau by by apply elem_of_universe.
    rewrite (bind_run _ _ _ tt s) by by rewrite bool_decide_eq_true_2.
    set (fn := filter (λ S, a ∉ S) new).
    set (fo := filter (λ S, a ∉ S) old).
    set (ff := filter (λ S, a ∉ S) (filt0 ++ conns)).
    rewrite (bind_run _ _ _ (length fn, mem ++ fn) s).
    2:{ rewrite (Filter_at mem _ _ a pre new (old ++ filt0 ++ conns));
          [done | done..]. }
    cbv beta iota.
    rewrite (bind_run _ _ _ (length fo, (mem ++ fn) ++ fo) s).
    2:{ rewrite (Filter_at (mem ++ fn) _ _ a (pre ++ new) old ((filt0 ++ conns) ++ fn));
          [done | subst mem; list_assoc | lens | done]. }
    cbv beta iota.
    rewrite (bind_run _ _ _ (length ff, ((mem ++ fn) ++ fo) ++ ff) s).
    2:{ rewrite (Filter_at ((mem ++ fn) ++ fo) _ _ a (pre ++ new ++ old)
                   (filt0 ++ conns) (fn ++ fo));
          [done | subst mem; list_assoc | lens | done]. }
    cbv beta iota.
    pose proof (free_set BITSETSIZE forbidden a Hau Haf) as Hfree.
    destruct (IHS (Bitset.set forbidden a)
                  (cX && negb (Bitset.test (x_capture_set c) a))
                  (cY && negb (Bitset.test (y_capture_set c) a))
                  mem fn fo ff added s (Bitset.set branch a))
      as (cc & vcs_c & s1 & (Hchild & Hwcc & Hlen_c & Hor_c & Hgr_c & Hne_c) & _).
    { lia. }
    { apply search_pre_filter; [done |]. apply inter_of_proper; [done |].
      intros Hin. by apply Haf, Hforb. }
    { by apply Forall_filter_keep. }
    { by apply known_filter. }
    cbn [app] in Hchild.
    replace (length mem)
      with (length pre + length new + length old + length (filt0 ++ conns))
      in Hchild by (subst mem; lens).
    replace (mem ++ fn ++ fo ++ ff) with (((mem ++ fn) ++ fo) ++ ff)
      in Hchild by list_assoc.
    rewrite (bind_run _ _ _ _ _ Hchild). cbv beta iota.
    destruct (IHL (Bitset.set forbidden a) cX cY pre new old filt0 (conns ++ cc)
                  (added ++ vcs_c) s1 branch)
      as (cl & vcs_l & s2 & Hloop & Hwcl & Hlen_l & Hor_l & Hgr_l & Hne_l).
    { lia. }
    { done. }
    { rewrite app_assoc. by apply Forall_app. }
    { rewrite app_assoc. by destruct (filt0 ++ conns). }
    { unfold Bitset.set. set_solver. }
    { rewrite app_assoc. by eapply known_grown. }
    replace (length (filt0 ++ conns ++ cc))
      with (length (filt0 ++ conns) + length cc) in Hloop by lens.
    replace (length (conns ++ cc)) with (length conns + length cc) in Hloop by lens.
    replace (pre ++ new ++ old ++ filt0 ++ conns ++ cc) with (mem ++ cc)
      in Hloop by (subst mem; list_assoc).
    exists (cc ++ cl), (vcs_c ++ vcs_l), s2. unfold Search_post. split_and!.
    + rewrite Hloop. by rewrite <- !app_assoc.
    + by apply Forall_app.
    + lens.
    + by apply Forall_app.
    + by eapply grown_trans.
    + auto.
Qed.

Lemma inter_of_app (l1 l2 : list bitset) :
  inter_of universe l1 ∩ inter_of universe l2 = inter_of universe (l1 ++ l2).
Proof.
  apply set_eq. intros i.
  rewrite elem_of_intersection, !elem_of_inter_of. split.
  - intros [[? H1] [_ H2]]. split; [done |].
    intros S [? | ?]%elem_of_app; auto.
  - intros [? H]. split; (split; [done |]); intros S ?; apply H, elem_of_app; auto.
Qed.

(** The set [minCapturedSet] of [Search]: with disjoint captured sets it
    is made of the sets that may still be used. *)
Lemma minCapturedSet_ok (inter branch : bitset) cX cY :
  inter ⊆ captured cX cY →
  (cX = true → x_capture_set c ## branch) →
  (cY = true → y_capture_set c ## branch) →
  let min1 := if Bitset.any (inter ∩ x_capture_set c)
              then x_capture_set c else ∅ in
  let m := if Bitset.any (inter ∩ y_capture_set c)
           then min1 ∪ y_capture_set c else min1 in
  wf m ∧ inter ⊆ m ∧ m ## branch.
Proof.
  intros Hsub HX HY. cbv zeta.
  assert (Bitset.any (inter ∩ x_capture_set c) = true →
          cX = true ∧ x_capture_set c ## branch) as HcX.
  { unfold Bitset.any.
    intros [i [Hi1 Hi2]%elem_of_intersection]%negb_true_iff%none_false%set_choose_L.
    apply Hsub in Hi1. unfold captured in Hi1.
    destruct cX; [by auto |]. exfalso.
    apply elem_of_union in Hi1 as [?%elem_of_empty | Hi1]; [done |].
    destruct cY; [| by apply elem_of_empty in Hi1].
    by apply (disjoint_captured i). }
  assert (Bitset.any (inter ∩ y_capture_set c) = true →
          cY = true ∧ y_capture_set c ## branch) as HcY.
  { unfold Bitset.any.
    intros [i [Hi1 Hi2]%elem_of_intersection]%negb_true_iff%none_false%set_choose_L.
    apply Hsub in Hi1. unfold captured in Hi1.
    destruct cY; [by auto |]. exfalso.
    apply elem_of_union in Hi1 as [Hi1 | ?%elem_of_empty]; [| done].
    destruct cX; [| by apply elem_of_empty in Hi1].
    by apply (disjoint_captured i). }
  assert (Bitset.any (inter ∩ x_capture_set c) = false →
          inter ## x_capture_set c) as HnX.
  { unfold Bitset.any. intros ?%negb_false_iff%none_true. set_solver. }
  assert (Bitset.any (inter ∩ y_capture_set c) = false →
          inter ## y_capture_set c) as HnY.
  { unfold Bitset.any. intros ?%negb_false_iff%none_true. set_solver. }
  assert (inter ⊆ x_capture_set c ∪ y_capture_set c) as Hxy.
  { intros i Hi%Hsub. unfold captured in Hi. destruct cX, cY; set_solver. }
  clear Hsub HX HY.
  destruct (Bitset.any (inter ∩ x_capture_set c));
    destruct (Bitset.any (inter ∩ y_capture_set c)).
  - destruct (HcX eq_refl) as [_ ?], (HcY eq_refl) as [_ ?]. clear HcX HcY HnX HnY.
    unfold Bitset.wf in *. split_and!; set_solver.
  - destruct (HcX eq_refl) as [_ ?]. specialize (HnY eq_refl). clear HcX HcY HnX.
    unfold Bitset.wf in *. split_and!; set_solver.
  - destruct (HcY eq_refl) as [_ ?]. specialize (HnX eq_refl). clear HcX HcY HnY.
    unfold Bitset.wf in *. split_and!; set_solver.
  - specialize (HnX eq_refl). specialize (HnY eq_refl). clear HcX HcY.
    unfold Bitset.wf in *. split_and!; set_solver.
Qed.

Lemma Search_step fuel : Search_loop_ok fuel → Search_ok (S fuel).
Proof.
  intros IHL forbidden cX cY pre new old filt added s branch
    Hfuel Hpre Hwf Hknown.
  pose proof Hpre as [Hn Hw Hp Hb HX HY].
  cbn [Search].
  rewrite (bind_run _ _ _ tt s).
  2:{ rewrite bool_decide_eq_true_2; [done |]. destruct new; [done | cbn; lia]. }
  rewrite (bind_run _ _ _ (inter_of universe new) s).
  2:{ by rewrite (Intersect_at BITSETSIZE _ _ _ pre new (old ++ filt)). }
  rewrite (bind_run _ _ _ (inter_of universe old) s).
  2:{ rewrite (Intersect_at BITSETSIZE _ _ _ (pre ++ new) old filt);
        [done | list_assoc | lens | done]. }
  rewrite inter_of_app. fold (captured cX cY).
  destruct (Bitset.IsSubsetOf (inter_of universe (new ++ old)) (captured cX cY))
    eqn:Hsub; cbn [negb].
  - apply IsSubsetOf_true in Hsub.
    destruct (minCapturedSet_ok _ branch cX cY Hsub HX HY) as (Hwm & Him & Hmb).
    cbv zeta in Hwm, Him, Hmb.
    assert (2 * free (forbidden ∪ inter_of universe new) + 1 ≤ fuel) as Hfuel'.
    { assert (free (forbidden ∪ inter_of universe new) ≤ free forbidden)
        by (apply free_mono; set_solver).
      lia. }
    destruct (decide (length filt = 0)) as [Hf | Hf].
    + (* no Full is known: the union of a few Semis is added *)
      apply nil_length_inv in Hf as ->. rewrite app_nil_r in *.
      destruct (Combiner_Add_range BITSETSIZE c pre (new ++ old) [] added _ branch s
                  Him) as (U & s1 & HAdd & HwU & HUin & Hs1); [| done | done | done | done | |].
      { apply Exists_app. left. destruct new as [| S0 new']; [done |].
        apply Exists_cons. left. exact (Forall_inv Hp). }
      { apply list.Forall_forall. intros F HF.
        destruct (proj1 (list.Forall_forall _ _) Hknown F HF) as [?%elem_of_nil | ?];
          done. }
      rewrite app_nil_r, length_app in HAdd.
      rewrite (bind_run _ _ _ _ _ (bind_run _ _ _ _ _ HAdd)).
      cbv beta iota.
      set (v := VC_full (m_x c) (m_y c) U VC_RULE_OR) in *.
      assert (grown (fulls_of s) [U] (fulls_of s1)) as Hgr1.
      { apply list.Forall_forall. intros F HF.
        destruct (Hs1 F HF) as [-> | ?]; [right; apply list_elem_of_here | left; eauto]. }
      destruct (IHL (forbidden ∪ inter_of universe new) cX cY pre new old [] [U]
                    (added ++ [v]) s1 branch)
        as (cl & vcs_l & s2 & Hloop & Hwcl & Hlen_l & Hor_l & Hgr_l & Hne_l).
      { done. }
      { done. }
      { by apply Forall_singleton. }
      { done. }
      { set_solver. }
      { apply (known_grown [] branch (fulls_of s) [U]); done. }
      cbn [app length] in Hloop.
      replace (pre ++ new ++ old ++ [U]) with ((pre ++ new ++ old) ++ [U])
        in Hloop by list_assoc.
      assert (fulls_of s2 ≠ []) as Hne2.
      { apply Hne_l. intros Hnil. rewrite Hnil in HUin. by apply elem_of_nil in HUin. }
      exists ([U] ++ cl), ([v] ++ vcs_l), s2. split; [| done].
      unfold Search_post. split_and!.
      * cbn [length]. rewrite Hloop. by rewrite <- !app_assoc.
      * by apply Forall_cons.
      * cbn. by rewrite Hlen_l.
      * constructor; [reflexivity | done].
      * by eapply grown_trans.
      * done.
    + (* the Fulls of the list are tried first *)
      destruct (IHL (forbidden ∪ inter_of universe new) cX cY pre new old filt []
                    added s branch)
        as (cl & vcs_l & s2 & Hloop & Hpost).
      { done. }
      { done. }
      { by rewrite app_nil_r. }
      { rewrite app_nil_r. by destruct filt. }
      { set_solver. }
      { by rewrite app_nil_r. }
      rewrite !app_nil_r in Hloop. cbn [length] in Hloop.
      exists cl, vcs_l, s2. split; [| by intros ->].
      unfold Search_post. split; [| exact Hpost]. exact Hloop.
  - apply IsSubsetOf_false in Hsub.
    exists [], [], s. split; [| by intros _ ?].
    unfold Search_post. rewrite !app_nil_r.
    split_and!;
      [| constructor | reflexivity | constructor | apply grown_refl | done].
    rewrite resize_take by lens. by rewrite take_app_length.
Qed.

(** With fuel for two steps per cell that is not yet forbidden, [Search]
    and its loop return, and no assertion of [Search] or [Add] fails. *)
Lemma Search_total fuel : Search_ok fuel ∧ Search_loop_ok fuel.
Proof.
  induction fuel as [| fuel [IHS IHL]].
  - split; [intros ? ? ? ? ? ? ? ? ? ? Hf | intros ? ? ? ? ? ? ? ? ? ? ? Hf]; lia.
  - split; [by apply Search_step | by apply Search_loop_step].
Qed.

End EnhancedOrInvariant.


(** ** The enhanced OR rule on a list of Semis *)

Section EnhancedOr.
Variable BITSETSIZE : nat.

#[local] Abbreviation wf := (Bitset.wf BITSETSIZE).
#[local] Abbreviation universe := (Bitset.universe BITSETSIZE).

Lemma free_empty : free BITSETSIZE ∅ = BITSETSIZE.
Proof.
  unfold free. rewrite difference_empty_L. unfold Bitset.universe.
  apply size_set_seq.
Qed.

Lemma elem_of_intersect_all vs i :
  i ∈ VCList.intersect_all BITSETSIZE vs
  ↔ i ∈ universe ∧ ∀ v, v ∈ vs → i ∈ Carrier v.
Proof.
  unfold VCList.intersect_all. induction vs as [| v vs IH]; cbn.
  - split; [| tauto]. intros ?. split; [done |]. by intros ? ?%elem_of_nil.
  - rewrite elem_of_intersection, IH. split.
    + intros [? [? Hl]]. split; [done |].
      intros v' [-> | ?]%elem_of_cons; auto.
    + intros [? Hl]. split_and!; [ | done | ].
      * apply Hl, list_elem_of_here.
      * intros v' ?. by apply Hl, list_elem_of_further.
Qed.

(** The intersection [Search] computes over the unprocessed and the
    processed Semis is the hard intersection of the list. *)
Lemma inter_of_semis (es : list VC) :
  inter_of universe
    ((Carrier <$> filter (λ v, Processed v = false) es)
     ++ (Carrier <$> filter (λ v, Processed v = true) es))
  = VCList.intersect_all BITSETSIZE es.
Proof.
  apply set_eq. intros i. rewrite elem_of_inter_of, elem_of_intersect_all.
  split; intros [Hu H]; (split; [done |]).
  - intros v Hv. apply H, elem_of_app.
    destruct (Processed v) eqn:Hp; [right | left];
      apply list_elem_of_fmap; exists v; (split; [done |]);
      by apply list_elem_of_filter.
  - intros S [HS | HS]%elem_of_app;
      apply list_elem_of_fmap in HS as (v & -> & [_ Hv]%list_elem_of_filter); auto.
Qed.

(** C3, amended: on a list of Semis with an unprocessed Semi, where the
    captured sets of the two ends are disjoint, the enhanced OR rule
    returns, so that no Full the combiner adds is rejected; every
    connection it adds is a Full between the two ends with the rule OR;
    a list of Fulls that is not empty stays so; and when the list of Fulls
    is empty and the intersection of all the carriers of the Semis is
    inside the two captured sets, at least one Full is added. *)
Theorem C3_enhanced_or_adds_a_full (fuel : nat) (xc yc : HexPoint) (s : VCBuilder) :
  let semis := VCSet.GetList SEMI xc yc (m_con s) in
  let fulls := VCSet.GetList FULL xc yc (m_con s) in
  let x := VCList.GetX semis in
  let y := VCList.GetY semis in
  let cap := m_capturedSet s in
  x < BITSETSIZE → y < BITSETSIZE →
  Forall (λ v, wf (Carrier v) ∧ Carrier v ≠ universe) (VCList.entries semis) →
  Forall (λ v, wf (Carrier v)) (VCList.entries fulls) →
  wf (cap x) → wf (cap y) → cap x ## cap y →
  Exists (λ v, Processed v = false) (VCList.entries semis) →
  2 * BITSETSIZE + 2 ≤ fuel →
  ∃ good added' s',
    DoOr BITSETSIZE fuel xc yc [] s = inr ((good, added'), s')
    ∧ Forall (λ v, v = VC_full x y (Carrier v) VC_RULE_OR) added'
    ∧ (good = true ↔ added' ≠ [])
    ∧ (VCList.Empty fulls = false →
       VCList.Empty (VCSet.GetList FULL xc yc (m_con s')) = false)
    ∧ (VCList.Empty fulls = true →
       VCList.HardIntersection BITSETSIZE semis ⊆ cap x ∪ cap y →
       good = true
       ∧ VCList.Empty (VCSet.GetList FULL xc yc (m_con s')) = false).
Proof.
  intros semis fulls x y cap Hx Hy Hsemis Hfulls Hwx Hwy Hdisj Hex Hfuel.
  set (c := mkCombiner x y (cap x) (cap y) (xc, yc)).
  set (new := Carrier <$> filter (λ v, Processed v = false) (VCList.entries semis)).
  set (old := Carrier <$> filter (λ v, Processed v = true) (VCList.entries semis)).
  set (filt := Carrier <$> VCList.entries fulls).
  assert (new ≠ []) as Hnew.
  { apply list.Exists_exists in Hex as (v & Hv & Hp).
    assert (Carrier v ∈ new) as Hin.
    { apply list_elem_of_fmap. exists v. split; [done |].
      by apply list_elem_of_filter. }
    intros Hnil. rewrite Hnil in Hin. by apply elem_of_nil in Hin. }
  assert (search_pre BITSETSIZE c ∅ true true new old) as Hpre.
  { split.
    - done.
    - apply list.Forall_forall. intros S [HS | HS]%elem_of_app;
        apply list_elem_of_fmap in HS as (v & -> & [_ Hv]%list_elem_of_filter);
        by apply (proj1 (list.Forall_forall _ _) Hsemis v Hv).
    - apply list.Forall_forall. intros S HS.
      apply list_elem_of_fmap in HS as (v & -> & [_ Hv]%list_elem_of_filter).
      destruct (proj1 (list.Forall_forall _ _) Hsemis v Hv) as [Hw Hne].
      intros Hsub. apply Hne. unfold Bitset.wf in Hw. set_solver.
    - apply list.Forall_forall. intros S _. set_solver.
    - intros _. set_solver.
    - intros _. set_solver. }
  assert (Forall wf filt) as Hwfilt.
  { apply list.Forall_forall. intros S (v & -> & Hv)%list_elem_of_fmap.
    by apply (proj1 (list.Forall_forall _ _) Hfulls v Hv). }
  assert (known filt ∅ (fulls_of c s)) as Hknown.
  { apply list.Forall_forall. intros F HF. left.
    apply list_elem_of_fmap. by exists F. }
  destruct (proj1 (Search_total BITSETSIZE c Hwx Hwy Hdisj fuel)
              ∅ true true [] new old filt [] s ∅)
    as (conns & vcs & s' & (Hrun & _ & Hlen & Hor & _ & Hne) & Hadds);
    [rewrite free_empty; lia | done | done | done |].
  cbn [app length] in Hrun.
  unfold DoOr.
  rewrite (bind_run _ _ _ semis s eq_refl), (bind_run _ _ _ fulls s eq_refl).
  cbv zeta. fold x y.
  rewrite (bind_run _ _ _ tt s) by by rewrite bool_decide_eq_true_2.
  rewrite (bind_run _ _ _ tt s) by by rewrite bool_decide_eq_true_2.
  rewrite (bind_run _ _ _ cap s eq_refl).
  fold c new. rewrite bool_decide_eq_false_2 by by destruct new.
  fold old filt. rewrite (bind_run _ _ _ _ _ Hrun). cbv beta iota.
  exists (bool_decide (0 < length conns)), vcs, s'.
  assert (bool_decide (0 < length conns) = true ↔ vcs ≠ []) as Hgood.
  { rewrite bool_decide_eq_true, <- Hlen. destruct vcs; cbn; [| split; [done | lia]].
    split; [lia | done]. }
  assert (VCList.Empty fulls = false ↔ fulls_of c s ≠ []) as Hempty.
  { unfold VCList.Empty. apply bool_decide_eq_false. }
  assert (VCList.Empty (VCSet.GetList FULL xc yc (m_con s')) = false
          ↔ fulls_of c s' ≠ []) as Hempty'.
  { unfold VCList.Empty. apply bool_decide_eq_false. }
  split_and!.
  - reflexivity.
  - exact Hor.
  - exact Hgood.
  - rewrite Hempty, Hempty'. exact Hne.
  - intros Hnil%bool_decide_eq_true Hhard.
    destruct Hadds as [Hc Hf].
    + subst filt. fold fulls in Hnil. by rewrite Hnil.
    + unfold captured. cbn [x_capture_set y_capture_set c].
      subst new old. by rewrite inter_of_semis.
    + split; [| by apply Hempty'].
      apply bool_decide_eq_true. destruct conns; [done | cbn; lia].
Qed.
End EnhancedOr.

(** Closed decidable facts are settled by evaluation. *)
Ltac by_evaluation :=
  match goal with
  | |- ?P => apply (bool_decide_unpack P); vm_compute; exact I
  end.

Lemma C3_witness :
  ∃ added' s',
    DoOr Tiny.B 18 0 7 [] (Tiny.triangle Tiny.enhanced_param)
    = inr ((true, added'), s')
    ∧ VCList.Empty (VCSet.GetList FULL 0 7 (m_con s')) = false.
Proof.
  pose proof (C3_enhanced_or_adds_a_full Tiny.B 18 0 7
                (Tiny.triangle Tiny.enhanced_param)) as H.
  cbv zeta in H.
  destruct H as (good & added' & s' & Hrun & _ & _ & _ & Hadd);
    [by_evaluation ..|].
  destruct Hadd as [-> Hfull];
    [vm_compute; reflexivity | by_evaluation |].
  exists added', s'. split; [exact Hrun | exact Hfull].
Defined.

(** C3 as stated fails: with the Full of carrier {1, 3} in the list and the
    two unprocessed Semis of carriers {1, 2} and {3, 4}, whose intersection
    is empty, the combiner adds no Full: the search runs over the Full of
    the list and returns 0. *)
Lemma C3_counterexample :
  let s := Tiny.dominated Tiny.enhanced_param in
  let semis := VCSet.GetList SEMI 0 7 (m_con s) in
  max_ors (m_param s) = 16%Z
  ∧ Forall (λ v, Processed v = false) (VCList.entries semis)
  ∧ VCList.entries semis ≠ []
  ∧ Bitset.none (VCList.HardIntersection Tiny.B semis) = true
  ∧ DoOr Tiny.B 100 0 7 [] s = inr ((false, []), s).
Proof.
  cbv zeta. split_and!.
  - vm_compute; reflexivity.
  - by_evaluation.
  - by_evaluation.
  - vm_compute; reflexivity.
  - vm_compute; reflexivity.
Qed.


(** ** The rules on the three-cell position *)

(** The AND of a processed Full 0-1 and the Full 1-2 that share their
    carrier {3} over the black cell 1: the two Semis with key 3. *)
Lemma C4_witness :
  let a := SetProcessed (VC_full 0 1 {[ 3 ]} VC_RULE_BASE) true in
  let vc := VC_full 1 2 {[ 3 ]} VC_RULE_BASE in
  let s := Tiny.fresh default_param in
  DoAnd_entry Tiny.B 0 1 2 CREATE_FULL vc ∅ a s
  = (when (bool_decide (Carrier a ∩ Carrier vc = {[ 3 ]}))
          (try_and_semi (AndVCs_key 0 2 a vc 3)) ;;
     try_and_semi (AndVCs_captured_key 0 2 a vc ∅ 3)) s.
Proof.
  cbv zeta.
  pose (a := SetProcessed (VC_full 0 1 {[ 3 ]} VC_RULE_BASE) true).
  pose (vc := VC_full 1 2 {[ 3 ]} VC_RULE_BASE).
  assert (Processed a = true) as Hp by reflexivity.
  assert (2 ∉ Carrier a) as Hto by by_evaluation.
  assert (Bitset.wf Tiny.B (Carrier a)) as Hwf by by_evaluation.
  assert (Carrier a ∩ Carrier vc ≠ ∅) as Hne by by_evaluation.
  assert (¬ Carrier a ∩ Carrier vc ⊆ ∅) as Hcap by by_evaluation.
  assert (Carrier a ∩ Carrier vc ∖ ∅ = {[ 3 ]}) as Hk by (vm_compute; reflexivity).
  pose proof (C4_singleton_intersection_fallback Tiny.B 0 1 2 vc a ∅ CREATE_FULL
                (Tiny.fresh default_param) Hp Hto Hwf Hne Hcap) as H.
  cbv zeta in H. destruct H as (_ & _ & H).
  exact (proj1 (H eq_refl 3 Hk)).
Defined.



(** * Further properties of the builder *)

(** ** The two work queues *)

(** A call of [Push] or of [Pop] on the queue of Fulls. *)
Inductive FullVCQueue_op := FullPush (vc : VC) | FullPop.

#[global] Instance FullVCQueue_op_eq_dec : EqDecision FullVCQueue_op.
Proof. solve_decision. Defined.

Definition FullVCQueue_run (q : FullVCQueue.t) (ops : list FullVCQueue_op)
    : FullVCQueue.t :=
  foldl (λ q op, match op with
                 | FullPush vc => FullVCQueue.Push vc q
                 | FullPop => FullVCQueue.Pop q
                 end) q ops.

Definition pushed (ops : list FullVCQueue_op) : list VC :=
  omap (λ op, match op with FullPush vc => Some vc | FullPop => None end) ops.

Definition popped (ops : list FullVCQueue_op) : nat :=
  length (filter (λ op, op = FullPop) ops).

Lemma FullVCQueue_run_state q ops :
  FullVCQueue.m_array (FullVCQueue_run q ops) = FullVCQueue.m_array q ++ pushed ops
  ∧ FullVCQueue.m_head (FullVCQueue_run q ops) = FullVCQueue.m_head q + popped ops.
Proof.
  revert q. induction ops as [| op ops IH]; intros q.
  - cbn. by rewrite app_nil_r, Nat.add_0_r.
  - change (FullVCQueue_run q (op :: ops))
      with (FullVCQueue_run (match op with
                             | FullPush vc => FullVCQueue.Push vc q
                             | FullPop => FullVCQueue.Pop q
                             end) ops).
    destruct (IH (match op with
                  | FullPush vc => FullVCQueue.Push vc q
                  | FullPop => FullVCQueue.Pop q
                  end)) as [-> ->].
    unfold popped. rewrite filter_cons. destruct op as [vc |].
    + rewrite decide_False by done. cbn. by rewrite <- app_assoc.
    + rewrite decide_True by done. cbn. split; [done | lia].
Qed.

(** X1: the queue of Fulls is first in, first out, and [Pop] is unchecked.
    After [Clear] and any sequence of [Push] and [Pop], [Front] is the
    connection pushed at the position given by the number of calls of [Pop]
    (no connection if as many or more were popped than pushed), and [Empty]
    holds exactly when as many were popped as pushed: a [Pop] on an empty
    queue leaves a queue that is not [Empty]. *)
Theorem FullVCQueue_first_in_first_out (q0 : FullVCQueue.t)
    (ops : list FullVCQueue_op) :
  let q := FullVCQueue_run (FullVCQueue.Clear q0) ops in
  FullVCQueue.Front q = pushed ops !! popped ops
  ∧ FullVCQueue.Empty q = bool_decide (popped ops = length (pushed ops)).
Proof.
  cbv zeta. destruct (FullVCQueue_run_state (FullVCQueue.Clear q0) ops) as [Ha Hh].
  unfold FullVCQueue.Front, FullVCQueue.Empty. rewrite Ha, Hh. cbn. done.
Qed.

Lemma queue_reachable_head q :
  queue_reachable q → SemiEndsQueue.m_head q ≤ length (SemiEndsQueue.m_array q).
Proof.
  induction 1 as [q | p q Hq IH | q q' Hq IH Hpop]; cbn.
  - lia.
  - unfold SemiEndsQueue.Push. case_bool_decide; cbn; [done |].
    rewrite length_app. lia.
  - unfold SemiEndsQueue.Pop in Hpop.
    destruct (SemiEndsQueue.Front q) as [p |] eqn:Hf; [| done].
    apply (inj Some) in Hpop. subst q'. cbn.
    apply lookup_lt_Some in Hf. lia.
Qed.

(** X2: the queue of endpoint pairs does not keep the pairs of two different
    cells unique.  On every queue that [Clear], [Push] and [Pop] can build,
    [Push] of a pair of two different cells appends the pair, smaller cell
    first, whatever the queue holds, and does not move the front; and the
    marks of [m_seen] are all of the form [(a, a)]. *)
Theorem SemiEndsQueue_Push_appends_proper_pairs (q : SemiEndsQueue.t)
    (x y : HexPoint) :
  queue_reachable q → x ≠ y →
  SemiEndsQueue.pending (SemiEndsQueue.Push (x, y) q)
  = SemiEndsQueue.pending q ++ [(x `min` y, x `max` y)]
  ∧ SemiEndsQueue.m_head (SemiEndsQueue.Push (x, y) q) = SemiEndsQueue.m_head q
  ∧ ∀ a b, (a, b) ∈ SemiEndsQueue.m_seen (SemiEndsQueue.Push (x, y) q) → a = b.
Proof.
  intros Hq Hxy. split_and!.
  - unfold SemiEndsQueue.pending.
    rewrite (Push_proper_pair_always_inserts q x y Hq Hxy), SemiEndsQueue_Push_head.
    rewrite drop_app_le by by apply queue_reachable_head. done.
  - apply SemiEndsQueue_Push_head.
  - intros a b. apply seen_on_diagonal. by constructor.
Qed.

Lemma SemiEndsQueue_Push_appends_witness :
  SemiEndsQueue.pending
    (SemiEndsQueue.Push (5, 3)
       (SemiEndsQueue.Push (3, 5) (SemiEndsQueue.Clear (SemiEndsQueue.mk 0 [] ∅))))
  = [(3, 5)] ++ [(3, 5)].
Proof.
  assert (5 ≠ 3) as Hne by lia.
  exact (proj1 (SemiEndsQueue_Push_appends_proper_pairs
                  (SemiEndsQueue.Push (3, 5) (SemiEndsQueue.Clear (SemiEndsQueue.mk 0 [] ∅)))
                  5 3 (reach_Push _ _ (reach_Clear _)) Hne)).
Defined.


(** ** Adding a connection to the set *)

(** The lists of the set are the same, whatever the table holds for the
    lists that were never written. *)
Definition same_lists (c c' : VCSet.t) : Prop :=
  ∀ ty x y, VCSet.GetList ty x y c' = VCSet.GetList ty x y c.

Lemma same_lists_SetList_same ty x y c :
  same_lists c (VCSet.SetList ty x y (VCSet.GetList ty x y c) c).
Proof.
  intros ty' x' y'.
  destruct (decide (VCSet.key ty x y = VCSet.key ty' x' y')) as [Hk | Hk].
  - unfold VCSet.GetList, VCSet.SetList. cbn. rewrite <- Hk, lookup_insert_eq. cbn.
    unfold VCSet.key in Hk. by injection Hk as _ -> ->.
  - by apply GetList_SetList_ne.
Qed.

Lemma Add_entries_strict vc log l w :
  w ∈ VCList.entries (VCList.Add vc log l).1.2 →
  w = vc ∨ (w ∈ VCList.entries l
            ∧ (VCList.IsSupersetOfAny l (Carrier vc) = false → ¬ Carrier vc ⊆ Carrier w)).
Proof.
  unfold VCList.Add. destruct (VCList.IsSupersetOfAny l (Carrier vc)) eqn:Hsup.
  - cbn. intros ?. right. done.
  - pose proof (insert_sorted_elems vc
                  (VCList.non_supersets_of (Carrier vc) (VCList.entries l)) w) as H.
    destruct (VCList.insert_sorted vc _) as [i es]. cbn in *.
    intros Hw. destruct (H Hw) as [-> | Hin]; [by left | right].
    unfold VCList.non_supersets_of in Hin.
    apply list_elem_of_filter in Hin as [? ?]. done.
Qed.

Lemma nbs_after_PushFull (nbs : HexPoint → bitset) (x y : HexPoint) :
  let nbs1 := <[ x := Bitset.set (nbs x) y ]> nbs in
  let nbs2 := <[ y := Bitset.set (nbs1 y) x ]> nbs1 in
  y ∈ nbs2 x ∧ x ∈ nbs2 y
  ∧ ∀ a b, b ∈ nbs2 a ↔ b ∈ nbs a ∨ (a = x ∧ b = y) ∨ (a = y ∧ b = x).
Proof.
  cbv zeta. unfold Bitset.set.
  assert (∀ a b, b ∈ (<[ y := {[ x ]} ∪ (<[ x := {[ y ]} ∪ nbs x ]> nbs) y ]>
                        (<[ x := {[ y ]} ∪ nbs x ]> nbs)) a
                 ↔ b ∈ nbs a ∨ (a = x ∧ b = y) ∨ (a = y ∧ b = x)) as H.
  { intros a b. destruct (decide (a = y)) as [-> | Hay].
    - rewrite fn_lookup_insert. destruct (decide (y = x)) as [-> | Hyx].
      + rewrite fn_lookup_insert. set_solver.
      + rewrite fn_lookup_insert_ne by done. set_solver.
    - rewrite fn_lookup_insert_ne by done. destruct (decide (a = x)) as [-> | Hax].
      + rewrite fn_lookup_insert. set_solver.
      + rewrite fn_lookup_insert_ne by done. set_solver. }
  split_and!; [apply H; auto.. | exact H].
Qed.

(** X3: [AddNewFull] in its three cases.  A connection that is not a Full
    fails the assertion of the first line.  A Full whose carrier contains
    the carrier of a Full of the list between its endpoints is refused:
    [false] is returned and no list, queue, neighbour set, log or counter
    changes.  Any other Full is accepted: [true] is returned, the Full is in
    its list, whose other entries are old ones that do not contain its
    carrier; the Semis between the same endpoints whose carrier contains
    the carrier of the Full are removed and the others kept in order; the
    Full is at the back of the queue of Fulls; and the captains of its two
    endpoints are neighbours of each other. *)
Theorem AddNewFull_three_cases (vc : VC) (s : VCBuilder) :
  let fulls := VCSet.GetList FULL (X vc) (Y vc) (m_con s) in
  let semis := VCSet.GetList SEMI (X vc) (Y vc) (m_con s) in
  let cx := CaptainOf (m_groups s) (X vc) in
  let cy := CaptainOf (m_groups s) (Y vc) in
  (GetType vc ≠ FULL → AddNewFull vc s = inl (AssertFailure 1025))
  ∧ (GetType vc = FULL → VCList.IsSupersetOfAny fulls (Carrier vc) = true →
     ∃ s', AddNewFull vc s = inr (false, s')
       ∧ same_lists (m_con s) (m_con s')
       ∧ m_fulls_queue s' = m_fulls_queue s ∧ m_semis_queue s' = m_semis_queue s
       ∧ m_nbs s' = m_nbs s ∧ m_log s' = m_log s
       ∧ m_statsForColor s' = m_statsForColor s)
  ∧ (GetType vc = FULL → VCList.IsSupersetOfAny fulls (Carrier vc) = false →
     ∃ s', AddNewFull vc s = inr (true, s')
       ∧ vc ∈ VCList.entries (VCSet.GetList FULL (X vc) (Y vc) (m_con s'))
       ∧ (∀ w, w ∈ VCList.entries (VCSet.GetList FULL (X vc) (Y vc) (m_con s')) →
               w = vc ∨ (w ∈ VCList.entries fulls ∧ ¬ Carrier vc ⊆ Carrier w))
       ∧ VCList.entries (VCSet.GetList SEMI (X vc) (Y vc) (m_con s'))
         = VCList.non_supersets_of (Carrier vc) (VCList.entries semis)
       ∧ FullVCQueue.m_array (m_fulls_queue s')
         = FullVCQueue.m_array (m_fulls_queue s) ++ [vc]
       ∧ FullVCQueue.m_head (m_fulls_queue s') = FullVCQueue.m_head (m_fulls_queue s)
       ∧ cy ∈ m_nbs s' cx ∧ cx ∈ m_nbs s' cy).
Proof.
  intros fulls semis cx cy. unfold AddNewFull. split_and!.
  - intros Hty. by rewrite bool_decide_eq_false_2.
  - intros Hty Hsup. rewrite bool_decide_eq_true_2 by done.
    rewrite (bind_run _ _ _ tt s eq_refl). unfold con_Add.
    rewrite (bind_run _ _ _ _ _ (on_list_run _ _ _ _ _)).
    rewrite Hty. fold fulls. rewrite (Add_failed _ _ _ Hsup). cbn.
    eexists. split; [reflexivity |]. cbn. split_and!; try done.
    apply same_lists_SetList_same.
  - intros Hty Hsup. rewrite bool_decide_eq_true_2 by done.
    rewrite (bind_run _ _ _ tt s eq_refl). unfold con_Add.
    rewrite (bind_run _ _ _ _ _ (on_list_run _ _ _ _ _)).
    rewrite Hty. fold fulls.
    destruct (Add_succeeded vc (m_log s) fulls Hsup)
      as (r & l' & log' & HAdd & Hok & Hin & _).
    pose proof (Add_entries_strict vc (m_log s) fulls) as Hents.
    rewrite HAdd in *. cbn [fst snd] in *. rewrite Hok.
    rewrite (bind_run _ _ _ _ _ (on_list_run _ _ _ _ _)).
    cbn [m_con m_log set_m_con set_m_log fst snd VCList.RemoveSuperSetsOf].
    match goal with
    | |- ∃ s', (PushFull vc ≫= _) ?s1 = _ ∧ _ => set (s1' := s1)
    end.
    unfold PushFull, mbind, M_bind. cbn.
    eexists. split; [reflexivity |]. cbn.
    assert (VCSet.key SEMI (X vc) (Y vc) ≠ VCSet.key FULL (X vc) (Y vc)) as Hk by done.
    rewrite (GetList_SetList_ne _ _ _ _ _ _ _ _ Hk), !GetList_SetList.
    assert (VCSet.key FULL (X vc) (Y vc) ≠ VCSet.key SEMI (X vc) (Y vc)) as Hk' by done.
    rewrite (GetList_SetList_ne _ _ _ _ _ _ _ _ Hk'). fold semis. cbn.
    pose proof (nbs_after_PushFull (m_nbs s) cx cy) as (H1 & H2 & _).
    split_and!; try done.
    intros w Hw. destruct (Hents w Hw) as [? | [? ?]]; auto.
Qed.

(** On the position with the Full {1, 3} between 0 and 7: the Full
    {1, 3, 4} is refused, the Full {2} is accepted and removes the Semi
    {1, 2}. *)
Lemma AddNewFull_three_cases_witness :
  (∃ s', AddNewFull (Tiny.full {[ 1; 3; 4 ]}) (Tiny.dominated default_param)
         = inr (false, s'))
  ∧ ∃ s', AddNewFull (Tiny.full {[ 2 ]}) (Tiny.dominated default_param)
          = inr (true, s')
      ∧ VCList.entries (VCSet.GetList SEMI 0 7 (m_con s'))
        = VCList.non_supersets_of {[ 2 ]}
            (VCList.entries (VCSet.GetList SEMI 0 7
                               (m_con (Tiny.dominated default_param)))).
Proof.
  split.
  - destruct (proj1 (proj2 (AddNewFull_three_cases (Tiny.full {[ 1; 3; 4 ]})
                              (Tiny.dominated default_param))))
      as (s' & Hrun & _); [reflexivity | vm_compute; reflexivity |].
    exists s'. exact Hrun.
  - destruct (proj2 (proj2 (AddNewFull_three_cases (Tiny.full {[ 2 ]})
                              (Tiny.dominated default_param))))
      as (s' & Hrun & _ & _ & Hsemis & _); [reflexivity | vm_compute; reflexivity |].
    exists s'. split; [exact Hrun | exact Hsemis].
Defined.

(** X4: [AddNewSemi] in its three cases.  A Semi whose carrier contains the
    carrier of a Full between its endpoints is refused and the state is
    untouched.  One whose carrier contains the carrier of a Semi of its list
    is refused too, and no list, queue or log changes.  Any other Semi is
    accepted: it is in its list, whose other entries are old ones that do
    not contain its carrier, and the pair of its endpoints is pushed on the
    queue of pairs, whether it was added within the soft limit or not; no
    Full is made, and the Fulls and their queue are as before. *)
Theorem AddNewSemi_three_cases (vc : VC) (s : VCBuilder) :
  let fulls := VCSet.GetList FULL (X vc) (Y vc) (m_con s) in
  let semis := VCSet.GetList SEMI (X vc) (Y vc) (m_con s) in
  (VCList.IsSupersetOfAny fulls (Carrier vc) = true →
     AddNewSemi vc s = inr (false, s))
  ∧ (VCList.IsSupersetOfAny fulls (Carrier vc) = false →
     VCList.IsSupersetOfAny semis (Carrier vc) = true →
     ∃ s', AddNewSemi vc s = inr (false, s')
       ∧ same_lists (m_con s) (m_con s')
       ∧ m_fulls_queue s' = m_fulls_queue s ∧ m_semis_queue s' = m_semis_queue s
       ∧ m_log s' = m_log s)
  ∧ (VCList.IsSupersetOfAny fulls (Carrier vc) = false →
     VCList.IsSupersetOfAny semis (Carrier vc) = false →
     ∃ s', AddNewSemi vc s = inr (true, s')
       ∧ vc ∈ VCList.entries (VCSet.GetList SEMI (X vc) (Y vc) (m_con s'))
       ∧ (∀ w, w ∈ VCList.entries (VCSet.GetList SEMI (X vc) (Y vc) (m_con s')) →
               w = vc ∨ (w ∈ VCList.entries semis ∧ ¬ Carrier vc ⊆ Carrier w))
       ∧ m_semis_queue s' = SemiEndsQueue.Push (X vc, Y vc) (m_semis_queue s)
       ∧ VCSet.GetList FULL (X vc) (Y vc) (m_con s') = fulls
       ∧ m_fulls_queue s' = m_fulls_queue s).
Proof.
  intros fulls semis. unfold AddNewSemi.
  rewrite (bind_run _ _ _ _ s eq_refl). fold fulls. split_and!.
  - intros Hsup. by rewrite Hsup.
  - intros Hfull Hsup. rewrite Hfull. cbn [negb].
    rewrite (bind_run _ _ _ _ _ (on_list_run _ _ _ _ _)). fold semis.
    rewrite (Add_failed _ _ _ Hsup). cbn.
    eexists. split; [reflexivity |]. cbn. split_and!; try done.
    apply same_lists_SetList_same.
  - intros Hfull Hsup. rewrite Hfull. cbn [negb].
    rewrite (bind_run _ _ _ _ _ (on_list_run _ _ _ _ _)). fold semis.
    destruct (Add_succeeded vc (m_log s) semis Hsup)
      as (r & l' & log' & HAdd & Hok & Hin & _).
    pose proof (Add_entries_strict vc (m_log s) semis) as Hents.
    rewrite HAdd in *. cbn [fst snd] in *. rewrite Hok.
    rewrite (bind_run _ _ _ tt _ eq_refl).
    eexists. split; [reflexivity |]. cbn.
    assert (VCSet.key SEMI (X vc) (Y vc) ≠ VCSet.key FULL (X vc) (Y vc)) as Hk by done.
    rewrite (GetList_SetList_ne _ _ _ _ _ _ _ _ Hk), !GetList_SetList.
    split_and!; try done.
    intros w Hw. destruct (Hents w Hw) as [? | [? ?]]; auto.
Qed.

(** The Semi {1, 3, 5} is refused for the Full {1, 3}; the Semi {5} is
    accepted. *)
Lemma AddNewSemi_three_cases_witness :
  AddNewSemi (Tiny.semi 5 {[ 1; 3; 5 ]}) (Tiny.dominated default_param)
  = inr (false, Tiny.dominated default_param)
  ∧ ∃ s', AddNewSemi (Tiny.semi 5 {[ 5 ]}) (Tiny.dominated default_param)
          = inr (true, s')
      ∧ m_semis_queue s'
        = SemiEndsQueue.Push (0, 7) (m_semis_queue (Tiny.dominated default_param)).
Proof.
  split.
  - apply (proj1 (AddNewSemi_three_cases (Tiny.semi 5 {[ 1; 3; 5 ]})
                    (Tiny.dominated default_param))).
    vm_compute; reflexivity.
  - destruct (proj2 (proj2 (AddNewSemi_three_cases (Tiny.semi 5 {[ 5 ]})
                              (Tiny.dominated default_param))))
      as (s' & Hrun & _ & _ & Hq & _); [vm_compute; reflexivity.. |].
    exists s'. split; [exact Hrun | exact Hq].
Defined.


(** ** What the search keeps *)

(** The neighbour sets of the captains are symmetric. *)
Definition nbs_symmetric (s : VCBuilder) : Prop :=
  ∀ x y, y ∈ m_nbs s x → x ∈ m_nbs s y.

(** What no step of the search changes or undoes: the parameters, the
    position and the captured sets are fixed; a list of Fulls that is not
    empty stays so; the neighbour sets grow and stay symmetric; a null log
    stays null. *)
Record kept (s s' : VCBuilder) : Prop := mkKept {
  kept_m_param : m_param s' = m_param s;
  kept_m_color : m_color s' = m_color s;
  kept_m_groups : m_groups s' = m_groups s;
  kept_m_brd : m_brd s' = m_brd s;
  kept_m_capturedSet : m_capturedSet s' = m_capturedSet s;
  kept_m_statistics : m_statistics s' = m_statistics s;
  kept_Color : VCSet.Color (m_con s') = VCSet.Color (m_con s);
  kept_softlimit : VCSet.softlimit (m_con s') = VCSet.softlimit (m_con s);
  kept_Exists : ∀ x y, VCSet.Exists x y FULL (m_con s) = true →
                       VCSet.Exists x y FULL (m_con s') = true;
  kept_nbs : ∀ x, m_nbs s x ⊆ m_nbs s' x;
  kept_symmetric : nbs_symmetric s → nbs_symmetric s';
  kept_log : m_log s = None → m_log s' = None
}.

#[global] Instance kept_preorder : PreOrder kept.
Proof.
  split.
  - intros s. split; auto.
  - intros s1 s2 s3 [] []. split; try congruence; auto.
    intros x. etrans; eauto.
Qed.

(** The failures of the search: the fuel of the model, a read outside a
    vector, and the assertions of the functions below [DoSearch]. *)
Definition search_errors : list Err :=
  [OutOfFuel; OutOfBounds; AssertFailure 1025; AssertFailure 559; AssertFailure 560;
   AssertFailure 567; AssertFailure 624; AssertFailure 656; AssertFailure 499;
   AssertFailure 931; AssertFailure 851; AssertFailure 863; AssertFailure 754;
   AssertFailure 818; AssertFailure 710; AssertFailure 711; AssertFailure 466].

Definition search_error (e : Err) : Prop := e ∈ search_errors.

Lemma log_push_all_None a vs : log_push_all None a vs = None.
Proof. induction vs as [| v vs IH]; [done |]. cbn. exact IH. Qed.

Lemma GetList_key ty x y ty' x' y' c :
  VCSet.key ty x y = VCSet.key ty' x' y' →
  VCSet.GetList ty x y c = VCSet.GetList ty' x' y' c.
Proof.
  intros Hk. unfold VCSet.GetList. rewrite Hk.
  unfold VCSet.key in Hk. by injection Hk as _ -> ->.
Qed.

Ltac kept_side := unfold search_error; by_evaluation.

Ltac kept_fields :=
  split; cbn; try done; try (intros ->; reflexivity).

Ltac kept_modify := apply respects_modify; intros ?; solve [kept_fields].

Create HintDb kept discriminated.

Ltac kept_auto :=
  repeat first [ solve [auto with kept] | respects_step ltac:(kept_side) | kept_modify ].

Lemma kept_on_list {A} ty x y (op : ChangeLog → VCList.t → A * VCList.t * ChangeLog) :
  (ty = FULL → ∀ log l, VCList.entries l ≠ [] → VCList.entries (op log l).1.2 ≠ []) →
  (∀ l, (op None l).2 = None) →
  respects kept search_error (on_list ty x y op).
Proof.
  intros Hfull Hlog s. rewrite on_list_run.
  split; cbn; try done.
  - intros x' y'. unfold VCSet.Exists, VCList.Empty.
    rewrite !negb_true_iff, !bool_decide_eq_false.
    destruct (decide (VCSet.key ty x y = VCSet.key FULL x' y')) as [Hk | Hk].
    + assert (ty = FULL) as -> by (unfold VCSet.key in Hk; congruence).
      rewrite <- !(GetList_key FULL x y FULL x' y' _ Hk), GetList_SetList.
      by apply Hfull.
    + by rewrite GetList_SetList_ne.
  - intros ->. apply Hlog.
Qed.

Lemma Add_entries_nonempty vc log l :
  VCList.entries l ≠ [] → VCList.entries (VCList.Add vc log l).1.2 ≠ [].
Proof.
  intros Hne. unfold VCList.Add. destruct (VCList.IsSupersetOfAny l (Carrier vc)).
  - done.
  - pose proof (insert_sorted_elem vc
                  (VCList.non_supersets_of (Carrier vc) (VCList.entries l))) as Hin.
    destruct (VCList.insert_sorted vc _) as [i es]. cbn in *.
    intros Hnil. rewrite Hnil in Hin. by apply elem_of_nil in Hin.
Qed.

Lemma Add_log_None vc l : (VCList.Add vc None l).2 = None.
Proof.
  unfold VCList.Add. destruct (VCList.IsSupersetOfAny l (Carrier vc)); [done |].
  destruct (VCList.insert_sorted vc _) as [i es]. cbn.
  by rewrite log_push_all_None.
Qed.

Lemma kept_list_Add ty x y vc :
  respects kept search_error (on_list ty x y (λ log l, VCList.Add vc log l)).
Proof.
  apply kept_on_list.
  - intros _ log l. apply Add_entries_nonempty.
  - apply Add_log_None.
Qed.

Lemma kept_RemoveSuperSetsOf x y c dirty :
  respects kept search_error
    (on_list SEMI x y
       (λ log l, let '(l', log') := VCList.RemoveSuperSetsOf c log dirty l
                 in (tt, l', log'))).
Proof.
  apply kept_on_list; [done |]. intros l. cbn. apply log_push_all_None.
Qed.

Lemma kept_set_processed_at ty x y i :
  respects kept search_error
    (on_list ty x y (λ log l, (tt, VCList.set_processed_at i true l, log))).
Proof.
  apply kept_on_list; [| done]. intros _ log l Hne. cbn.
  intros Hnil%(f_equal length). rewrite length_alter in Hnil.
  by destruct (VCList.entries l).
Qed.

Lemma kept_stat_add c n : respects kept search_error (stat_add c n).
Proof. unfold stat_add. kept_auto. Qed.

Lemma kept_stat_incr c : respects kept search_error (stat_incr c).
Proof. apply kept_stat_add. Qed.

Lemma kept_log_Push a v : respects kept search_error (log_Push a v).
Proof. unfold log_Push. kept_auto. Qed.

Lemma kept_PushFull vc : respects kept search_error (PushFull vc).
Proof.
  intros s. unfold PushFull, mbind, M_bind. cbn.
  pose proof (nbs_after_PushFull (m_nbs s) (CaptainOf (m_groups s) (X vc))
                (CaptainOf (m_groups s) (Y vc))) as (_ & _ & Hnbs).
  cbv zeta in Hnbs. split; cbn; try done.
  - intros x b Hb. apply Hnbs. by left.
  - intros Hsym a b [Hab | [[-> ->] | [-> ->]]]%Hnbs; apply Hnbs; auto.
Qed.

Lemma kept_arr_set {A} (arr : list A) i v : respects kept search_error (arr_set arr i v).
Proof. unfold arr_set. kept_auto. Qed.

#[global] Hint Resolve kept_list_Add kept_RemoveSuperSetsOf kept_set_processed_at
  kept_stat_add kept_stat_incr kept_log_Push kept_PushFull kept_arr_set : kept.

Section Kept.
Variable BITSETSIZE : nat.
Variable isEdge : HexPoint → bool.
Variable colorEdge1 colorEdge2 : HexColor → HexPoint.

Lemma kept_AddNewFull vc : respects kept search_error (AddNewFull vc).
Proof. unfold AddNewFull, con_Add. kept_auto. Qed.

Lemma kept_AddNewSemi vc : respects kept search_error (AddNewSemi vc).
Proof. unfold AddNewSemi. kept_auto. Qed.

#[local] Hint Resolve kept_AddNewFull kept_AddNewSemi : kept.

Lemma kept_try_and_full vc : respects kept search_error (try_and_full vc).
Proof. unfold try_and_full. kept_auto. Qed.

Lemma kept_try_and_semi vc : respects kept search_error (try_and_semi vc).
Proof. unfold try_and_semi. kept_auto. Qed.

#[local] Hint Resolve kept_try_and_full kept_try_and_semi : kept.

Lemma kept_DoAnd_entry from over to rule vc cap i :
  respects kept search_error (DoAnd_entry BITSETSIZE from over to rule vc cap i).
Proof. unfold DoAnd_entry, singleton_fallback. kept_auto. Qed.

#[local] Hint Resolve kept_DoAnd_entry : kept.

Lemma kept_DoAnd from over to rule vc cap old :
  respects kept search_error (DoAnd BITSETSIZE from over to rule vc cap old).
Proof. unfold DoAnd. kept_auto. Qed.

#[local] Hint Resolve kept_DoAnd : kept.

Lemma kept_AndClosure vc :
  respects kept search_error (AndClosure BITSETSIZE isEdge vc).
Proof. unfold AndClosure, AndClosure_end, AndClosure_nbr. kept_auto. Qed.

#[local] Hint Resolve kept_AndClosure : kept.

Lemma kept_ProcessFulls vc :
  respects kept search_error (ProcessFulls BITSETSIZE isEdge vc).
Proof. unfold ProcessFulls. kept_auto. Qed.

Lemma kept_or_add x y v count added :
  respects kept search_error (or_add x y v count added).
Proof. unfold or_add. kept_auto. Qed.

#[local] Hint Resolve kept_or_add : kept.

Lemma kept_OrRule_loop fuel xc yc N maxOrs cap index ors ands d count added :
  respects kept search_error
    (OrRule_loop BITSETSIZE fuel xc yc N maxOrs cap index ors ands d count added).
Proof.
  revert index ors ands d count added.
  induction fuel as [| fuel IH]; intros; cbn [OrRule_loop]; kept_auto.
Qed.

#[local] Hint Resolve kept_OrRule_loop : kept.

Lemma kept_OrRule fuel vc xc yc added maxOrs :
  respects kept search_error (OrRule BITSETSIZE fuel vc xc yc added maxOrs).
Proof. unfold OrRule. kept_auto. Qed.

#[local] Hint Resolve kept_OrRule : kept.

Lemma kept_Add_loop mem start remaining cap inter uni :
  respects kept search_error (Add_loop mem start remaining cap inter uni).
Proof.
  revert start inter uni.
  induction remaining as [| r IH]; intros; cbn [Add_loop]; kept_auto.
Qed.

#[local] Hint Resolve kept_Add_loop : kept.

Lemma kept_Combiner_Add c mem added start count cap :
  respects kept search_error (Combiner_Add BITSETSIZE c mem added start count cap).
Proof. unfold Combiner_Add. kept_auto. Qed.

#[local] Hint Resolve kept_Combiner_Add : kept.

Lemma kept_Search fuel c :
  (∀ forbidden cX cY ns nsc osc fc mem added,
      respects kept search_error
        (Search BITSETSIZE fuel c forbidden cX cY ns nsc osc fc mem added))
  ∧ (∀ forbidden cX cY ns nsc osc fc nc ncc mem added,
      respects kept search_error
        (Search_loop BITSETSIZE fuel c forbidden cX cY ns nsc osc fc
                     nc ncc mem added)).
Proof.
  induction fuel as [| fuel [IH1 IH2]]; split; intros;
    cbn [Search Search_loop]; kept_auto.
Qed.

Lemma kept_DoOr fuel xc yc added :
  respects kept search_error (DoOr BITSETSIZE fuel xc yc added).
Proof.
  unfold DoOr. pose proof (kept_Search fuel) as HS. kept_auto.
  apply HS.
Qed.

#[local] Hint Resolve kept_DoOr : kept.

Lemma kept_mark_semi_processed xc yc idx :
  respects kept search_error (mark_semi_processed xc yc idx).
Proof. unfold mark_semi_processed. kept_auto. Qed.

#[local] Hint Resolve kept_mark_semi_processed : kept.

Lemma kept_ProcessSemis_bounded_loop fuel xc yc idxs added :
  respects kept search_error
    (ProcessSemis_bounded_loop BITSETSIZE fuel xc yc idxs added).
Proof.
  revert added. induction idxs as [| idx rest IH]; intros;
    cbn [ProcessSemis_bounded_loop]; unfold ProcessSemis_bounded_entry; kept_auto.
Qed.

Lemma kept_ProcessSemis_all xc yc cap added :
  respects kept search_error (ProcessSemis_all BITSETSIZE xc yc cap added).
Proof. unfold ProcessSemis_all. kept_auto. Qed.

#[local] Hint Resolve kept_ProcessSemis_bounded_loop kept_ProcessSemis_all : kept.

Lemma kept_ProcessSemis fuel xc yc :
  respects kept search_error (ProcessSemis BITSETSIZE fuel xc yc).
Proof. unfold ProcessSemis. kept_auto. Qed.

#[local] Hint Resolve kept_ProcessFulls kept_ProcessSemis : kept.

Lemma kept_DoSearch_loop fuel or_fuel :
  respects kept search_error
    (DoSearch_loop BITSETSIZE isEdge colorEdge1 colorEdge2 fuel or_fuel).
Proof.
  induction fuel as [| fuel IH]; cbn [DoSearch_loop];
    unfold DoSearch_iter, winning_connection_found; kept_auto.
Qed.
End Kept.

Section SearchKeeps.
Variable BITSETSIZE : nat.
Variable isEdge : HexPoint → bool.
Variable colorEdge1 colorEdge2 : HexColor → HexPoint.

Lemma kept_DoSearch fuel or_fuel :
  respects kept search_error
    (DoSearch BITSETSIZE isEdge colorEdge1 colorEdge2 fuel or_fuel).
Proof.
  intros s. unfold DoSearch.
  pose proof (kept_DoSearch_loop BITSETSIZE isEdge colorEdge1 colorEdge2
                fuel or_fuel s) as Hloop.
  unfold mbind at 1, M_bind at 1.
  destruct (DoSearch_loop _ _ _ _ _ _ s) as [e | [w s1]] eqn:Hrun; [done |].
  apply DoSearch_loop_inr in Hrun as (_ & _ & He).
  rewrite (bind_run _ _ _ s1 s1 eq_refl).
  destruct w; cbn; [done |]. destruct (He eq_refl) as [-> ->]. done.
Qed.

(** X5: what the fixed-point search never touches.  When [DoSearch]
    returns, the parameters, the colour, the groups, the board and the
    captured sets are those it started with, the set is still of the same
    colour with the same soft limit, and a log that was null is still
    null. *)
Theorem DoSearch_leaves_position_and_parameters fuel or_fuel s s' :
  DoSearch BITSETSIZE isEdge colorEdge1 colorEdge2 fuel or_fuel s = inr (tt, s') →
  m_param s' = m_param s ∧ m_color s' = m_color s ∧ m_groups s' = m_groups s
  ∧ m_brd s' = m_brd s ∧ m_capturedSet s' = m_capturedSet s
  ∧ VCSet.Color (m_con s') = VCSet.Color (m_con s)
  ∧ VCSet.softlimit (m_con s') = VCSet.softlimit (m_con s)
  ∧ (m_log s = None → m_log s' = None).
Proof.
  intros Hrun.
  destruct (respects_inr _ _ _ _ _ _ (kept_DoSearch fuel or_fuel) Hrun).
  split_and!; done.
Qed.

(** X6: the search only adds.  When [DoSearch] returns, every pair of
    cells that had a Full between them still has one (no list of Fulls
    becomes empty), every neighbour set contains the one before, and
    neighbour sets that were symmetric are symmetric. *)
Theorem DoSearch_never_loses_a_Full fuel or_fuel s s' :
  DoSearch BITSETSIZE isEdge colorEdge1 colorEdge2 fuel or_fuel s = inr (tt, s') →
  (∀ x y, VCSet.Exists x y FULL (m_con s) = true →
          VCSet.Exists x y FULL (m_con s') = true)
  ∧ (∀ x, m_nbs s x ⊆ m_nbs s' x)
  ∧ (nbs_symmetric s → nbs_symmetric s').
Proof.
  intros Hrun.
  destruct (respects_inr _ _ _ _ _ _ (kept_DoSearch fuel or_fuel) Hrun).
  split_and!; done.
Qed.

(** X7: the assertion at the end of [DoSearch], that the loop was left on
    a winning connection or with both queues empty, never fails: a run of
    [DoSearch] that fails does so in one of the functions it calls (or the
    model runs out of fuel). *)
Theorem DoSearch_final_assertion_never_fails fuel or_fuel s e :
  DoSearch BITSETSIZE isEdge colorEdge1 colorEdge2 fuel or_fuel s = inl e →
  e ≠ AssertFailure 538 ∧ e ∈ search_errors.
Proof.
  intros Hrun.
  pose proof (respects_inl _ _ _ _ _ (kept_DoSearch fuel or_fuel) Hrun) as He.
  split; [| exact He]. intros ->. revert He. unfold search_error.
  apply (bool_decide_unpack (AssertFailure 538 ∉ search_errors)).
  vm_compute. exact I.
Qed.
End SearchKeeps.

Lemma DoSearch_leaves_position_witness :
  m_brd Tiny.searched = m_brd Tiny.seeded.
Proof.
  assert (DoSearch Tiny.B Tiny.isEdge Tiny.colorEdge1 Tiny.colorEdge2 100 100
            Tiny.seeded
          = inr (tt, Tiny.searched)) as Hrun by (vm_compute; reflexivity).
  exact (proj1 (proj2 (proj2 (proj2
           (DoSearch_leaves_position_and_parameters _ _ _ _ _ _ _ _ Hrun))))).
Defined.

Lemma DoSearch_never_loses_witness :
  VCSet.Exists 0 1 FULL (m_con Tiny.seeded) = true
  ∧ VCSet.Exists 0 1 FULL (m_con Tiny.searched) = true.
Proof.
  assert (DoSearch Tiny.B Tiny.isEdge Tiny.colorEdge1 Tiny.colorEdge2 100 100
            Tiny.seeded
          = inr (tt, Tiny.searched)) as Hrun by (vm_compute; reflexivity).
  assert (VCSet.Exists 0 1 FULL (m_con Tiny.seeded) = true) as Hex
    by (vm_compute; reflexivity).
  split; [exact Hex |].
  exact (proj1 (DoSearch_never_loses_a_Full _ _ _ _ _ _ _ _ Hrun) 0 1 Hex).
Defined.

(** With one unit of fuel for the loop, the search of the small position
    stops for the model's fuel, not at the assertion. *)
Lemma DoSearch_final_assertion_witness :
  OutOfFuel ≠ AssertFailure 538 ∧ OutOfFuel ∈ search_errors.
Proof.
  assert (DoSearch Tiny.B Tiny.isEdge Tiny.colorEdge1 Tiny.colorEdge2 1 100
            Tiny.seeded
          = inl OutOfFuel) as Hrun by (vm_compute; reflexivity).
  exact (DoSearch_final_assertion_never_fails _ _ _ _ _ _ _ _ Hrun).
Defined.


(** ** The static build *)

(** What the steps of the static build after its first lines keep. *)
Record build_kept (s s' : VCBuilder) : Prop := mkBuildKept {
  build_m_param : m_param s' = m_param s;
  build_m_color : m_color s' = m_color s;
  build_m_groups : m_groups s' = m_groups s;
  build_m_brd : m_brd s' = m_brd s;
  build_m_statistics : m_statistics s' = m_statistics s;
  build_Color : VCSet.Color (m_con s') = VCSet.Color (m_con s);
  build_softlimit : VCSet.softlimit (m_con s') = VCSet.softlimit (m_con s);
  build_symmetric : nbs_symmetric s → nbs_symmetric s';
  build_log : m_log s = None → m_log s' = None
}.

#[global] Instance build_kept_preorder : PreOrder build_kept.
Proof.
  split.
  - intros s. split; auto.
  - intros s1 s2 s3 [] []. split; try congruence; auto.
Qed.

Definition any_error : Err → Prop := λ _, True.

Lemma build_of_kept {A} (m : M A) :
  respects kept search_error m → respects build_kept any_error m.
Proof. apply respects_weaken; [intros s s' []; split; auto | done]. Qed.

Create HintDb build discriminated.

Ltac build_modify :=
  apply respects_modify; intros ?;
  solve [split; cbn; try done; try (intros ->; reflexivity)].

Ltac build_auto :=
  repeat first [ solve [auto with build]
               | solve [apply build_of_kept; auto with kept]
               | respects_step ltac:(done)
               | build_modify ].

Section StaticBuild.
Variable BITSETSIZE : nat.
Variable isEdge : HexPoint → bool.
Variable colorEdge1 colorEdge2 : HexColor → HexPoint.
Variable GetPatterns : nat → nat → HexColor → list VCPattern.

Lemma build_con_Add vc : respects build_kept any_error (con_Add vc).
Proof. unfold con_Add. build_auto. Qed.

#[local] Hint Resolve build_con_Add : build.

Lemma build_ComputeCapturedSets patterns :
  respects build_kept any_error (ComputeCapturedSets patterns).
Proof. unfold ComputeCapturedSets, ComputeCapturedSets_cell. build_auto. Qed.

Lemma build_AddBaseVCs : respects build_kept any_error (AddBaseVCs BITSETSIZE).
Proof. unfold AddBaseVCs. build_auto. Qed.

Lemma build_AddPatternVCs :
  respects build_kept any_error (AddPatternVCs isEdge GetPatterns).
Proof. unfold AddPatternVCs. build_auto. Qed.

Lemma build_DoSearch fuel or_fuel :
  respects build_kept any_error
    (DoSearch BITSETSIZE isEdge colorEdge1 colorEdge2 fuel or_fuel).
Proof. apply build_of_kept, kept_DoSearch. Qed.

#[local] Hint Resolve build_ComputeCapturedSets build_AddBaseVCs build_AddPatternVCs
  build_DoSearch : build.

(** X8: the state after the static build.  When [Build(con, groups,
    patterns)] returns, the builder works for the colour of [con], on
    [groups] and their board, without a log; the set has the colour and
    the soft limit of [con]; the parameters are untouched; and the
    neighbour sets, cleared at the start, are symmetric.  Nothing of this
    depends on the set, the position, the log, the queues or the neighbour
    sets the builder held before. *)
Theorem Build_static_result fuel or_fuel con groups patterns s s' :
  Build BITSETSIZE isEdge colorEdge1 colorEdge2 GetPatterns
        fuel or_fuel con groups patterns s = inr (tt, s') →
  m_color s' = VCSet.Color con ∧ m_statistics s' = VCSet.Color con
  ∧ m_groups s' = groups ∧ m_brd s' = Board groups
  ∧ m_log s' = None ∧ m_param s' = m_param s
  ∧ VCSet.Color (m_con s') = VCSet.Color con
  ∧ VCSet.softlimit (m_con s') = VCSet.softlimit con
  ∧ nbs_symmetric s'.
Proof.
  unfold Build. intros ([] & s0 & [= <-] & Hrest)%bind_inr.
  assert (respects build_kept any_error
            (ComputeCapturedSets patterns ;;
             AddBaseVCs BITSETSIZE ;;
             p ← gets m_param;
             when (use_patterns p) (AddPatternVCs isEdge GetPatterns) ;;
             DoSearch BITSETSIZE isEdge colorEdge1 colorEdge2 fuel or_fuel))
    as Hkept by build_auto.
  destruct (respects_inr _ _ _ _ _ _ Hkept Hrest)
    as [Hp Hc Hg Hb Hst HC Hsl Hsym Hlog].
  cbn in *. split_and!; try done.
  - by apply Hlog.
  - apply Hsym. intros x y. cbn. set_solver.
Qed.
End StaticBuild.

Lemma Build_static_result_witness :
  let build := Build Tiny.B Tiny.isEdge Tiny.colorEdge1 Tiny.colorEdge2
                     Tiny.GetPatterns 100 100 Tiny.con Tiny.groups Tiny.no_patterns in
  m_log (Tiny.final build (Tiny.fresh default_param)) = None
  ∧ nbs_symmetric (Tiny.final build (Tiny.fresh default_param)).
Proof.
  cbv zeta.
  assert (Build Tiny.B Tiny.isEdge Tiny.colorEdge1 Tiny.colorEdge2 Tiny.GetPatterns
            100 100 Tiny.con Tiny.groups Tiny.no_patterns (Tiny.fresh default_param)
          = inr (tt, Tiny.final
                       (Build Tiny.B Tiny.isEdge Tiny.colorEdge1 Tiny.colorEdge2
                              Tiny.GetPatterns 100 100 Tiny.con Tiny.groups
                              Tiny.no_patterns)
                       (Tiny.fresh default_param))) as Hrun
    by (vm_compute; reflexivity).
  destruct (Build_static_result _ _ _ _ _ _ _ _ _ _ _ _ Hrun)
    as (_ & _ & _ & _ & Hlog & _ & _ & _ & Hsym).
  split; [exact Hlog | exact Hsym].
Defined.


(** ** The captured sets of the empty cells *)

(** Only the captured sets differ, and of them only that of [p], which has
    gained the cells [U]. *)
Definition captured_more (p : HexPoint) (U : bitset) (s s' : VCBuilder) : Prop :=
  s' = set_m_capturedSet (m_capturedSet s') s
  ∧ (∀ q, q ≠ p → m_capturedSet s' q = m_capturedSet s q)
  ∧ m_capturedSet s' p = U ∪ m_capturedSet s p.

Lemma captured_more_moves p (mvs : list HexPoint) s :
  ∃ s', for_each mvs
          (λ mv, modify (λ s, set_m_capturedSet
                                (<[ p := Bitset.set (m_capturedSet s p) mv ]>
                                   (m_capturedSet s)) s)) s = inr (tt, s')
      ∧ captured_more p (list_to_set mvs) s s'.
Proof.
  revert s. induction mvs as [| mv mvs IH]; intros s.
  - exists s. split; [done |]. split_and!; [by destruct s | done | set_solver].
  - cbn [for_each]. rewrite (bind_run _ _ _ tt _ eq_refl).
    destruct (IH (set_m_capturedSet
                    (<[ p := Bitset.set (m_capturedSet s p) mv ]> (m_capturedSet s)) s))
      as (s' & Hrun & Heq & Hother & Hp).
    exists s'. split; [exact Hrun |]. cbn in *. split_and!.
    + by rewrite Heq at 1.
    + intros q Hq. rewrite Hother by done. by rewrite fn_lookup_insert_ne.
    + rewrite Hp, fn_lookup_insert. unfold Bitset.set. set_solver.
Qed.

Lemma captured_more_hits p (hit : PatternHit) (rounds hits : list PatternHit) s :
  hits !! 0 = Some hit →
  ∃ s', for_each rounds
          (λ _, h ← deref (hits !! 0);
                for_each (Moves2 h)
                  (λ mv, modify (λ s, set_m_capturedSet
                                        (<[ p := Bitset.set (m_capturedSet s p) mv ]>
                                           (m_capturedSet s)) s))) s = inr (tt, s')
      ∧ captured_more p (if decide (rounds = []) then ∅ else list_to_set (Moves2 hit))
                      s s'.
Proof.
  intros Hhit. revert s. induction rounds as [| r rounds IH]; intros s.
  - exists s. split; [done |]. split_and!; [by destruct s | done | set_solver].
  - cbn [for_each].
    destruct (captured_more_moves p (Moves2 hit) s) as (s1 & Hrun1 & Heq1 & Ho1 & Hp1).
    rewrite (bind_run _ _ _ tt s1).
    2:{ rewrite (bind_run _ _ _ hit s); [exact Hrun1 | by rewrite Hhit]. }
    destruct (IH s1) as (s' & Hrun & Heq & Hother & Hp).
    exists s'. split; [exact Hrun |]. rewrite decide_False by done. split_and!.
    + rewrite Heq at 1. rewrite Heq1 at 1. done.
    + intros q Hq. by rewrite Hother, Ho1.
    + rewrite Hp, Hp1. case_decide; set_solver.
Qed.

(** The captured set [ComputeCapturedSets] gives to an empty cell: the moves
    of the first hit on the cell, nothing without a hit. *)
Definition first_hit_moves (patterns : PatternState) (c : HexColor) (p : HexPoint)
    : bitset :=
  match MatchOnCell patterns c p with
  | [] => ∅
  | hit :: _ => list_to_set (Moves2 hit)
  end.

Lemma ComputeCapturedSets_cell_empty patterns p s :
  GetColor (m_brd s) p = EMPTY →
  ∃ s', ComputeCapturedSets_cell patterns p s = inr (tt, s')
      ∧ s' = set_m_capturedSet (m_capturedSet s') s
      ∧ (∀ q, q ≠ p → m_capturedSet s' q = m_capturedSet s q)
      ∧ m_capturedSet s' p = first_hit_moves patterns (m_color s) p.
Proof.
  intros Hempty. unfold ComputeCapturedSets_cell.
  rewrite (bind_run _ _ _ tt _ eq_refl), (bind_run _ _ _ _ _ eq_refl).
  cbn [m_brd set_m_capturedSet m_color]. rewrite bool_decide_eq_true_2 by done.
  cbn [when]. unfold first_hit_moves.
  set (s0 := set_m_capturedSet (<[ p := ∅ ]> (m_capturedSet s)) s).
  destruct (MatchOnCell patterns (m_color s) p) as [| hit hits] eqn:Hhits.
  - exists s0. split; [done |]. subst s0. cbn. split_and!; [done | |].
    + intros q Hq. by rewrite fn_lookup_insert_ne.
    + apply fn_lookup_insert.
  - destruct (captured_more_hits p hit (hit :: hits) (hit :: hits) s0 eq_refl)
      as (s' & Hrun & Heq & Hother & Hp).
    exists s'. split; [exact Hrun |]. rewrite decide_False in Hp by done.
    subst s0. cbn in *. split_and!.
    + by rewrite Heq at 1.
    + intros q Hq. rewrite Hother by done. by rewrite fn_lookup_insert_ne.
    + rewrite Hp, fn_lookup_insert. set_solver.
Qed.

Lemma ComputeCapturedSets_cells patterns cells s :
  ∃ s', for_each cells (ComputeCapturedSets_cell patterns) s = inr (tt, s')
    ∧ s' = set_m_capturedSet (m_capturedSet s') s
    ∧ (∀ p, p ∉ cells → m_capturedSet s' p = m_capturedSet s p)
    ∧ (∀ p, p ∈ cells → GetColor (m_brd s) p = EMPTY →
            m_capturedSet s' p = first_hit_moves patterns (m_color s) p).
Proof.
  revert s. induction cells as [| q cells IH]; intros s.
  { exists s. split_and!; [done | by destruct s | done |]. by intros p ?%elem_of_nil. }
  destruct (respects_never_inr _ _ s (ComputeCapturedSets_cell_cap_only patterns q))
    as ([] & s1 & Hq & [Hbrd Hcol Hother]).
  assert (s1 = set_m_capturedSet (m_capturedSet s1) s) as Heq1.
  { destruct (decide (GetColor (m_brd s) q = EMPTY)) as [He | He].
    - destruct (ComputeCapturedSets_cell_empty patterns q s He) as (s1' & Hq' & ? & _).
      congruence.
    - rewrite (ComputeCapturedSets_cell_occupied _ _ _ He) in Hq.
      by injection Hq as <-. }
  destruct (IH s1) as (s' & Hrest & Heq & Hout & Hin).
  exists s'. split_and!.
  - cbn [for_each]. by rewrite (bind_run _ _ _ _ _ Hq).
  - rewrite Heq at 1. rewrite Heq1 at 1. done.
  - intros p [Hpq Hp]%not_elem_of_cons. rewrite Hout by done. by apply Hother.
  - intros p Hp Hempty. destruct (decide (p ∈ cells)) as [Hpc | Hpc].
    + rewrite <- Hcol. apply Hin; [done | by rewrite Hbrd].
    + assert (p = q) as -> by (apply elem_of_cons in Hp as [|]; done).
      rewrite Hout by done.
      destruct (ComputeCapturedSets_cell_empty patterns q s Hempty)
        as (s1' & Hq' & _ & _ & Hcap).
      congruence.
Qed.

(** X9: the captured sets of the empty cells.  [ComputeCapturedSets] returns
    and changes the captured sets only; afterwards the captured set of
    every empty cell of the board is made of the moves of the first hit of
    the captured-set patterns on the cell (the loop over the hits reads
    [hits[0]] in every round), and is empty without a hit; the captured set
    of a cell that is not on the board is as before. *)
Theorem ComputeCapturedSets_on_empty_cells (patterns : PatternState) (s : VCBuilder) :
  ∃ s', ComputeCapturedSets patterns s = inr (tt, s')
    ∧ s' = set_m_capturedSet (m_capturedSet s') s
    ∧ (∀ p, p ∉ EdgesAndInterior (m_brd s) → m_capturedSet s' p = m_capturedSet s p)
    ∧ (∀ p, p ∈ EdgesAndInterior (m_brd s) → GetColor (m_brd s) p = EMPTY →
            m_capturedSet s' p = first_hit_moves patterns (m_color s) p).
Proof.
  destruct (ComputeCapturedSets_cells patterns (EdgesAndInterior (m_brd s)) s)
    as (s' & Hrun & Heq & Hout & Hin).
  exists s'. split_and!; done.
Qed.

(** On the three cells, the pattern state with one hit on the cell 1, whose
    move is the cell 2. *)
Lemma ComputeCapturedSets_on_empty_cells_witness :
  ∃ s', ComputeCapturedSets Tiny.patterns (Tiny.fresh default_param) = inr (tt, s')
    ∧ m_capturedSet s' 1 = first_hit_moves Tiny.patterns BLACK 1.
Proof.
  destruct (ComputeCapturedSets_on_empty_cells Tiny.patterns (Tiny.fresh default_param))
    as (s' & Hrun & _ & _ & Hin).
  exists s'. split; [exact Hrun |].
  apply Hin; [by_evaluation | reflexivity].
Defined.


(** ** The primitives of the enhanced OR rule *)

(** The counters the builder writes: the slot [m_statistics] points to. *)
Definition stats_of (s : VCBuilder) : VCBuilderStatistics :=
  m_statsForColor s (m_statistics s).

Section Combiner.
Variable BITSETSIZE : nat.

#[local] Abbreviation universe := (Bitset.universe BITSETSIZE).

(** X10: [Intersect] on a range of [set_mem] starts from the full bitset:
    its result holds the cells below [BITSETSIZE] that are in every set of
    the range, all of them when the range is empty. *)
Theorem Intersect_of_a_range (pre l post : list bitset) :
  ∃ inter, Intersect BITSETSIZE (pre ++ l ++ post) (length pre) (length l)
           = Some inter
    ∧ ∀ i, i ∈ inter ↔ i < BITSETSIZE ∧ ∀ S, S ∈ l → i ∈ S.
Proof.
  exists (inter_of universe l). split.
  - apply Intersect_from_range.
  - intros i. by rewrite elem_of_inter_of, elem_of_universe.
Qed.

(** X11: [Filter] on a range of [set_mem] pushes the sets of the range
    that do not hold the cell [a] at the back of [set_mem], in their
    order, and returns their number; the sets already in [set_mem] stay
    where they are. *)
Theorem Filter_of_a_range (pre l post : list bitset) (a : nat) :
  Filter (pre ++ l ++ post) (length pre) (length l) a
  = Some (length (filter (λ S, a ∉ S) l),
          (pre ++ l ++ post) ++ filter (λ S, a ∉ S) l).
Proof. apply Filter_range. Qed.

Lemma Add_loop_state mem start remaining cap inter uni s U s' :
  Add_loop mem start remaining cap inter uni s = inr (U, s') → s' = s.
Proof.
  revert start inter uni. induction remaining as [| r IH]; intros start inter uni;
    cbn [Add_loop]; [done |].
  intros (next & ? & [_ ->]%deref_inr & H)%bind_inr.
  destruct (Bitset.IsSubsetOf inter next); [by eapply IH |].
  destruct (Bitset.IsSubsetOf (inter ∩ next) cap); [| by eapply IH].
  by injection H as _ <-.
Qed.

Lemma Add_loop_fails pre l post cap inter uni s :
  ¬ inter_of inter l ⊆ cap ∨ Forall (λ S, inter ⊆ S) l →
  Add_loop (pre ++ l ++ post) (length pre) (length l) cap inter uni s
  = inl (AssertFailure 851).
Proof.
  revert pre inter uni. induction l as [| S l IH]; intros pre inter uni Hcase;
    cbn [length Add_loop]; [done |].
  rewrite (bind_run _ _ _ S s).
  2:{ rewrite lookup_app_r, Nat.sub_diag by done. done. }
  replace (pre ++ (S :: l) ++ post) with ((pre ++ [S]) ++ l ++ post)
    by (repeat first [ rewrite <- app_assoc | progress cbn [app] ]; reflexivity).
  replace (Datatypes.S (length pre)) with (length (pre ++ [S]))
    by (rewrite length_app; cbn; lia).
  change (inter_of inter (S :: l)) with (inter_of (inter ∩ S) l) in Hcase.
  destruct (Bitset.IsSubsetOf inter S) eqn:Hsub.
  - apply IsSubsetOf_true in Hsub.
    assert (inter ∩ S = inter) as Heq by set_solver. rewrite Heq in Hcase.
    apply IH. destruct Hcase as [? | Hall]; [by left | right].
    exact (Forall_inv_tail Hall).
  - apply IsSubsetOf_false in Hsub.
    assert (¬ inter_of (inter ∩ S) l ⊆ cap) as Hncap.
    { destruct Hcase as [? | Hall]; [done |]. by destruct (Hsub (Forall_inv Hall)). }
    destruct (Bitset.IsSubsetOf (inter ∩ S) cap) eqn:Hdone.
    + apply IsSubsetOf_true in Hdone. exfalso. apply Hncap.
      intros i Hi. apply Hdone. by apply elem_of_inter_of in Hi as [? _].
    + apply IH. by left.
Qed.

(** X12: when the loop of [VCOrCombiner::Add] runs off its range.  The
    assertion [i < count] of the loop fails exactly when the intersection
    of the sets of the range is not inside [capturedSet], or every set of
    the range is the full bitset (the range may be empty); [Add] then
    changes nothing but the counter of attempts. *)
Theorem Combiner_Add_runs_off_its_range (c : VCOrCombiner)
    (pre l post : list bitset) (added : list VC) (capturedSet : bitset)
    (s : VCBuilder) :
  Combiner_Add BITSETSIZE c (pre ++ l ++ post) added (length pre) (length l)
               capturedSet s = inl (AssertFailure 851)
  ↔ ¬ inter_of universe l ⊆ capturedSet ∨ Forall (λ S, universe ⊆ S) l.
Proof.
  unfold Combiner_Add. rewrite (bind_run _ _ _ tt _ eq_refl). split.
  - intros Hrun.
    destruct (decide (inter_of universe l ⊆ capturedSet)) as [Hin | Hout];
      [| by left].
    destruct (decide (Forall (λ S, universe ⊆ S) l)) as [Hall | Hex]; [by right |].
    exfalso. apply not_Forall_Exists in Hex; [| intros; apply _].
    match type of Hrun with
    | (_ ≫= _) ?s0 = _ =>
        destruct (Add_loop_range pre l post capturedSet universe
                    capturedSet s0 Hin Hex) as (U & Hloop & _)
    end.
    rewrite (bind_run _ _ _ _ _ Hloop), (bind_run _ _ _ tt _ eq_refl) in Hrun.
    rewrite (bind_run _ _ _ _ _ (on_list_run _ _ _ _ _)) in Hrun.
    destruct (added_ok _); cbn in Hrun; discriminate.
  - intros Hcase. unfold mbind at 1, M_bind at 1.
    by rewrite (Add_loop_fails pre l post capturedSet universe capturedSet _ Hcase).
Qed.

(** X13: a successful [VCOrCombiner::Add] counts its attempt twice.  When
    [Add] returns, it has raised [or_attempts] by two and [or_successes]
    by one, and has left every other counter alone. *)
Theorem Combiner_Add_counts_the_attempt_twice (c : VCOrCombiner)
    (set_mem : list bitset) (added : list VC) (start count : nat)
    (capturedSet : bitset) (s : VCBuilder) U added' s' :
  Combiner_Add BITSETSIZE c set_mem added start count capturedSet s
  = inr ((U, added'), s') →
  m_statistics s' = m_statistics s
  ∧ stats_of s'
    = add_counter C_or_successes 1 (add_counter C_or_attempts 2 (stats_of s))
  ∧ or_attempts (stats_of s') = or_attempts (stats_of s) + 2
  ∧ or_successes (stats_of s') = or_successes (stats_of s) + 1.
Proof.
  unfold Combiner_Add. rewrite (bind_run _ _ _ tt _ eq_refl).
  intros (uni & s1 & Hloop & H)%bind_inr.
  apply Add_loop_state in Hloop as ->.
  rewrite (bind_run _ _ _ tt _ eq_refl) in H.
  rewrite (bind_run _ _ _ _ _ (on_list_run _ _ _ _ _)) in H.
  destruct (added_ok _); [| discriminate].
  cbn in H. injection H as _ _ <-. unfold stats_of. cbn.
  rewrite !fn_lookup_insert. cbn. split_and!; [done | | lia | lia].
  destruct (m_statsForColor s (m_statistics s)). cbn. f_equal; lia.
Qed.

(** X14: the enhanced OR rule on a list without an unprocessed Semi (an
    empty list is one).  With both endpoints below [BITSETSIZE], [DoOr]
    returns [false] at once, whatever the fuel: nothing is added and the
    state is untouched.  An endpoint that is not below [BITSETSIZE] fails
    the assertion of the constructor. *)
Theorem DoOr_without_unprocessed_semis (fuel : nat) (xc yc : HexPoint)
    (added : list VC) (s : VCBuilder) :
  let semis := VCSet.GetList SEMI xc yc (m_con s) in
  (BITSETSIZE ≤ VCList.GetX semis →
     DoOr BITSETSIZE fuel xc yc added s = inl (AssertFailure 710))
  ∧ (VCList.GetX semis < BITSETSIZE → BITSETSIZE ≤ VCList.GetY semis →
     DoOr BITSETSIZE fuel xc yc added s = inl (AssertFailure 711))
  ∧ (VCList.GetX semis < BITSETSIZE → VCList.GetY semis < BITSETSIZE →
     Forall (λ v, Processed v = true) (VCList.entries semis) →
     DoOr BITSETSIZE fuel xc yc added s = inr ((false, added), s)).
Proof.
  intros semis. subst semis. unfold DoOr.
  rewrite (bind_run _ _ _ _ s eq_refl), (bind_run _ _ _ _ s eq_refl).
  cbv zeta. split_and!.
  - intros Hx.
    assert (bool_decide (VCList.GetX (VCSet.GetList SEMI xc yc (m_con s)) < BITSETSIZE)
            = false) as -> by (apply bool_decide_eq_false; lia).
    done.
  - intros Hx Hy.
    assert (bool_decide (VCList.GetX (VCSet.GetList SEMI xc yc (m_con s)) < BITSETSIZE)
            = true) as -> by by apply bool_decide_eq_true.
    assert (bool_decide (VCList.GetY (VCSet.GetList SEMI xc yc (m_con s)) < BITSETSIZE)
            = false) as -> by (apply bool_decide_eq_false; lia).
    done.
  - intros Hx Hy Hall.
    assert (bool_decide (VCList.GetX (VCSet.GetList SEMI xc yc (m_con s)) < BITSETSIZE)
            = true) as -> by by apply bool_decide_eq_true.
    assert (bool_decide (VCList.GetY (VCSet.GetList SEMI xc yc (m_con s)) < BITSETSIZE)
            = true) as -> by by apply bool_decide_eq_true.
    rewrite (bind_run _ _ _ tt s eq_refl), (bind_run _ _ _ tt s eq_refl).
    rewrite (bind_run _ _ _ _ s eq_refl).
    assert (filter (λ v, Processed v = false)
              (VCList.entries (VCSet.GetList SEMI xc yc (m_con s))) = []) as ->.
    { induction Hall as [| v vs Hv _ IH]; [done |].
      rewrite filter_cons_False by congruence. exact IH. }
    done.
Qed.
End Combiner.

(** The three Semis {1, 2}, {2, 3}, {1, 3} between 0 and 7, united by
    [Add]. *)
Lemma Combiner_Add_counts_twice_witness :
  let s := Tiny.triangle Tiny.enhanced_param in
  let c := mkCombiner 0 7 ∅ ∅ (0, 7) in
  ∃ U added' s',
    Combiner_Add Tiny.B c [{[ 1; 2 ]}; {[ 2; 3 ]}; {[ 1; 3 ]}] [] 0 3 ∅ s
    = inr ((U, added'), s')
    ∧ or_attempts (stats_of s') = or_attempts (stats_of s) + 2.
Proof.
  cbv zeta.
  destruct (Combiner_Add Tiny.B (mkCombiner 0 7 ∅ ∅ (0, 7))
              [{[ 1; 2 ]}; {[ 2; 3 ]}; {[ 1; 3 ]}] [] 0 3 ∅
              (Tiny.triangle Tiny.enhanced_param))
    as [e | [[U added'] s']] eqn:Hrun.
  - exfalso. vm_compute in Hrun. discriminate Hrun.
  - exists U, added', s'. split; [reflexivity |].
    exact (proj1 (proj2 (proj2
             (Combiner_Add_counts_the_attempt_twice _ _ _ _ _ _ _ _ _ _ _ Hrun)))).
Defined.

(** The empty list of Semis between 0 and 7 of a new builder. *)
Lemma DoOr_without_unprocessed_semis_witness :
  DoOr Tiny.B 0 0 7 [] (Tiny.fresh default_param)
  = inr ((false, []), Tiny.fresh default_param).
Proof.
  apply (proj2 (proj2 (DoOr_without_unprocessed_semis Tiny.B 0 0 7 []
                         (Tiny.fresh default_param)))).
  - by_evaluation.
  - by_evaluation.
  - by_evaluation.
Defined.


(** ** Postconditions of the runs that return *)

(** [wp m Q s]: if the run of [m] from [s] returns, its result and its final
    state satisfy [Q]. *)
Definition wp {A} (m : M A) (Q : A → VCBuilder → Prop) (s : VCBuilder) : Prop :=
  match m s with
  | inr (a, s') => Q a s'
  | inl _ => True
  end.

Lemma wp_inr {A} (m : M A) Q s a s' : wp m Q s → m s = inr (a, s') → Q a s'.
Proof. unfold wp. intros H Heq. by rewrite Heq in H. Qed.

Lemma wp_mono {A} (m : M A) (Q Q' : A → VCBuilder → Prop) s :
  wp m Q s → (∀ a s', Q a s' → Q' a s') → wp m Q' s.
Proof. unfold wp. destruct (m s) as [e | [a s']]; auto. Qed.


Lemma wp_ret {A} (a : A) (Q : A → VCBuilder → Prop) s : Q a s → wp (mret a) Q s.
Proof. done. Qed.

Lemma wp_fail {A} e (Q : A → VCBuilder → Prop) s : wp (fail e) Q s.
Proof. done. Qed.

Lemma wp_bind {A B} (m : M A) (f : A → M B) (Q : B → VCBuilder → Prop) s :
  wp m (λ a s1, wp (f a) Q s1) s → wp (m ≫= f) Q s.
Proof.
  unfold wp, mbind, M_bind. destruct (m s) as [e | [a s1]]; auto.
Qed.

Lemma wp_get (Q : VCBuilder → VCBuilder → Prop) s : Q s s → wp get Q s.
Proof. done. Qed.

Lemma wp_gets {A} (f : VCBuilder → A) (Q : A → VCBuilder → Prop) s :
  Q (f s) s → wp (gets f) Q s.
Proof. done. Qed.

Lemma wp_modify f (Q : unit → VCBuilder → Prop) s : Q tt (f s) → wp (modify f) Q s.
Proof. done. Qed.

Lemma wp_assert line b (Q : unit → VCBuilder → Prop) s :
  (b = true → Q tt s) → wp (BenzeneAssert line b) Q s.
Proof. destruct b; cbn; auto. Qed.

Lemma wp_deref {A} (o : option A) (Q : A → VCBuilder → Prop) s :
  (∀ a, o = Some a → Q a s) → wp (deref o) Q s.
Proof. destruct o as [a |]; cbn; [| done]. intros H. by apply H. Qed.

Lemma wp_when b m (Q : unit → VCBuilder → Prop) s :
  (b = true → wp m Q s) → (b = false → Q tt s) → wp (when b m) Q s.
Proof. destruct b; cbn; auto. Qed.

Lemma wp_on_list {A} ty x y (op : ChangeLog → VCList.t → A * VCList.t * ChangeLog)
    (Q : A → VCBuilder → Prop) s :
  Q (op (m_log s) (VCSet.GetList ty x y (m_con s))).1.1
    (set_m_log (op (m_log s) (VCSet.GetList ty x y (m_con s))).2
       (set_m_con (VCSet.SetList ty x y
                     (op (m_log s) (VCSet.GetList ty x y (m_con s))).1.2
                     (m_con s)) s)) →
  wp (on_list ty x y op) Q s.
Proof. intros H. unfold wp. by rewrite on_list_run. Qed.

Lemma wp_respects {A} R E (m : M A) s :
  respects R E m → wp m (λ _ s', R s s') s.
Proof.
  intros H. specialize (H s). unfold wp. by destruct (m s) as [e | [a s']].
Qed.

Lemma wp_for_each {A} (I : VCBuilder → Prop) (l : list A) body s :
  I s → (∀ a s, a ∈ l → I s → wp (body a) (λ _, I) s) →
  wp (for_each l body) (λ _, I) s.
Proof.
  revert s. induction l as [| a l IH]; intros s Hs Hbody; cbn [for_each].
  - by apply wp_ret.
  - apply wp_bind. eapply wp_mono.
    + apply Hbody; [apply list_elem_of_here | done].
    + intros [] s1 Hs1. apply IH; [done |].
      intros b s2 Hb. apply Hbody. by apply list_elem_of_further.
Qed.

(** One step of a proof of [wp]. *)
Ltac wp_step :=
  lazymatch goal with
  | |- wp (mret _) _ _ => apply wp_ret
  | |- wp (fail _) _ _ => apply wp_fail
  | |- wp get _ _ => apply wp_get
  | |- wp (gets _) _ _ => apply wp_gets
  | |- wp (get_list _ _ _) _ _ => apply wp_gets
  | |- wp (modify _) _ _ => apply wp_modify
  | |- wp (stat_incr _) _ _ => apply wp_modify
  | |- wp (stat_add _ _) _ _ => apply wp_modify
  | |- wp (log_Push _ _) _ _ => apply wp_modify
  | |- wp (BenzeneAssert _ _) _ _ => apply wp_assert; intros ?
  | |- wp (deref _) _ _ => apply wp_deref
  | |- wp (arr_get _ _) _ _ => apply wp_deref
  | |- wp (on_list _ _ _ _) _ _ => apply wp_on_list
  | |- wp (_ ≫= _) _ _ => apply wp_bind
  end.

Lemma wp_arr_set {A} (arr : list A) i v (Q : list A → VCBuilder → Prop) s :
  (i < length arr → Q (<[ i := v ]> arr) s) → wp (arr_set arr i v) Q s.
Proof.
  unfold arr_set. case_decide; intros HQ; [by apply wp_ret, HQ | apply wp_fail].
Qed.

Lemma Add_GetX vc log l :
  VCList.GetX (VCList.Add vc log l).1.2 = VCList.GetX l
  ∧ VCList.GetY (VCList.Add vc log l).1.2 = VCList.GetY l.
Proof.
  unfold VCList.Add. destruct (VCList.IsSupersetOfAny l (Carrier vc)); [done |].
  by destruct (VCList.insert_sorted vc _).
Qed.

(** ** What the bounded OR rule adds *)

(** A Full between [fx] and [fy] made by the OR rule from the Semi with the
    carrier [seed]. *)
Definition or_full (fx fy : HexPoint) (seed : bitset) (v : VC) : Prop :=
  v = VC_full fx fy (Carrier v) VC_RULE_OR ∧ seed ⊆ Carrier v.

Definition or_output (fx fy : HexPoint) (seed : bitset) (count : nat)
    (added : list VC) (xc yc : HexPoint) (r : nat * list VC) (s' : VCBuilder) : Prop :=
  (∃ new, r.2 = added ++ new ∧ r.1 = count + length new
          ∧ Forall (or_full fx fy seed) new)
  ∧ VCList.GetX (VCSet.GetList FULL xc yc (m_con s')) = fx
  ∧ VCList.GetY (VCSet.GetList FULL xc yc (m_con s')) = fy.

Lemma wp_or_add xc yc fx fy seed v count added s :
  VCList.GetX (VCSet.GetList FULL xc yc (m_con s)) = fx →
  VCList.GetY (VCSet.GetList FULL xc yc (m_con s)) = fy →
  or_full fx fy seed v →
  wp (or_add xc yc v count added)
     (λ r s', (r = (S count, added ++ [v]) ∨ r = (count, added))
              ∧ VCList.GetX (VCSet.GetList FULL xc yc (m_con s')) = fx
              ∧ VCList.GetY (VCSet.GetList FULL xc yc (m_con s')) = fy) s.
Proof.
  intros Hx Hy Hv. unfold or_add. wp_step. wp_step. wp_step. wp_step.
  cbn [m_log m_con set_m_statsForColor].
  destruct (Add_GetX v (m_log s) (VCSet.GetList FULL xc yc (m_con s))) as [HX HY].
  destruct (added_ok _).
  - wp_step. wp_step. wp_step. cbn. rewrite GetList_SetList.
    split_and!; [by left | congruence..].
  - wp_step. cbn. rewrite GetList_SetList. split_and!; [by right | congruence..].
Qed.

Section OrRuleAdds.
Variable BITSETSIZE : nat.

Lemma OrRule_loop_adds fuel xc yc N maxOrs cap fx fy seed :
  ∀ index ors ands d count added s,
    VCList.GetX (VCSet.GetList FULL xc yc (m_con s)) = fx →
    VCList.GetY (VCSet.GetList FULL xc yc (m_con s)) = fy →
    1 ≤ d → (∀ k, k < d → seed ⊆ ors !!! k) →
    wp (OrRule_loop BITSETSIZE fuel xc yc N maxOrs cap index ors ands d count added)
       (or_output fx fy seed count added xc yc) s.
Proof.
  induction fuel as [| fuel IH]; intros index ors ands d count added s Hx Hy Hd Hors;
    cbn [OrRule_loop]; [apply wp_fail |].
  do 6 wp_step. cbv zeta.
  wp_step. wp_step. intros i0 Hi0.
  wp_step. wp_step. intros and_prev Hand.
  wp_step.
  apply (wp_mono _ (λ i s', s' = s)).
  { case_decide; [| by apply wp_ret]. wp_step. wp_step. intros t _. by apply wp_ret. }
  intros i ? ->.
  assert (∀ ors' d' count' added' index' ands' s1 new0,
            VCList.GetX (VCSet.GetList FULL xc yc (m_con s1)) = fx →
            VCList.GetY (VCSet.GetList FULL xc yc (m_con s1)) = fy →
            1 ≤ d' → (∀ k, k < d' → seed ⊆ ors' !!! k) →
            added' = added ++ new0 → count' = count + length new0 →
            Forall (or_full fx fy seed) new0 →
            wp (OrRule_loop BITSETSIZE fuel xc yc N maxOrs cap index' ors' ands' d'
                            count' added')
               (or_output fx fy seed count added xc yc) s1) as Hnext.
  { intros ors' d' count' added' index' ands' s1 new0 Hx1 Hy1 Hd' Hors' -> -> Hnew.
    eapply wp_mono; [by apply IH |].
    intros r s' [(new & Hr2 & Hr1 & Hall) [? ?]]. split; [| done].
    exists (new0 ++ new). rewrite Hr2, Hr1, length_app, <- app_assoc.
    split_and!; [done | lia | by apply Forall_app]. }
  case_decide.
  - case_decide.
    { apply wp_ret. split; [| done]. exists []. by rewrite app_nil_r, Nat.add_0_r. }
    wp_step. wp_step. intros top _. wp_step. apply wp_arr_set. intros _.
    apply (Hnext _ _ _ _ _ _ _ []); rewrite ?app_nil_r;
      first [done | lia | intros k Hk; apply Hors; lia].
  - wp_step. wp_step. intros semi_i _. wp_step. wp_step. intros or_prev Hor.
    assert (seed ⊆ or_prev) as Hseed.
    { apply list_lookup_total_correct in Hor as <-. apply Hors. lia. }
    wp_step. apply wp_arr_set. intros _. wp_step. apply wp_arr_set. intros Hdl.
    assert (∀ k, k < S d → seed ⊆ <[ d := or_prev ∪ Carrier semi_i ]> ors !!! k)
      as Hors'.
    { intros k Hk. destruct (decide (k = d)) as [-> | Hkd].
      - rewrite list_lookup_total_insert_eq by done. set_solver.
      - rewrite list_lookup_total_insert_ne by done. apply Hors. lia. }
    assert (∀ carrier, seed ⊆ carrier →
              wp (or_add xc yc (VC_full fx fy carrier VC_RULE_OR) count added
                  ≫= λ '(count', added'),
                       arr_set index d (S i)
                       ≫= λ index',
                            OrRule_loop BITSETSIZE fuel xc yc N maxOrs cap index'
                              (<[ d := or_prev ∪ Carrier semi_i ]> ors)
                              (<[ d := and_prev ∩ Carrier semi_i ]> ands)
                              d count' added')
                 (or_output fx fy seed count added xc yc) s) as Hadd.
    { intros carrier Hcar. wp_step.
      eapply wp_mono; [apply (wp_or_add xc yc fx fy seed); done |].
      intros [count' added'] s1 ([[= -> ->] | [= -> ->]] & Hx1 & Hy1);
        wp_step; apply wp_arr_set; intros _.
      - apply (Hnext _ _ _ _ _ _ _ [VC_full fx fy carrier VC_RULE_OR]);
          first [done | cbn; lia | intros k Hk; apply Hors'; lia
                | by apply Forall_singleton].
      - apply (Hnext _ _ _ _ _ _ _ []); rewrite ?app_nil_r;
          first [done | lia | intros k Hk; apply Hors'; lia]. }
    rewrite Hx, Hy.
    destruct (Bitset.none _).
    { apply Hadd. set_solver. }
    destruct (Bitset.IsSubsetOf _ _).
    { apply Hadd. repeat destruct (Bitset.any _); set_solver. }
    case_decide.
    { wp_step. apply wp_arr_set. intros _.
      apply (Hnext _ _ _ _ _ _ _ []); rewrite ?app_nil_r;
        first [done | lia | intros k Hk; apply Hors'; lia]. }
    case_decide.
    + wp_step. apply wp_arr_set. intros _.
      apply (Hnext _ _ _ _ _ _ _ []); rewrite ?app_nil_r;
        first [done | lia | intros k Hk; apply Hors'; lia].
    + wp_step. apply wp_arr_set. intros _.
      apply (Hnext _ _ _ _ _ _ _ []); rewrite ?app_nil_r;
        first [done | lia | intros k Hk; apply Hors'; lia].
Qed.
End OrRuleAdds.

Lemma or_steps_power n : or_steps n = 2 ^ S n - 1.
Proof.
  induction n as [| n IH]; [done |].
  cbn [or_steps]. rewrite IH. rewrite (Nat.pow_succ_r' 2 (S n)).
  assert (1 ≤ 2 ^ S n) by (apply Nat.neq_0_lt_0, Nat.pow_nonzero; lia). lia.
Qed.

Section OrRuleRuns.
Variable BITSETSIZE : nat.

(** X15: the bounded OR rule terminates and stays inside its arrays.
    With [maxOrs] at most 16 (the assertion of the function) and [n]
    Semis within the soft limit, the loop of [OrRule] ends within
    [2^(n+1) - 1] iterations, no read or write leaves the 16 entries of
    [index], [ors] and [ands] or the vectors [m_semi] and [m_tail], and
    the list of Semis and the parameters are as before.  With [maxOrs]
    above 16 and a processed Semi within the soft limit, the assertion
    fails. *)
Theorem OrRule_terminates (fuel : nat) (vc : VC) (xc yc : HexPoint)
    (added : list VC) (maxOrs : Z) (s : VCBuilder) :
  let semis := VCSet.GetList SEMI xc yc (m_con s) in
  ((maxOrs ≤ 16)%Z → 2 ^ S (length (VCList.soft_prefix semis)) - 1 ≤ fuel →
   ∃ count added' s',
     OrRule BITSETSIZE fuel vc xc yc added maxOrs s = inr ((count, added'), s')
     ∧ VCSet.GetList SEMI xc yc (m_con s') = semis
     ∧ m_param s' = m_param s)
  ∧ ((16 < maxOrs)%Z →
     Exists (λ v, Processed v = true) (VCList.soft_prefix semis) →
     OrRule BITSETSIZE fuel vc xc yc added maxOrs s = inl (AssertFailure 931)).
Proof.
  intros semis. split.
  - intros Hmax Hfuel. rewrite <- or_steps_power in Hfuel.
    destruct (OrRule_returns BITSETSIZE fuel vc xc yc added maxOrs s)
      as ([count added'] & s' & Hrun & [Hl Hp]); [lia | done |].
    by exists count, added', s'.
  - intros Hmax Hex. unfold OrRule.
    rewrite (bind_run _ _ _ _ s eq_refl). fold semis.
    assert (filter (λ v, Processed v = true) (VCList.soft_prefix semis) ≠ [])
      as Hne.
    { apply list.Exists_exists in Hex as (v & Hv & Hp).
      intros Hnil. assert (v ∈ filter (λ v, Processed v = true)
                                 (VCList.soft_prefix semis)) as Hin
        by by apply list_elem_of_filter.
      rewrite Hnil in Hin. by apply elem_of_nil in Hin. }
    assert (VCList.Empty semis = false) as ->.
    { unfold VCList.Empty. apply bool_decide_eq_false. intros Hnil.
      apply Hne. unfold VCList.soft_prefix. rewrite Hnil. by rewrite take_nil. }
    rewrite (bind_run _ _ _ tt _ eq_refl).
    rewrite bool_decide_eq_false_2 by done.
    rewrite (bind_run _ _ _ tt _ eq_refl).
    rewrite bool_decide_eq_false_2 by lia. done.
Qed.

(** X16: what the bounded OR rule adds.  When [OrRule] returns, the
    connections it has pushed on [added] are as many as the count it
    returns, and each is a Full with the rule OR between the endpoints of
    the list of Fulls whose carrier contains the carrier of [vc], the Semi
    the rule was started from. *)
Theorem OrRule_adds_unions_with_vc (fuel : nat) (vc : VC) (xc yc : HexPoint)
    (added : list VC) (maxOrs : Z) (s : VCBuilder) count added' s' :
  OrRule BITSETSIZE fuel vc xc yc added maxOrs s = inr ((count, added'), s') →
  let fulls := VCSet.GetList FULL xc yc (m_con s) in
  ∃ new, added' = added ++ new ∧ count = length new
    ∧ Forall (λ v, v = VC_full (VCList.GetX fulls) (VCList.GetY fulls)
                               (Carrier v) VC_RULE_OR
                   ∧ Carrier vc ⊆ Carrier v) new.
Proof.
  intros Hrun fulls.
  assert (wp (OrRule BITSETSIZE fuel vc xc yc added maxOrs)
             (or_output (VCList.GetX fulls) (VCList.GetY fulls) (Carrier vc)
                        0 added xc yc) s) as Hwp.
  { unfold OrRule. wp_step. wp_step.
    assert (or_output (VCList.GetX fulls) (VCList.GetY fulls) (Carrier vc)
                      0 added xc yc (0, added) s) as Hnone.
    { split; [| done]. exists []. by rewrite app_nil_r. }
    destruct (VCList.Empty _); [by apply wp_ret |].
    wp_step. wp_step.
    destruct (bool_decide _); [by apply wp_ret |].
    wp_step. wp_step. cbv zeta. wp_step. wp_step. wp_step. wp_step. cbv zeta.
    apply OrRule_loop_adds; [done | done | lia |].
    intros k Hk. replace k with 0 by lia. done. }
  destruct (wp_inr _ _ _ _ _ Hwp Hrun) as [(new & Hr2 & Hr1 & Hall) _].
  exists new. cbn in Hr1, Hr2. split_and!; done.
Qed.
End OrRuleRuns.

(** The rule started from the Semi {1, 2} of the three processed Semis
    {1, 2}, {2, 3}, {1, 3} between 0 and 7. *)
Lemma OrRule_terminates_witness :
  let s := Tiny.with_lists default_param (λ _, ∅) []
             [SetProcessed (Tiny.semi 1 {[ 1; 2 ]}) true;
              SetProcessed (Tiny.semi 2 {[ 2; 3 ]}) true;
              SetProcessed (Tiny.semi 3 {[ 1; 3 ]}) true] in
  ∃ count added' s',
    OrRule Tiny.B 15 (Tiny.semi 1 {[ 1; 2 ]}) 0 7 [] 4 s = inr ((count, added'), s').
Proof.
  cbv zeta.
  destruct (proj1 (OrRule_terminates Tiny.B 15 (Tiny.semi 1 {[ 1; 2 ]}) 0 7 [] 4
                     (Tiny.with_lists default_param (λ _, ∅) []
                        [SetProcessed (Tiny.semi 1 {[ 1; 2 ]}) true;
                         SetProcessed (Tiny.semi 2 {[ 2; 3 ]}) true;
                         SetProcessed (Tiny.semi 3 {[ 1; 3 ]}) true])))
    as (count & added' & s' & Hrun & _); [lia | vm_compute; lia |].
  by exists count, added', s'.
Defined.

Lemma OrRule_adds_unions_witness :
  let s := Tiny.with_lists default_param (λ _, ∅) []
             [SetProcessed (Tiny.semi 1 {[ 1; 2 ]}) true;
              SetProcessed (Tiny.semi 2 {[ 2; 3 ]}) true;
              SetProcessed (Tiny.semi 3 {[ 1; 3 ]}) true] in
  ∃ count added' s',
    OrRule Tiny.B 15 (Tiny.semi 1 {[ 1; 2 ]}) 0 7 [] 4 s = inr ((count, added'), s')
    ∧ ∃ new, added' = [] ++ new ∧ count = length new.
Proof.
  cbv zeta.
  destruct (OrRule Tiny.B 15 (Tiny.semi 1 {[ 1; 2 ]}) 0 7 [] 4
              (Tiny.with_lists default_param (λ _, ∅) []
                 [SetProcessed (Tiny.semi 1 {[ 1; 2 ]}) true;
                  SetProcessed (Tiny.semi 2 {[ 2; 3 ]}) true;
                  SetProcessed (Tiny.semi 3 {[ 1; 3 ]}) true]))
    as [e | [[count added'] s']] eqn:Hrun.
  - exfalso. vm_compute in Hrun. discriminate Hrun.
  - exists count, added', s'. split; [reflexivity |].
    destruct (OrRule_adds_unions_with_vc _ _ _ _ _ _ _ _ _ _ _ Hrun)
      as (new & Ha & Hc & _).
    by exists new.
Defined.


(** ** The processed flags after [ProcessSemis] *)

Create HintDb semis discriminated.

Ltac semis_modify := apply respects_modify; intros ?; solve [split; cbn; done].

Ltac semis_auto :=
  repeat first [ solve [auto with semis] | respects_step ltac:(done) | semis_modify ].

Lemma semis_kept_on_list_FULL {A} xc yc x y
    (op : ChangeLog → VCList.t → A * VCList.t * ChangeLog) :
  respects (semis_kept xc yc) any_error (on_list FULL x y op).
Proof.
  intros s. rewrite on_list_run. split; cbn; [| done].
  by apply GetList_SetList_ne.
Qed.

Lemma semis_kept_PushFull xc yc vc : respects (semis_kept xc yc) any_error (PushFull vc).
Proof. unfold PushFull. semis_auto. Qed.

#[global] Hint Resolve semis_kept_on_list_FULL semis_kept_PushFull : semis.

Section SemisKept.
Variable BITSETSIZE : nat.

Lemma semis_kept_stat xc yc c n :
  respects (semis_kept xc yc) any_error (stat_add c n).
Proof. unfold stat_add. semis_auto. Qed.

Lemma semis_kept_incr xc yc c :
  respects (semis_kept xc yc) any_error (stat_incr c).
Proof. apply semis_kept_stat. Qed.

Lemma semis_kept_arr_set {A} xc yc (arr : list A) i v :
  respects (semis_kept xc yc) any_error (arr_set arr i v).
Proof. unfold arr_set. semis_auto. Qed.

#[local] Hint Resolve semis_kept_stat semis_kept_incr semis_kept_arr_set : semis.

Lemma semis_kept_or_add xc yc x y v count added :
  respects (semis_kept xc yc) any_error (or_add x y v count added).
Proof. unfold or_add. semis_auto. Qed.

#[local] Hint Resolve semis_kept_or_add : semis.

Lemma semis_kept_OrRule_loop xc yc fuel x y N maxOrs cap index ors ands d count added :
  respects (semis_kept xc yc) any_error
    (OrRule_loop BITSETSIZE fuel x y N maxOrs cap index ors ands d count added).
Proof.
  revert index ors ands d count added.
  induction fuel as [| fuel IH]; intros; cbn [OrRule_loop]; semis_auto.
Qed.

#[local] Hint Resolve semis_kept_OrRule_loop : semis.

Lemma semis_kept_OrRule xc yc fuel vc x y added maxOrs :
  respects (semis_kept xc yc) any_error (OrRule BITSETSIZE fuel vc x y added maxOrs).
Proof. unfold OrRule. semis_auto. Qed.

Lemma semis_kept_Add_loop xc yc mem start remaining cap inter uni :
  respects (semis_kept xc yc) any_error (Add_loop mem start remaining cap inter uni).
Proof.
  revert start inter uni.
  induction remaining as [| r IH]; intros; cbn [Add_loop]; semis_auto.
Qed.

#[local] Hint Resolve semis_kept_Add_loop : semis.

Lemma semis_kept_Combiner_Add xc yc c mem added start count cap :
  respects (semis_kept xc yc) any_error
    (Combiner_Add BITSETSIZE c mem added start count cap).
Proof. unfold Combiner_Add. semis_auto. Qed.

#[local] Hint Resolve semis_kept_Combiner_Add : semis.

Lemma semis_kept_Search xc yc fuel c :
  (∀ forbidden cX cY ns nsc osc fc mem added,
      respects (semis_kept xc yc) any_error
        (Search BITSETSIZE fuel c forbidden cX cY ns nsc osc fc mem added))
  ∧ (∀ forbidden cX cY ns nsc osc fc nc ncc mem added,
      respects (semis_kept xc yc) any_error
        (Search_loop BITSETSIZE fuel c forbidden cX cY ns nsc osc fc
                     nc ncc mem added)).
Proof.
  induction fuel as [| fuel [IH1 IH2]]; split; intros;
    cbn [Search Search_loop]; semis_auto.
Qed.

Lemma semis_kept_DoOr xc yc fuel x y added :
  respects (semis_kept xc yc) any_error (DoOr BITSETSIZE fuel x y added).
Proof.
  unfold DoOr. pose proof (semis_kept_Search xc yc fuel) as HS. semis_auto.
  apply HS.
Qed.

Lemma semis_kept_ProcessSemis_all xc yc x y cap added :
  respects (semis_kept xc yc) any_error (ProcessSemis_all BITSETSIZE x y cap added).
Proof. unfold ProcessSemis_all. semis_auto. Qed.
End SemisKept.

(** The list [es] with the flags of its first [n] entries set. *)
Definition marked (n : nat) (es : list VC) : list VC :=
  ((λ v, SetProcessed v true) <$> take n es) ++ drop n es.

Lemma with_entries_same l : VCList.with_entries l (VCList.entries l) = l.
Proof. by destruct l. Qed.

Lemma SetProcessed_same v : Processed v = true → SetProcessed v true = v.
Proof. destruct v. cbn. by intros ->. Qed.

Lemma marked_lookup k es : marked k es !! k = es !! k.
Proof.
  unfold marked. destruct (decide (k < length es)) as [Hk | Hk].
  - rewrite lookup_app_r; rewrite length_fmap, length_take; [| lia].
    replace (k - k `min` length es) with 0 by lia.
    rewrite lookup_drop. by rewrite Nat.add_0_r.
  - rewrite (lookup_ge_None_2 es) by lia. apply lookup_ge_None_2.
    rewrite length_app, length_fmap, length_take, length_drop. lia.
Qed.

Lemma alter_marked k es :
  alter (λ v, SetProcessed v true) k (marked k es) = marked (S k) es.
Proof.
  unfold marked. destruct (es !! k) as [x |] eqn:Hx.
  - pose proof (lookup_lt_Some _ _ _ Hx) as Hk.
    rewrite (take_S_r _ _ _ Hx), fmap_app, <- app_assoc.
    rewrite (drop_S _ _ _ Hx).
    rewrite alter_app_r_alt; rewrite length_fmap, length_take; [| lia].
    replace (k - k `min` length es) with 0 by lia. done.
  - apply lookup_ge_None in Hx.
    rewrite !take_ge, !drop_ge by lia. rewrite !app_nil_r.
    apply list_eq. intros i. rewrite list_lookup_alter.
    case_decide as Hi; [| done]. subst i.
    rewrite (lookup_ge_None_2 _ k) by (rewrite length_fmap; lia). done.
Qed.

(** The list of Semis between [xc] and [yc] is the list [L0] with the flags
    of its first [k] entries set, and the parameters are [p0]. *)
Definition semis_marked (xc yc : HexPoint) (L0 : VCList.t) (p0 : VCBuilderParam)
    (k : nat) (s : VCBuilder) : Prop :=
  VCSet.GetList SEMI xc yc (m_con s) = VCList.with_entries L0 (marked k (VCList.entries L0))
  ∧ m_param s = p0.

Lemma wp_semis_kept {A} xc yc L0 p0 k E (m : M A) (Q : A → VCBuilder → Prop) s :
  respects (semis_kept xc yc) E m →
  semis_marked xc yc L0 p0 k s →
  (∀ a s', semis_marked xc yc L0 p0 k s' → Q a s') →
  wp m Q s.
Proof.
  intros Hm [Hl Hp] HQ. specialize (Hm s). unfold wp.
  destruct (m s) as [e | [a s']]; [done |]. destruct Hm as [Hl' Hp'].
  apply HQ. split; congruence.
Qed.

Lemma semis_marked_skip xc yc L0 p0 k s cur :
  semis_marked xc yc L0 p0 k s →
  VCList.entries (VCSet.GetList SEMI xc yc (m_con s)) !! k = Some cur →
  Processed cur = true →
  semis_marked xc yc L0 p0 (S k) s.
Proof.
  intros [Hl Hp] Hcur Hproc. split; [| done]. rewrite Hl. f_equal.
  rewrite Hl in Hcur. cbn in Hcur. rewrite <- alter_marked.
  apply list_eq. intros i. rewrite list_lookup_alter.
  case_decide as Hi; [| done]. subst i. rewrite Hcur. cbn.
  by rewrite SetProcessed_same.
Qed.

Lemma wp_mark_semi_processed xc yc L0 p0 k s :
  semis_marked xc yc L0 p0 k s →
  wp (mark_semi_processed xc yc k) (λ _, semis_marked xc yc L0 p0 (S k)) s.
Proof.
  intros [Hl Hp]. unfold mark_semi_processed.
  wp_step. wp_step. wp_step. wp_step. intros cur _. wp_step. wp_step. wp_step.
  split; [| done]. cbn. rewrite GetList_SetList, Hl. cbn.
  unfold VCList.set_processed_at, VCList.with_entries. cbn. by rewrite alter_marked.
Qed.

Section Flags.
Variable BITSETSIZE : nat.

Lemma wp_bounded_entry fuel xc yc L0 p0 added k s :
  semis_marked xc yc L0 p0 k s →
  wp (ProcessSemis_bounded_entry BITSETSIZE fuel xc yc added k)
     (λ _, semis_marked xc yc L0 p0 (S k)) s.
Proof.
  intros Hk. unfold ProcessSemis_bounded_entry.
  wp_step. wp_step. wp_step. wp_step. intros cur Hcur.
  destruct (Processed cur) eqn:Hproc; cbn [negb].
  { apply wp_ret. by eapply semis_marked_skip. }
  wp_step. eapply wp_semis_kept;
    [apply (semis_kept_incr xc yc) | exact Hk | intros _ s1 Hk1].
  wp_step. wp_step. wp_step.
  eapply wp_semis_kept;
    [apply (semis_kept_OrRule BITSETSIZE xc yc) | exact Hk1
    | intros [count added'] s2 Hk2].
  wp_step. eapply wp_semis_kept;
    [apply (respects_when _ _ _ _ (semis_kept_incr xc yc C_goodOrs)) | exact Hk2
    | intros _ s3 Hk3].
  wp_step. wp_step. wp_step. wp_step. intros cur' _. wp_step. wp_step.
  wp_step. eapply wp_mono; [by apply wp_mark_semi_processed |].
  intros [] s4 Hk4. by apply wp_ret.
Qed.

Lemma wp_bounded_loop fuel xc yc L0 p0 n :
  ∀ k added s,
    semis_marked xc yc L0 p0 k s →
    wp (ProcessSemis_bounded_loop BITSETSIZE fuel xc yc (seq k n) added)
       (λ _, semis_marked xc yc L0 p0 (k + n)) s.
Proof.
  induction n as [| n IH]; intros k added s Hk; cbn [seq ProcessSemis_bounded_loop].
  - apply wp_ret. by rewrite Nat.add_0_r.
  - wp_step. eapply wp_mono; [by apply wp_bounded_entry |].
    intros added1 s1 Hk1. replace (k + S n) with (S k + n) by lia. by apply IH.
Qed.

Lemma wp_mark_all xc yc L0 p0 n :
  ∀ k s,
    semis_marked xc yc L0 p0 k s →
    wp (for_each (seq k n)
          (λ idx, l ← get_list SEMI xc yc;
                  cur ← deref (VCList.entries l !! idx);
                  when (negb (Processed cur)) (mark_semi_processed xc yc idx)))
       (λ _, semis_marked xc yc L0 p0 (k + n)) s.
Proof.
  induction n as [| n IH]; intros k s Hk; cbn [seq for_each].
  - apply wp_ret. by rewrite Nat.add_0_r.
  - wp_step.
    apply (wp_mono _ (λ _, semis_marked xc yc L0 p0 (S k))).
    + wp_step. wp_step. wp_step. wp_step. intros cur Hcur.
      destruct (Processed cur) eqn:Hproc; cbn [negb when].
      * apply wp_ret. by eapply semis_marked_skip.
      * by apply wp_mark_semi_processed.
    + intros [] s1 Hk1. replace (k + S n) with (S k + n) by lia. by apply IH.
Qed.

(** X17: the flags [ProcessSemis] sets.  When [ProcessSemis] returns
    without stopping at its first test, the list of Semis between the two
    cells holds the same connections in the same order; with the enhanced
    OR rule (max_ors at least 16) every Semi of the list is now
    processed, with the bounded rule every Semi within the soft limit is,
    and the flags behind the soft limit are as before. *)
Theorem ProcessSemis_sets_the_processed_flags (fuel : nat) (xc yc : HexPoint)
    (s s' : VCBuilder) :
  let semis := VCSet.GetList SEMI xc yc (m_con s) in
  let capturedSet := m_capturedSet s xc ∪ m_capturedSet s yc in
  ProcessSemis BITSETSIZE fuel xc yc s = inr (tt, s') →
  Bitset.any (VCList.HardIntersection BITSETSIZE semis
                ∩ Bitset.flip BITSETSIZE capturedSet) = false →
  VCList.entries (VCSet.GetList SEMI xc yc (m_con s'))
  = if decide (16 ≤ max_ors (m_param s))%Z
    then (λ v, SetProcessed v true) <$> VCList.entries semis
    else ((λ v, SetProcessed v true) <$> VCList.soft_prefix semis)
           ++ drop (VCList.Softlimit semis) (VCList.entries semis).
Proof.
  intros semis capturedSet Hrun Hb.
  set (n := if decide (16 ≤ max_ors (m_param s))%Z
            then length (VCList.entries semis)
            else length (VCList.soft_prefix semis)).
  assert (semis_marked xc yc semis (m_param s) 0 s) as H0.
  { split; [| done]. unfold marked. cbn [take fmap list_fmap app drop].
    symmetry. apply with_entries_same. }
  assert (wp (ProcessSemis BITSETSIZE fuel xc yc)
             (λ _, semis_marked xc yc semis (m_param s) n) s) as Hwp.
  { unfold ProcessSemis. wp_step. wp_step. wp_step. wp_step. cbv zeta.
    fold semis capturedSet. rewrite Hb. wp_step. wp_step. wp_step.
    apply (wp_mono _ (λ _, semis_marked xc yc semis (m_param s) n)).
    - subst n. case_decide.
      + wp_step. eapply wp_semis_kept;
          [apply (semis_kept_incr xc yc) | exact H0 | intros _ s1 H1].
        wp_step. eapply wp_semis_kept;
          [apply (semis_kept_DoOr BITSETSIZE xc yc) | exact H1
          | intros [good added] s2 H2].
        wp_step. eapply wp_semis_kept;
          [apply (respects_when _ _ _ _ (semis_kept_incr xc yc C_goodOrs)) | exact H2
          | intros _ s3 H3].
        wp_step. wp_step. wp_step.
        destruct H3 as [Hl3 Hp3]. rewrite Hl3. cbn. unfold marked at 1. cbn.
        eapply wp_mono; [apply (wp_mark_all xc yc semis (m_param s) _ 0); by split |].
        intros [] s4 H4. by apply wp_ret.
      + wp_step. eapply wp_mono;
          [apply (wp_bounded_loop fuel xc yc semis (m_param s) _ 0); exact H0 |].
        intros added1 s1 H1. cbn in H1.
        eapply wp_semis_kept;
          [apply (semis_kept_ProcessSemis_all BITSETSIZE xc yc) | exact H1 | done].
    - intros added s1 H1.
      eapply wp_semis_kept; [| exact H1 | done].
      apply respects_for_each; [apply _ |]. intros v. apply semis_kept_PushFull. }
  destruct (wp_inr _ _ _ _ _ Hwp Hrun) as [Hl _]. rewrite Hl. cbn. subst n.
  unfold marked. case_decide.
  - by rewrite firstn_all, drop_all, app_nil_r.
  - unfold VCList.soft_prefix. rewrite length_take.
    destruct (decide (VCList.Softlimit semis ≤ length (VCList.entries semis))).
    + by rewrite Nat.min_l by done.
    + rewrite Nat.min_r by lia. rewrite !firstn_all, !drop_all, !take_ge, !drop_ge by lia.
      done.
Qed.
End Flags.

(** The three Semis between 0 and 7, with the bounded rule. *)
Lemma ProcessSemis_sets_the_processed_flags_witness :
  let s := Tiny.triangle Tiny.two_ors_param in
  let semis := VCSet.GetList SEMI 0 7 (m_con s) in
  VCList.entries (VCSet.GetList SEMI 0 7
                    (m_con (Tiny.final (ProcessSemis Tiny.B 100 0 7) s)))
  = if decide (16 ≤ max_ors (m_param s))%Z
    then (λ v, SetProcessed v true) <$> VCList.entries semis
    else ((λ v, SetProcessed v true) <$> VCList.soft_prefix semis)
           ++ drop (VCList.Softlimit semis) (VCList.entries semis).
Proof.
  cbv zeta.
  assert (ProcessSemis Tiny.B 100 0 7 (Tiny.triangle Tiny.two_ors_param)
          = inr (tt, Tiny.final (ProcessSemis Tiny.B 100 0 7)
                                (Tiny.triangle Tiny.two_ors_param)))
    as Hrun by (vm_compute; reflexivity).
  apply (ProcessSemis_sets_the_processed_flags _ _ _ _ _ _ Hrun).
  vm_compute; reflexivity.
Defined.


(** ** The AND closure of a Full *)

Lemma wp_any {A} (m : M A) s : wp m (λ _ _, True) s.
Proof. unfold wp. by destruct (m s) as [e | [a s']]. Qed.

Section AndClosure.
Variable BITSETSIZE : nat.
Variable isEdge : HexPoint → bool.

(** X18: [DoAnd] looks only at the processed Fulls within the soft limit
    whose carrier does not hold the far endpoint [to].  When the list has
    no such Full (an empty list is one case), [DoAnd] returns with the
    state untouched: nothing is attempted and no counter moves. *)
Theorem DoAnd_skips_unprocessed_and_touching (from over to : HexPoint)
    (rule : AndRule) (vc : VC) (capturedSet : bitset) (old : VCList.t)
    (s : VCBuilder) :
  Forall (λ i, Processed i = false ∨ to ∈ Carrier i) (VCList.soft_prefix old) →
  DoAnd BITSETSIZE from over to rule vc capturedSet old s = inr (tt, s).
Proof.
  intros Hall. unfold DoAnd. destruct (VCList.Empty old); [done |].
  induction Hall as [| i rest Hi _ IH]; [done |].
  cbn [for_each]. rewrite (bind_run _ _ _ tt s); [exact IH |].
  unfold DoAnd_entry. destruct Hi as [-> | Hto]; [done |].
  destruct (Processed i); [| done]. cbn [negb].
  by rewrite (proj2 (test_true _ _) Hto).
Qed.

(** X19: [ProcessFulls] on a Full that is not to be processed, and on one
    that is.  When the Full is no longer in the list between its endpoints
    (no entry has its endpoints and carrier), or the entry found is
    already processed, [ProcessFulls] returns with the state untouched.
    When the entry found is not processed and [ProcessFulls] returns, the
    entry at that place of the list still has the endpoints and the
    carrier of the Full, and it is processed. *)
Theorem ProcessFulls_marks_the_entry_found (vc : VC) (s : VCBuilder) :
  let fulls := VCSet.GetList FULL (X vc) (Y vc) (m_con s) in
  (VCList.FindInList vc fulls = None →
     ProcessFulls BITSETSIZE isEdge vc s = inr (tt, s))
  ∧ (∀ cur v, VCList.FindInList vc fulls = Some cur →
       VCList.entries fulls !! cur = Some v → Processed v = true →
       ProcessFulls BITSETSIZE isEdge vc s = inr (tt, s))
  ∧ (∀ cur v s', VCList.FindInList vc fulls = Some cur →
       VCList.entries fulls !! cur = Some v → Processed v = false →
       ProcessFulls BITSETSIZE isEdge vc s = inr (tt, s') →
       ∃ v', VCList.entries (VCSet.GetList FULL (X vc) (Y vc) (m_con s')) !! cur
             = Some v'
         ∧ Processed v' = true ∧ X v' = X vc ∧ Y v' = Y vc
         ∧ Carrier v' = Carrier vc).
Proof.
  intros fulls. unfold ProcessFulls.
  rewrite (bind_run _ _ _ _ s eq_refl). fold fulls. split_and!.
  - by intros ->.
  - intros cur v -> Hv Hp. rewrite Hv, (bind_run _ _ _ v s eq_refl), Hp. done.
  - intros cur v s' -> Hv Hp Hrun. rewrite Hv in Hrun.
    revert Hrun. rewrite (bind_run _ _ _ v s eq_refl), Hp. cbn [negb]. intros Hrun.
    assert (wp (AndClosure BITSETSIZE isEdge v ;;
                fulls' ← get_list FULL (X vc) (Y vc);
                v' ← deref (VCList.entries fulls' !! cur);
                BenzeneAssert 499 (VC_same v' vc) ;;
                on_list FULL (X vc) (Y vc)
                  (λ log l, (tt, VCList.set_processed_at cur true l, log)) ;;
                log_Push PROCESSED (SetProcessed v' true))
               (λ _ s',
                  ∃ v', VCList.entries (VCSet.GetList FULL (X vc) (Y vc) (m_con s'))
                          !! cur = Some v'
                    ∧ Processed v' = true ∧ X v' = X vc ∧ Y v' = Y vc
                    ∧ Carrier v' = Carrier vc) s) as Hwp.
    { wp_step. eapply wp_mono; [apply wp_any |]. intros _ s1 _.
      wp_step. wp_step. wp_step. wp_step. intros v' Hv'. wp_step. wp_step.
      wp_step. wp_step. wp_step. cbn. rewrite GetList_SetList. cbn.
      exists (SetProcessed v' true). rewrite list_lookup_alter_eq, Hv'. cbn.
      unfold VC_same in *.
      match goal with
      | Hs : bool_decide _ = true |- _ =>
          apply bool_decide_eq_true in Hs as (? & ? & ?)
      end.
      split_and!; done. }
    exact (wp_inr _ _ _ _ _ Hwp Hrun).
Qed.
End AndClosure.

(** A list whose only Full is not processed. *)
Lemma DoAnd_skips_witness :
  DoAnd Tiny.B 0 1 2 CREATE_FULL (VC_adjacent 1 2) ∅
        (VCList.mk 0 1 10 [VC_full 0 1 {[ 3 ]} VC_RULE_BASE]) (Tiny.fresh default_param)
  = inr (tt, Tiny.fresh default_param).
Proof.
  apply DoAnd_skips_unprocessed_and_touching. by_evaluation.
Defined.

(** The Full 0-1 of the small position when the search starts. *)
Lemma ProcessFulls_marks_witness :
  ∃ v', VCList.entries
          (VCSet.GetList FULL 0 1
             (m_con (Tiny.final (ProcessFulls Tiny.B Tiny.isEdge (VC_adjacent 0 1))
                                Tiny.seeded))) !! 0 = Some v'
    ∧ Processed v' = true.
Proof.
  assert (ProcessFulls Tiny.B Tiny.isEdge (VC_adjacent 0 1) Tiny.seeded
          = inr (tt, Tiny.final (ProcessFulls Tiny.B Tiny.isEdge (VC_adjacent 0 1))
                                Tiny.seeded)) as Hrun by (vm_compute; reflexivity).
  assert (VCList.FindInList (VC_adjacent 0 1)
            (VCSet.GetList FULL 0 1 (m_con Tiny.seeded)) = Some 0) as Hfind
    by (vm_compute; reflexivity).
  assert (VCList.entries (VCSet.GetList FULL 0 1 (m_con Tiny.seeded)) !! 0
          = Some (VC_adjacent 0 1)) as Hcur by (vm_compute; reflexivity).
  destruct (proj2 (proj2 (ProcessFulls_marks_the_entry_found Tiny.B Tiny.isEdge
                            (VC_adjacent 0 1) Tiny.seeded))
              0 (VC_adjacent 0 1) _ Hfind Hcur eq_refl Hrun) as (v' & Hv' & Hp & _).
  exists v'. split; [exact Hv' | exact Hp].
Defined.


(** ** The incremental build *)

Lemma wp_for_each_after {A} (I : list A → VCBuilder → Prop) (l : list A) body :
  ∀ before s,
    I before s →
    (∀ done x s, I done s → wp (body done x) (λ _, I (done ++ [x])) s) →
    wp (for_each_after before l body) (λ _, I (before ++ l)) s.
Proof.
  induction l as [| x l IH]; intros before s Hs Hbody; cbn [for_each_after].
  - apply wp_ret. by rewrite app_nil_r.
  - apply wp_bind. eapply wp_mono; [by apply Hbody |].
    intros [] s1 Hs1. replace (before ++ x :: l) with ((before ++ [x]) ++ l)
      by (by rewrite <- app_assoc).
    by apply IH.
Qed.

Lemma set_m_nbs_twice f s0 s :
  s = set_m_nbs (m_nbs s) s0 →
  set_m_nbs f s = set_m_nbs (m_nbs (set_m_nbs f s)) s0.
Proof. intros ->. by destruct s0. Qed.

(** The neighbour sets of [s1] are those of [s0] and pairs of captains of
    two groups of [groups], the second before the first, with a Full between
    them; nothing else differs. *)
Definition nbs_rebuilt (s0 : VCBuilder) (groups : list Group) (s1 : VCBuilder) : Prop :=
  s1 = set_m_nbs (m_nbs s1) s0
  ∧ ∀ a b, b ∈ m_nbs s1 a →
      b ∈ m_nbs s0 a
      ∨ (VCSet.Exists a b FULL (m_con s0) = true
         ∧ ∃ i j gx gy, j < i ∧ groups !! i = Some gx ∧ groups !! j = Some gy
                        ∧ Captain gx = a ∧ Captain gy = b).

Lemma nbs_rebuilt_more s0 groups x s1 :
  nbs_rebuilt s0 groups s1 → nbs_rebuilt s0 (groups ++ [x]) s1.
Proof.
  intros [Heq Hnbs]. split; [done |]. intros a b Hb.
  destruct (Hnbs a b Hb) as [? | (? & i & j & gx & gy & ? & Hi & Hj & ? & ?)];
    [by left | right]. split; [done |].
  exists i, j, gx, gy. split_and!; try done; by apply lookup_app_l_Some.
Qed.

Lemma rebuild_nbs_never newGroups : respects any_state never (rebuild_nbs newGroups).
Proof.
  unfold rebuild_nbs.
  repeat first [ respects_step ltac:(done) | by apply respects_modify ].
Qed.

(** X20: the neighbour sets the incremental build fills again are
    one-sided.  The loop that follows the clearing of [m_nbs] returns and
    changes the neighbour sets only; it enters the captain of a group in
    the set of the captain of another only if a Full lies between the two
    and the group comes before the other in the iteration over the groups:
    the set of the earlier group does not get the later one. *)
Theorem rebuild_nbs_is_one_sided (newGroups : Groups) (s : VCBuilder) :
  let groups := GroupIterator newGroups (NotColor (other_color (m_color s))) in
  ∃ s', rebuild_nbs newGroups s = inr (tt, s')
    ∧ s' = set_m_nbs (m_nbs s') s
    ∧ ∀ a b, b ∈ m_nbs s' a →
        b ∈ m_nbs s a
        ∨ (VCSet.Exists a b FULL (m_con s) = true
           ∧ ∃ i j gx gy, j < i ∧ groups !! i = Some gx ∧ groups !! j = Some gy
                          ∧ Captain gx = a ∧ Captain gy = b).
Proof.
  intros groups.
  destruct (respects_never_inr _ _ s (rebuild_nbs_never newGroups))
    as ([] & s' & Hrun & _).
  exists s'. split; [exact Hrun |].
  assert (wp (rebuild_nbs newGroups) (λ _, nbs_rebuilt s groups) s) as Hwp.
  { unfold rebuild_nbs. wp_step. wp_step. cbv zeta. fold groups.
    apply (wp_for_each_after (nbs_rebuilt s) groups _ [] s).
    { split; [by destruct s | by left]. }
    intros before x s1 Hs1. cbv zeta.
    destruct (bool_decide _); [apply wp_ret; by apply nbs_rebuilt_more |].
    apply (wp_mono _ (λ _ s2, nbs_rebuilt s (before ++ [x]) s2)); [| done].
    apply wp_for_each; [by apply nbs_rebuilt_more |].
    intros y s2 Hy [Heq Hnbs]. cbv zeta.
    destruct (bool_decide _); [by apply wp_ret |].
    wp_step. wp_step. destruct (VCSet.Exists _ _ _ _) eqn:Hex; cbn [when];
      [| by apply wp_ret].
    wp_step. split; cbn.
    - by apply set_m_nbs_twice.
    - intros a b. destruct (decide (a = Captain x)) as [-> | Hne].
      + rewrite fn_lookup_insert. unfold Bitset.set.
        intros [->%elem_of_singleton | Hb]%elem_of_union; [| by apply Hnbs].
        right. rewrite Heq in Hex. cbn in Hex. split; [exact Hex |].
        apply list_elem_of_lookup in Hy as [j Hj].
        exists (length before), j, x, y.
        split_and!; try done.
        * by apply lookup_lt_Some in Hj.
        * rewrite lookup_app_r, Nat.sub_diag by done. done.
        * by apply lookup_app_l_Some.
      + rewrite fn_lookup_insert_ne by done. apply Hnbs. }
  exact (wp_inr _ _ _ _ _ Hwp Hrun).
Qed.


(** ** Killing the connections that touch the opponent's stones *)

Lemma wp_for_each_prefix {A} (I : list A → VCBuilder → Prop) (l : list A) body :
  ∀ done s,
    I done s →
    (∀ done a s, I done s → wp (body a) (λ _, I (done ++ [a])) s) →
    wp (for_each l body) (λ _, I (done ++ l)) s.
Proof.
  induction l as [| a l IH]; intros done s Hs Hbody; cbn [for_each].
  - apply wp_ret. by rewrite app_nil_r.
  - apply wp_bind. eapply wp_mono; [by apply Hbody |].
    intros [] s1 Hs1. replace (done ++ a :: l) with ((done ++ [a]) ++ l)
      by (by rewrite <- app_assoc).
    by apply IH.
Qed.

(** No list of [s'] holds a connection its list of [s] does not hold, and
    the connections are in the same order. *)
Definition lists_shrunk (s s' : VCBuilder) : Prop :=
  ∀ ty x y,
    VCList.entries (VCSet.GetList ty x y (m_con s'))
    `sublist_of` VCList.entries (VCSet.GetList ty x y (m_con s)).

#[global] Instance lists_shrunk_preorder : PreOrder lists_shrunk.
Proof.
  split.
  - by intros s ty x y.
  - intros s1 s2 s3 H12 H23 ty x y. etrans; [apply H23 | apply H12].
Qed.

(** No connection of the list meets [bs]. *)
Definition clear_of (bs : bitset) (l : VCList.t) : Prop :=
  Forall (λ v, Carrier v ∩ bs = ∅) (VCList.entries l).

Lemma clear_of_shrunk bs ty x y s s' :
  lists_shrunk s s' →
  clear_of bs (VCSet.GetList ty x y (m_con s)) →
  clear_of bs (VCSet.GetList ty x y (m_con s')).
Proof.
  intros Hsub Hc. unfold clear_of in *. rewrite list.Forall_forall in *.
  intros v Hv. apply Hc. eapply sublist_subseteq; [apply Hsub | done].
Qed.

Definition kill_op (bs : bitset) (log : ChangeLog) (l : VCList.t)
    : nat * VCList.t * ChangeLog :=
  let '(r, l', log') := VCList.RemoveAllContaining bs log l in (length r, l', log').

Lemma m_con_on_list log c s : m_con (set_m_log log (set_m_con c s)) = c.
Proof. by destruct s. Qed.

Lemma wp_kill bs ty x y s :
  wp (on_list ty x y (kill_op bs))
     (λ _ s', lists_shrunk s s' ∧ clear_of bs (VCSet.GetList ty x y (m_con s'))) s.
Proof.
  apply wp_on_list. cbn. split.
  - intros ty' x' y'. rewrite m_con_on_list. destruct (decide (VCSet.key ty x y = VCSet.key ty' x' y')) as [Hk | Hk].
    + rewrite <- !(GetList_key ty x y ty' x' y' _ Hk), GetList_SetList. cbn.
      apply sublist_filter.
    + by rewrite GetList_SetList_ne.
  - rewrite GetList_SetList. unfold clear_of. cbn. rewrite list.Forall_forall.
    intros v [Hv _]%list_elem_of_filter. apply dec_stable. exact Hv.
Qed.

Lemma wp_stat_add_con c n (Q : VCSet.t → Prop) s :
  Q (m_con s) → wp (stat_add c n) (λ _ s', Q (m_con s')) s.
Proof. intros HQ. unfold stat_add. apply wp_modify. by destruct s. Qed.

Lemma RemoveAllContaining_never oldGroups bs :
  respects any_state never (RemoveAllContaining oldGroups bs).
Proof.
  unfold RemoveAllContaining, on_list, stat_add.
  repeat first [ respects_step ltac:(done) | by apply respects_modify ].
Qed.

(** The two lists between [xc] and [yc] after the body of the inner loop. *)
Lemma wp_kill_pair bs xc yc s :
  wp (cur0 ← on_list FULL xc yc (kill_op bs);
      stat_add C_killed0 cur0 ;;
      cur1 ← on_list SEMI xc yc (kill_op bs);
      stat_add C_killed1 cur1)
     (λ _ s', lists_shrunk s s'
              ∧ ∀ ty, clear_of bs (VCSet.GetList ty xc yc (m_con s'))) s.
Proof.
  apply wp_bind. eapply wp_mono; [apply wp_kill |].
  intros cur0 s1 [Hs1 Hc1]. apply wp_bind.
  apply (wp_mono _ (λ _ s2, m_con s2 = m_con s1)).
  { by apply (wp_stat_add_con _ _ (λ c, c = m_con s1)). }
  intros [] s2 Heq2. apply wp_bind. eapply wp_mono; [apply wp_kill |].
  intros cur1 s3 [Hs3 Hc3].
  apply (wp_mono _ (λ _ s4, m_con s4 = m_con s3)).
  { by apply (wp_stat_add_con _ _ (λ c, c = m_con s3)). }
  intros [] s4 Heq4.
  assert (lists_shrunk s2 s4) as H24.
  { intros ty x y. rewrite Heq4. apply Hs3. }
  assert (lists_shrunk s s2) as H02.
  { intros ty x y. rewrite Heq2. apply Hs1. }
  split; [by etrans |]. intros [].
  - apply (clear_of_shrunk _ _ _ _ s2); [done |]. by rewrite Heq2.
  - by rewrite Heq4.
Qed.

(** X21: [RemoveAllContaining(oldGroups, bs)] kills and adds nothing.  It
    returns; no list holds a connection afterwards that it did not hold
    before; and between the captains of two groups of the iteration that
    are not of the opponent's colour now, the later one taken first, no
    Full and no Semi is left whose carrier meets [bs]. *)
Theorem RemoveAllContaining_kills_and_adds_nothing
    (oldGroups : Groups) (bs : bitset) (s : VCBuilder) :
  let groups := GroupIterator oldGroups (NotColor (other_color (m_color s))) in
  let ours g :=
    GroupColor (GetGroup (m_groups s) (Captain g)) ≠ other_color (m_color s) in
  ∃ s', RemoveAllContaining oldGroups bs s = inr (tt, s')
    ∧ (∀ ty x y,
         VCList.entries (VCSet.GetList ty x y (m_con s'))
         `sublist_of` VCList.entries (VCSet.GetList ty x y (m_con s)))
    ∧ ∀ ty i j gx gy,
        j < i → groups !! i = Some gx → groups !! j = Some gy →
        ours gx → ours gy →
        Forall (λ v, Carrier v ∩ bs = ∅)
               (VCList.entries
                  (VCSet.GetList ty (Captain gx) (Captain gy) (m_con s'))).
Proof.
  intros groups ours.
  destruct (respects_never_inr _ _ s (RemoveAllContaining_never oldGroups bs))
    as ([] & s' & Hrun & _).
  exists s'. split; [exact Hrun |].
  pose (I := λ (before : list Group) (s1 : VCBuilder),
          lists_shrunk s s1
          ∧ ∀ ty i j gx gy,
              j < i → before !! i = Some gx → before !! j = Some gy →
              ours gx → ours gy →
              clear_of bs (VCSet.GetList ty (Captain gx) (Captain gy) (m_con s1))).
  assert (wp (RemoveAllContaining oldGroups bs) (λ _, I groups) s) as Hwp.
  { unfold RemoveAllContaining. wp_step. wp_step. cbv zeta. fold groups.
    apply (wp_for_each_after I groups _ [] s).
    { split; [reflexivity |]. intros ty i j gx gy _ Hi. by rewrite lookup_nil in Hi. }
    intros before x s1 [Hs1 Hold]. cbv zeta.
    assert (∀ s2, lists_shrunk s1 s2 →
              (ours x → ∀ ty j gy, before !! j = Some gy → ours gy →
                 clear_of bs (VCSet.GetList ty (Captain x) (Captain gy) (m_con s2))) →
              I (before ++ [x]) s2) as Hclose.
    { intros s2 H12 Hnew. split; [by etrans |].
      intros ty i j gx gy Hji Hi Hj Hgx Hgy.
      apply lookup_app_Some in Hi as [Hi | [Hlen Hi]].
      - apply (clear_of_shrunk _ _ _ _ s1); [done |].
        apply (Hold ty i j); try done.
        apply lookup_app_Some in Hj as [Hj | [Hlen _]]; [done |].
        apply lookup_lt_Some in Hi. lia.
      - apply list_lookup_singleton_Some in Hi as [Hi ->].
        apply lookup_app_Some in Hj as [Hj | [Hlen' _]]; [| lia].
        by apply (Hnew Hgx ty j). }
    case_bool_decide as Hopp.
    { apply wp_ret. apply Hclose; [reflexivity |]. intros Hx. by destruct Hx. }
    pose (K := λ (done : list Group) (s2 : VCBuilder),
            lists_shrunk s1 s2
            ∧ ∀ ty j gy, done !! j = Some gy → ours gy →
                clear_of bs (VCSet.GetList ty (Captain x) (Captain gy) (m_con s2))).
    apply (wp_mono _ (λ _, K ([] ++ before))).
    2: { intros [] s2 [H12 Hnew]. apply Hclose; [done |]. intros _. apply Hnew. }
    apply (wp_for_each_prefix K before _ [] s1).
    { split; [reflexivity |]. intros ty j gy Hj. by rewrite lookup_nil in Hj. }
    intros done y s2 [H12 Hdone]. cbv zeta.
    assert (∀ s3, lists_shrunk s2 s3 →
              (ours y → ∀ ty,
                 clear_of bs (VCSet.GetList ty (Captain x) (Captain y) (m_con s3))) →
              K (done ++ [y]) s3) as Hstep.
    { intros s3 H23 Hy. split; [by etrans |].
      intros ty j gy Hj Hgy.
      apply lookup_app_Some in Hj as [Hj | [Hlen Hj]].
      - apply (clear_of_shrunk _ _ _ _ s2); [done |]. by apply (Hdone ty j).
      - apply list_lookup_singleton_Some in Hj as [_ ->]. by apply Hy. }
    case_bool_decide as Hoppy.
    { apply wp_ret. apply Hstep; [reflexivity |]. intros Hy. by destruct Hy. }
    eapply wp_mono; [apply (wp_kill_pair bs (Captain x) (Captain y)) |].
    intros [] s3 [H23 Hc]. apply Hstep; [done |]. intros _. apply Hc. }
  destruct (wp_inr _ _ _ _ _ Hwp Hrun) as [Hsub Hclear].
  split; [exact Hsub | exact Hclear].
Qed.


(** ** Merging and shrinking *)

Lemma assert_true_run {A} line (m : M A) s : (BenzeneAssert line true ;; m) s = m s.
Proof. reflexivity. Qed.

Lemma assert_false_run {A} line (m : M A) s :
  (BenzeneAssert line false ;; m) s = inl (AssertFailure line).
Proof. reflexivity. Qed.

(** The two lists between a pair of endpoints are the same objects as those
    between another pair together: the condition of the assertion at line
    317. *)
Lemma same_lists_both_kinds xin yin xout yout :
  bool_decide (bool_decide (VCSet.key FULL xin yin = VCSet.key FULL xout yout)
               = bool_decide (VCSet.key SEMI xin yin = VCSet.key SEMI xout yout)) = true.
Proof.
  apply bool_decide_eq_true. unfold VCSet.key.
  repeat case_bool_decide; try done; exfalso; simplify_eq; congruence.
Qed.

Lemma cells_until_ne x l y : y ∈ cells_until x l → y ≠ x.
Proof.
  induction l as [| z l IH]; cbn [cells_until]; [by intros ?%elem_of_nil |].
  case_decide; [by intros ?%elem_of_nil |].
  intros [-> | Hy]%elem_of_cons; [done | by apply IH].
Qed.

Lemma for_each_runs {A} (l : list A) (body : A → M unit) :
  (∀ a s, a ∈ l → ∃ s', body a s = inr (tt, s')) →
  ∀ s, ∃ s', for_each l body s = inr (tt, s').
Proof.
  induction l as [| a l IH]; intros Hbody s; cbn [for_each].
  - by exists s.
  - destruct (Hbody a s) as [s1 H1]; [apply list_elem_of_here |].
    rewrite (bind_run _ _ _ _ _ H1). apply IH.
    intros b s2 Hb. apply Hbody. by apply list_elem_of_further.
Qed.

Create HintDb never discriminated.

Section Merge.
Variable BITSETSIZE : nat.

#[local] Hint Resolve frame_stat_add frame_stat_incr frame_on_list frame_log_Push
  frame_PushFull : frame.

Lemma never_PushFull vc : respects any_state never (PushFull vc).
Proof.
  eapply respects_weaken; [| | apply same_con_PushFull]; done.
Qed.

Lemma never_on_list {A} ty x y (op : _ → _ → A * _ * _) :
  respects any_state never (on_list ty x y op).
Proof. intros s. by rewrite on_list_run. Qed.

Lemma never_stat_incr c : respects any_state never (stat_incr c).
Proof. by apply respects_modify. Qed.

#[local] Hint Resolve never_PushFull never_on_list never_stat_incr : never.

Ltac never_auto :=
  repeat first [ respects_step ltac:(done)
               | by apply respects_modify
               | solve [auto with never] ].

Lemma never_shrink_semis added xout yout removed wasShrink :
  respects any_state never (shrink_semis added xout yout removed wasShrink).
Proof.
  revert wasShrink. induction removed as [| it rest IH]; intros;
    cbn [shrink_semis]; never_auto.
Qed.

Lemma frame_shrink_semis added xout yout removed wasShrink :
  respects frame below_Build (shrink_semis added xout yout removed wasShrink).
Proof.
  revert wasShrink. induction removed as [| it rest IH]; intros;
    cbn [shrink_semis]; frame_auto.
Qed.

#[local] Hint Resolve never_shrink_semis : never.
#[local] Hint Resolve frame_shrink_semis : frame.

Lemma frame_MergeAndShrink added xin yin xout yout :
  respects frame below_Build (MergeAndShrink added xin yin xout yout).
Proof. unfold MergeAndShrink, shrink_full, upgrade_semi. frame_auto. Qed.

Lemma MergeAndShrink_runs added xin yin xout yout s :
  xin ≠ yin → xout ≠ yout →
  ∃ s', MergeAndShrink added xin yin xout yout s = inr (tt, s').
Proof.
  intros Hin Hout. unfold MergeAndShrink. cbv zeta.
  rewrite (bool_decide_eq_true_2 (xin ≠ yin)), assert_true_run by done.
  rewrite (bool_decide_eq_true_2 (xout ≠ yout)), assert_true_run by done.
  rewrite same_lists_both_kinds, assert_true_run.
  match goal with
  | |- ∃ s', ?m s = _ =>
      destruct (respects_never_inr any_state m s) as ([] & s' & Hrun & _);
      [| by exists s']
  end.
  unfold shrink_full, upgrade_semi. never_auto.
Qed.

(** X22: [MergeAndShrink(added, xin, yin, xout, yout)] fails on equal
    endpoints only.  With [xin = yin] the assertion at line 310 fails,
    else with [xout = yout] the one at line 311; otherwise the call
    returns, the assertion on the identity of the lists never fails, and
    the parameters, the position and the captured sets are as before. *)
Theorem MergeAndShrink_fails_on_equal_endpoints_only
    (added : bitset) (xin yin xout yout : HexPoint) (s : VCBuilder) :
  (xin = yin →
     MergeAndShrink added xin yin xout yout s = inl (AssertFailure 310))
  ∧ (xin ≠ yin → xout = yout →
     MergeAndShrink added xin yin xout yout s = inl (AssertFailure 311))
  ∧ (xin ≠ yin → xout ≠ yout →
     ∃ s', MergeAndShrink added xin yin xout yout s = inr (tt, s')
           ∧ m_param s' = m_param s ∧ m_color s' = m_color s
           ∧ m_groups s' = m_groups s ∧ m_brd s' = m_brd s
           ∧ m_capturedSet s' = m_capturedSet s).
Proof.
  split_and!.
  - intros ->. unfold MergeAndShrink.
    by rewrite (bool_decide_eq_false_2 (yin ≠ yin)), assert_false_run by (by intros ?).
  - intros Hin ->. unfold MergeAndShrink.
    rewrite (bool_decide_eq_true_2 (xin ≠ yin)), assert_true_run by done.
    by rewrite (bool_decide_eq_false_2 (yout ≠ yout)), assert_false_run
      by (by intros ?).
  - intros Hin Hout.
    destruct (MergeAndShrink_runs added xin yin xout yout s Hin Hout) as [s' Hrun].
    exists s'. split; [exact Hrun |].
    by destruct (respects_inr _ _ _ _ _ _ (frame_MergeAndShrink added xin yin xout yout)
                   Hrun).
Qed.

#[local] Hint Resolve frame_MergeAndShrink : frame.

Lemma frame_RemoveAllContaining oldGroups bs :
  respects frame below_Build (RemoveAllContaining oldGroups bs).
Proof. unfold RemoveAllContaining. frame_auto. Qed.

#[local] Hint Resolve frame_RemoveAllContaining : frame.

Lemma frame_Merge oldGroups added :
  respects frame below_Build (Merge BITSETSIZE oldGroups added).
Proof. unfold Merge, MergeAndShrink_all. frame_auto. Qed.

Lemma MergeAndShrink_all_runs affected added s :
  ∃ s', MergeAndShrink_all affected added s = inr (tt, s').
Proof.
  unfold MergeAndShrink_all. rewrite (bind_run _ _ _ s s eq_refl). cbv zeta.
  apply for_each_runs. intros x s1 _.
  destruct (_ && _); [by exists s1 |].
  apply for_each_runs. intros y s2 Hy%cells_until_ne.
  destruct (_ && _); [by exists s2 |].
  case_bool_decide as Hc; cbn [when]; [| by exists s2].
  by apply MergeAndShrink_runs.
Qed.

(** X23: [Merge] always returns.  From the loop of
    [MergeAndShrink(affected, added)] the three assertions at the head
    of [MergeAndShrink] cannot fail: the inner iteration stops before the
    cell of the outer one, and a pair with one captain is skipped.  The
    parameters, the position and the captured sets are as before. *)
Theorem Merge_always_returns
    (oldGroups : Groups) (added : HexColor → bitset) (s : VCBuilder) :
  ∃ s', Merge BITSETSIZE oldGroups added s = inr (tt, s')
        ∧ m_param s' = m_param s ∧ m_color s' = m_color s
        ∧ m_groups s' = m_groups s ∧ m_brd s' = m_brd s
        ∧ m_capturedSet s' = m_capturedSet s.
Proof.
  assert (∃ s', Merge BITSETSIZE oldGroups added s = inr (tt, s')) as [s' Hrun].
  { unfold Merge. rewrite (bind_run _ _ _ s s eq_refl).
    destruct (respects_never_inr _ _ s
                (RemoveAllContaining_never oldGroups
                   (added (other_color (m_color s)))))
      as ([] & s1 & H1 & _).
    rewrite (bind_run _ _ _ _ _ H1). apply MergeAndShrink_all_runs. }
  exists s'. split; [exact Hrun |].
  by destruct (respects_inr _ _ _ _ _ _ (frame_Merge oldGroups added) Hrun).
Qed.
End Merge.


(** ** The base connections *)

(** The list holds a connection with an empty carrier. *)
Definition has_empty_carrier (l : VCList.t) : Prop :=
  ∃ v, v ∈ VCList.entries l ∧ Carrier v = ∅.

Lemma Add_empty_carrier vc log l :
  Carrier vc = ∅ →
  has_empty_carrier (VCList.Add vc log l).1.2
  ∧ (has_empty_carrier l → (VCList.Add vc log l).1.2 = l).
Proof.
  intros Hc. unfold VCList.Add.
  destruct (VCList.IsSupersetOfAny l (Carrier vc)) eqn:Hsup; cbn.
  - split; [| done]. unfold VCList.IsSupersetOfAny in Hsup.
    apply bool_decide_eq_true in Hsup. apply list.Exists_exists in Hsup as (w & Hw & Hsub).
    exists w. split; [done |]. rewrite Hc in Hsub. set_solver.
  - pose proof (insert_sorted_elem vc
                  (VCList.non_supersets_of (Carrier vc) (VCList.entries l))) as Hin.
    destruct (VCList.insert_sorted vc _) as [i es]. cbn in *. split.
    + by exists vc.
    + intros (w & Hw & Hwc). exfalso.
      unfold VCList.IsSupersetOfAny in Hsup. apply bool_decide_eq_false in Hsup.
      apply Hsup, list.Exists_exists. exists w. split; [done |]. rewrite Hwc. set_solver.
Qed.

(** The lists of Fulls that hold a connection with an empty carrier in [s]
    hold one in [s']. *)
Definition base_kept (s s' : VCBuilder) : Prop :=
  ∀ x y, has_empty_carrier (VCSet.GetList FULL x y (m_con s)) →
         has_empty_carrier (VCSet.GetList FULL x y (m_con s')).

#[global] Instance base_kept_preorder : PreOrder base_kept.
Proof.
  split.
  - by intros s x y.
  - intros s1 s2 s3 H12 H23 x y H. by apply H23, H12.
Qed.

Lemma base_kept_same_con s s' : m_con s' = m_con s → base_kept s s'.
Proof. intros Heq x y. by rewrite Heq. Qed.

Section BaseVCs.
Variable BITSETSIZE : nat.

Lemma AddBaseVCs_never : respects any_state never (AddBaseVCs BITSETSIZE).
Proof.
  unfold AddBaseVCs, con_Add.
  repeat first [ respects_step ltac:(done)
               | by apply respects_modify
               | apply never_on_list | apply never_PushFull ].
Qed.

Lemma wp_add_base x y s :
  wp (let vc := VC_adjacent x y in
      stat_incr C_base_attempts ;;
      r ← con_Add vc;
      when (added_ok r) (stat_incr C_base_successes ;; PushFull vc))
     (λ _ s', base_kept s s'
              ∧ has_empty_carrier (VCSet.GetList FULL x y (m_con s'))) s.
Proof.
  cbv zeta. apply wp_bind.
  apply (wp_mono _ (λ _ s1, m_con s1 = m_con s)).
  { by apply (wp_stat_add_con _ _ (λ c, c = m_con s)). }
  intros [] s1 H1. apply wp_bind. unfold con_Add. apply wp_on_list.
  set (s2 := set_m_log _ _).
  destruct (Add_empty_carrier (VC_adjacent x y) (m_log s1)
              (VCSet.GetList FULL (x `min` y) (x `max` y) (m_con s1)) eq_refl)
    as [Hhas Hsame].
  assert (VCSet.key FULL (x `min` y) (x `max` y) = VCSet.key FULL x y) as Hkey.
  { unfold VCSet.key. f_equal. f_equal; lia. }
  assert (base_kept s1 s2 ∧ has_empty_carrier (VCSet.GetList FULL x y (m_con s2)))
    as [H12 H2].
  { unfold s2. cbn [GetType X Y VC_adjacent]. split.
    - intros x' y' H. rewrite m_con_on_list.
      destruct (decide (VCSet.key FULL (x `min` y) (x `max` y) = VCSet.key FULL x' y'))
        as [Hk | Hk].
      + rewrite <- (GetList_key _ _ _ _ _ _ _ Hk), GetList_SetList.
        rewrite <- (GetList_key _ _ _ _ _ _ _ Hk) in H. by rewrite Hsame.
      + by rewrite GetList_SetList_ne.
    - by rewrite m_con_on_list, <- (GetList_key _ _ _ _ _ _ _ Hkey), GetList_SetList. }
  apply (wp_mono _ (λ _ s3, m_con s3 = m_con s2)).
  { apply wp_when; [intros _ | done]. apply wp_bind.
    apply (wp_mono _ (λ _ s3, m_con s3 = m_con s2)).
    { by apply (wp_stat_add_con _ _ (λ c, c = m_con s2)). }
    intros [] s3 H3. eapply wp_mono; [apply (wp_respects _ _ _ _ (same_con_PushFull _)) |].
    intros [] s4 [H4 _]. cbn beta in H4. congruence. }
  intros [] s3 H3. split.
  - etrans; [apply base_kept_same_con, H1 |]. etrans; [exact H12 |].
    by apply base_kept_same_con.
  - by rewrite H3.
Qed.

(** X24: after [AddBaseVCs] every group of the builder's colour or empty
    is connected to each of its empty neighbours.  The call returns, and
    for every group of the iteration and every empty cell among its
    neighbours the list of Fulls between the captain of the group and the
    cell holds a connection with an empty carrier. *)
Theorem AddBaseVCs_connects_every_empty_neighbour (s : VCBuilder) :
  ∃ s', AddBaseVCs BITSETSIZE s = inr (tt, s')
    ∧ ∀ g y,
        g ∈ GroupIterator (m_groups s) (ColorOrEmpty (m_color s)) →
        y ∈ Nbs g → y ∈ GetEmpty (m_brd s) → y < BITSETSIZE →
        ∃ v, v ∈ VCList.entries (VCSet.GetList FULL (Captain g) y (m_con s'))
             ∧ Carrier v = ∅.
Proof.
  destruct (respects_never_inr _ _ s AddBaseVCs_never) as ([] & s' & Hrun & _).
  exists s'. split; [exact Hrun |].
  set (cells := λ g : Group, Bitset.bits BITSETSIZE (Nbs g ∩ GetEmpty (m_brd s))).
  pose (I := λ (done : list Group) (s1 : VCBuilder),
          ∀ g y, g ∈ done → y ∈ cells g →
            has_empty_carrier (VCSet.GetList FULL (Captain g) y (m_con s1))).
  assert (wp (AddBaseVCs BITSETSIZE)
             (λ _, I (GroupIterator (m_groups s) (ColorOrEmpty (m_color s)))) s)
    as Hwp.
  { unfold AddBaseVCs. wp_step. wp_step. cbv zeta.
    apply (wp_for_each_prefix I _ _ [] s).
    { intros g y Hg. by apply elem_of_nil in Hg. }
    intros done x s1 Hs1.
    pose (K := λ (ys : list HexPoint) (s2 : VCBuilder),
            base_kept s1 s2
            ∧ ∀ y, y ∈ ys →
                has_empty_carrier (VCSet.GetList FULL (Captain x) y (m_con s2))).
    apply (wp_mono _ (λ _, K ([] ++ cells x))).
    2: { intros [] s2 [H12 Hx] g y [Hg | ->%list_elem_of_singleton]%elem_of_app Hy.
         - by apply H12, Hs1.
         - by apply Hx. }
    apply (wp_for_each_prefix K _ _ [] s1).
    { split; [reflexivity |]. intros y Hy. by apply elem_of_nil in Hy. }
    intros ys y s2 [H12 Hys].
    eapply wp_mono; [apply (wp_add_base (Captain x) y) |].
    intros [] s3 [H23 Hy]. split; [by etrans |].
    intros y' [Hy' | ->%list_elem_of_singleton]%elem_of_app; [| done].
    by apply H23, Hys. }
  intros g y Hg HyN HyE HyB.
  apply (wp_inr _ _ _ _ _ Hwp Hrun g y Hg).
  apply elem_of_bits. split; [set_solver | done].
Qed.
End BaseVCs.

Lemma AddBaseVCs_connects_witness :
  ∃ s', AddBaseVCs Tiny.B (Tiny.fresh default_param) = inr (tt, s')
    ∧ ∃ v, v ∈ VCList.entries (VCSet.GetList FULL 0 1 (m_con s')) ∧ Carrier v = ∅.
Proof.
  destruct (AddBaseVCs_connects_every_empty_neighbour Tiny.B (Tiny.fresh default_param))
    as (s' & Hrun & H).
  exists s'. split; [exact Hrun |].
  apply (H (mkGroup 0 BLACK {[ 1 ]}) 1).
  - apply list_elem_of_here.
  - cbn. set_solver.
  - by_evaluation.
  - unfold Tiny.B. lia.
Defined.


(** ** The upgrades of [MergeAndShrink] *)

(** The list of kind [ty] between [x] and [y] holds a connection whose
    carrier is inside [C]: a connection with the carrier [C] is in the list
    or would be refused by it. *)
Definition inside (ty : VCType) (C : bitset) (x y : HexPoint) (s : VCBuilder) : Prop :=
  ∃ w, w ∈ VCList.entries (VCSet.GetList ty x y (m_con s)) ∧ Carrier w ⊆ C.

(** Every carrier that had a Full inside it still has one. *)
Definition fulls_stay_inside (s s' : VCBuilder) : Prop :=
  ∀ C x y, inside FULL C x y s → inside FULL C x y s'.

#[global] Instance fulls_stay_inside_preorder : PreOrder fulls_stay_inside.
Proof.
  split.
  - by intros s C x y.
  - intros s1 s2 s3 H12 H23 C x y H. by apply H23, H12.
Qed.


Lemma insert_sorted_perm v es : (VCList.insert_sorted v es).2 ≡ₚ v :: es.
Proof.
  induction es as [| u es IH]; cbn; [done |].
  case_decide; [| done].
  destruct (VCList.insert_sorted v es) as [i r]. cbn in *.
  rewrite IH. apply Permutation_swap.
Qed.

Lemma insert_sorted_keeps v es w : w ∈ es → w ∈ (VCList.insert_sorted v es).2.
Proof. intros Hw. rewrite insert_sorted_perm. by apply list_elem_of_further. Qed.

(** The entries of a list after [Add] are inside the entries before. *)
Lemma Add_keeps_inside vc log l w :
  w ∈ VCList.entries l →
  ∃ w', w' ∈ VCList.entries (VCList.Add vc log l).1.2 ∧ Carrier w' ⊆ Carrier w.
Proof.
  intros Hw. unfold VCList.Add.
  destruct (VCList.IsSupersetOfAny l (Carrier vc)); [by exists w |].
  pose proof (insert_sorted_elem vc
                (VCList.non_supersets_of (Carrier vc) (VCList.entries l))) as Hvc.
  pose proof (insert_sorted_keeps vc
                (VCList.non_supersets_of (Carrier vc) (VCList.entries l)) w) as Hkeep.
  destruct (VCList.insert_sorted vc _) as [i es]. cbn in *.
  destruct (decide (Carrier vc ⊆ Carrier w)) as [Hsub | Hsub].
  - by exists vc.
  - exists w. split; [| done]. apply Hkeep.
    unfold VCList.non_supersets_of. by apply list_elem_of_filter.
Qed.



Lemma same_con_stat_add c n : respects same_con never (stat_add c n).
Proof. unfold stat_add. by apply respects_modify. Qed.


(** The counter [upgraded] of the builder. *)
Definition upgraded_of (s : VCBuilder) : nat := upgraded (stats_of s).

(** What a step before the last loop of [MergeAndShrink] keeps: the
    counter [upgraded], and with [semis = true] the lists of Semis. *)
Record before_upgrades (semis : bool) (s s' : VCBuilder) : Prop := mkBeforeUpgrades {
  before_semis : semis = true → ∀ x y,
    VCSet.GetList SEMI x y (m_con s') = VCSet.GetList SEMI x y (m_con s);
  before_statistics : m_statistics s' = m_statistics s;
  before_upgraded : upgraded_of s' = upgraded_of s
}.

#[global] Instance before_upgrades_preorder semis : PreOrder (before_upgrades semis).
Proof.
  split.
  - by intros s.
  - intros s1 s2 s3 [H1 ? ?] [H2 ? ?]. split; [| congruence..].
    intros Hs x y. by rewrite H2, H1.
Qed.














(** ** The AND rule in [AndClosure] *)

(** A connection with the carrier [C] between [x] and [y] is in the set or
    redundant: a Full or a Semi between the two cells has its carrier
    inside [C]. *)
Definition covered (C : bitset) (x y : HexPoint) (s : VCBuilder) : Prop :=
  inside FULL C x y s ∨ inside SEMI C x y s.

(** What the steps of a round of [AndClosure] towards the endpoint [to]
    keep: the carriers with a Full inside, the carriers covered, and the
    lists of Fulls that do not end at [to]. *)
Record and_kept (to : HexPoint) (s s' : VCBuilder) : Prop := mkAndKept {
  and_fulls : ∀ C x y, inside FULL C x y s → inside FULL C x y s';
  and_covered : ∀ C x y, covered C x y s → covered C x y s';
  and_off : ∀ x y, x ≠ to → y ≠ to →
    VCSet.GetList FULL x y (m_con s') = VCSet.GetList FULL x y (m_con s)
}.

#[global] Instance and_kept_preorder to : PreOrder (and_kept to).
Proof.
  split.
  - by intros s.
  - intros s1 s2 s3 [F1 C1 O1] [F2 C2 O2]. split.
    + intros C x y H. by apply F2, F1.
    + intros C x y H. by apply C2, C1.
    + intros x y Hx Hy. by rewrite O2, O1.
Qed.

Lemma respects_of_wp {A} (R : relation VCBuilder) (m : M A) :
  (∀ s, wp m (λ _ s', R s s') s) → respects R any_error m.
Proof.
  intros H s. specialize (H s). unfold wp in H. by destruct (m s) as [e | [a s']].
Qed.

Lemma and_kept_same_con {A} to (m : M A) :
  respects same_con never m → respects (and_kept to) any_error m.
Proof.
  apply respects_weaken; [| done]. intros s s' [Hcon _ _ _].
  split; intros *; unfold covered, inside; by rewrite Hcon.
Qed.

Lemma inside_on_list_ne {A} ty x y (op : ChangeLog → VCList.t → A * VCList.t * ChangeLog)
    ty' C x' y' s :
  VCSet.key ty x y ≠ VCSet.key ty' x' y' →
  inside ty' C x' y'
    (set_m_log (op (m_log s) (VCSet.GetList ty x y (m_con s))).2
       (set_m_con (VCSet.SetList ty x y
                     (op (m_log s) (VCSet.GetList ty x y (m_con s))).1.2 (m_con s)) s))
  ↔ inside ty' C x' y' s.
Proof.
  intros Hk. unfold inside. by rewrite m_con_on_list, GetList_SetList_ne.
Qed.

(** A list operation after which every old entry has an entry inside it
    keeps the carriers with an entry of the list inside. *)
Lemma inside_on_list_keeps {A} ty x y
    (op : ChangeLog → VCList.t → A * VCList.t * ChangeLog) ty' C x' y' s :
  (∀ log l w, w ∈ VCList.entries l →
     ∃ w', w' ∈ VCList.entries (op log l).1.2 ∧ Carrier w' ⊆ Carrier w) →
  inside ty' C x' y' s →
  inside ty' C x' y'
    (set_m_log (op (m_log s) (VCSet.GetList ty x y (m_con s))).2
       (set_m_con (VCSet.SetList ty x y
                     (op (m_log s) (VCSet.GetList ty x y (m_con s))).1.2 (m_con s)) s)).
Proof.
  intros Hop (w & Hw & HC).
  destruct (decide (VCSet.key ty x y = VCSet.key ty' x' y')) as [Hk | Hk].
  - unfold inside. rewrite m_con_on_list.
    rewrite <- (GetList_key ty x y ty' x' y' _ Hk) in Hw.
    rewrite <- (GetList_key ty x y ty' x' y' _ Hk), GetList_SetList.
    destruct (Hop (m_log s) _ w Hw) as (w' & Hw' & Hsub).
    exists w'. split; [done | set_solver].
  - apply inside_on_list_ne; [done |]. by exists w.
Qed.

Lemma and_kept_semi_Add to x y vc :
  respects (and_kept to) any_error (on_list SEMI x y (λ log l, VCList.Add vc log l)).
Proof.
  intros s. rewrite on_list_run.
  assert (∀ ty C x' y', inside ty C x' y' s →
            inside ty C x' y'
              (set_m_log (VCList.Add vc (m_log s) (VCSet.GetList SEMI x y (m_con s))).2
                 (set_m_con (VCSet.SetList SEMI x y
                    (VCList.Add vc (m_log s) (VCSet.GetList SEMI x y (m_con s))).1.2
                    (m_con s)) s))) as Hin.
  { intros ty C x' y'.
    apply (inside_on_list_keeps SEMI x y (λ log l, VCList.Add vc log l)).
    intros log l w. apply Add_keeps_inside. }
  split.
  - intros C x' y'. apply Hin.
  - intros C x' y' [H | H]; [left | right]; by apply Hin.
  - intros x' y' _ _. rewrite m_con_on_list. by apply GetList_SetList_ne.
Qed.

Lemma key_ends_at to ty x y ty' x' y' :
  to = x' ∨ to = y' → x ≠ to → y ≠ to →
  VCSet.key ty' x' y' ≠ VCSet.key ty x y.
Proof. unfold VCSet.key. intros Hto Hx Hy [= _ Hmin Hmax]. lia. Qed.


Lemma Add_accepted vc log l :
  added_ok (VCList.Add vc log l).1.1 = true → vc ∈ VCList.entries (VCList.Add vc log l).1.2.
Proof.
  unfold VCList.Add. destruct (VCList.IsSupersetOfAny l (Carrier vc)); [done |].
  pose proof (insert_sorted_elem vc
                (VCList.non_supersets_of (Carrier vc) (VCList.entries l))) as Hvc.
  destruct (VCList.insert_sorted vc _) as [i es]. by cbn in *.
Qed.

Section AndKept.
Variable BITSETSIZE : nat.
Variable to : HexPoint.

Lemma and_kept_AddNewFull vc :
  to = X vc ∨ to = Y vc → respects (and_kept to) any_error (AddNewFull vc).
Proof.
  intros Hto. apply respects_of_wp. intros s. unfold AddNewFull, con_Add.
  wp_step. wp_step. apply bool_decide_eq_true in H as Hty. rewrite Hty.
  wp_step. apply wp_on_list.
  set (add := VCList.Add vc (m_log s) (VCSet.GetList FULL (X vc) (Y vc) (m_con s))).
  set (s1 := set_m_log _ _).
  assert (∀ C x y, inside FULL C x y s → inside FULL C x y s1) as HF1.
  { intros C x y. apply (inside_on_list_keeps FULL (X vc) (Y vc)
                           (λ log l, VCList.Add vc log l)).
    intros log l w. apply Add_keeps_inside. }
  assert (∀ C x y, inside SEMI C x y s1 ↔ inside SEMI C x y s) as HS1.
  { intros C x y. by apply (inside_on_list_ne FULL (X vc) (Y vc)
                              (λ log l, VCList.Add vc log l)). }
  assert (∀ x y, x ≠ to → y ≠ to →
            VCSet.GetList FULL x y (m_con s1) = VCSet.GetList FULL x y (m_con s))
    as HO1.
  { intros x y Hx Hy. unfold s1. rewrite m_con_on_list.
    apply GetList_SetList_ne. by apply (key_ends_at to). }
  destruct (added_ok add.1.1) eqn:Hok.
  - apply Add_accepted in Hok.
    wp_step. apply wp_on_list.
    set (s2 := set_m_log _ _).
    assert (∀ x y, VCSet.GetList FULL x y (m_con s2) = VCSet.GetList FULL x y (m_con s1))
      as HF2.
    { intros x y. unfold s2. rewrite m_con_on_list. by apply GetList_SetList_ne. }
    assert (VCSet.GetList FULL (X vc) (Y vc) (m_con s1) = add.1.2) as Hl1.
    { unfold s1. by rewrite m_con_on_list, GetList_SetList. }
    assert (and_kept to s s2) as H02.
    { split.
      - intros C x y HC. unfold inside. rewrite HF2. by apply HF1.
      - intros C x y [HC | (w & Hw & HC)].
        { left. unfold inside. rewrite HF2. by apply HF1. }
        destruct (decide (VCSet.key SEMI (X vc) (Y vc) = VCSet.key SEMI x y))
          as [Hk | Hk].
        + destruct (decide (Carrier vc ⊆ Carrier w)) as [Hsub | Hsub].
          * left. unfold inside in *.
            assert (VCSet.key FULL (X vc) (Y vc) = VCSet.key FULL x y) as Hk'
              by (unfold VCSet.key in *; congruence).
            rewrite HF2, <- (GetList_key _ _ _ _ _ _ _ Hk'), Hl1.
            exists vc. split; [done | set_solver].
          * right. unfold inside, s2. rewrite m_con_on_list.
            rewrite <- (GetList_key _ _ _ _ _ _ _ Hk), GetList_SetList.
            cbn. exists w. split; [| done].
            apply list_elem_of_filter. split; [done |].
            assert (w ∈ VCList.entries (VCSet.GetList SEMI (X vc) (Y vc) (m_con s1)))
              as Hw1.
            { unfold s1. rewrite m_con_on_list, GetList_SetList_ne by done.
              by rewrite (GetList_key _ _ _ _ _ _ _ Hk). }
            exact Hw1.
        + right. unfold inside, s2. rewrite m_con_on_list, GetList_SetList_ne by done.
          unfold s1. rewrite m_con_on_list, GetList_SetList_ne by done.
          by exists w.
      - intros x y Hx Hy. rewrite HF2. by apply HO1. }
    wp_step. eapply wp_mono; [apply (wp_respects _ _ _ _ (same_con_PushFull vc)) |].
    intros [] s3 [Hcon _ _ _]. cbv beta. apply wp_ret.
    etrans; [exact H02 |]. split; intros *; unfold covered, inside; by rewrite Hcon.
  - apply wp_ret. split.
    + apply HF1.
    + intros C x y [HC | HC]; [left; by apply HF1 | right; by apply HS1].
    + apply HO1.
Qed.

Lemma and_kept_AddNewSemi vc : respects (and_kept to) any_error (AddNewSemi vc).
Proof.
  unfold AddNewSemi.
  repeat first
    [ respects_step ltac:(exact I)
    | apply and_kept_semi_Add
    | apply and_kept_same_con; by apply respects_modify ].
Qed.
End AndKept.

Lemma wp_impl {A} (P : Prop) (m : M A) (Q : A → VCBuilder → Prop) s :
  (P → wp m Q s) → wp m (λ a s', P → Q a s') s.
Proof. unfold wp. destruct (m s) as [e | [a s']]; auto. Qed.








Lemma key_min_max ty x y : VCSet.key ty (x `min` y) (x `max` y) = VCSet.key ty x y.
Proof. unfold VCSet.key. do 2 f_equal; lia. Qed.

Section AndRuleApplied.
Variable BITSETSIZE : nat.
Variable isEdge : HexPoint → bool.

Lemma and_kept_try_and_full to vc :
  to = X vc ∨ to = Y vc → respects (and_kept to) any_error (try_and_full vc).
Proof.
  intros Hto. unfold try_and_full.
  repeat first
    [ respects_step ltac:(exact I)
    | by apply and_kept_AddNewFull
    | apply and_kept_same_con; apply same_con_stat_add ].
Qed.

Lemma and_kept_try_and_semi to vc : respects (and_kept to) any_error (try_and_semi vc).
Proof.
  unfold try_and_semi.
  repeat first
    [ respects_step ltac:(exact I)
    | apply and_kept_AddNewSemi
    | apply and_kept_same_con; apply same_con_stat_add ].
Qed.

Lemma and_kept_singleton_fallback to line cells mk :
  respects (and_kept to) any_error (singleton_fallback BITSETSIZE line cells mk).
Proof.
  unfold singleton_fallback.
  repeat first [ respects_step ltac:(exact I) | apply and_kept_try_and_semi ].
Qed.

Lemma and_kept_DoAnd_entry from over to rule vc cap i :
  respects (and_kept to) any_error (DoAnd_entry BITSETSIZE from over to rule vc cap i).
Proof.
  unfold DoAnd_entry.
  repeat first
    [ respects_step ltac:(exact I)
    | apply and_kept_try_and_semi
    | apply and_kept_singleton_fallback
    | apply and_kept_try_and_full; cbn; lia ].
Qed.

Lemma and_kept_DoAnd from over to rule vc cap old :
  respects (and_kept to) any_error (DoAnd BITSETSIZE from over to rule vc cap old).
Proof.
  unfold DoAnd.
  repeat first [ respects_step ltac:(exact I) | apply and_kept_DoAnd_entry ].
Qed.

Lemma and_kept_AndClosure_end vc e0 e1 cap over to overc :
  respects (and_kept to) any_error
    (AndClosure_end BITSETSIZE isEdge vc e0 e1 cap over to overc).
Proof.
  unfold AndClosure_end, AndClosure_nbr.
  repeat first [ respects_step ltac:(exact I) | apply and_kept_DoAnd ].
Qed.







End AndRuleApplied.



(** ** The Fulls the search has still to process *)

(** The Fulls between the front and the back of the queue. *)
Definition fulls_pending (q : FullVCQueue.t) : list VC :=
  drop (FullVCQueue.m_head q) (FullVCQueue.m_array q).

(** Every list of the set has the endpoints it is stored under. *)
Definition ends_ok (c : VCSet.t) : Prop :=
  ∀ ty x y, VCList.GetX (VCSet.GetList ty x y c) = x `min` y
            ∧ VCList.GetY (VCSet.GetList ty x y c) = x `max` y.

(** The state of the builder between two steps of the search: every Full
    that is not processed waits in the queue of Fulls, or is one of the
    Fulls [W] that the step in progress holds and has still to push or to
    mark.  A Full of the set is found by its endpoints and carrier: it is
    in the list between its endpoints, and no list holds two Fulls with
    the same carrier.  The front of the queue is not behind its back. *)
Record fulls_tracked (W : list VC) (s : VCBuilder) : Prop := mkTracked {
  tr_ends : ends_ok (m_con s);
  tr_head : FullVCQueue.m_head (m_fulls_queue s)
            ≤ length (FullVCQueue.m_array (m_fulls_queue s));
  tr_own : ∀ x y v, v ∈ VCList.entries (VCSet.GetList FULL x y (m_con s)) →
    VCSet.key FULL (X v) (Y v) = VCSet.key FULL x y;
  tr_nodup : ∀ x y, NoDup (Carrier <$> VCList.entries (VCSet.GetList FULL x y (m_con s)));
  tr_queued : ∀ x y v, v ∈ VCList.entries (VCSet.GetList FULL x y (m_con s)) →
    Processed v = false →
    ∃ w, w ∈ fulls_pending (m_fulls_queue s) ++ W ∧ VC_same v w = true
}.

Lemma tracked_weaken W W' s :
  (∀ w, w ∈ W → w ∈ W') → fulls_tracked W s → fulls_tracked W' s.
Proof.
  intros Hsub [? ? ? ? Hq]. split; try done.
  intros x y v Hv Hp. destruct (Hq x y v Hv Hp) as (w & Hw & Hsame).
  exists w. split; [| done]. set_solver.
Qed.

(** What a step that does not touch the Fulls keeps. *)
Record fulls_same (s s' : VCBuilder) : Prop := mkFullsSame {
  fs_lists : ∀ x y, VCSet.GetList FULL x y (m_con s') = VCSet.GetList FULL x y (m_con s);
  fs_ends : ends_ok (m_con s) → ends_ok (m_con s');
  fs_queue : m_fulls_queue s' = m_fulls_queue s
}.

#[global] Instance fulls_same_preorder : PreOrder fulls_same.
Proof.
  split.
  - by intros s.
  - intros s1 s2 s3 [L1 E1 Q1] [L2 E2 Q2]. split.
    + intros x y. by rewrite L2, L1.
    + intros H. by apply E2, E1.
    + congruence.
Qed.

Lemma tracked_fulls_same W s s' :
  fulls_same s s' → fulls_tracked W s → fulls_tracked W s'.
Proof.
  intros [HL HE HQ] [He Hh Ho Hn Hq]. split.
  - by apply HE.
  - by rewrite HQ.
  - intros x y v. rewrite HL. apply Ho.
  - intros x y. rewrite HL. apply Hn.
  - intros x y v. rewrite HL, HQ. apply Hq.
Qed.

(** The steps under which [fulls_tracked W] is kept. *)
Definition tracks (W : list VC) (s s' : VCBuilder) : Prop :=
  fulls_tracked W s → fulls_tracked W s'.

#[global] Instance tracks_preorder W : PreOrder (tracks W).
Proof.
  split.
  - intros s H. exact H.
  - intros s1 s2 s3 H12 H23 H. by apply H23, H12.
Qed.

Lemma tracks_of_fulls_same {A} W (m : M A) :
  respects fulls_same any_error m → respects (tracks W) any_error m.
Proof.
  apply respects_weaken; [| done]. intros s s' H Ht. by apply (tracked_fulls_same W s).
Qed.

(** *** The list operations *)

Lemma ends_ok_SetList ty x y l c :
  VCList.GetX l = VCList.GetX (VCSet.GetList ty x y c) →
  VCList.GetY l = VCList.GetY (VCSet.GetList ty x y c) →
  ends_ok c → ends_ok (VCSet.SetList ty x y l c).
Proof.
  intros HX HY Hc ty' x' y'.
  destruct (decide (VCSet.key ty x y = VCSet.key ty' x' y')) as [Hk | Hk].
  - rewrite <- (GetList_key _ _ _ _ _ _ _ Hk), GetList_SetList, HX, HY.
    rewrite (GetList_key _ _ _ _ _ _ _ Hk). apply Hc.
  - rewrite GetList_SetList_ne by done. apply Hc.
Qed.

Lemma fulls_same_on_list {A} x y (op : ChangeLog → VCList.t → A * VCList.t * ChangeLog) :
  (∀ log l, VCList.GetX (op log l).1.2 = VCList.GetX l
            ∧ VCList.GetY (op log l).1.2 = VCList.GetY l) →
  respects fulls_same any_error (on_list SEMI x y op).
Proof.
  intros Hop s. rewrite on_list_run. split.
  - intros x' y'. rewrite m_con_on_list. by apply GetList_SetList_ne.
  - rewrite m_con_on_list. apply ends_ok_SetList; apply Hop.
  - by destruct s.
Qed.

Lemma fulls_same_modify f :
  (∀ s, m_con (f s) = m_con s ∧ m_fulls_queue (f s) = m_fulls_queue s) →
  respects fulls_same any_error (modify f).
Proof.
  intros Hf s. cbn. destruct (Hf s) as [Hc Hq]. split; [| | done].
  - intros x y. by rewrite Hc.
  - by rewrite Hc.
Qed.

Lemma fulls_same_stat_add c n : respects fulls_same any_error (stat_add c n).
Proof. apply fulls_same_modify. intros s. by destruct s. Qed.

Lemma fulls_same_log_Push a v : respects fulls_same any_error (log_Push a v).
Proof. apply fulls_same_modify. intros s. by destruct s. Qed.

Lemma VC_same_true a b :
  VC_same a b = true ↔ X a = X b ∧ Y a = Y b ∧ Carrier a = Carrier b.
Proof. unfold VC_same. apply bool_decide_eq_true. Qed.

Lemma VC_same_refl a : VC_same a a = true.
Proof. by apply VC_same_true. Qed.

(** The entries of a list with distinct carriers after [Add]. *)
Lemma Add_NoDup vc log l :
  NoDup (Carrier <$> VCList.entries l) →
  NoDup (Carrier <$> VCList.entries (VCList.Add vc log l).1.2).
Proof.
  intros Hnd. unfold VCList.Add.
  destruct (VCList.IsSupersetOfAny l (Carrier vc)); [done |].
  pose proof (insert_sorted_perm vc
                (VCList.non_supersets_of (Carrier vc) (VCList.entries l))) as Hperm.
  destruct (VCList.insert_sorted vc _) as [i es]. cbn in *.
  rewrite Hperm, fmap_cons. apply list.NoDup_cons. split.
  - intros (w & Hc & Hw)%list_elem_of_fmap.
    apply non_supersets_of_elem in Hw. apply Hw. by rewrite Hc.
  - unfold VCList.non_supersets_of.
    eapply sublist_NoDup; [exact Hnd | apply fmap_sublist, sublist_filter].

Qed.

(** A list of Fulls after the [Add] of [v], in a state where [v] is held. *)
Lemma tracked_Add W x y v s :
  VCSet.key FULL (X v) (Y v) = VCSet.key FULL x y →
  fulls_tracked W s →
  fulls_tracked (W ++ [v])
    (set_m_log (VCList.Add v (m_log s) (VCSet.GetList FULL x y (m_con s))).2
       (set_m_con (VCSet.SetList FULL x y
                     (VCList.Add v (m_log s) (VCSet.GetList FULL x y (m_con s))).1.2
                     (m_con s)) s)).
Proof.
  intros Hkey [He Hh Ho Hn Hq].
  set (add := VCList.Add v (m_log s) (VCSet.GetList FULL x y (m_con s))).
  assert (∀ x' y', VCSet.key FULL x y ≠ VCSet.key FULL x' y' →
            VCSet.GetList FULL x' y'
              (m_con (set_m_log add.2
                        (set_m_con (VCSet.SetList FULL x y add.1.2 (m_con s)) s)))
            = VCSet.GetList FULL x' y' (m_con s)) as Hne.
  { intros x' y' Hk. by rewrite m_con_on_list, GetList_SetList_ne. }
  assert (∀ x' y', VCSet.key FULL x y = VCSet.key FULL x' y' →
            VCSet.GetList FULL x' y'
              (m_con (set_m_log add.2
                        (set_m_con (VCSet.SetList FULL x y add.1.2 (m_con s)) s)))
            = add.1.2) as Heq.
  { intros x' y' Hk.
    by rewrite m_con_on_list, <- (GetList_key _ _ _ _ _ _ _ Hk), GetList_SetList. }
  split.
  - rewrite m_con_on_list. apply ends_ok_SetList; [apply Add_GetX.. | done].
  - by destruct s.
  - intros x' y' u.
    destruct (decide (VCSet.key FULL x y = VCSet.key FULL x' y')) as [Hk | Hk].
    + rewrite (Heq _ _ Hk). intros [-> | Hu]%Add_entries; [congruence |].
      rewrite <- Hk. by apply Ho.
    + rewrite (Hne _ _ Hk). apply Ho.
  - intros x' y'.
    destruct (decide (VCSet.key FULL x y = VCSet.key FULL x' y')) as [Hk | Hk].
    + rewrite (Heq _ _ Hk). apply Add_NoDup, Hn.
    + rewrite (Hne _ _ Hk). apply Hn.
  - intros x' y' u Hu Hp.
    assert (m_fulls_queue (set_m_log add.2
              (set_m_con (VCSet.SetList FULL x y add.1.2 (m_con s)) s))
            = m_fulls_queue s) as -> by by destruct s.
    assert (u = v ∨ ∃ x0 y0, u ∈ VCList.entries (VCSet.GetList FULL x0 y0 (m_con s)))
      as [-> | (x0 & y0 & Hu0)].
    { destruct (decide (VCSet.key FULL x y = VCSet.key FULL x' y')) as [Hk | Hk].
      - rewrite (Heq _ _ Hk) in Hu. apply Add_entries in Hu as [-> | Hu]; [by left |].
        right. by exists x, y.
      - rewrite (Hne _ _ Hk) in Hu. right. by exists x', y'. }
    + exists v. split; [set_solver | apply VC_same_refl].
    + destruct (Hq x0 y0 u Hu0 Hp) as (w & Hw & Hsame).
      exists w. split; [set_solver | done].
Qed.

(** The same when the list refuses the Full. *)
Lemma tracked_Add_failed W x y v s :
  added_ok (VCList.Add v (m_log s) (VCSet.GetList FULL x y (m_con s))).1.1 = false →
  fulls_tracked W s →
  fulls_tracked W
    (set_m_log (VCList.Add v (m_log s) (VCSet.GetList FULL x y (m_con s))).2
       (set_m_con (VCSet.SetList FULL x y
                     (VCList.Add v (m_log s) (VCSet.GetList FULL x y (m_con s))).1.2
                     (m_con s)) s)).
Proof.
  intros Hok. apply tracked_fulls_same.
  assert ((VCList.Add v (m_log s) (VCSet.GetList FULL x y (m_con s))).1.2
          = VCSet.GetList FULL x y (m_con s)) as Hl.
  { revert Hok. unfold VCList.Add.
    destruct (VCList.IsSupersetOfAny _ _); [done |].
    destruct (VCList.insert_sorted v _) as [i es]. cbn. by case_decide. }
  rewrite Hl. split.
  - intros x' y'. rewrite m_con_on_list. apply same_lists_SetList_same.
  - rewrite m_con_on_list. by apply ends_ok_SetList.
  - by destruct s.
Qed.

(** *** The queue of Fulls *)

Lemma tracked_PushFull W v s :
  fulls_tracked (W ++ [v]) s → wp (PushFull v) (λ _, fulls_tracked W) s.
Proof.
  intros [He Hh Ho Hn Hq]. destruct (PushFull_run v s) as [nbs Hrun].
  unfold wp. rewrite Hrun.
  assert (m_con (set_m_nbs nbs
                   (set_m_fulls_queue (FullVCQueue.Push v (m_fulls_queue s)) s))
          = m_con s) as Hcon by by destruct s.
  assert (m_fulls_queue (set_m_nbs nbs
                   (set_m_fulls_queue (FullVCQueue.Push v (m_fulls_queue s)) s))
          = FullVCQueue.Push v (m_fulls_queue s)) as Hqu by by destruct s.
  split; rewrite ?Hcon, ?Hqu; try done.
  - cbn. rewrite length_app. lia.
  - intros x y u Hu Hp. destruct (Hq x y u Hu Hp) as (w & Hw & Hsame).
    exists w. split; [| done].
    unfold fulls_pending in *. cbn. rewrite drop_app_le by done. set_solver.
Qed.

Lemma tracked_push_all added :
  ∀ W s, fulls_tracked (W ++ added) s →
    wp (for_each added PushFull) (λ _, fulls_tracked W) s.
Proof.
  induction added as [| v rest IH]; intros W s Hs; cbn [for_each].
  - apply wp_ret. by rewrite app_nil_r in Hs.
  - wp_step. eapply wp_mono.
    + apply (tracked_PushFull (W ++ rest) v).
      eapply tracked_weaken; [| exact Hs]. set_solver.
    + intros [] s1 H1. by apply IH.
Qed.

Lemma tracked_Pop W w s :
  FullVCQueue.Front (m_fulls_queue s) = Some w →
  fulls_tracked W s →
  fulls_tracked (w :: W)
    (set_m_fulls_queue (FullVCQueue.Pop (m_fulls_queue s)) s).
Proof.
  intros Hfront [He Hh Ho Hn Hq]. unfold FullVCQueue.Front in Hfront.
  assert (m_con (set_m_fulls_queue (FullVCQueue.Pop (m_fulls_queue s)) s) = m_con s)
    as Hcon by by destruct s.
  assert (m_fulls_queue (set_m_fulls_queue (FullVCQueue.Pop (m_fulls_queue s)) s)
          = FullVCQueue.Pop (m_fulls_queue s)) as Hqu by by destruct s.
  split; rewrite ?Hcon, ?Hqu; try done.
  - cbn. by apply lookup_lt_Some in Hfront.
  - intros x y u Hu Hp. destruct (Hq x y u Hu Hp) as (w' & Hw & Hsame).
    exists w'. split; [| done].
    unfold fulls_pending in *. cbn.
    rewrite (drop_S _ _ _ Hfront) in Hw. set_solver.
Qed.

(** *** Finding a Full in its list *)

Lemma find_index_None vc es :
  VCList.find_index vc es = None → ∀ u, u ∈ es → VC_same u vc = false.
Proof.
  induction es as [| w es IH]; cbn; [by intros _ u ?%elem_of_nil |].
  destruct (VC_same w vc) eqn:Hw; [done |].
  destruct (VCList.find_index vc es); [done |]. intros _ u [-> | Hu]%elem_of_cons; auto.
Qed.

Lemma find_index_Some vc es cur :
  VCList.find_index vc es = Some cur → ∃ v, es !! cur = Some v ∧ VC_same v vc = true.
Proof.
  revert cur. induction es as [| w es IH]; intros cur; cbn; [done |].
  destruct (VC_same w vc) eqn:Hw.
  - intros [= <-]. by exists w.
  - destruct (VCList.find_index vc es) as [k |]; [| done].
    intros [= <-]. by apply IH.
Qed.

(** In a list with distinct carriers, the entry with the endpoints and the
    carrier of [vc] is at one place. *)
Lemma same_place es i j u v vc :
  NoDup (Carrier <$> es) →
  es !! i = Some u → es !! j = Some v →
  VC_same u vc = true → VC_same v vc = true → i = j.
Proof.
  intros Hnd Hi Hj (_ & _ & Hu)%VC_same_true (_ & _ & Hv)%VC_same_true.
  eapply NoDup_lookup; [exact Hnd | |].
  - by rewrite list_lookup_fmap, Hi.
  - rewrite list_lookup_fmap, Hj. cbn. congruence.
Qed.

(** A held Full that no entry of its list matches, or whose entry is
    processed, is held no longer. *)
Lemma tracked_drop W w s :
  (∀ u, u ∈ VCList.entries (VCSet.GetList FULL (X w) (Y w) (m_con s)) →
        VC_same u w = true → Processed u = true) →
  fulls_tracked (w :: W) s → fulls_tracked W s.
Proof.
  intros Hw [He Hh Ho Hn Hq]. split; try done.
  intros x y u Hu Hp. destruct (Hq x y u Hu Hp) as (w' & Hin & Hsame).
  exists w'. split; [| done].
  apply elem_of_app in Hin as [Hin | [-> | Hin]%elem_of_cons]; [set_solver | | set_solver].
  exfalso. pose proof Hsame as (HX & HY & _)%VC_same_true.
  assert (VCSet.key FULL x y = VCSet.key FULL (X w) (Y w)) as Hk.
  { rewrite <- (Ho x y u Hu). by rewrite HX, HY. }
  rewrite (GetList_key _ _ _ _ _ _ _ Hk) in Hu.
  rewrite (Hw u Hu Hsame) in Hp. done.
Qed.

(** The entry at [cur] of the list between the endpoints of the held Full
    [w] matches it and is marked: [w] is held no longer. *)
Lemma tracked_mark W w cur v' s :
  VCList.entries (VCSet.GetList FULL (X w) (Y w) (m_con s)) !! cur = Some v' →
  VC_same v' w = true →
  fulls_tracked (w :: W) s →
  fulls_tracked W
    (set_m_log (m_log s)
       (set_m_con (VCSet.SetList FULL (X w) (Y w)
                     (VCList.set_processed_at cur true
                        (VCSet.GetList FULL (X w) (Y w) (m_con s)))
                     (m_con s)) s)).
Proof.
  intros Hcur Hsame [He Hh Ho Hn Hq].
  set (l := VCSet.GetList FULL (X w) (Y w) (m_con s)) in *.
  set (s' := set_m_log _ _).
  assert (∀ x y, VCSet.key FULL (X w) (Y w) ≠ VCSet.key FULL x y →
            VCSet.GetList FULL x y (m_con s') = VCSet.GetList FULL x y (m_con s))
    as Hne.
  { intros x y Hk. unfold s'. by rewrite m_con_on_list, GetList_SetList_ne. }
  assert (∀ x y, VCSet.key FULL (X w) (Y w) = VCSet.key FULL x y →
            VCSet.GetList FULL x y (m_con s') = VCList.set_processed_at cur true l
            ∧ VCSet.GetList FULL x y (m_con s) = l) as Heq.
  { intros x y Hk. unfold s', l.
    by rewrite m_con_on_list, <- !(GetList_key _ _ _ _ _ _ _ Hk), GetList_SetList. }
  assert (∀ u, u ∈ VCList.entries (VCList.set_processed_at cur true l) →
            ∃ j u0, VCList.entries l !! j = Some u0
                    ∧ X u = X u0 ∧ Y u = Y u0 ∧ Carrier u = Carrier u0
                    ∧ (j = cur → Processed u = true)
                    ∧ (j ≠ cur → u = u0)) as Halter.
  { intros u [j Hj]%list_elem_of_lookup. cbn in Hj.
    destruct (decide (j = cur)) as [-> | Hjc].
    - rewrite list_lookup_alter_eq, Hcur in Hj. cbn in Hj. injection Hj as <-.
      exists cur, v'. by split_and!.
    - rewrite list_lookup_alter_ne in Hj by done. exists j, u. by split_and!. }
  assert (Carrier <$> VCList.entries (VCList.set_processed_at cur true l)
          = Carrier <$> VCList.entries l) as Hcar.
  { cbn. apply list_eq. intros j. rewrite !list_lookup_fmap.
    destruct (decide (j = cur)) as [-> | Hjc].
    - by rewrite list_lookup_alter_eq, Hcur.
    - by rewrite list_lookup_alter_ne. }
  split.
  - unfold s'. rewrite m_con_on_list. by apply ends_ok_SetList.
  - by destruct s.
  - intros x y u.
    destruct (decide (VCSet.key FULL (X w) (Y w) = VCSet.key FULL x y)) as [Hk | Hk].
    + destruct (Heq x y Hk) as [-> Hl].
      intros (j & u0 & Hj & HX & HY & _)%Halter. rewrite HX, HY.
      apply Ho. rewrite Hl. by eapply list_elem_of_lookup_2.
    + rewrite (Hne x y Hk). apply Ho.
  - intros x y.
    destruct (decide (VCSet.key FULL (X w) (Y w) = VCSet.key FULL x y)) as [Hk | Hk].
    + destruct (Heq x y Hk) as [-> Hl]. rewrite Hcar, <- Hl. apply Hn.
    + rewrite (Hne x y Hk). apply Hn.
  - assert (m_fulls_queue s' = m_fulls_queue s) as -> by by destruct s.
    intros x y u Hu Hp.
    assert (∃ x0 y0 u0, u0 ∈ VCList.entries (VCSet.GetList FULL x0 y0 (m_con s))
               ∧ Processed u0 = false ∧ VC_same u u0 = true
               ∧ ¬ (VC_same u0 w = true)) as (x0 & y0 & u0 & Hu0 & Hp0 & Huu & Hnw).
    { destruct (decide (VCSet.key FULL (X w) (Y w) = VCSet.key FULL x y)) as [Hk | Hk].
      - destruct (Heq x y Hk) as [Hl' Hl]. rewrite Hl' in Hu.
        destruct (Halter u Hu) as (j & u0 & Hj & HX & HY & HC & Hjc & Hjn).
        destruct (decide (j = cur)) as [-> | Hne'].
        { rewrite (Hjc eq_refl) in Hp. done. }
        rewrite (Hjn Hne') in Hp |- *.
        exists (X w), (Y w), u0. split_and!; [by eapply list_elem_of_lookup_2 | done
                                             | apply VC_same_refl |].
        intros Hsw. apply Hne'.
        apply (same_place (VCList.entries l) j cur u0 v' w); try done. apply Hn.
      - rewrite (Hne x y Hk) in Hu. exists x, y, u.
        split_and!; [done | done | apply VC_same_refl |].
        intros (HX & HY & _)%VC_same_true. apply Hk.
        rewrite <- (Ho x y u Hu). by rewrite HX, HY. }
    destruct (Hq x0 y0 u0 Hu0 Hp0) as (w' & Hin & Hsame').
    exists w'. split.
    + apply elem_of_app in Hin as [Hin | [-> | Hin]%elem_of_cons];
        [set_solver | done | set_solver].
    + apply VC_same_true in Huu as (? & ? & ?).
      apply VC_same_true in Hsame' as (? & ? & ?).
      apply VC_same_true. split_and!; congruence.
Qed.

(** *** The steps of the search *)

Lemma wp_tracks {A} W (m : M A) s :
  respects (tracks W) any_error m → fulls_tracked W s →
  wp m (λ _, fulls_tracked W) s.
Proof.
  intros Hm Hs. eapply wp_mono; [apply (wp_respects _ _ _ _ Hm) |].
  intros a s' H. by apply H.
Qed.

Lemma tracks_of_wp {A} W (m : M A) :
  (∀ s, fulls_tracked W s → wp m (λ _, fulls_tracked W) s) →
  respects (tracks W) any_error m.
Proof. intros H. apply respects_of_wp. intros s. apply wp_impl, H. Qed.

Lemma tracks_stat_add W c n : respects (tracks W) any_error (stat_add c n).
Proof. apply tracks_of_fulls_same, fulls_same_stat_add. Qed.

Lemma tracks_stat_incr W c : respects (tracks W) any_error (stat_incr c).
Proof. apply tracks_stat_add. Qed.

Lemma tracks_log_Push W a v : respects (tracks W) any_error (log_Push a v).
Proof. apply tracks_of_fulls_same, fulls_same_log_Push. Qed.

Lemma tracks_semi_on_list {A} W x y
    (op : ChangeLog → VCList.t → A * VCList.t * ChangeLog) :
  (∀ log l, VCList.GetX (op log l).1.2 = VCList.GetX l
            ∧ VCList.GetY (op log l).1.2 = VCList.GetY l) →
  respects (tracks W) any_error (on_list SEMI x y op).
Proof. intros Hop. by apply tracks_of_fulls_same, fulls_same_on_list. Qed.

Lemma tracks_modify W f :
  (∀ s, m_con (f s) = m_con s ∧ m_fulls_queue (f s) = m_fulls_queue s) →
  respects (tracks W) any_error (modify f).
Proof. intros Hf. by apply tracks_of_fulls_same, fulls_same_modify. Qed.

Lemma tracks_arr_set {A} W (arr : list A) i v :
  respects (tracks W) any_error (arr_set arr i v).
Proof. unfold arr_set. repeat respects_step ltac:(exact I). Qed.

Lemma tracks_AddNewFull W vc : respects (tracks W) any_error (AddNewFull vc).
Proof.
  apply tracks_of_wp. intros s Hs. unfold AddNewFull, con_Add.
  wp_step. wp_step. apply bool_decide_eq_true in H as Hty. rewrite Hty.
  wp_step. apply wp_on_list.
  destruct (added_ok _) eqn:Hok.
  - pose proof (tracked_Add W (X vc) (Y vc) vc s eq_refl Hs) as H1.
    wp_step. eapply wp_mono.
    { apply (wp_tracks (W ++ [vc])); [| exact H1].
      apply tracks_semi_on_list. by intros log l. }
    intros [] s2 H2. cbv beta.
    wp_step. eapply wp_mono; [by apply tracked_PushFull |].
    intros [] s3 H3. by apply wp_ret.
  - apply wp_ret. by apply tracked_Add_failed.
Qed.

Create HintDb tracks discriminated.

#[global] Hint Resolve tracks_stat_add tracks_stat_incr tracks_log_Push tracks_arr_set
  tracks_AddNewFull : tracks.

Ltac tracks_step :=
  first
    [ solve [auto with tracks]
    | respects_step ltac:(exact I)
    | apply tracks_semi_on_list; intros ? ?;
      solve [apply Add_GetX | done]
    | apply tracks_modify; intros ?;
      match goal with s : VCBuilder |- _ => by destruct s end ].

Ltac tracks_auto := repeat tracks_step.

Section Tracks.
Variable BITSETSIZE : nat.
Variable isEdge : HexPoint → bool.
Variable W : list VC.

Lemma tracks_AddNewSemi vc : respects (tracks W) any_error (AddNewSemi vc).
Proof. unfold AddNewSemi. tracks_auto. Qed.

#[local] Hint Resolve tracks_AddNewSemi : tracks.

Lemma tracks_try_and_full vc : respects (tracks W) any_error (try_and_full vc).
Proof. unfold try_and_full. tracks_auto. Qed.

Lemma tracks_try_and_semi vc : respects (tracks W) any_error (try_and_semi vc).
Proof. unfold try_and_semi. tracks_auto. Qed.

#[local] Hint Resolve tracks_try_and_full tracks_try_and_semi : tracks.

Lemma tracks_singleton_fallback line cells mk :
  respects (tracks W) any_error (singleton_fallback BITSETSIZE line cells mk).
Proof. unfold singleton_fallback. tracks_auto. Qed.

#[local] Hint Resolve tracks_singleton_fallback : tracks.

Lemma tracks_DoAnd from over to rule vc cap old :
  respects (tracks W) any_error (DoAnd BITSETSIZE from over to rule vc cap old).
Proof. unfold DoAnd, DoAnd_entry. tracks_auto. Qed.

#[local] Hint Resolve tracks_DoAnd : tracks.

Lemma tracks_AndClosure vc :
  respects (tracks W) any_error (AndClosure BITSETSIZE isEdge vc).
Proof. unfold AndClosure, AndClosure_end, AndClosure_nbr. tracks_auto. Qed.

Lemma tracks_mark_semi_processed xc yc idx :
  respects (tracks W) any_error (mark_semi_processed xc yc idx).
Proof. unfold mark_semi_processed. tracks_auto. Qed.
End Tracks.

Section ProcessFulls.
Variable BITSETSIZE : nat.
Variable isEdge : HexPoint → bool.

(** [ProcessFulls] on the Full taken from the queue. *)
Lemma tracked_ProcessFulls W vc s :
  fulls_tracked (vc :: W) s →
  wp (ProcessFulls BITSETSIZE isEdge vc) (λ _, fulls_tracked W) s.
Proof.
  intros Hs. unfold ProcessFulls. wp_step. wp_step.
  destruct (VCList.FindInList vc _) as [cur |] eqn:Hfind.
  2: { apply wp_ret. apply (tracked_drop W vc); [| done].
       intros u Hu Hsame.
       by rewrite (find_index_None _ _ Hfind u Hu) in Hsame. }
  destruct (find_index_Some _ _ _ Hfind) as (v0 & Hcur & Hsame0).
  wp_step. wp_step. intros v Hv. rewrite Hcur in Hv. injection Hv as <-.
  destruct (Processed v0) eqn:Hp0; cbn [negb].
  { apply wp_ret. apply (tracked_drop W vc); [| done].
    intros u [j Hj]%list_elem_of_lookup Hsame.
    assert (j = cur) as ->.
    { apply (same_place (VCList.entries
                            (VCSet.GetList FULL (X vc) (Y vc) (m_con s)))
               j cur u v0 vc); try done.
      apply (tr_nodup _ _ Hs). }
    rewrite Hcur in Hj. by injection Hj as <-. }
  wp_step. eapply wp_mono.
  { apply (wp_tracks (vc :: W)); [apply tracks_AndClosure | exact Hs]. }
  intros [] s1 H1. cbv beta.
  wp_step. wp_step. wp_step. wp_step. intros v' Hv'.
  wp_step. wp_step. wp_step. apply wp_on_list. cbn [fst snd].
  wp_step.
  apply (tracked_fulls_same W
           (set_m_log (m_log s1)
              (set_m_con (VCSet.SetList FULL (X vc) (Y vc)
                            (VCList.set_processed_at cur true
                               (VCSet.GetList FULL (X vc) (Y vc) (m_con s1)))
                            (m_con s1)) s1))).
  - split; intros; by destruct s1.
  - by apply (tracked_mark W vc cur v').
Qed.
End ProcessFulls.

(** *** The OR rules: the Fulls they add are held in [added] *)

Lemma tracked_or_key W xc yc C r s :
  fulls_tracked W s →
  let l := VCSet.GetList FULL xc yc (m_con s) in
  let v := VC_full (VCList.GetX l) (VCList.GetY l) C r in
  VCSet.key FULL (X v) (Y v) = VCSet.key FULL xc yc.
Proof.
  intros Hs l v. destruct (tr_ends _ _ Hs FULL xc yc) as [HX HY].
  unfold v, l. cbn [X Y VC_full]. rewrite HX, HY.
  unfold VCSet.key. do 2 f_equal; lia.
Qed.

Lemma tracked_Add_to W added x y v s :
  VCSet.key FULL (X v) (Y v) = VCSet.key FULL x y →
  fulls_tracked (W ++ added) s →
  wp (on_list FULL x y (λ log l, VCList.Add v log l))
     (λ r s', fulls_tracked (W ++ added ++ [v]) s'
              ∧ (added_ok r = false → fulls_tracked (W ++ added) s')) s.
Proof.
  intros Hk Hs. apply wp_on_list. split.
  - rewrite app_assoc. by apply tracked_Add.
  - intros Hok. by apply tracked_Add_failed.
Qed.

Lemma wp_or_add_tracked W x y v count added s :
  VCSet.key FULL (X v) (Y v) = VCSet.key FULL x y →
  fulls_tracked (W ++ added) s →
  wp (or_add x y v count added) (λ r s', fulls_tracked (W ++ r.2) s') s.
Proof.
  intros Hk Hs. unfold or_add.
  wp_step. eapply wp_mono.
  { apply (wp_tracks (W ++ added)); [apply tracks_stat_incr | exact Hs]. }
  intros [] s1 H1. cbv beta.
  wp_step. eapply wp_mono; [by apply (tracked_Add_to W added) |].
  intros r s2 [Hok Hno]. cbv beta. destruct (added_ok r).
  - wp_step. eapply wp_mono.
    { apply (wp_tracks (W ++ added ++ [v])); [apply tracks_stat_incr | exact Hok]. }
    intros [] s3 H3. by apply wp_ret.
  - apply wp_ret. by apply Hno.
Qed.

Section OrTracked.
Variable BITSETSIZE : nat.
Variable W : list VC.

Lemma OrRule_loop_tracked fuel xc yc N maxOrs cap :
  ∀ index ors ands d count added s,
    fulls_tracked (W ++ added) s →
    wp (OrRule_loop BITSETSIZE fuel xc yc N maxOrs cap index ors ands d count added)
       (λ r s', fulls_tracked (W ++ r.2) s') s.
Proof.
  induction fuel as [| fuel IH]; intros index ors ands d count added s Hs;
    cbn [OrRule_loop]; [apply wp_fail |].
  do 6 wp_step. cbv zeta.
  wp_step. wp_step. intros i0 Hi0.
  wp_step. wp_step. intros and_prev Hand.
  wp_step.
  apply (wp_mono _ (λ i s', s' = s)).
  { case_decide; [| by apply wp_ret]. wp_step. wp_step. intros t _. by apply wp_ret. }
  intros i ? ->.
  case_decide.
  - case_decide; [by apply wp_ret |].
    wp_step. wp_step. intros top _. wp_step. apply wp_arr_set. intros _.
    by apply IH.
  - wp_step. wp_step. intros semi_i _. wp_step. wp_step. intros or_prev Hor.
    wp_step. apply wp_arr_set. intros _. wp_step. apply wp_arr_set. intros Hdl.
    assert (∀ carrier ors' ands',
              wp (or_add xc yc
                    (VC_full (VCList.GetX (VCSet.GetList FULL xc yc (m_con s)))
                             (VCList.GetY (VCSet.GetList FULL xc yc (m_con s)))
                             carrier VC_RULE_OR) count added
                  ≫= λ '(count', added'),
                       arr_set index d (S i)
                       ≫= λ index',
                            OrRule_loop BITSETSIZE fuel xc yc N maxOrs cap index'
                              ors' ands' d count' added')
                 (λ r s', fulls_tracked (W ++ r.2) s') s) as Hadd.
    { intros carrier ors' ands'. wp_step.
      eapply wp_mono.
      { apply (wp_or_add_tracked W); [| exact Hs].
        apply (tracked_or_key (W ++ added) xc yc carrier VC_RULE_OR s Hs). }
      intros [count' added'] s1 H1. cbn [snd] in H1.
      wp_step. apply wp_arr_set. intros _. by apply IH. }
    destruct (Bitset.none _); [apply Hadd |].
    destruct (Bitset.IsSubsetOf _ _); [apply Hadd |].
    case_decide.
    { wp_step. apply wp_arr_set. intros _. by apply IH. }
    case_decide; wp_step; apply wp_arr_set; intros _; by apply IH.
Qed.

Lemma OrRule_tracked fuel vc xc yc added maxOrs s :
  fulls_tracked (W ++ added) s →
  wp (OrRule BITSETSIZE fuel vc xc yc added maxOrs)
     (λ r s', fulls_tracked (W ++ r.2) s') s.
Proof.
  intros Hs. unfold OrRule. wp_step. wp_step.
  destruct (VCList.Empty _); [by apply wp_ret |].
  wp_step. eapply wp_mono.
  { apply (wp_tracks (W ++ added)); [| exact Hs].
    apply tracks_modify. intros s0. by destruct s0. }
  intros [] s1 H1. cbv beta.
  destruct (bool_decide _); [by apply wp_ret |].
  wp_step. eapply wp_mono.
  { apply (wp_tracks (W ++ added)); [| exact H1].
    apply tracks_modify. intros s0. by destruct s0. }
  intros [] s2 H2. cbv beta zeta.
  wp_step. wp_step. wp_step. wp_step. cbv zeta.
  by apply OrRule_loop_tracked.
Qed.
End OrTracked.

(** The combiner adds its Fulls to the list its endpoints name. *)
Definition combiner_ok (c : VCOrCombiner) : Prop :=
  VCSet.key FULL (m_x c) (m_y c) = VCSet.key FULL (full_list c).1 (full_list c).2.

Section EnhancedOrTracked.
Variable BITSETSIZE : nat.
Variable W : list VC.

Lemma tracks_Add_loop W' mem start remaining cap inter uni :
  respects (tracks W') any_error (Add_loop mem start remaining cap inter uni).
Proof.
  revert start inter uni.
  induction remaining as [| r IH]; intros; cbn [Add_loop]; tracks_auto.
Qed.

Lemma Combiner_Add_tracked c mem added start count cap s :
  combiner_ok c →
  fulls_tracked (W ++ added) s →
  wp (Combiner_Add BITSETSIZE c mem added start count cap)
     (λ r s', fulls_tracked (W ++ r.2) s') s.
Proof.
  intros Hc Hs. unfold Combiner_Add.
  wp_step. eapply wp_mono.
  { apply (wp_tracks (W ++ added)); [apply tracks_stat_incr | exact Hs]. }
  intros [] s1 H1. cbv beta.
  wp_step. eapply wp_mono.
  { apply (wp_tracks (W ++ added)); [apply tracks_Add_loop | exact H1]. }
  intros uni s2 H2. cbv beta zeta.
  wp_step. eapply wp_mono.
  { apply (wp_tracks (W ++ added)); [apply tracks_stat_incr | exact H2]. }
  intros [] s3 H3. cbv beta.
  wp_step. eapply wp_mono.
  { apply (tracked_Add_to W added); [| exact H3].
    rewrite <- Hc. cbn [X Y VC_full]. apply key_min_max. }
  intros r s4 [H4 _]. cbv beta.
  wp_step. wp_step.
  wp_step. eapply wp_mono.
  { apply (wp_tracks (W ++ added ++ [VC_full (m_x c) (m_y c) uni VC_RULE_OR]));
      [apply tracks_stat_incr | exact H4]. }
  intros [] s5 H5. by apply wp_ret.
Qed.

Lemma Search_tracked fuel c :
  combiner_ok c →
  (∀ forbidden cX cY ns nsc osc fc mem added s,
      fulls_tracked (W ++ added) s →
      wp (Search BITSETSIZE fuel c forbidden cX cY ns nsc osc fc mem added)
         (λ r s', fulls_tracked (W ++ r.2) s') s)
  ∧ (∀ forbidden cX cY ns nsc osc fc nc ncc mem added s,
      fulls_tracked (W ++ added) s →
      wp (Search_loop BITSETSIZE fuel c forbidden cX cY ns nsc osc fc nc ncc mem added)
         (λ r s', fulls_tracked (W ++ r.2) s') s).
Proof.
  intros Hc. induction fuel as [| fuel [IH1 IH2]]; split; intros;
    cbn [Search Search_loop]; try apply wp_fail.
  - wp_step. wp_step. cbv zeta.
    wp_step. wp_step. intros I_new _.
    wp_step. wp_step. intros I_old _. cbv zeta.
    destruct (negb _); [by apply wp_ret |].
    wp_step.
    apply (wp_mono _ (λ r s1, fulls_tracked (W ++ r.1.1.2) s1)).
    { destruct (decide (fc = 0)); [| by apply wp_ret]. cbv zeta.
      wp_step. eapply wp_mono; [by apply Combiner_Add_tracked |].
      intros [new_t added'] s1 H1. by apply wp_ret. }
    intros [[[mem1 added1] fc1] ncc1] s1 H1. cbn [fst snd] in H1.
    by apply IH2.
  - cbv zeta. wp_step. wp_step. intros [min_size allowed] _.
    destruct (decide (min_size = Some 0)).
    { wp_step. wp_step. intros mem' _. by apply wp_ret. }
    cbv zeta. wp_step. wp_step.
    wp_step. wp_step. intros [c1 mem1] _.
    wp_step. wp_step. intros [c2 mem2] _.
    wp_step. wp_step. intros [c3 mem3] _.
    wp_step. eapply wp_mono; [by apply IH1 |].
    intros [[n4 mem4] added'] s1 H1. cbn [snd] in H1.
    by apply IH2.
Qed.

Lemma DoOr_tracked fuel xc yc added s :
  fulls_tracked (W ++ added) s →
  wp (DoOr BITSETSIZE fuel xc yc added) (λ r s', fulls_tracked (W ++ r.2) s') s.
Proof.
  intros Hs. unfold DoOr. do 4 wp_step. cbv zeta.
  wp_step. wp_step. wp_step. wp_step. wp_step. wp_step. cbv zeta.
  destruct (bool_decide (length _ = 0)); [apply wp_ret; exact Hs |]. cbv zeta.
  wp_step. eapply wp_mono.
  { apply Search_tracked; [| exact Hs].
    unfold combiner_ok. cbn [m_x m_y full_list fst snd].
    destruct (tr_ends _ _ Hs SEMI xc yc) as [-> ->]. apply key_min_max. }
  intros [[n mem] added'] s1 H1. apply wp_ret. exact H1.
Qed.
End EnhancedOrTracked.

(** *** The two loops of the search *)

Section SearchTracked.
Variable BITSETSIZE : nat.
Variable isEdge : HexPoint → bool.
Variable colorEdge1 colorEdge2 : HexColor → HexPoint.

Lemma ProcessSemis_bounded_entry_tracked W fuel xc yc added idx s :
  fulls_tracked (W ++ added) s →
  wp (ProcessSemis_bounded_entry BITSETSIZE fuel xc yc added idx)
     (λ added' s', fulls_tracked (W ++ added') s') s.
Proof.
  intros Hs. unfold ProcessSemis_bounded_entry.
  wp_step. wp_step. wp_step. wp_step. intros cur _.
  destruct (negb _); [| by apply wp_ret].
  wp_step. eapply wp_mono.
  { apply (wp_tracks (W ++ added)); [apply tracks_stat_incr | exact Hs]. }
  intros [] s1 H1. cbv beta.
  wp_step. wp_step.
  wp_step. eapply wp_mono; [by apply OrRule_tracked |].
  intros [count added'] s2 H2. cbn [snd] in H2.
  wp_step. eapply wp_mono.
  { apply (wp_tracks (W ++ added')); [| exact H2]. tracks_auto. }
  intros [] s3 H3. cbv beta.
  wp_step. wp_step. wp_step. wp_step. intros cur' _. wp_step. wp_step.
  wp_step. eapply wp_mono.
  { apply (wp_tracks (W ++ added')); [| exact H3].
    apply tracks_mark_semi_processed. }
  intros [] s4 H4. by apply wp_ret.
Qed.

Lemma ProcessSemis_bounded_loop_tracked W fuel xc yc idxs :
  ∀ added s, fulls_tracked (W ++ added) s →
    wp (ProcessSemis_bounded_loop BITSETSIZE fuel xc yc idxs added)
       (λ added' s', fulls_tracked (W ++ added') s') s.
Proof.
  induction idxs as [| idx rest IH]; intros added s Hs;
    cbn [ProcessSemis_bounded_loop]; [by apply wp_ret |].
  wp_step. eapply wp_mono; [by apply ProcessSemis_bounded_entry_tracked |].
  intros added' s1 H1. by apply IH.
Qed.

Lemma ProcessSemis_all_tracked W xc yc cap added s :
  fulls_tracked (W ++ added) s →
  wp (ProcessSemis_all BITSETSIZE xc yc cap added)
     (λ added' s', fulls_tracked (W ++ added') s') s.
Proof.
  intros Hs. unfold ProcessSemis_all. wp_step. wp_step.
  destruct (VCList.Empty _); [| by apply wp_ret].
  wp_step. wp_step. wp_step. wp_step. cbv zeta.
  wp_step. eapply wp_mono.
  { apply (tracked_Add_to W added); [| exact Hs].
    cbn [X Y VC_full]. apply key_min_max. }
  intros r s1 [H1 _]. by apply wp_ret.
Qed.

Lemma ProcessSemis_tracked W fuel xc yc s :
  fulls_tracked W s →
  wp (ProcessSemis BITSETSIZE fuel xc yc) (λ _, fulls_tracked W) s.
Proof.
  intros Hs. unfold ProcessSemis. wp_step. wp_step. wp_step. wp_step. cbv zeta.
  destruct (Bitset.any _); [by apply wp_ret |].
  wp_step. wp_step. wp_step.
  apply (wp_mono _ (λ added s1, fulls_tracked (W ++ added) s1)).
  2: { intros added s1 H1. by apply tracked_push_all. }
  destruct (decide _).
  - wp_step. eapply wp_mono.
    { apply (wp_tracks W); [apply tracks_stat_incr | exact Hs]. }
    intros [] s1 H1. cbv beta.
    wp_step. eapply wp_mono.
    { apply (DoOr_tracked BITSETSIZE W fuel xc yc []). by rewrite app_nil_r. }
    intros [good added] s2 H2. cbn [snd] in H2.
    wp_step. eapply wp_mono.
    { apply (wp_tracks (W ++ added)); [| exact H2]. tracks_auto. }
    intros [] s3 H3. cbv beta.
    wp_step. wp_step.
    wp_step. eapply wp_mono.
    { apply (wp_tracks (W ++ added)); [| exact H3].
      pose proof (tracks_mark_semi_processed (W ++ added) xc yc).
      tracks_auto. }
    intros [] s4 H4. by apply wp_ret.
  - wp_step. eapply wp_mono.
    { apply (ProcessSemis_bounded_loop_tracked W fuel xc yc _ []).
      by rewrite app_nil_r. }
    intros added s1 H1. by apply ProcessSemis_all_tracked.
Qed.

Lemma DoSearch_iter_tracked or_fuel s :
  fulls_tracked [] s →
  wp (DoSearch_iter BITSETSIZE isEdge colorEdge1 colorEdge2 or_fuel)
     (λ _, fulls_tracked []) s.
Proof.
  intros Hs. unfold DoSearch_iter, winning_connection_found. wp_step. wp_step.
  destruct (FullVCQueue.Empty _).
  - destruct (SemiEndsQueue.Empty _); [by apply wp_ret |].
    wp_step. wp_step. intros pair _. wp_step. wp_step. intros q _.
    wp_step. eapply wp_mono.
    { apply (wp_tracks []); [| exact Hs].
      apply tracks_modify. intros s0. by destruct s0. }
    intros [] s1 H1. cbv beta.
    wp_step. eapply wp_mono; [by apply ProcessSemis_tracked |].
    intros [] s2 H2. cbv beta.
    wp_step. wp_step. wp_step. wp_step. by apply wp_ret.
  - wp_step. wp_step. intros vc Hfront.
    wp_step. wp_step.
    wp_step. eapply wp_mono.
    { apply (tracked_ProcessFulls BITSETSIZE isEdge [] vc).
      by apply tracked_Pop. }
    intros [] s2 H2. cbv beta.
    wp_step. wp_step. wp_step. wp_step. by apply wp_ret.
Qed.

Lemma DoSearch_loop_tracked fuel or_fuel :
  ∀ s, fulls_tracked [] s →
    wp (DoSearch_loop BITSETSIZE isEdge colorEdge1 colorEdge2 fuel or_fuel)
       (λ _, fulls_tracked []) s.
Proof.
  induction fuel as [| fuel IH]; intros s Hs; cbn [DoSearch_loop]; [apply wp_fail |].
  wp_step. eapply wp_mono; [by apply DoSearch_iter_tracked |].
  intros [w |] s1 H1; [by apply wp_ret | by apply IH].
Qed.

(** C2 (amended): the end of the search.  When [DoSearch] returns and
    [abort_on_winning_connection] is false, both queues are empty; and if
    [DoSearch] was entered in a state where every Full of the set that is
    not processed waits in the queue of Fulls (the lists are stored under
    their endpoints, no list of Fulls holds a carrier twice, and the front
    of the queue is not behind its back: the state in which the static
    build starts the search), every Full of every list of the set, within
    the soft limit or not, is processed.  (The Semis are left out: a Semi
    stays unprocessed when [ProcessSemis] returns at its first test, or
    behind the soft limit in the bounded mode.) *)
Theorem C2_search_ends_with_every_full_processed fuel or_fuel s s' :
  abort_on_winning_connection (m_param s) = false →
  DoSearch BITSETSIZE isEdge colorEdge1 colorEdge2 fuel or_fuel s = inr (tt, s') →
  FullVCQueue.Empty (m_fulls_queue s') = true
  ∧ SemiEndsQueue.Empty (m_semis_queue s') = true
  ∧ FullVCQueue.m_head (m_fulls_queue s')
    = length (FullVCQueue.m_array (m_fulls_queue s'))
  ∧ SemiEndsQueue.pending (m_semis_queue s') = []
  ∧ (fulls_tracked [] s →
     ∀ x y v, v ∈ VCList.entries (VCSet.GetList FULL x y (m_con s')) →
       Processed v = true).
Proof.
  intros Habort Hrun.
  destruct (DoSearch_leaves_queues_empty BITSETSIZE isEdge colorEdge1 colorEdge2
              fuel or_fuel s s' Habort Hrun) as (He1 & He2 & Hhead & Hpend).
  split_and!; try done.
  intros Hs.
  assert (wp (DoSearch BITSETSIZE isEdge colorEdge1 colorEdge2 fuel or_fuel)
             (λ _, fulls_tracked []) s) as Hwp.
  { unfold DoSearch. wp_step. eapply wp_mono; [by apply DoSearch_loop_tracked |].
    intros w s1 H1. cbv beta. wp_step. wp_step. wp_step. exact H1. }
  pose proof (wp_inr _ _ _ _ _ Hwp Hrun) as Ht.
  intros x y v Hv. destruct (Processed v) eqn:Hp; [done |].
  destruct (tr_queued _ _ Ht x y v Hv Hp) as (w & Hw & _).
  unfold fulls_pending in Hw. rewrite Hhead, drop_all in Hw.
  by apply elem_of_nil in Hw.
Qed.
End SearchTracked.

(** *** The state in which the static build starts the search *)

Lemma tracked_cleared c q s :
  m_con s = VCSet.Clear c → m_fulls_queue s = FullVCQueue.Clear q →
  fulls_tracked [] s.
Proof.
  intros Hc Hq.
  assert (∀ ty x y, VCSet.GetList ty x y (m_con s)
                    = VCList.mk (x `min` y) (x `max` y) (VCSet.softlimit c) []) as Hl.
  { intros ty x y. rewrite Hc. unfold VCSet.GetList, VCSet.Clear. cbn.
    by rewrite lookup_empty. }
  split.
  - intros ty x y. by rewrite Hl.
  - rewrite Hq. cbn. lia.
  - intros x y v. rewrite Hl. cbn. by intros ?%elem_of_nil.
  - intros x y. rewrite Hl. cbn. constructor.
  - intros x y v. rewrite Hl. cbn. by intros ?%elem_of_nil.
Qed.

(** A Full offered to the set and pushed on the queue when it is added. *)
Lemma tracks_add_and_push W c vc :
  GetType vc = FULL →
  respects (tracks W) any_error
    (r ← con_Add vc; when (added_ok r) (stat_incr c ;; PushFull vc)).
Proof.
  intros Hty. apply tracks_of_wp. intros s Hs. unfold con_Add. rewrite Hty.
  wp_step. apply wp_on_list. destruct (added_ok _) eqn:Hok; cbn [when].
  - pose proof (tracked_Add W (X vc) (Y vc) vc s eq_refl Hs) as H1.
    wp_step. eapply wp_mono.
    { apply (wp_tracks (W ++ [vc])); [apply tracks_stat_incr | exact H1]. }
    intros [] s2 H2. by apply tracked_PushFull.
  - apply wp_ret. by apply tracked_Add_failed.
Qed.

Section Seeding.
Variable BITSETSIZE : nat.
Variable isEdge : HexPoint → bool.
Variable GetPatterns : nat → nat → HexColor → list VCPattern.
Variable W : list VC.

Lemma tracks_ComputeCapturedSets patterns :
  respects (tracks W) any_error (ComputeCapturedSets patterns).
Proof. unfold ComputeCapturedSets, ComputeCapturedSets_cell. tracks_auto. Qed.

Lemma tracks_AddBaseVCs : respects (tracks W) any_error (AddBaseVCs BITSETSIZE).
Proof.
  unfold AddBaseVCs.
  repeat first [ by apply tracks_add_and_push | tracks_step ].
Qed.

Lemma tracks_AddPatternVCs :
  respects (tracks W) any_error (AddPatternVCs isEdge GetPatterns).
Proof.
  unfold AddPatternVCs.
  repeat first [ by apply tracks_add_and_push | tracks_step ].
Qed.
End Seeding.

Section StaticBuildTracked.
Variable BITSETSIZE : nat.
Variable isEdge : HexPoint → bool.
Variable colorEdge1 colorEdge2 : HexColor → HexPoint.
Variable GetPatterns : nat → nat → HexColor → list VCPattern.

(** The static build enters the search in such a state, with its own
    parameters. *)
Lemma Build_enters_search_tracked fuel or_fuel con groups patterns s s' :
  Build BITSETSIZE isEdge colorEdge1 colorEdge2 GetPatterns
        fuel or_fuel con groups patterns s = inr (tt, s') →
  ∃ s0, fulls_tracked [] s0 ∧ m_param s0 = m_param s
        ∧ DoSearch BITSETSIZE isEdge colorEdge1 colorEdge2 fuel or_fuel s0
          = inr (tt, s').
Proof.
  unfold Build.
  intros ([] & s0 & [= <-] & Hrun)%bind_inr.
  apply bind_inr in Hrun as ([] & s1 & H1 & Hrun).
  apply bind_inr in Hrun as ([] & s2 & H2 & Hrun).
  apply bind_inr in Hrun as (p & ? & [= <- <-] & Hrun).
  apply bind_inr in Hrun as ([] & s3 & H3 & Hrun).
  exists s3. split_and!; [| | exact Hrun].
  - assert (respects (tracks []) any_error
              (when (use_patterns (m_param s2))
                    (AddPatternVCs isEdge GetPatterns))) as Hpat.
    { apply respects_when; [apply _ |]. apply tracks_AddPatternVCs. }
    apply (respects_inr _ _ _ _ _ _ Hpat H3).
    apply (respects_inr _ _ _ _ _ _ (tracks_AddBaseVCs BITSETSIZE []) H2).
    apply (respects_inr _ _ _ _ _ _ (tracks_ComputeCapturedSets [] patterns) H1).
    apply (tracked_cleared con (m_fulls_queue s)); by destruct s.
  - assert (respects build_kept any_error
              (when (use_patterns (m_param s2))
                    (AddPatternVCs isEdge GetPatterns))) as Hpat.
    { apply respects_when; [apply _ |]. apply build_AddPatternVCs. }
    rewrite (build_m_param _ _ (respects_inr _ _ _ _ _ _ Hpat H3)).
    rewrite (build_m_param _ _ (respects_inr _ _ _ _ _ _
                                  (build_AddBaseVCs BITSETSIZE) H2)).
    rewrite (build_m_param _ _ (respects_inr _ _ _ _ _ _
                                  (build_ComputeCapturedSets patterns) H1)).
    by destruct s.
Qed.
End StaticBuildTracked.

(** The search of the three-cell position, from the state in which the
    static build starts it: the two queues are empty at the end and the
    two Fulls are processed. *)
Lemma C2_witness :
  abort_on_winning_connection (m_param Tiny.seeded) = false
  ∧ DoSearch Tiny.B Tiny.isEdge Tiny.colorEdge1 Tiny.colorEdge2 100 100 Tiny.seeded
    = inr (tt, Tiny.searched)
  ∧ FullVCQueue.Empty (m_fulls_queue Tiny.searched) = true
  ∧ SemiEndsQueue.Empty (m_semis_queue Tiny.searched) = true
  ∧ FullVCQueue.m_head (m_fulls_queue Tiny.searched)
    = length (FullVCQueue.m_array (m_fulls_queue Tiny.searched))
  ∧ SemiEndsQueue.pending (m_semis_queue Tiny.searched) = []
  ∧ Processed (SetProcessed (VC_adjacent 0 1) true) = true.
Proof.
  assert (abort_on_winning_connection (m_param Tiny.seeded) = false) as H1
    by (vm_compute; reflexivity).
  assert (DoSearch Tiny.B Tiny.isEdge Tiny.colorEdge1 Tiny.colorEdge2 100 100 Tiny.seeded
          = inr (tt, Tiny.searched)) as H2 by (vm_compute; reflexivity).
  assert (fulls_tracked [] Tiny.seeded) as H3.
  { assert ((ComputeCapturedSets Tiny.no_patterns ;; AddBaseVCs Tiny.B)
              (set_m_con (VCSet.Clear Tiny.con) (Tiny.fresh default_param))
            = inr (tt, Tiny.seeded)) as Hseed by (vm_compute; reflexivity).
    refine (wp_inr _ (λ _, fulls_tracked []) _ _ _ _ Hseed).
    apply (wp_tracks []).
    - apply respects_bind; [apply _ | apply tracks_ComputeCapturedSets |].
      intros _. apply tracks_AddBaseVCs.
    - by apply (tracked_cleared Tiny.con (FullVCQueue.mk 0 [])). }
  split; [exact H1 |]. split; [exact H2 |].
  destruct (C2_search_ends_with_every_full_processed
              Tiny.B Tiny.isEdge Tiny.colorEdge1 Tiny.colorEdge2 100 100
              Tiny.seeded Tiny.searched H1 H2) as (E1 & E2 & E3 & E4 & E5).
  split_and!; [exact E1 | exact E2 | exact E3 | exact E4 |].
  apply (E5 H3 0 1). apply list_elem_of_In. vm_compute. left. reflexivity.
Defined.

(** C2 as stated fails, in two ways.  The search of the small position
    returns, with [abort_on_winning_connection] false, and leaves the Semi
    between 0 and 2 (carrier and key 1) unprocessed: [ProcessSemis (0, 2)]
    returned at its first test, the hard intersection of the list being the
    cell 1.  And a search entered with both queues empty and a Full that
    is not processed returns at once and leaves the Full as it is. *)
Lemma C2_counterexample :
  (abort_on_winning_connection (m_param Tiny.seeded) = false
   ∧ DoSearch Tiny.B Tiny.isEdge Tiny.colorEdge1 Tiny.colorEdge2 100 100 Tiny.seeded
     = inr (tt, Tiny.searched)
   ∧ ¬ all_processed (m_con Tiny.searched))
  ∧ (let s := Tiny.with_lists default_param (λ _, ∅) [Tiny.full {[ 1 ]}] [] in
     abort_on_winning_connection (m_param s) = false
     ∧ DoSearch Tiny.B Tiny.isEdge Tiny.colorEdge1 Tiny.colorEdge2 100 100 s
       = inr (tt, s)
     ∧ ¬ all_processed (m_con s)).
Proof.
  split.
  - split; [vm_compute; reflexivity |]. split; [vm_compute; reflexivity |].
    intros Hall.
    assert (VC_semi 0 2 1 {[ 1 ]} VC_RULE_AND
            ∈ VCList.entries (VCSet.GetList SEMI 0 2 (m_con Tiny.searched))) as Hin.
    { apply list_elem_of_In. vm_compute. left. reflexivity. }
    discriminate (Hall _ _ _ _ Hin).
  - cbv zeta. split; [vm_compute; reflexivity |]. split; [vm_compute; reflexivity |].
    intros Hall.
    assert (Tiny.full {[ 1 ]}
            ∈ VCList.entries
                (VCSet.GetList FULL 0 7
                   (m_con (Tiny.with_lists default_param (λ _, ∅)
                             [Tiny.full {[ 1 ]}] [])))) as Hin.
    { apply list_elem_of_In. vm_compute. left. reflexivity. }
    discriminate (Hall _ _ _ _ Hin).
Qed.
